(** * Statement-level semantic analysis (lib/Sema/SemaStmt.cpp)

    A shallow embedding of the parts of [SemaStmt.cpp] that decide the
    behaviour of switch statements, case and default labels, [break],
    range-based [for], [_Cilk_spawn] placement and the [_Cilk_for] loop
    count, followed by the theorems that relate the embedding to the
    natural-language specification.

    Layout: Part I holds every definition (one module per component of
    the analyzer), Part II the lemmas and theorems. *)

From Stdlib Require Import ZArith List Bool Lia String DecimalString.
From Stdlib Require Import Permutation Sorted Arith.
Import ListNotations.
Local Open Scope Z_scope.
Set Warnings "-register-all".


(* ===================================================================== *)
(** * Part I. Definitions                                                 *)
(* ===================================================================== *)

(** ** llvm::APSInt

    Modelled from the spec: [llvm::APSInt] is the arbitrary-precision,
    width- and sign-tagged integer of the value model (an external
    dependency of [SemaStmt.cpp]).  A value is its bit pattern, read as
    a number in [0, 2^BitWidth), together with the signedness flag. *)
Module APSInt.

Record t : Type := mk { BitWidth : N; bits : Z; IsUnsigned : bool }.

Definition modulus (w : N) : Z := 2 ^ Z.of_N w.

Definition isSigned (x : t) : bool := negb (IsUnsigned x).

(** The bit pattern as an unsigned number; bits above the width do not
    count. *)
Definition getZExtValue (x : t) : Z := bits x mod modulus (BitWidth x).

(** Two's complement reading of the bit pattern. *)
Definition getSExtValue (x : t) : Z :=
  if 2 * getZExtValue x <? modulus (BitWidth x) then getZExtValue x
  else getZExtValue x - modulus (BitWidth x).

(** The integer a value denotes under its own signedness. *)
Definition value (x : t) : Z :=
  if IsUnsigned x then getZExtValue x else getSExtValue x.

(** [APInt(numBits, val)] followed by the choice of a sign. *)
Definition make (w : N) (v : Z) (isUnsigned : bool) : t :=
  mk w (v mod modulus w) isUnsigned.

Definition setIsSigned (x : t) (s : bool) : t :=
  mk (BitWidth x) (bits x) (negb s).

Definition trunc (x : t) (w : N) : t :=
  mk w (getZExtValue x mod modulus w) (IsUnsigned x).

(** [APSInt::extend]: [IsUnsigned ? zext(width) : sext(width)]. *)
Definition extend (x : t) (w : N) : t :=
  mk w (value x mod modulus w) (IsUnsigned x).

(** [operator<], [operator==] and friends.  The library asserts that both
    operands have the same signedness and width; the comparison is done
    under the signedness of the left operand. *)
Definition lt (a b : t) : bool :=
  if IsUnsigned a then getZExtValue a <? getZExtValue b
  else getSExtValue a <? getSExtValue b.

Definition gt (a b : t) : bool :=
  if IsUnsigned a then getZExtValue b <? getZExtValue a
  else getSExtValue b <? getSExtValue a.

Definition le (a b : t) : bool :=
  if IsUnsigned a then getZExtValue a <=? getZExtValue b
  else getSExtValue a <=? getSExtValue b.

Definition ge (a b : t) : bool :=
  if IsUnsigned a then getZExtValue b <=? getZExtValue a
  else getSExtValue b <=? getSExtValue a.

Definition eq (a b : t) : bool := getZExtValue a =? getZExtValue b.

Definition ne (a b : t) : bool := negb (eq a b).

(** Unary minus keeps width and signedness. *)
Definition neg (x : t) : t :=
  mk (BitWidth x) ((- getZExtValue x) mod modulus (BitWidth x)) (IsUnsigned x).

(** [operator!]. *)
Definition isZero (x : t) : bool := getZExtValue x =? 0.

(** [APInt::isNegative]: the top bit is set. *)
Definition isNegative (x : t) : bool := getSExtValue x <? 0.

(** [APInt::isStrictlyPositive]: [isNonNegative() && !!*this]. *)
Definition isStrictlyPositive (x : t) : bool :=
  negb (isNegative x) && negb (isZero x).

(** A value of the integer type of width [w], unsigned when [u]. *)
Definition hasType (w : N) (u : bool) (x : t) : Prop :=
  BitWidth x = w /\ IsUnsigned x = u.

Definition Z_to_string (z : Z) : string := NilZero.string_of_int (Z.to_int z).

(** [toString(10)] prints the value under its own signedness. *)
Definition toString (x : t) : string := Z_to_string (value x).

(** [APInt::toString(10, Signed)]. *)
Definition toStringSigned (x : t) (signed : bool) : string :=
  Z_to_string (if signed then getSExtValue x else getZExtValue x).

End APSInt.

(** ** Source locations and diagnostics *)

(** [SourceLocation::getRawEncoding()]. *)
Definition SourceLocation : Type := Z.

Inductive DiagID : Type :=
| err_case_not_in_switch
| err_default_not_in_switch
| err_multiple_default_labels_defined
| note_duplicate_case_prev
| warn_bool_switch_condition
| warn_case_value_overflow
| err_duplicate_case
| err_duplicate_case_differing_expr
| warn_case_empty_range
| warn_missing_case_for_condition
| warn_not_in_enum
| warn_unreachable_default
| warn_def_missing_case1
| warn_missing_case1
| warn_def_missing_case2
| warn_missing_case2
| warn_def_missing_case3
| warn_missing_case3
| warn_def_missing_cases
| warn_missing_cases
| err_cilk_for_cannot_break
| err_break_not_in_loop_or_switch
| err_spawn_not_whole_expr
| err_cannot_spawn_builtin
| err_cannot_spawn_function
| err_cannot_init_static_variable
| err_for_range_member_begin_end_mismatch
| err_cilk_for_increment_zero
| err_cilk_for_increment_inconsistent
| note_cilk_constant_stride
| err_cilk_for_invalid_increment_rhs
| err_cilk_for_invalid_increment
| err_cilk_for_increment_not_control_var
| err_cilk_for_invalid_cond_operator
| err_cilk_for_cond_test_control_var
| note_cilk_for_cond_allowed
| err_cilk_for_difference_ill_formed
| err_non_integral_cilk_for_difference_type
| note_cilk_for_begin_expr
| note_cilk_for_end_expr
| warn_cilk_for_cond_user_defined_conv
| err_cilk_for_invalid_cond_expr
| diag_external.

Scheme Equality for DiagID.

Inductive DiagLevel : Type := Error | Warning | Note.

(** Modelled from the spec: the severity table of the diagnostics engine
    (DiagnosticSemaKinds.td) is not part of [SemaStmt.cpp].  Following the
    naming of the identifiers, [err_] is fatal to the statement, [warn_]
    is advisory and [note_] is attached to the diagnostic before it. *)
Definition getDiagnosticLevel (d : DiagID) : DiagLevel :=
  match d with
  | err_case_not_in_switch | err_default_not_in_switch
  | err_multiple_default_labels_defined | err_duplicate_case
  | err_duplicate_case_differing_expr | err_cilk_for_cannot_break
  | err_break_not_in_loop_or_switch | err_spawn_not_whole_expr
  | err_cannot_spawn_builtin | err_cannot_spawn_function
  | err_cannot_init_static_variable
  | err_for_range_member_begin_end_mismatch
  | err_cilk_for_increment_zero | err_cilk_for_increment_inconsistent
  | err_cilk_for_invalid_increment_rhs | err_cilk_for_invalid_increment
  | err_cilk_for_increment_not_control_var
  | err_cilk_for_invalid_cond_operator | err_cilk_for_cond_test_control_var
  | err_cilk_for_difference_ill_formed
  | err_non_integral_cilk_for_difference_type
  | err_cilk_for_invalid_cond_expr => Error
  | note_duplicate_case_prev | note_cilk_constant_stride
  | note_cilk_for_cond_allowed | note_cilk_for_begin_expr
  | note_cilk_for_end_expr => Note
  | _ => Warning
  end.

(** Arguments streamed into a diagnostic with [<<]. *)
Inductive DiagArg : Type :=
| ArgString (s : string)
| ArgUnsigned (n : Z)
| ArgBool (b : bool)
| ArgSourceRange (b e : SourceLocation)
| ArgLocation (l : SourceLocation)
| ArgSelect (n : nat)
| ArgNamedDecl (D : nat).

Record Diagnostic : Type := mkDiag
  { DLoc : SourceLocation; DID : DiagID; DArgs : list DiagArg }.

Definition Diag (l : SourceLocation) (d : DiagID) : Diagnostic := mkDiag l d [].

(** [D << a]. *)
Definition addArg (d : Diagnostic) (a : DiagArg) : Diagnostic :=
  mkDiag (DLoc d) (DID d) (DArgs d ++ [a]).

Notation "d <<< a" := (addArg d a) (at level 61, left associativity).

Definition isID (i : DiagID) (d : Diagnostic) : bool := DiagID_beq (DID d) i.

Definition isErrorDiag (d : Diagnostic) : bool :=
  match getDiagnosticLevel (DID d) with Error => true | _ => false end.

(** ** The statement tree seen by the spawn checker

    [DiagnoseCilkSpawn] dispatches on [Stmt::getStmtClass()] and walks
    the children of a node; the tree below keeps, for every statement
    class the function names, the children it reads.  Every other class
    is [OtherStmt] with its children in traversal order.  Expressions are
    statements, as in the source. *)
Module AST.

Inductive StorageClass : Type :=
| SC_None | SC_Extern | SC_Static | SC_PrivateExtern | SC_Auto | SC_Register.

Inductive BinaryOperatorKind : Type :=
| BO_Assign | BO_Comma | BO_Add | BO_Sub | BO_Mul | BO_OtherBinary.

Inductive OverloadedOperatorKind : Type :=
| OO_Equal | OO_Plus | OO_Call | OO_OtherOverloaded.

(** The dynamic class of a call node.  All of them derive from
    [CallExpr]; the plain class is [CallExprClass]. *)
Inductive CallClass : Type :=
| CallExprClass
| CXXMemberCallExprClass
| CXXOperatorCallExprClass (Operator : OverloadedOperatorKind)
| UserDefinedLiteralClass
| CUDAKernelCallExprClass.

Record CallInfo : Type := mkCall
  { isCilkSpawnCall : bool;
    CilkSpawnLoc : SourceLocation;
    isBuiltinCall : bool;
    CallRangeBegin : SourceLocation;
    CallRangeEnd : SourceLocation }.

Inductive Stmt : Type :=
| CompoundStmt (Body : list Stmt)
| CXXCatchStmt (HandlerBlock : Stmt)
| CXXForRangeStmt (RangeInit : Stmt) (Body : Stmt)
| CXXBindTemporaryExpr (SubExpr : Stmt)
| ExprWithCleanups (SubExpr : Stmt)
| CXXTryStmt (TryBlock : Stmt) (Handlers : list Stmt)
| DeclStmt (Decls : list (bool * StorageClass * SourceLocation
                          * (SourceLocation * SourceLocation) * option Stmt))
| BinaryOperator (Opcode : BinaryOperatorKind) (LHS RHS : Stmt)
| DoStmt (Body : Stmt) (Cond : Stmt)
| ForStmt (Init Cond Inc : option Stmt) (Body : Stmt)
| IfStmt (Cond : Stmt) (Then : Stmt) (Else : option Stmt)
| LabelStmt (SubStmt : Stmt)
| CaseStmt (SubStmt : Stmt)
| DefaultStmt (SubStmt : Stmt)
| WhileStmt (Cond : Stmt) (Body : Stmt)
| CallExpr (cls : CallClass) (info : CallInfo) (Callee : Stmt) (Args : list Stmt)
| ImplicitCastExpr (SubExpr : Stmt)
| MaterializeTemporaryExpr (Temporary : Stmt)
| CXXConstructExpr (isTemporaryObject : bool) (Args : list Stmt)
| OtherStmt (children : list Stmt).

(** One declaration of a [DeclStmt]: whether it is a [VarDecl], its
    storage class, its location, its source range (begin and end) and
    its initializer. *)
Definition Decl : Type :=
  (bool * StorageClass * SourceLocation * (SourceLocation * SourceLocation)
   * option Stmt)%type.

Definition isVarDecl (d : Decl) : bool := fst (fst (fst (fst d))).
Definition getStorageClass (d : Decl) : StorageClass := snd (fst (fst (fst d))).
Definition getLocation (d : Decl) : SourceLocation := snd (fst (fst d)).
Definition getSourceRange (d : Decl) : SourceLocation * SourceLocation :=
  snd (fst d).
Definition getInit (d : Decl) : option Stmt := snd d.

Definition VarDecl (sc : StorageClass) (loc : SourceLocation)
  (range : SourceLocation * SourceLocation) (init : option Stmt) : Decl :=
  (true, sc, loc, range, init).

Definition opt_list {A : Type} (o : option A) : list A :=
  match o with Some a => [a] | None => [] end.

End AST.

(** ** _Cilk_spawn placement ([DiagnoseCilkSpawnHelper], [DiagnoseCilkSpawn]) *)
Module Spawn.
Import AST.

(** [DiagnoseCilkSpawnHelper::VisitCallExpr]. *)
Definition VisitCallExpr (c : CallInfo) : list Diagnostic :=
  if isCilkSpawnCall c
  then [Diag (CilkSpawnLoc c) err_spawn_not_whole_expr
          <<< ArgSourceRange (CallRangeBegin c) (CallRangeEnd c)]
  else [].

(** [DiagnoseCilkSpawnHelper::TraverseStmt]: the recursive visitor calls
    [VisitCallExpr] on every call node below [s], parents before
    children, and does not enter a [CompoundStmt]
    ([TraverseCompoundStmt] returns at once).  The result is the list of
    diagnostics issued; [HasError] is set when it is not empty. *)
Fixpoint TraverseStmt (s : Stmt) : list Diagnostic :=
  let opt (o : option Stmt) :=
    match o with Some x => TraverseStmt x | None => [] end in
  match s with
  | CompoundStmt _ => []
  | CXXCatchStmt h => TraverseStmt h
  | CXXForRangeStmt r b => TraverseStmt r ++ TraverseStmt b
  | CXXBindTemporaryExpr e => TraverseStmt e
  | ExprWithCleanups e => TraverseStmt e
  | CXXTryStmt t hs => TraverseStmt t ++ flat_map TraverseStmt hs
  | DeclStmt ds => flat_map (fun d => opt (snd d)) ds
  | BinaryOperator _ l r => TraverseStmt l ++ TraverseStmt r
  | DoStmt b c => TraverseStmt b ++ TraverseStmt c
  | ForStmt i c n b => opt i ++ opt c ++ opt n ++ TraverseStmt b
  | IfStmt c t e => TraverseStmt c ++ TraverseStmt t ++ opt e
  | LabelStmt b => TraverseStmt b
  | CaseStmt b => TraverseStmt b
  | DefaultStmt b => TraverseStmt b
  | WhileStmt c b => TraverseStmt c ++ TraverseStmt b
  | CallExpr _ info callee args =>
      VisitCallExpr info ++ TraverseStmt callee ++ flat_map TraverseStmt args
  | ImplicitCastExpr e => TraverseStmt e
  | MaterializeTemporaryExpr e => TraverseStmt e
  | CXXConstructExpr _ args => flat_map TraverseStmt args
  | OtherStmt cs => flat_map TraverseStmt cs
  end.

(** The [while (true)] loop that peels casts, cleanups, temporaries and
    constructor calls off the right-hand side.  [getSubExprAsWritten] is
    read as the operand of the implicit cast. *)
Fixpoint stripRHS (RHS : Stmt) : Stmt :=
  match RHS with
  | ImplicitCastExpr e => stripRHS e
  | ExprWithCleanups e => stripRHS e
  | MaterializeTemporaryExpr e => stripRHS e
  | CXXBindTemporaryExpr e => stripRHS e
  | CXXConstructExpr isTemp args =>
      if isTemp then RHS
      else match args with
           | a :: _ => stripRHS a
           | [] => RHS
           end
  | _ => RHS
  end.

(** [HasError] after a traversal: set as soon as one diagnostic was
    issued by the helper. *)
Definition issued (d : list Diagnostic) : bool :=
  match d with [] => false | _ :: _ => true end.

(** What a run of the checker gives: [HasError] and the diagnostics in
    the order they are issued, or [None] when the run reaches
    [llvm_unreachable]. *)
Definition Checked : Type := option (bool * list Diagnostic).

(** The [switch] on the storage class of the initialized variable:
    nothing for [SC_None], [SC_Auto] and [SC_Register], an error for
    [SC_Static], and [llvm_unreachable] for every other class. *)
Definition checkStorageClass (LHS : option Decl) : Checked :=
  match LHS with
  | Some vd =>
      match getStorageClass vd with
      | SC_None | SC_Auto | SC_Register => Some (false, [])
      | SC_Static =>
          Some (true, [Diag (getLocation vd) err_cannot_init_static_variable
                         <<< ArgSourceRange (fst (getSourceRange vd))
                                            (snd (getSourceRange vd))])
      | SC_Extern | SC_PrivateExtern => None
      end
  | None => Some (false, [])
  end.

(** The tail of [DiagnoseCilkSpawn], from [if (!RHS) return;] on: the
    storage class of the initialized variable, then the right-hand side.
    Returns the new [HasError] and the diagnostics. *)
Definition checkRHS (LHS : option Decl) (RHS : Stmt) : Checked :=
  match checkStorageClass LHS with
  | None => None
  | Some (e1, d1) =>
      Some
        match stripRHS RHS with
        | CallExpr cls E _ args =>
            if isCilkSpawnCall E then
              let d2 := if isBuiltinCall E
                        then [Diag (CilkSpawnLoc E) err_cannot_spawn_builtin
                                <<< ArgSourceRange (CallRangeBegin E) (CallRangeEnd E)]
                        else [] in
              let d3 := match cls with
                        | UserDefinedLiteralClass | CUDAKernelCallExprClass =>
                            [Diag (CilkSpawnLoc E) err_cannot_spawn_function
                               <<< ArgSourceRange (CallRangeBegin E) (CallRangeEnd E)]
                        | _ => []
                        end in
              let d4 := flat_map TraverseStmt args in
              (e1 || issued d4, d1 ++ d2 ++ d3 ++ d4)
            else
              let d4 := TraverseStmt (stripRHS RHS) in
              (e1 || issued d4, d1 ++ d4)
        | r =>
            let d4 := TraverseStmt r in
            (e1 || issued d4, d1 ++ d4)
        end
  end.

Definition traversed (d : list Diagnostic) : Checked :=
  Some (issued d, d).

(** One part of the function after another: the flags are joined and the
    diagnostics follow each other; there is no result when one of the
    parts reaches [llvm_unreachable]. *)
Definition both (a b : Checked) : Checked :=
  match a, b with
  | Some a', Some b' => Some (fst a' || fst b', snd a' ++ snd b')
  | _, _ => None
  end.

(** [Sema::DiagnoseCilkSpawn(S, HasError)], started with
    [HasError = false]: the final [HasError] and the diagnostics in the
    order they are issued. *)
Fixpoint DiagnoseCilkSpawn (S : Stmt) : Checked :=
  match S with
  | CompoundStmt _ => Some (false, [])
  | CXXCatchStmt h => DiagnoseCilkSpawn h
  | CXXForRangeStmt r b => both (traversed (TraverseStmt r)) (DiagnoseCilkSpawn b)
  | CXXBindTemporaryExpr e => DiagnoseCilkSpawn e
  | ExprWithCleanups e => DiagnoseCilkSpawn e
  | CXXTryStmt t _ => DiagnoseCilkSpawn t
  | DeclStmt ds =>
      match ds with
      | [d] =>
          if isVarDecl d then
            match getInit d with
            | Some init => checkRHS (Some d) init
            | None => Some (false, [])
            end
          else traversed (TraverseStmt S)
      | _ => traversed (TraverseStmt S)
      end
  | BinaryOperator op l r =>
      match op with
      | BO_Assign => both (traversed (TraverseStmt l)) (checkRHS None r)
      | _ => traversed (TraverseStmt S)
      end
  | CallExpr (CXXOperatorCallExprClass op) OC callee args =>
      if isCilkSpawnCall OC then traversed (flat_map TraverseStmt args)
      else
        match op, args with
        | OO_Equal, a0 :: a1 :: _ =>
            both (traversed (TraverseStmt a0)) (checkRHS None a1)
        | _, _ => traversed (TraverseStmt S)
        end
  | DoStmt b c => both (traversed (TraverseStmt c)) (DiagnoseCilkSpawn b)
  | ForStmt i c n b =>
      both (traversed (flat_map TraverseStmt (opt_list i ++ opt_list c ++ opt_list n)))
           (DiagnoseCilkSpawn b)
  | IfStmt c t e =>
      both (both (traversed (TraverseStmt c)) (DiagnoseCilkSpawn t))
           match e with Some x => DiagnoseCilkSpawn x | None => Some (false, []) end
  | LabelStmt b => DiagnoseCilkSpawn b
  | CaseStmt b => DiagnoseCilkSpawn b
  | DefaultStmt b => DiagnoseCilkSpawn b
  | WhileStmt c b => both (traversed (TraverseStmt c)) (DiagnoseCilkSpawn b)
  | CallExpr CallExprClass C _ args
  | CallExpr CXXMemberCallExprClass C _ args =>
      let d := if isCilkSpawnCall C && isBuiltinCall C
               then [Diag (CilkSpawnLoc C) err_cannot_spawn_builtin
                       <<< ArgSourceRange (CallRangeBegin C) (CallRangeEnd C)]
               else [] in
      both (Some (false, d)) (traversed (flat_map TraverseStmt args))
  | _ => traversed (TraverseStmt S)
  end.

(** The run returned and left [HasError] false. *)
Definition noError (r : Checked) : bool :=
  match r with
  | Some (false, _) => true
  | _ => false
  end.

(** The statement [S] is handed on to [ActOnCilkSpawnStmt] by
    [ActOnCompoundStmt] exactly when no error was flagged. *)
Definition accepted (S : Stmt) : bool := noError (DiagnoseCilkSpawn S).

(** The errors [err_spawn_not_whole_expr] of a run that returned. *)
Definition spawn_errors (S : Stmt) : list Diagnostic :=
  match DiagnoseCilkSpawn S with
  | Some (_, d) => List.filter (isID err_spawn_not_whole_expr) d
  | None => []
  end.

End Spawn.

(** ** What the specification says of a spawn, and concrete statements *)
Module SpawnSpec.
Import AST Spawn.

(** The spawn calls below a statement, nested compound statements left
    aside (they are checked on their own). *)
Definition spawnCalls (S : Stmt) : nat := List.length (TraverseStmt S).

Definition spawnOf (e : Stmt) : option CallInfo :=
  match e with
  | CallExpr _ c _ _ => if isCilkSpawnCall c then Some c else None
  | _ => None
  end.

(** The spawn call a statement holds in one of the three permitted
    positions: the whole expression statement, the whole right-hand side
    of a simple assignment, or the sole initializer of a declaration of
    one variable. *)
Definition permittedSpawn (S : Stmt) : option CallInfo :=
  match S with
  | CallExpr _ _ _ _ => spawnOf S
  | BinaryOperator BO_Assign _ r => spawnOf (stripRHS r)
  | DeclStmt [d] =>
      if isVarDecl d then
        match getInit d with
        | Some init => spawnOf (stripRHS init)
        | None => None
        end
      else None
  | _ => None
  end.

Definition name (n : nat) : Stmt := OtherStmt [].
Definition literal (v : Z) : Stmt := OtherStmt [].
Definition paren (e : Stmt) : Stmt := OtherStmt [e].

(** [f()] and [_Cilk_spawn f()], the keyword at location 3. *)
Definition call_f : Stmt :=
  CallExpr CallExprClass (mkCall false 0 false 4 6) (name 0) [].
Definition spawn_f : Stmt :=
  CallExpr CallExprClass (mkCall true 3 false 4 6) (name 0) [].

(** [_Cilk_spawn f();] *)
Definition spawn_statement : Stmt := spawn_f.

(** [a = _Cilk_spawn f();] *)
Definition spawn_assigned : Stmt := BinaryOperator BO_Assign (name 1) spawn_f.

(** [int a = _Cilk_spawn f();] *)
Definition spawn_initializer : Stmt :=
  DeclStmt [VarDecl SC_None 1 (0, 6) (Some spawn_f)].

(** [a = _Cilk_spawn f() + 1;] *)
Definition spawn_in_sum : Stmt :=
  BinaryOperator BO_Assign (name 1) (BinaryOperator BO_Add spawn_f (literal 1)).

(** [(_Cilk_spawn f())(3);]: the spawned call yields the function that
    the statement calls. *)
Definition spawn_in_callee : Stmt :=
  CallExpr CallExprClass (mkCall false 0 false 2 9) (paren spawn_f) [literal 3].

End SpawnSpec.

(** ** Library algorithms used by the switch analyzer

    Modelled from the spec: [std::stable_sort], [std::unique],
    [std::lower_bound] and [std::upper_bound] belong to the C++ standard
    library.  Each is given by the result the standard prescribes; the
    bound searches return the partition point they find on a sorted
    range, as an index. *)
Module Std.

Section Algorithms.
Context {A B : Type}.

(** Put [x] in front of the first element that is not less than it: an
    element taken from further left stays left of its equivalents. *)
Fixpoint insert (less : A -> A -> bool) (x : A) (l : list A) : list A :=
  match l with
  | [] => [x]
  | y :: t => if less y x then y :: insert less x t else x :: y :: t
  end.

Definition stable_sort (less : A -> A -> bool) (l : list A) : list A :=
  fold_right (insert less) [] l.

(** [std::unique]: an element is kept when it is not equivalent to the
    last element kept. *)
Fixpoint unique_from (same : A -> A -> bool) (last : A) (l : list A) : list A :=
  match l with
  | [] => []
  | y :: t => if same last y then unique_from same last t
              else y :: unique_from same y t
  end.

Definition unique (same : A -> A -> bool) (l : list A) : list A :=
  match l with
  | [] => []
  | x :: t => x :: unique_from same x t
  end.

(** [std::lower_bound] on a range partitioned by [comp]: the index of
    the first element [e] with [comp e v] false. *)
Fixpoint lower_bound (comp : A -> B -> bool) (l : list A) (v : B) : nat :=
  match l with
  | [] => O
  | e :: t => if comp e v then S (lower_bound comp t v) else O
  end.

(** [std::upper_bound] on a range partitioned by [comp]: the index of
    the first element [e] with [comp v e] true. *)
Fixpoint upper_bound (comp : B -> A -> bool) (l : list A) (v : B) : nat :=
  match l with
  | [] => O
  | e :: t => if comp v e then O else S (upper_bound comp t v)
  end.

(** The iterator loop that steps [I] forward while [I != end] and the
    element under [I] satisfies [p]; the result is the range from [I]. *)
Fixpoint advance (p : A -> bool) (l : list A) : list A :=
  match l with
  | [] => []
  | e :: t => if p e then advance p t else l
  end.

End Algorithms.

End Std.

(** ** Expressions, types and statements of the switch analyzer *)
Module Sema.

Record EnumConstantDecl : Type := mkEnumerator
  { getDeclName : string; getInitVal : APSInt.t }.

(** [EnumDecl]: the enumerators from [enumerator_begin()] to
    [enumerator_end()]. *)
Definition EnumDecl : Type := list EnumConstantDecl.

Record QualType : Type := mkType
  { isIntegralOrEnumerationType : bool;
    getIntWidth : N;
    isSignedIntegerOrEnumerationType : bool;
    getAsEnumType : option EnumDecl;
    getTypeName : string }.

Inductive CastKind : Type := CK_IntegralCast | CK_LValueToRValue | CK_NoOp | CK_OtherCast.

(** What the analyzer asks of one expression node. *)
Record ExprInfo : Type := mkExpr
  { getExprLoc : SourceLocation;
    getLocStart : SourceLocation;
    getLocEnd : SourceLocation;
    isTypeDependent : bool;
    isValueDependent : bool;
    getType : QualType;
    isKnownToHaveBooleanValue : bool;
    (* EvaluateAsInt succeeds, and the value it (and
       EvaluateKnownConstInt) yields *)
    isIntConstant : bool;
    IntValue : APSInt.t;
    (* IgnoreParenCasts() is a DeclRefExpr: getDecl()->getName() *)
    DeclRefName : option string;
    (* C++11: the expression is a converted constant expression of the
       type of the condition *)
    isConvertedConstant : bool }.

Inductive Expr : Type :=
| EExprWithCleanups (i : ExprInfo) (SubExpr : Expr)
| EImplicitCast (i : ExprInfo) (k : CastKind) (SubExpr : Expr)
| EOther (i : ExprInfo).

Definition info (e : Expr) : ExprInfo :=
  match e with
  | EExprWithCleanups i _ => i
  | EImplicitCast i _ _ => i
  | EOther i => i
  end.

Definition isDependent (e : Expr) : bool :=
  isTypeDependent (info e) || isValueDependent (info e).

Record CaseStmt : Type := mkCase
  { getCaseLoc : SourceLocation;
    getLHS : Expr;
    getRHS : option Expr;
    (* the address of the node, compared by the ordering of
       std::pair<APSInt, CaseStmt*> *)
    CaseAddr : Z }.

Record DefaultStmt : Type := mkDefault
  { getDefaultLoc : SourceLocation;
    getColonLoc : SourceLocation;
    DefaultSubStmt : AST.Stmt }.

Inductive SwitchCase : Type :=
| SCDefault (DS : DefaultStmt)
| SCCase (CS : CaseStmt).

(** [SwitchStmt].  [getSwitchCaseList] is the chain followed by
    [getNextSwitchCase()]; [addSwitchCase] links a label in at its
    head. *)
Record SwitchStmt : Type := mkSwitch
  { getCond : option Expr;
    getSwitchCaseList : list SwitchCase;
    getBody : option AST.Stmt;
    getSwitchLoc : SourceLocation;
    isAllEnumCasesCovered : bool }.

Definition addSwitchCase (SC : SwitchCase) (SS : SwitchStmt) : SwitchStmt :=
  mkSwitch (getCond SS) (SC :: getSwitchCaseList SS) (getBody SS)
           (getSwitchLoc SS) (isAllEnumCasesCovered SS).

Definition setBody (B : AST.Stmt) (L : SourceLocation) (SS : SwitchStmt) : SwitchStmt :=
  mkSwitch (getCond SS) (getSwitchCaseList SS) (Some B) L
           (isAllEnumCasesCovered SS).

Definition setAllEnumCasesCovered (SS : SwitchStmt) : SwitchStmt :=
  mkSwitch (getCond SS) (getSwitchCaseList SS) (getBody SS)
           (getSwitchLoc SS) true.

(** A pointer to a [SwitchStmt] allocated in the AST context. *)
Definition SwitchPtr : Type := nat.

Inductive FunctionScopeKind : Type :=
| SK_Function | SK_Block | SK_Lambda | SK_CilkFor.

(** [sema::FunctionScopeInfo].  The head of [SwitchStack] is its
    [back()]. *)
Record FunctionScopeInfo : Type := mkFSI
  { Kind : FunctionScopeKind;
    SwitchStack : list SwitchPtr;
    HasBranchIntoScope : bool }.

(** The analyzer state the functions below read and write: the language
    mode, the function scope [getCurFunction()] with the scopes around
    it, the switch statements allocated so far and the diagnostics
    issued so far. *)
Record State : Type := mkState
  { CPlusPlus11 : bool;
    CurFunction : FunctionScopeInfo;
    OuterFunctionScopes : list FunctionScopeInfo;
    Heap : SwitchPtr -> option SwitchStmt;
    NextPtr : SwitchPtr;
    Diags : list Diagnostic }.

Definition emit (ds : list Diagnostic) (S : State) : State :=
  mkState (CPlusPlus11 S) (CurFunction S) (OuterFunctionScopes S) (Heap S)
          (NextPtr S) (Diags S ++ ds).

Definition setCurFunction (F : FunctionScopeInfo) (S : State) : State :=
  mkState (CPlusPlus11 S) F (OuterFunctionScopes S) (Heap S) (NextPtr S)
          (Diags S).

Definition store (p : SwitchPtr) (SS : SwitchStmt) (S : State) : State :=
  mkState (CPlusPlus11 S) (CurFunction S) (OuterFunctionScopes S)
          (fun q => if Nat.eqb q p then Some SS else Heap S q)
          (NextPtr S) (Diags S).

Definition alloc (SS : SwitchStmt) (S : State) : SwitchPtr * State :=
  (NextPtr S,
   mkState (CPlusPlus11 S) (CurFunction S) (OuterFunctionScopes S)
           (fun q => if Nat.eqb q (NextPtr S) then Some SS else Heap S q)
           (Datatypes.S (NextPtr S)) (Diags S)).

Definition setSwitchStack (st : list SwitchPtr) (F : FunctionScopeInfo) : FunctionScopeInfo :=
  mkFSI (Kind F) st (HasBranchIntoScope F).

Definition setHasBranchIntoScope (F : FunctionScopeInfo) : FunctionScopeInfo :=
  mkFSI (Kind F) (SwitchStack F) true.

(** The statement a [StmtResult] owns. *)
Inductive StmtNode : Type :=
| NodeStmt (s : AST.Stmt)
| NodeCase (CS : CaseStmt)
| NodeDefault (DS : DefaultStmt)
| NodeSwitch (p : SwitchPtr)
| NodeBreak (BreakLoc : SourceLocation).

Inductive StmtResult : Type :=
| StmtError
| Owned (n : StmtNode).

(** How a call ends: it returns, or it stops at a failed [assert] or at
    an access outside a vector. *)
Inductive Outcome (R : Type) : Type :=
| Returns (r : R)
| AssertionFailed
| OutOfBounds.

Arguments Returns {R} r.
Arguments AssertionFailed {R}.
Arguments OutOfBounds {R}.

(** The collaborators of the analyzer: expression analysis and the
    advisory checks that only report diagnostics. *)
Class Collaborators : Type := mkCollab
  { DiagnoseUnusedExprResult : AST.Stmt -> list Diagnostic;
    DiagnoseEmptyStmtBody : SourceLocation -> AST.Stmt -> list Diagnostic;
    CheckConditionVariable : Expr -> option Expr;
    ConvertToIntegralOrEnumerationType : Expr -> option Expr;
    UsualUnaryConversions : Expr -> option Expr;
    ActOnFinishFullExpr : Expr -> option Expr;
    VerifyIntegerConstantExpression : Expr -> option Expr }.

End Sema.

(** ** The switch statement analyzer *)
Module Switch.
Import Sema.

Definition CaseValsTy : Type := list (APSInt.t * CaseStmt).
Definition CaseRangesTy : Type := list (APSInt.t * CaseStmt).
Definition EnumValsTy : Type := list (APSInt.t * EnumConstantDecl).

(** [AdjustAPSInt]. *)
Definition AdjustAPSInt (Val : APSInt.t) (BitWidth : N) (IsSigned : bool) : APSInt.t :=
  let Val1 :=
    if (APSInt.BitWidth Val <? BitWidth)%N then APSInt.extend Val BitWidth
    else if (BitWidth <? APSInt.BitWidth Val)%N then APSInt.trunc Val BitWidth
    else Val in
  APSInt.setIsSigned Val1 IsSigned.

(** [Sema::ConvertIntegerToTypeWarnOnOverflow]: the converted value and
    the diagnostic of a truncation that changes the value. *)
Definition ConvertIntegerToTypeWarnOnOverflow (Val : APSInt.t) (NewWidth : N)
  (NewSign : bool) (Loc : SourceLocation) (ID : DiagID)
  : APSInt.t * list Diagnostic :=
  if (APSInt.BitWidth Val <? NewWidth)%N then
    (APSInt.setIsSigned (APSInt.extend Val NewWidth) NewSign, [])
  else if (NewWidth <? APSInt.BitWidth Val)%N then
    let ConvVal0 := APSInt.setIsSigned (APSInt.trunc Val NewWidth) NewSign in
    let ConvVal :=
      APSInt.setIsSigned (APSInt.extend ConvVal0 (APSInt.BitWidth Val))
                         (APSInt.isSigned Val) in
    (APSInt.setIsSigned (APSInt.trunc Val NewWidth) NewSign,
     if APSInt.ne ConvVal Val
     then [Diag Loc ID <<< ArgString (APSInt.toString Val)
                       <<< ArgString (APSInt.toString ConvVal)]
     else [])
  else if negb (Bool.eqb NewSign (APSInt.isSigned Val)) then
    (APSInt.setIsSigned Val NewSign, [])
  else (Val, []).

(** Modelled from the spec: the value of an expression after
    [ImpCastExprToType(E, T, CK_IntegralCast)], and the value
    [CheckConvertedConstantExpression] stores: the value of [E] brought
    to the width and signedness of [T] (expression evaluation is a
    collaborator of this file). *)
Definition IntegralCastValue (T : QualType) (v : APSInt.t) : APSInt.t :=
  AdjustAPSInt v (getIntWidth T) (isSignedIntegerOrEnumerationType T).

(** Modelled from the spec: [Sema::CheckConvertedConstantExpression] for
    [CCEK_CaseValue]; [None] is an invalid result. *)
Definition CheckConvertedConstantExpression (E : Expr) (T : QualType) : option APSInt.t :=
  if isConvertedConstant (info E)
  then Some (IntegralCastValue T (IntValue (info E)))
  else None.

Definition EvaluateKnownConstInt (E : Expr) : APSInt.t := IntValue (info E).

(** [CmpCaseVals]. *)
Definition CmpCaseVals (lhs rhs : APSInt.t * CaseStmt) : bool :=
  if APSInt.lt (fst lhs) (fst rhs) then true
  else if APSInt.eq (fst lhs) (fst rhs)
          && (getCaseLoc (snd lhs) <? getCaseLoc (snd rhs))
       then true
       else false.

(** [operator<] of [std::pair<llvm::APSInt, CaseStmt*>], the order
    [std::stable_sort] uses on [CaseRanges]. *)
Definition PairLess (lhs rhs : APSInt.t * CaseStmt) : bool :=
  APSInt.lt (fst lhs) (fst rhs)
  || (negb (APSInt.lt (fst rhs) (fst lhs))
      && (CaseAddr (snd lhs) <? CaseAddr (snd rhs))).

(** [CmpEnumVals] and [EqEnumVals]. *)
Definition CmpEnumVals (lhs rhs : APSInt.t * EnumConstantDecl) : bool :=
  APSInt.lt (fst lhs) (fst rhs).

Definition EqEnumVals (lhs rhs : APSInt.t * EnumConstantDecl) : bool :=
  APSInt.eq (fst lhs) (fst rhs).

(** [CaseCompareFunctor], in its two mixed forms. *)
Definition CaseCompareLeft (LHS : APSInt.t * CaseStmt) (RHS : APSInt.t) : bool :=
  APSInt.lt (fst LHS) RHS.

Definition CaseCompareRight (LHS : APSInt.t) (RHS : APSInt.t * CaseStmt) : bool :=
  APSInt.lt LHS (fst RHS).

(** [GetTypeBeforeIntegralPromotion]: the expression it leaves in
    [expr]. *)
Fixpoint stripIntegralCasts (e : Expr) : Expr :=
  match e with
  | EImplicitCast _ CK_IntegralCast sub => stripIntegralCasts sub
  | _ => e
  end.

Definition ExprBeforePromotion (e : Expr) : Expr :=
  stripIntegralCasts
    match e with
    | EExprWithCleanups _ sub => sub
    | _ => e
    end.

Definition GetTypeBeforeIntegralPromotion (e : Expr) : QualType :=
  getType (info (ExprBeforePromotion e)).

(** *** The loop over the labels of the switch *)

Record CaseScan : Type := mkScan
  { HasDependentValue : bool;
    TheDefaultStmt : option DefaultStmt;
    CaseListIsErroneous : bool;
    CaseVals : CaseValsTy;
    CaseRanges : CaseRangesTy;
    ScanDiags : list Diagnostic }.

Definition scanStart (dependent : bool) : CaseScan :=
  mkScan dependent None false [] [] [].

(** The value of a label, in the language mode at hand; [None] when the
    conversion of C++11 is invalid. *)
Definition caseValue (cpp11 : bool) (CondType : QualType) (E : Expr) : option APSInt.t :=
  if cpp11 then CheckConvertedConstantExpression E CondType
  else Some (EvaluateKnownConstInt E).

(** [for (SwitchCase *SC = SS->getSwitchCaseList(); SC && !HasDependentValue;
    SC = SC->getNextSwitchCase())]. *)
Fixpoint scanCases (cpp11 : bool) (CondType : QualType) (CondWidth : N)
  (CondIsSigned : bool) (SC : list SwitchCase) (st : CaseScan) : CaseScan :=
  match SC with
  | [] => st
  | c :: next =>
      if HasDependentValue st then st
      else
        match c with
        | SCDefault DS =>
            let '(err, d) :=
              match TheDefaultStmt st with
              | Some prev =>
                  (true,
                   [Diag (getDefaultLoc DS) err_multiple_default_labels_defined;
                    Diag (getDefaultLoc prev) note_duplicate_case_prev])
              | None => (CaseListIsErroneous st, [])
              end in
            scanCases cpp11 CondType CondWidth CondIsSigned next
              (mkScan false (Some DS) err (CaseVals st) (CaseRanges st)
                      (ScanDiags st ++ d))
        | SCCase CS =>
            let Lo := getLHS CS in
            if isDependent Lo then
              (* HasDependentValue = true; break; *)
              mkScan true (TheDefaultStmt st) (CaseListIsErroneous st)
                     (CaseVals st) (CaseRanges st) (ScanDiags st)
            else
              match caseValue cpp11 CondType Lo with
              | None =>
                  (* CaseListIsErroneous = true; continue; *)
                  scanCases cpp11 CondType CondWidth CondIsSigned next
                    (mkScan false (TheDefaultStmt st) true (CaseVals st)
                            (CaseRanges st) (ScanDiags st))
              | Some LoVal0 =>
                  let '(LoVal, d) :=
                    ConvertIntegerToTypeWarnOnOverflow LoVal0 CondWidth
                      CondIsSigned (getLocStart (info Lo))
                      warn_case_value_overflow in
                  match getRHS CS with
                  | Some Hi =>
                      if isDependent Hi then
                        mkScan true (TheDefaultStmt st) (CaseListIsErroneous st)
                               (CaseVals st) (CaseRanges st) (ScanDiags st ++ d)
                      else
                        scanCases cpp11 CondType CondWidth CondIsSigned next
                          (mkScan false (TheDefaultStmt st)
                                  (CaseListIsErroneous st) (CaseVals st)
                                  (CaseRanges st ++ [(LoVal, CS)])
                                  (ScanDiags st ++ d))
                  | None =>
                      scanCases cpp11 CondType CondWidth CondIsSigned next
                        (mkScan false (TheDefaultStmt st)
                                (CaseListIsErroneous st)
                                (CaseVals st ++ [(LoVal, CS)]) (CaseRanges st)
                                (ScanDiags st ++ d))
                  end
              end
        end
  end.

(** *** Duplicate singleton values *)

Definition nameOf (CS : CaseStmt) : string :=
  match DeclRefName (info (getLHS CS)) with
  | Some n => n
  | None => EmptyString
  end.

Definition isEmptyString (s : string) : bool :=
  match s with EmptyString => true | _ => false end.

(** The diagnostics for [CaseVals[i].first == CaseVals[i-1].first]. *)
Definition reportDuplicate (prev cur : APSInt.t * CaseStmt) : list Diagnostic :=
  let PrevString := nameOf (snd prev) in
  let CurrString := nameOf (snd cur) in
  let CaseValStr := APSInt.toString (fst prev) in
  let pick (s : string) := if isEmptyString s then CaseValStr else s in
  [ if String.eqb PrevString CurrString
    then Diag (getLocStart (info (getLHS (snd cur)))) err_duplicate_case
           <<< ArgString (pick PrevString)
    else Diag (getLocStart (info (getLHS (snd cur))))
              err_duplicate_case_differing_expr
           <<< ArgString (pick PrevString)
           <<< ArgString (pick CurrString)
           <<< ArgString CaseValStr;
    Diag (getLocStart (info (getLHS (snd prev)))) note_duplicate_case_prev ].

Record DupScan : Type := mkDupScan
  { DupDiags : list Diagnostic;
    DupFound : bool;
    DupShouldCheck : bool }.

(** The loop [for (unsigned i = 0, e = CaseVals.size(); i != e; ++i)]
    over the sorted vector; [prev] is [CaseVals[i-1]] when [i != 0].
    Returns the diagnostics, whether a duplicate was found, and
    [ShouldCheckConstantCond]. *)
Fixpoint checkDuplicates (ConstantCondValue : APSInt.t)
  (prev : option (APSInt.t * CaseStmt)) (l : CaseValsTy)
  (ShouldCheckConstantCond : bool) : DupScan :=
  match l with
  | [] => mkDupScan [] false ShouldCheckConstantCond
  | cur :: rest =>
      let should :=
        if ShouldCheckConstantCond && APSInt.eq (fst cur) ConstantCondValue
        then false else ShouldCheckConstantCond in
      let r := checkDuplicates ConstantCondValue (Some cur) rest should in
      match prev with
      | Some p =>
          if APSInt.eq (fst cur) (fst p)
          then mkDupScan (reportDuplicate p cur ++ DupDiags r) true
                         (DupShouldCheck r)
          else r
      | None => r
      end
  end.

(** *** Case ranges *)

(** The right-hand side of an entry of [CaseRanges]; [scanCases] pushes a
    label there only after [CS->getRHS()] was found non-null. *)
Definition rangeRHS (CR : CaseStmt) : Expr :=
  match getRHS CR with
  | Some Hi => Hi
  | None => getLHS CR
  end.

Record RangeScan : Type := mkRangeScan
  { KeptRanges : CaseRangesTy;
    HiVals : list APSInt.t;
    RangeDiags : list Diagnostic;
    RangeError : bool;
    RangeShouldCheck : bool }.

(** The first loop over the sorted ranges: it computes the high values,
    erases the empty ranges and looks for the constant condition. *)
Fixpoint scanRanges (cpp11 : bool) (CondType : QualType) (CondWidth : N)
  (CondIsSigned : bool) (ConstantCondValue : APSInt.t)
  (l : CaseRangesTy) (ShouldCheckConstantCond : bool) : RangeScan :=
  match l with
  | [] => mkRangeScan [] [] [] false ShouldCheckConstantCond
  | (LoVal, CR) :: rest =>
      let Hi := rangeRHS CR in
      match caseValue cpp11 CondType Hi with
      | None =>
          (* CaseListIsErroneous = true; continue; *)
          let r := scanRanges cpp11 CondType CondWidth CondIsSigned
                     ConstantCondValue rest ShouldCheckConstantCond in
          mkRangeScan ((LoVal, CR) :: KeptRanges r) (HiVals r) (RangeDiags r)
                      true (RangeShouldCheck r)
      | Some HiVal0 =>
          let '(HiVal, d0) :=
            ConvertIntegerToTypeWarnOnOverflow HiVal0 CondWidth CondIsSigned
              (getLocStart (info Hi)) warn_case_value_overflow in
          if APSInt.gt LoVal HiVal then
            (* the case is empty: erase it *)
            let d1 := [Diag (getLocStart (info (getLHS CR))) warn_case_empty_range
                         <<< ArgSourceRange (getLocStart (info (getLHS CR)))
                                            (getLocEnd (info Hi))] in
            let r := scanRanges cpp11 CondType CondWidth CondIsSigned
                       ConstantCondValue rest ShouldCheckConstantCond in
            mkRangeScan (KeptRanges r) (HiVals r) (d0 ++ d1 ++ RangeDiags r)
                        (RangeError r) (RangeShouldCheck r)
          else
            let should :=
              if ShouldCheckConstantCond
                 && APSInt.le LoVal ConstantCondValue
                 && APSInt.le ConstantCondValue HiVal
              then false else ShouldCheckConstantCond in
            let r := scanRanges cpp11 CondType CondWidth CondIsSigned
                       ConstantCondValue rest should in
            mkRangeScan ((LoVal, CR) :: KeptRanges r) (HiVal :: HiVals r)
                        (d0 ++ RangeDiags r) (RangeError r) (RangeShouldCheck r)
      end
  end.

(** One round of the second loop over the ranges: the overlap found for
    [CaseRanges[i]], if any, as the value and the statement reported.
    [None] on the outside is a read past the end of a vector.
    [llvm::APSInt &CRHi = HiVals[i]] only binds a reference; the entry
    is read by [I->first < CRHi] when [I != CaseVals.end()], and then by
    [std::upper_bound], which reads nothing when the range from [I] is
    empty.  [HiVals[i-1]] is read when [i] is not 0. *)
Definition findOverlap (Vals : CaseValsTy) (Ranges : CaseRangesTy)
  (His : list APSInt.t) (i : nat) : option (option (APSInt.t * CaseStmt)) :=
  match nth_error Ranges i with
  | None => None
  | Some (CRLo, CR) =>
      let I := Std.lower_bound CaseCompareLeft Vals CRLo in
      let scalar : option (option (APSInt.t * CaseStmt) * nat) :=
        match nth_error Vals I with
        | Some c =>
            match nth_error His i with
            | Some CRHi =>
                Some (if APSInt.lt (fst c) CRHi then Some c else None,
                      (I + Std.upper_bound CaseCompareRight (skipn I Vals) CRHi)%nat)
            | None => None
            end
        | None => Some (None, I)
        end in
      match scalar with
      | None => None
      | Some (ov1, I2) =>
          let ov2 :=
            match I2 with
            | O => ov1
            | S k =>
                match nth_error Vals k with
                | Some c => if APSInt.ge (fst c) CRLo then Some c else ov1
                | None => ov1
                end
            end in
          match i with
          | O => Some ov2
          | S k =>
              match nth_error His k, nth_error Ranges k with
              | Some prevHi, Some prevR =>
                  Some (if APSInt.le CRLo prevHi then Some (prevHi, snd prevR)
                        else ov2)
              | _, _ => None
              end
          end
      end
  end.

Definition reportOverlap (CR : CaseStmt) (ov : APSInt.t * CaseStmt) : list Diagnostic :=
  [ Diag (getLocStart (info (getLHS CR))) err_duplicate_case
      <<< ArgString (APSInt.toString (fst ov));
    Diag (getLocStart (info (getLHS (snd ov)))) note_duplicate_case_prev ].

Record OverlapScan : Type := mkOverlapScan
  { OverlapDiags : list Diagnostic;
    OverlapError : bool;
    PastTheEnd : bool }.

(** The second loop over the ranges, for the indices [idx]. *)
Fixpoint checkOverlaps (Vals : CaseValsTy) (Ranges : CaseRangesTy)
  (His : list APSInt.t) (idx : list nat) : OverlapScan :=
  match idx with
  | [] => mkOverlapScan [] false false
  | i :: rest =>
      match findOverlap Vals Ranges His i with
      | None => mkOverlapScan [] false true
      | Some ov =>
          let r := checkOverlaps Vals Ranges His rest in
          match ov, nth_error Ranges i with
          | Some o, Some CR =>
              mkOverlapScan (reportOverlap (snd CR) o ++ OverlapDiags r) true
                            (PastTheEnd r)
          | _, _ => r
          end
      end
  end.

(** *** Enumeration coverage *)

Definition rangeHiForEnum (CondType : QualType) (CondWidth : N)
  (CondIsSigned : bool) (CR : CaseStmt) : APSInt.t :=
  AdjustAPSInt (IntegralCastValue CondType (EvaluateKnownConstInt (rangeRHS CR)))
               CondWidth CondIsSigned.

(** [EnumVals] after [std::stable_sort] and [std::unique]: the range from
    [EnumVals.begin()] to [EIend]. *)
Definition gatherEnumVals (ED : EnumDecl) (CondWidth : N) (CondIsSigned : bool) : EnumValsTy :=
  Std.unique EqEnumVals
    (Std.stable_sort CmpEnumVals
       (map (fun EDI => (AdjustAPSInt (getInitVal EDI) CondWidth CondIsSigned, EDI)) ED)).

(** "See which case values aren't in enum." *)
Fixpoint casesNotInEnum (T : QualType) (EI : EnumValsTy) (CI : CaseValsTy) : list Diagnostic :=
  match CI with
  | [] => []
  | c :: rest =>
      let EI1 := Std.advance (fun e => APSInt.lt (fst e) (fst c)) EI in
      let d :=
        match EI1 with
        | [] => [Diag (getExprLoc (info (getLHS (snd c)))) warn_not_in_enum
                   <<< ArgString (getTypeName T)]
        | e :: _ =>
            if APSInt.gt (fst e) (fst c)
            then [Diag (getExprLoc (info (getLHS (snd c)))) warn_not_in_enum
                    <<< ArgString (getTypeName T)]
            else []
        end in
      d ++ casesNotInEnum T EI1 rest
  end.

(** "See which of case ranges aren't in enum": the loop runs while
    [RI != CaseRanges.end() && EI != EIend]. *)
Fixpoint rangesNotInEnum (T CondType : QualType) (CondWidth : N)
  (CondIsSigned : bool) (EI : EnumValsTy) (RI : CaseRangesTy) : list Diagnostic :=
  match RI with
  | [] => []
  | r :: rest =>
      match EI with
      | [] => []
      | _ :: _ =>
          let EI1 := Std.advance (fun e => APSInt.lt (fst e) (fst r)) EI in
          let d1 :=
            match EI1 with
            | [] => [Diag (getExprLoc (info (getLHS (snd r)))) warn_not_in_enum
                       <<< ArgString (getTypeName T)]
            | e :: _ =>
                if APSInt.ne (fst e) (fst r)
                then [Diag (getExprLoc (info (getLHS (snd r)))) warn_not_in_enum
                        <<< ArgString (getTypeName T)]
                else []
            end in
          let Hi := rangeHiForEnum CondType CondWidth CondIsSigned (snd r) in
          let EI2 := Std.advance (fun e => APSInt.lt (fst e) Hi) EI1 in
          let d2 :=
            match EI2 with
            | [] => [Diag (getExprLoc (info (rangeRHS (snd r)))) warn_not_in_enum
                       <<< ArgString (getTypeName T)]
            | e :: _ =>
                if APSInt.ne (fst e) Hi
                then [Diag (getExprLoc (info (rangeRHS (snd r)))) warn_not_in_enum
                        <<< ArgString (getTypeName T)]
                else []
            end in
          d1 ++ d2 ++ rangesNotInEnum T CondType CondWidth CondIsSigned EI2 rest
      end
  end.

(** "Check which enum vals aren't in switch": [UnhandledNames].  [CI]
    and [RI] are the ranges from the two iterators to the ends of
    [CaseVals] and [CaseRanges]. *)
Fixpoint unhandledEnumVals (CondType : QualType) (CondWidth : N)
  (CondIsSigned : bool) (EI : EnumValsTy) (CI : CaseValsTy)
  (RI : CaseRangesTy) : list string :=
  match EI with
  | [] => []
  | e :: rest =>
      let CI1 := Std.advance (fun c => APSInt.lt (fst c) (fst e)) CI in
      let matched :=
        match CI1 with
        | c :: _ => APSInt.eq (fst c) (fst e)
        | [] => false
        end in
      if matched then
        unhandledEnumVals CondType CondWidth CondIsSigned rest CI1 RI
      else
        let RI1 :=
          Std.advance
            (fun r => negb (APSInt.le (fst e)
                              (rangeHiForEnum CondType CondWidth CondIsSigned (snd r))))
            RI in
        let missing :=
          match RI1 with
          | [] => true
          | r :: _ => APSInt.lt (fst e) (fst r)
          end in
        (if missing then [getDeclName (snd e)] else [])
        ++ unhandledEnumVals CondType CondWidth CondIsSigned rest CI1 RI1
  end.

(** "Produce a nice diagnostic if multiple values aren't handled." *)
Definition reportUnhandled (Loc : SourceLocation) (hasDefault : bool)
  (UnhandledNames : list string) : list Diagnostic :=
  match UnhandledNames with
  | [] => []
  | [a] =>
      [Diag Loc (if hasDefault then warn_def_missing_case1 else warn_missing_case1)
         <<< ArgString a]
  | [a; b] =>
      [Diag Loc (if hasDefault then warn_def_missing_case2 else warn_missing_case2)
         <<< ArgString a <<< ArgString b]
  | [a; b; c] =>
      [Diag Loc (if hasDefault then warn_def_missing_case3 else warn_missing_case3)
         <<< ArgString a <<< ArgString b <<< ArgString c]
  | a :: b :: c :: _ =>
      [Diag Loc (if hasDefault then warn_def_missing_cases else warn_missing_cases)
         <<< ArgUnsigned (Z.of_nat (List.length UnhandledNames))
         <<< ArgString a <<< ArgString b <<< ArgString c]
  end.

Definition isSome {X : Type} (o : option X) : bool :=
  match o with Some _ => true | None => false end.

(** The enumeration block: its diagnostics and whether
    [setAllEnumCasesCovered] is called. *)
Definition checkEnum (ED : EnumDecl) (T CondType : QualType) (CondWidth : N)
  (CondIsSigned : bool) (CondLoc : SourceLocation)
  (TheDefault : option DefaultStmt) (Vals : CaseValsTy) (Ranges : CaseRangesTy)
  : list Diagnostic * bool :=
  let EnumVals := gatherEnumVals ED CondWidth CondIsSigned in
  let d1 := casesNotInEnum T EnumVals Vals in
  let d2 := rangesNotInEnum T CondType CondWidth CondIsSigned EnumVals Ranges in
  let UnhandledNames :=
    unhandledEnumVals CondType CondWidth CondIsSigned EnumVals Vals Ranges in
  let d3 :=
    match TheDefault, UnhandledNames with
    | Some DS, [] => [Diag (getDefaultLoc DS) warn_unreachable_default]
    | _, _ => []
    end in
  let d4 := reportUnhandled CondLoc (isSome TheDefault) UnhandledNames in
  (d1 ++ d2 ++ d3 ++ d4,
   match UnhandledNames with [] => true | _ :: _ => false end).

(** *** The whole analysis of a finished switch *)

(** What [ActOnFinishSwitchStmt] returns: [Discard] is [StmtError()],
    [Keep] is [Owned(SS)]. *)
Inductive Verdict : Type := Discard | Keep.

Record Analysis : Type := mkAnalysis
  { Result : Outcome Verdict;
    AnalysisDiags : list Diagnostic;
    Covered : bool }.

Definition verdictOf (CaseListIsErroneous : bool) : Verdict :=
  if CaseListIsErroneous then Discard else Keep.

(** The block [if (!HasDependentValue) { ... }] of
    [ActOnFinishSwitchStmt] and the return that follows it, for the
    labels gathered in [scan]; [d0] are the diagnostics issued before
    the block and [dEnd] those of [DiagnoseEmptyStmtBody]. *)
Definition checkLabels (cpp11 : bool) (CondExpr : Expr) (CondWidth : N)
  (d0 dEnd : list Diagnostic) (scan : CaseScan) : Analysis :=
  let CondType := getType (info CondExpr) in
  let CondExprBeforePromotion := ExprBeforePromotion CondExpr in
  let CondTypeBeforePromotion := GetTypeBeforeIntegralPromotion CondExpr in
  let CondIsSigned :=
    isSignedIntegerOrEnumerationType CondTypeBeforePromotion in
  let HasConstantCond :=
    match TheDefaultStmt scan with
    | None => isIntConstant (info CondExprBeforePromotion)
    | Some _ => false
    end in
  let ConstantCondValue := IntValue (info CondExprBeforePromotion) in
  (* Sort all the scalar case values so we can easily detect duplicates. *)
  let SortedVals := Std.stable_sort CmpCaseVals (CaseVals scan) in
  let Dup := checkDuplicates ConstantCondValue None SortedVals HasConstantCond in
  (* Sort all the case ranges by their low value. *)
  let RS :=
    scanRanges cpp11 CondType CondWidth CondIsSigned ConstantCondValue
      (Std.stable_sort PairLess (CaseRanges scan)) (DupShouldCheck Dup) in
  let OS :=
    checkOverlaps SortedVals (KeptRanges RS) (HiVals RS)
      (seq 0 (List.length (KeptRanges RS))) in
  let erroneous :=
    CaseListIsErroneous scan || DupFound Dup || RangeError RS || OverlapError OS in
  let dCases := d0 ++ ScanDiags scan ++ DupDiags Dup ++ RangeDiags RS
                   ++ OverlapDiags OS in
  if PastTheEnd OS then mkAnalysis OutOfBounds dCases false
  else
    (* Complain if we have a constant condition and we didn't find a match. *)
    let dConst :=
      if negb erroneous && RangeShouldCheck RS
      then [Diag (getExprLoc (info CondExpr)) warn_missing_case_for_condition
              <<< ArgString (APSInt.toString ConstantCondValue)
              <<< ArgSourceRange (getLocStart (info CondExpr))
                                 (getLocEnd (info CondExpr))]
      else [] in
    let Enum :=
      match getAsEnumType CondTypeBeforePromotion with
      | Some ED =>
          if negb erroneous && negb HasConstantCond
          then checkEnum ED CondTypeBeforePromotion CondType CondWidth
                 CondIsSigned (getExprLoc (info CondExpr))
                 (TheDefaultStmt scan) SortedVals (KeptRanges RS)
          else ([], false)
      | None => ([], false)
      end in
    mkAnalysis (Returns (verdictOf erroneous))
               (dCases ++ dConst ++ fst Enum ++ dEnd) (snd Enum).

(** The body of [ActOnFinishSwitchStmt] after the body statement was
    attached and the switch was popped: from [Expr *CondExpr =
    SS->getCond();] to the final [return]. *)
Definition checkCaseList {C : Collaborators} (cpp11 : bool)
  (SwitchLoc : SourceLocation) (SS : SwitchStmt) (BodyStmt : AST.Stmt) : Analysis :=
  match getCond SS with
  | None => mkAnalysis (Returns Discard) [] false
  | Some CondExpr =>
      let CondType := getType (info CondExpr) in
      let CondTypeBeforePromotion := GetTypeBeforeIntegralPromotion CondExpr in
      if negb (isTypeDependent (info CondExpr))
         && negb (isIntegralOrEnumerationType CondType)
      then mkAnalysis (Returns Discard) [] false
      else
        let d0 :=
          if negb (isTypeDependent (info CondExpr))
             && isKnownToHaveBooleanValue (info CondExpr)
          then [Diag SwitchLoc warn_bool_switch_condition
                  <<< ArgSourceRange (getLocStart (info CondExpr))
                                     (getLocEnd (info CondExpr))]
          else [] in
        let dependent := isDependent CondExpr in
        let CondWidth :=
          if dependent then 0%N else getIntWidth CondTypeBeforePromotion in
        let CondIsSigned :=
          isSignedIntegerOrEnumerationType CondTypeBeforePromotion in
        let scan :=
          scanCases cpp11 CondType CondWidth CondIsSigned
            (getSwitchCaseList SS) (scanStart dependent) in
        let dEnd := DiagnoseEmptyStmtBody (getLocEnd (info CondExpr)) BodyStmt in
        if HasDependentValue scan then
          mkAnalysis (Returns (verdictOf (CaseListIsErroneous scan)))
                     (d0 ++ ScanDiags scan ++ dEnd) false
        else checkLabels cpp11 CondExpr CondWidth d0 dEnd scan
  end.

(** [Sema::ActOnStartOfSwitchStmt]. *)
Definition ActOnStartOfSwitchStmt {C : Collaborators} (SwitchLoc : SourceLocation)
  (Cond : option Expr) (CondVar : option Expr) (S : State) : StmtResult * State :=
  let checked :=
    match CondVar with
    | Some ConditionVar =>
        match CheckConditionVariable ConditionVar with
        | None => None
        | Some r => Some (Some r)
        end
    | None => Some Cond
    end in
  match checked with
  | None => (StmtError, S)
  | Some None => (StmtError, S)
  | Some (Some Cond1) =>
      match ConvertToIntegralOrEnumerationType Cond1 with
      | None => (StmtError, S)
      | Some Cond2 =>
          match UsualUnaryConversions Cond2 with
          | None => (StmtError, S)
          | Some Cond3 =>
              let finished :=
                match CondVar with
                | None => ActOnFinishFullExpr Cond3
                | Some _ => Some Cond3
                end in
              match finished with
              | None => (StmtError, S)
              | Some Cond4 =>
                  let S1 := setCurFunction (setHasBranchIntoScope (CurFunction S)) S in
                  let '(SS, S2) := alloc (mkSwitch (Some Cond4) [] None 0 false) S1 in
                  (Owned (NodeSwitch SS),
                   setCurFunction
                     (setSwitchStack (SS :: SwitchStack (CurFunction S2))
                                     (CurFunction S2)) S2)
              end
          end
      end
  end.

(** [Sema::ActOnFinishSwitchStmt]. *)
Definition ActOnFinishSwitchStmt {C : Collaborators} (SwitchLoc : SourceLocation)
  (Switch : SwitchPtr) (BodyStmt : AST.Stmt) (S : State)
  : Outcome StmtResult * State :=
  match Heap S Switch, SwitchStack (CurFunction S) with
  | Some SS, back :: rest =>
      if Nat.eqb Switch back then
        (* SS->setBody(BodyStmt, SwitchLoc); SwitchStack.pop_back(); *)
        let SS1 := setBody BodyStmt SwitchLoc SS in
        let S1 := setCurFunction (setSwitchStack rest (CurFunction S))
                                 (store Switch SS1 S) in
        let A := checkCaseList (CPlusPlus11 S) SwitchLoc SS1 BodyStmt in
        let S2 := if Covered A
                  then store Switch (setAllEnumCasesCovered SS1) S1
                  else S1 in
        (match Result A with
         | Returns Keep => Returns (Owned (NodeSwitch Switch))
         | Returns Discard => Returns StmtError
         | AssertionFailed => AssertionFailed
         | OutOfBounds => OutOfBounds
         end,
         emit (AnalysisDiags A) S2)
      else (AssertionFailed, S)
  | _, _ => (AssertionFailed, S)
  end.

(** [Sema::ActOnCaseStmt].  [ActOnFinishFullExpr] is read as returning
    its operand when it is invalid, the source taking the result without
    a test. *)
Definition ActOnCaseStmt {C : Collaborators} (CaseLoc : SourceLocation)
  (LHSVal : Expr) (DotDotDotLoc : SourceLocation) (RHSVal : option Expr)
  (ColonLoc : SourceLocation) (S : State) : StmtResult * State :=
  match SwitchStack (CurFunction S) with
  | [] => (StmtError, emit [Diag CaseLoc err_case_not_in_switch] S)
  | back :: _ =>
      let verified :=
        if CPlusPlus11 S then Some (LHSVal, RHSVal)
        else
          let L :=
            if negb (isTypeDependent (info LHSVal))
               && negb (isValueDependent (info LHSVal))
            then VerifyIntegerConstantExpression LHSVal
            else Some LHSVal in
          match L with
          | None => None
          | Some L1 =>
              Some (L1,
                    match RHSVal with
                    | Some R =>
                        if negb (isTypeDependent (info R))
                           && negb (isValueDependent (info R))
                        then VerifyIntegerConstantExpression R
                        else Some R
                    | None => None
                    end)
          end in
      match verified with
      | None => (StmtError, S)
      | Some (L1, R1) =>
          let full (e : Expr) :=
            match ActOnFinishFullExpr e with Some e' => e' | None => e end in
          let CS := mkCase CaseLoc (full L1) (option_map full R1)
                           (Z.of_nat (NextPtr S)) in
          let S1 :=
            mkState (CPlusPlus11 S) (CurFunction S) (OuterFunctionScopes S)
                    (Heap S) (Datatypes.S (NextPtr S)) (Diags S) in
          (Owned (NodeCase CS),
           match Heap S1 back with
           | Some SS => store back (addSwitchCase (SCCase CS) SS) S1
           | None => S1
           end)
      end
  end.

(** [Sema::ActOnDefaultStmt]. *)
Definition ActOnDefaultStmt {C : Collaborators} (DefaultLoc ColonLoc : SourceLocation)
  (SubStmt : AST.Stmt) (S : State) : StmtResult * State :=
  let S0 := emit (DiagnoseUnusedExprResult SubStmt) S in
  match SwitchStack (CurFunction S0) with
  | [] =>
      (Owned (NodeStmt SubStmt), emit [Diag DefaultLoc err_default_not_in_switch] S0)
  | back :: _ =>
      let DS := mkDefault DefaultLoc ColonLoc SubStmt in
      (Owned (NodeDefault DS),
       match Heap S0 back with
       | Some SS => store back (addSwitchCase (SCDefault DS) SS) S0
       | None => S0
       end)
  end.

End Switch.

(** ** [break] ([Sema::ActOnBreakStmt]) *)
Module Jump.
Import Sema.

(** Modelled from the spec: the parser's [Scope] chain is not part of
    [SemaStmt.cpp].  A scope is the body of a loop or of a switch (a
    break target), the body of a function-like construct (function,
    block, lambda, or the outlined body of a [_Cilk_for]), or any other
    block. *)
Inductive Scope : Type :=
| BreakScope
| FnScope (k : FunctionScopeKind)
| OtherScope.

(** Modelled from the spec: [Scope::getBreakParent()], for the chain of
    scopes from [CurScope] outwards: the nearest enclosing loop or switch
    scope; the search does not leave the function-like body it starts
    in, and the body of a [_Cilk_for] is such a body.  The result is the
    chain from the scope found. *)
Fixpoint getBreakParent (CurScope : list Scope) : option (list Scope) :=
  match CurScope with
  | [] => None
  | BreakScope :: _ => Some CurScope
  | FnScope _ :: _ => None
  | OtherScope :: parents => getBreakParent parents
  end.

(** The function-like body the chain starts in: the kind of
    [getCurFunction()]. *)
Fixpoint enclosingFunction (CurScope : list Scope) : option FunctionScopeKind :=
  match CurScope with
  | [] => None
  | FnScope k :: _ => Some k
  | _ :: parents => enclosingFunction parents
  end.

Definition isCilkForScopeInfo (F : FunctionScopeInfo) : bool :=
  match Kind F with SK_CilkFor => true | _ => false end.

(** [Sema::ActOnBreakStmt]. *)
Definition ActOnBreakStmt (BreakLoc : SourceLocation) (CurScope : list Scope)
  (S : State) : StmtResult * State :=
  match getBreakParent CurScope with
  | None =>
      if isCilkForScopeInfo (CurFunction S)
      then (StmtError, emit [Diag BreakLoc err_cilk_for_cannot_break] S)
      else (StmtError, emit [Diag BreakLoc err_break_not_in_loop_or_switch] S)
  | Some _ => (Owned (NodeBreak BreakLoc), S)
  end.

(** The scope chain and the analyzer state describe the same place: the
    current function scope is the one whose body the chain starts in. *)
Definition consistent (CurScope : list Scope) (S : State) : Prop :=
  enclosingFunction CurScope = Some (Kind (CurFunction S)).

(** The nearest enclosing break target is the body of a [_Cilk_for]:
    only plain blocks lie between the statement and that body, whatever
    encloses the [_Cilk_for] itself. *)
Definition directlyInCilkFor (CurScope : list Scope) : Prop :=
  exists (inner outer : list Scope),
    CurScope = inner ++ FnScope SK_CilkFor :: outer
    /\ Forall (fun s => s = OtherScope) inner.

(** No loop or switch encloses the statement at all. *)
Definition noEnclosingLoopOrSwitch (CurScope : list Scope) : Prop :=
  Forall (fun s => s <> BreakScope) CurScope.

End Jump.

(** ** Range-based [for]: [BuildNonArrayForRange] *)
Module ForRange.

Inductive BeginEndFunction : Type := BEF_begin | BEF_end.

Inductive ForRangeStatus : Type :=
| FRS_Success | FRS_NoViableFunction | FRS_DiagnosticIssued.

(** What the function does besides returning: the diagnostics it issues
    itself and the calls it makes to [BuildForRangeBeginEndCall], each
    with the member lookup result handed over (an empty one makes that
    call use argument-dependent lookup). *)
Inductive Event : Type :=
| Issued (d : Diagnostic)
| BeginEndCall (BEF : BeginEndFunction) (MemberLookup : list nat)
| BeginEndNote (BEF : BeginEndFunction).

(** The range type: [getAsCXXRecordDecl()] and, for a class, the
    declarations [LookupQualifiedName] finds for a name. *)
Record RangeType : Type := mkRangeType
  { getAsCXXRecordDecl : option (string -> list nat);
    RangeTypeName : string }.

(** The collaborators: overload resolution for the call and the
    deduction of the iterator variable's type. *)
Class Collaborators : Type := mkCollab
  { BuildForRangeBeginEndCall : BeginEndFunction -> list nat -> ForRangeStatus;
    (* true when deduction fails *)
    FinishForRangeVarDecl : BeginEndFunction -> bool }.

Definition select (BEF : BeginEndFunction) : nat :=
  match BEF with BEF_begin => 0%nat | BEF_end => 1%nat end.

Definition isEmpty (l : list nat) : bool :=
  match l with [] => true | _ :: _ => false end.

(** [BuildNonArrayForRange]: the status, the value left in [*BEF] (if
    any was written) and the events in order. *)
Definition BuildNonArrayForRange {C : Collaborators} (RangeTy : RangeType)
  (RangeLoc : SourceLocation)
  : ForRangeStatus * option BeginEndFunction * list Event :=
  let BeginMemberLookup :=
    match getAsCXXRecordDecl RangeTy with
    | Some D => D "begin"%string
    | None => []
    end in
  let EndMemberLookup :=
    match getAsCXXRecordDecl RangeTy with
    | Some D => D "end"%string
    | None => []
    end in
  let mismatch :=
    match getAsCXXRecordDecl RangeTy with
    | Some _ => negb (Bool.eqb (isEmpty BeginMemberLookup) (isEmpty EndMemberLookup))
    | None => false
    end in
  if mismatch then
    let BEF := if isEmpty BeginMemberLookup then BEF_end else BEF_begin in
    (FRS_DiagnosticIssued, Some BEF,
     [Issued (Diag RangeLoc err_for_range_member_begin_end_mismatch
                <<< ArgLocation RangeLoc
                <<< ArgString (RangeTypeName RangeTy)
                <<< ArgSelect (select BEF))])
  else
    let ev1 := [BeginEndCall BEF_begin BeginMemberLookup] in
    match BuildForRangeBeginEndCall BEF_begin BeginMemberLookup with
    | FRS_Success =>
        if FinishForRangeVarDecl BEF_begin then
          (FRS_DiagnosticIssued, Some BEF_begin, ev1 ++ [BeginEndNote BEF_begin])
        else
          let ev2 := ev1 ++ [BeginEndCall BEF_end EndMemberLookup] in
          match BuildForRangeBeginEndCall BEF_end EndMemberLookup with
          | FRS_Success =>
              if FinishForRangeVarDecl BEF_end then
                (FRS_DiagnosticIssued, Some BEF_end, ev2 ++ [BeginEndNote BEF_end])
              else (FRS_Success, Some BEF_end, ev2)
          | st => (st, Some BEF_end, ev2)
          end
    | st => (st, Some BEF_begin, ev1)
    end.

(** Modelled from the spec: the text of
    [err_for_range_member_begin_end_mismatch] is not part of
    [SemaStmt.cpp].  Its select argument is the member that was found;
    the diagnostic reports the other one of the pair as missing. *)
Definition missingMember (d : Diagnostic) : option BeginEndFunction :=
  match DID d, DArgs d with
  | err_for_range_member_begin_end_mismatch, [_; _; ArgSelect 0] => Some BEF_end
  | err_for_range_member_begin_end_mismatch, [_; _; ArgSelect 1] => Some BEF_begin
  | _, _ => None
  end.

Definition isBeginEndCall (e : Event) : bool :=
  match e with BeginEndCall _ _ => true | _ => false end.

Definition issuedDiags (ev : list Event) : list Diagnostic :=
  flat_map (fun e => match e with Issued d => [d] | _ => [] end) ev.

End ForRange.

(** ** [_Cilk_for]: condition, increment and loop count *)
Module CilkFor.

Inductive CastKind : Type :=
| CK_NoOp | CK_ConstructorConversion | CK_UserDefinedConversion
| CK_IntegralCast | CK_LValueToRValue | CK_OtherCast.

Inductive UnaryOperatorKind : Type :=
| UO_PostInc | UO_PostDec | UO_PreInc | UO_PreDec | UO_Minus | UO_LNot
| UO_OtherUnary.

Inductive BinaryOperatorKind : Type :=
| BO_Mul | BO_Div | BO_Add | BO_Sub | BO_Shl | BO_Shr
| BO_LT | BO_GT | BO_LE | BO_GE | BO_EQ | BO_NE | BO_And
| BO_Assign | BO_MulAssign | BO_AddAssign | BO_SubAssign | BO_ShlAssign
| BO_Comma.

Inductive OverloadedOperatorKind : Type :=
| OO_PlusPlus | OO_MinusMinus | OO_PlusEqual | OO_MinusEqual
| OO_Less | OO_Greater | OO_LessEqual | OO_GreaterEqual
| OO_ExclaimEqual | OO_EqualEqual | OO_StarEqual | OO_Call.

(** The two types a loop count is converted to. *)
Inductive CountType : Type := UnsignedIntTy | UnsignedLongLongTy.

(** An integer type, as far as the value of an expression depends on
    it: [Context.getTypeSize] and the signedness. *)
Record IntType : Type := mkInt { Width : N; Signed : bool }.

(** [Context.IntTy], of 32 bits. *)
Definition IntTy : IntType := mkInt 32 true.

Definition countType (T : CountType) : IntType :=
  match T with
  | UnsignedIntTy => mkInt 32 false
  | UnsignedLongLongTy => mkInt 64 false
  end.

(** Expressions: the node classes the three checks tell apart, the nodes
    the builder creates, and [OtherExpr] for any other expression.  An
    [IntegerLiteral] has the type [int], as the literals of
    [ActOnIntegerConstant] have. *)
Inductive Expr : Type :=
| DeclRefExpr (D : nat)
| IntegerLiteral (v : Z)
| ParenExpr (e : Expr)
| CastExpr (implicit : bool) (k : CastKind) (sameRepresentation : bool) (e : Expr)
| ExprWithCleanups (e : Expr)
| CXXBindTemporaryExpr (e : Expr)
| MaterializeTemporaryExpr (e : Expr)
| CXXConstructExpr (isConvertingConstructor : bool) (args : list Expr)
| CXXMemberCallExpr (isConversion : bool) (ImplicitObjectArgument : Expr)
| UnaryOperator (op : UnaryOperatorKind) (e : Expr)
| BinaryOperator (op : BinaryOperatorKind) (l r : Expr)
| ConditionalOperator (c a b : Expr)
| CXXOperatorCallExpr (op : OverloadedOperatorKind) (args : list Expr)
| IntegralCastTo (T : CountType) (e : Expr)
| OtherExpr (id : nat).

Record VarDecl : Type := mkVar
  { VarId : nat;
    VarIsDependentType : bool;
    VarIsReferenceType : bool }.

(** Expression analysis, as far as the builder consults it. *)
Class ExprAnalysis : Type := mkExprAnalysis
  { getExprLoc : Expr -> SourceLocation;
    getLocStart : Expr -> SourceLocation;
    getLocEnd : Expr -> SourceLocation;
    (* BinaryOperator::getOperatorLoc, CXXOperatorCallExpr::getOperatorLoc *)
    getOperatorLoc : Expr -> SourceLocation;
    (* getType()->isIntegralOrEnumerationType() *)
    hasIntegralOrEnumerationType : Expr -> bool;
    (* getType()->isDependentType() *)
    hasDependentType : Expr -> bool;
    (* EvaluateAsInt *)
    EvaluateAsInt : Expr -> option APSInt.t;
    (* BuildBinOp(BO_Sub, End, Begin) is valid *)
    differenceIsValid : Expr -> Expr -> bool;
    (* getType() of a reference to a declaration, of a cast and of any
       other expression that is not built from operands *)
    getType : Expr -> IntType;
    (* getType() as streamed into a diagnostic *)
    getTypeAsString : Expr -> string }.

(** [getSourceRange()] streamed into a diagnostic. *)
Definition SourceRangeOf {A : ExprAnalysis} (E : Expr) : DiagArg :=
  ArgSourceRange (getLocStart E) (getLocEnd E).

Definition isCompoundAssignmentOp (op : BinaryOperatorKind) : bool :=
  match op with
  | BO_MulAssign | BO_AddAssign | BO_SubAssign | BO_ShlAssign => true
  | _ => false
  end.

Definition isAdditiveAssignOp (op : BinaryOperatorKind) : bool :=
  match op with BO_AddAssign | BO_SubAssign => true | _ => false end.

(** [BinaryOperator::getOverloadedOpcode]; [BO_Comma] stands for an
    opcode that is not one of the comparisons. *)
Definition getOverloadedOpcode (op : OverloadedOperatorKind) : BinaryOperatorKind :=
  match op with
  | OO_Less => BO_LT
  | OO_Greater => BO_GT
  | OO_LessEqual => BO_LE
  | OO_GreaterEqual => BO_GE
  | OO_ExclaimEqual => BO_NE
  | OO_EqualEqual => BO_EQ
  | OO_PlusEqual => BO_AddAssign
  | OO_MinusEqual => BO_SubAssign
  | OO_StarEqual => BO_MulAssign
  | OO_PlusPlus | OO_MinusMinus | OO_Call => BO_Comma
  end.

Fixpoint IgnoreParens (e : Expr) : Expr :=
  match e with
  | ParenExpr x => IgnoreParens x
  | _ => e
  end.

Fixpoint IgnoreImpCasts (e : Expr) : Expr :=
  match e with
  | CastExpr true _ _ x => IgnoreImpCasts x
  | _ => e
  end.

(** [ExtractCilkForCondition]: the operator, its location and the two
    operands, with the warnings issued on the way; [None] with the error
    when the condition is not a comparison. *)
Fixpoint ExtractCilkForCondition {A : ExprAnalysis} (Cond : Expr)
  : option (BinaryOperatorKind * SourceLocation * Expr * Expr) * list Diagnostic :=
  let invalid :=
    (None, [Diag (getExprLoc Cond) err_cilk_for_invalid_cond_expr
              <<< SourceRangeOf Cond]) in
  match Cond with
  | BinaryOperator op l r => (Some (op, getOperatorLoc Cond, l, r), [])
  | CXXOperatorCallExpr OO args =>
      match args with
      | [a0; a1] => (Some (getOverloadedOpcode OO, getOperatorLoc Cond, a0, a1), [])
      | _ => invalid
      end
  | CastExpr true k _ sub =>
      let w :=
        match k with
        | CK_ConstructorConversion =>
            [Diag (getExprLoc Cond) warn_cilk_for_cond_user_defined_conv
               <<< ArgBool false <<< SourceRangeOf Cond]
        | CK_UserDefinedConversion =>
            [Diag (getExprLoc Cond) warn_cilk_for_cond_user_defined_conv
               <<< ArgBool true <<< SourceRangeOf Cond]
        | _ => []
        end in
      let '(r, d) := ExtractCilkForCondition sub in (r, w ++ d)
  | CXXMemberCallExpr true obj => ExtractCilkForCondition obj
  | CXXBindTemporaryExpr sub => ExtractCilkForCondition sub
  | ExprWithCleanups sub => ExtractCilkForCondition sub
  | _ => invalid
  end.

(** [IsCilkForControlVarRef]: the answer and the value left in
    [HasCast].  [IgnoreParenNoopCasts] skips parentheses and the casts
    that keep the representation. *)
Fixpoint IsCilkForControlVarRef (E : Expr) (ControlVar : VarDecl)
  (HasCast : CastKind) : bool * CastKind :=
  match E with
  | ParenExpr x => IsCilkForControlVarRef x ControlVar HasCast
  | CastExpr _ k same x =>
      if same then IsCilkForControlVarRef x ControlVar HasCast
      else IsCilkForControlVarRef x ControlVar k
  | CXXConstructExpr conv args =>
      if conv then
        match args with
        | a0 :: _ => IsCilkForControlVarRef a0 ControlVar CK_ConstructorConversion
        | [] => (false, CK_ConstructorConversion)
        end
      else (false, HasCast)
  | MaterializeTemporaryExpr x => IsCilkForControlVarRef x ControlVar HasCast
  | DeclRefExpr D => (Nat.eqb D (VarId ControlVar), HasCast)
  | _ => (false, HasCast)
  end.

(** The [switch (HasCast)] at the end of
    [CanonicalizeCilkForCondOperands]. *)
Definition userConversionWarning {A : ExprAnalysis} (HasCast : CastKind)
  (LHS : Expr) : list Diagnostic :=
  match HasCast with
  | CK_ConstructorConversion =>
      [Diag (getLocStart LHS) warn_cilk_for_cond_user_defined_conv
         <<< ArgBool false <<< SourceRangeOf LHS]
  | CK_UserDefinedConversion =>
      [Diag (getLocStart LHS) warn_cilk_for_cond_user_defined_conv
         <<< ArgBool true <<< SourceRangeOf LHS]
  | _ => []
  end.

(** [CanonicalizeCilkForCondOperands]: on success the operands with the
    control variable on the left, and the direction. *)
Definition CanonicalizeCilkForCondOperands {A : ExprAnalysis}
  (ControlVar : VarDecl) (Cond LHS RHS : Expr) (Direction : Z)
  : option (Expr * Expr * Z) * list Diagnostic :=
  let '(isL, castL) := IsCilkForControlVarRef LHS ControlVar CK_NoOp in
  if isL then (Some (LHS, RHS, Direction), userConversionWarning castL LHS)
  else
    let '(isR, castR) := IsCilkForControlVarRef RHS ControlVar CK_NoOp in
    if isR then
      (* std::swap(LHS, RHS); Direction = -Direction; *)
      (Some (RHS, LHS, - Direction), userConversionWarning castR RHS)
    else
      (None,
       [Diag (getLocStart Cond) err_cilk_for_cond_test_control_var
          <<< ArgNamedDecl (VarId ControlVar) <<< SourceRangeOf Cond;
        Diag (getLocStart Cond) note_cilk_for_cond_allowed
          <<< ArgNamedDecl (VarId ControlVar)]).

(** [CheckCilkForCondition]: [Limit], [Direction] and [Opcode] when
    [Limit] was set; [None] when the function returns with [Limit] still
    null (the caller then gives up without reading the other two). *)
Definition CheckCilkForCondition {A : ExprAnalysis} (ControlVar : VarDecl)
  (Cond : Expr)
  : option (Expr * Z * BinaryOperatorKind) * list Diagnostic :=
  match ExtractCilkForCondition Cond with
  | (None, d) => (None, d)
  | (Some (Opcode, OpLoc, LHS, RHS), d) =>
      let dir : option Z :=
        match Opcode with
        | BO_NE => Some 0
        | BO_LT | BO_LE => Some 1
        | BO_GT | BO_GE => Some (-1)
        | _ => None
        end in
      match dir with
      | None =>
          (None, d ++ [Diag OpLoc err_cilk_for_invalid_cond_operator])
      | Some Direction =>
          match CanonicalizeCilkForCondOperands ControlVar Cond LHS RHS Direction with
          | (None, d') => (None, d ++ d')
          | (Some (_, RHS', Direction'), d') =>
              (Some (RHS', Direction', Opcode), d ++ d')
          end
      end
  end.

(** [CheckIncrementVar]. *)
Definition CheckIncrementVar {A : ExprAnalysis} (OpSubExpr : Expr)
  (ControlVar : VarDecl) : bool * list Diagnostic :=
  match IgnoreImpCasts OpSubExpr with
  | DeclRefExpr D =>
      if Nat.eqb D (VarId ControlVar) then (true, [])
      else (false,
            [Diag (getExprLoc (IgnoreImpCasts OpSubExpr))
                  err_cilk_for_increment_not_control_var
               <<< ArgNamedDecl (VarId ControlVar)])
  | _ => (false, [])
  end.

Record Increment : Type := mkIncrement
  { HasConstantIncrement : bool;
    Stride : APSInt.t;
    StrideExpr : Expr;
    RHSLoc : SourceLocation }.

(** A default-constructed [llvm::APSInt]: one bit, signed, zero. *)
Definition defaultAPSInt : APSInt.t := APSInt.mk 1 0 false.

(** [ActOnIntegerConstant]. *)
Definition ActOnIntegerConstant (v : Z) : Expr := IntegerLiteral v.

(** [BuildUnaryOp], [BuildBinOp], [CreateBuiltinBinOp] and
    [ActOnConditionalOp] as the nodes they build.  The conversions of
    the operands to the type of the operation are part of the value of
    the node ([eval] below). *)
Definition BuildUnaryOp (op : UnaryOperatorKind) (e : Expr) : Expr := UnaryOperator op e.
Definition BuildBinOp (op : BinaryOperatorKind) (l r : Expr) : Expr := BinaryOperator op l r.
Definition ActOnConditionalOp (c a b : Expr) : Expr := ConditionalOperator c a b.

(** The stride of [++] and [--]. *)
Definition unitStride (increment : bool) : Increment :=
  mkIncrement true
    (APSInt.make 64 (if increment then 1 else -1) false)
    (if increment then ActOnIntegerConstant 1
     else BuildUnaryOp UO_Minus (ActOnIntegerConstant 1))
    0.

(** The tail of [IsValidCilkForIncrement], from [if (RHS)] on;
    [OperatorName] comes with the right-hand side. *)
Definition checkIncrementRHS {A : ExprAnalysis} (Inc : Expr)
  (RHS : option (Expr * Z * string)) : option Increment * list Diagnostic :=
  match RHS with
  | Some (R, Direction, OperatorName) =>
      if negb (hasIntegralOrEnumerationType R) then
        (None, [Diag (getExprLoc Inc) err_cilk_for_invalid_increment_rhs
                  <<< ArgString OperatorName])
      else
        let '(const, S0) :=
          match EvaluateAsInt R with
          | Some v => (true, v)
          | None => (false, defaultAPSInt)
          end in
        if Direction =? -1 then
          (Some (mkIncrement const (APSInt.neg S0) (BuildUnaryOp UO_Minus R)
                             (getExprLoc R)), [])
        else (Some (mkIncrement const S0 R (getExprLoc R)), [])
  | None => (None, [Diag (getExprLoc Inc) err_cilk_for_invalid_increment])
  end.

(** [IsValidCilkForIncrement]: [None] is [false]. *)
Definition IsValidCilkForIncrement {A : ExprAnalysis} (Increment0 : Expr)
  (ControlVar : VarDecl) : option Increment * list Diagnostic :=
  let Inc :=
    match IgnoreParens Increment0 with
    | ExprWithCleanups e => e
    | e => e
    end in
  match Inc with
  | UnaryOperator op sub =>
      match CheckIncrementVar sub ControlVar with
      | (false, d) => (None, d)
      | (true, d) =>
          match op with
          | UO_PostInc | UO_PreInc => (Some (unitStride true), d)
          | UO_PostDec | UO_PreDec => (Some (unitStride false), d)
          | _ =>
              let '(r, d') := checkIncrementRHS Inc None in (r, d ++ d')
          end
      end
  | CXXOperatorCallExpr OO args =>
      match OO with
      | OO_PlusPlus => (Some (unitStride true), [])
      | OO_MinusMinus => (Some (unitStride false), [])
      | _ =>
          let RHS :=
            match OO, args with
            | OO_PlusEqual, _ :: a1 :: _ => Some (a1, 1, "+="%string)
            | OO_MinusEqual, _ :: a1 :: _ => Some (a1, -1, "-="%string)
            | _, _ => None
            end in
          match args with
          | a0 :: _ =>
              match CheckIncrementVar a0 ControlVar with
              | (false, d) => (None, d)
              | (true, d) =>
                  let '(r, d') := checkIncrementRHS Inc RHS in (r, d ++ d')
              end
          | [] => (None, [])
          end
      end
  | BinaryOperator op l r =>
      if isCompoundAssignmentOp op then
        match CheckIncrementVar l ControlVar with
        | (false, d) => (None, d)
        | (true, d) =>
            let RHS :=
              if isAdditiveAssignOp op
              then Some match op with
                        | BO_AddAssign => (r, 1, "+="%string)
                        | _ => (r, -1, "-="%string)
                        end
              else None in
            let '(res, d') := checkIncrementRHS Inc RHS in (res, d ++ d')
        end
      else checkIncrementRHS Inc None
  | _ => checkIncrementRHS Inc None
  end.

Inductive CilkForResult : Type :=
| StmtError
| Owned (LoopCount : Expr) (StrideExpr : Expr).

(** *** The types of the nodes built

    Modelled from the spec: [BuildUnaryOp], [BuildBinOp] and
    [ActOnConditionalOp] are not part of [SemaStmt.cpp]; they give a
    node the type that the integer promotions and the usual arithmetic
    conversions of the language give the operation. *)

(** The integer promotion: a type narrower than [int] becomes [int]. *)
Definition promote (T : IntType) : IntType :=
  if (Width T <? Width IntTy)%N then IntTy else T.

(** The usual arithmetic conversions: the common type of two operands. *)
Definition common (T1 T2 : IntType) : IntType :=
  let a := promote T1 in
  let b := promote T2 in
  if Bool.eqb (Signed a) (Signed b) then
    if (Width a <? Width b)%N then b else a
  else
    let s := if Signed a then a else b in
    let u := if Signed a then b else a in
    if (Width s <=? Width u)%N then u else s.

Definition isComparisonOp (op : BinaryOperatorKind) : bool :=
  match op with
  | BO_LT | BO_GT | BO_LE | BO_GE | BO_EQ | BO_NE => true
  | _ => false
  end.

(** [E->getType()]. *)
Fixpoint typeOf {A : ExprAnalysis} (e : Expr) : IntType :=
  match e with
  | IntegerLiteral _ => IntTy
  | ParenExpr x => typeOf x
  | ExprWithCleanups x => typeOf x
  | CXXBindTemporaryExpr x => typeOf x
  | MaterializeTemporaryExpr x => typeOf x
  | UnaryOperator UO_Minus x => promote (typeOf x)
  | UnaryOperator UO_LNot _ => IntTy
  | BinaryOperator op l r =>
      match op with
      | BO_Mul | BO_Div | BO_Add | BO_Sub | BO_And => common (typeOf l) (typeOf r)
      | BO_Shl | BO_Shr => promote (typeOf l)
      | BO_LT | BO_GT | BO_LE | BO_GE | BO_EQ | BO_NE => IntTy
      | BO_Assign | BO_MulAssign | BO_AddAssign | BO_SubAssign | BO_ShlAssign =>
          typeOf l
      | BO_Comma => typeOf r
      end
  | ConditionalOperator _ a b => common (typeOf a) (typeOf b)
  | IntegralCastTo T _ => countType T
  | _ => getType e
  end.

(** [Context.getTypeSize(E->getType())]. *)
Definition getTypeSize {A : ExprAnalysis} (e : Expr) : N := Width (typeOf e).

(** The loop count expression of the table in [ActOnCilkForStmt]. *)
Definition buildLoopCount (Opcode : BinaryOperatorKind) (CondDirection : Z)
  (Span StrideExpr : Expr) : Expr :=
  (* Build "-stride" *)
  let NegativeStride := BuildUnaryOp UO_Minus StrideExpr in
  (* Build "stride-1" *)
  let StrideMinusOne :=
    BuildBinOp BO_Sub
      (if CondDirection =? 1 then StrideExpr else NegativeStride)
      (ActOnIntegerConstant 1) in
  match Opcode with
  | BO_NE =>
      (* Build "stride<0" *)
      let StrideLessThanZero :=
        BuildBinOp BO_LT StrideExpr (ActOnIntegerConstant 0) in
      (* Build "(stride<0)?-stride:stride" *)
      let StrideCondExpr :=
        ActOnConditionalOp StrideLessThanZero NegativeStride StrideExpr in
      (* Build "-span" *)
      let NegativeSpan := BuildUnaryOp UO_Minus Span in
      (* Updating span to be "(stride<0)?-span:span" *)
      let Span1 := ActOnConditionalOp StrideLessThanZero NegativeSpan Span in
      (* Build "span/(stride<0)?-stride:stride" *)
      BuildBinOp BO_Div Span1 StrideCondExpr
  | _ =>
      (* Updating span to be "span+(stride-1)" *)
      let Span1 := BuildBinOp BO_Add Span StrideMinusOne in
      let Span2 :=
        match Opcode with
        | BO_LE | BO_GE =>
            (* Updating span to be "span+1" *)
            BuildBinOp BO_Add Span1 (ActOnIntegerConstant 1)
        | _ => Span1
        end in
      (* Build "span/stride" if CondDirection==1, otherwise "span/-stride" *)
      BuildBinOp BO_Div Span2
        (if CondDirection =? 1 then StrideExpr else NegativeStride)
  end.

(** [Sema::ActOnCilkForStmt].  [ControlVar] is the variable
    [CheckCilkForInitStmt] hands back, [None] when that check fails; the
    advisory checks on the three clauses and the body are left out. *)
Definition ActOnCilkForStmt {A : ExprAnalysis} (CilkForLoc : SourceLocation)
  (ControlVar : option VarDecl) (Second Third : Expr)
  : CilkForResult * list Diagnostic :=
  match ControlVar with
  | None => (StmtError, [])
  | Some CV =>
      if VarIsDependentType CV then (StmtError, [])
      else if VarIsReferenceType CV then (StmtError, [])
      else
        match CheckCilkForCondition CV Second with
        | (None, d) => (StmtError, d)
        | (Some (Limit, CondDirection, Opcode), d) =>
            if hasDependentType Limit then (StmtError, d)
            else
              match IsValidCilkForIncrement Third CV with
              | (None, d') => (StmtError, d ++ d')
              | (Some Incr, d') =>
                  if HasConstantIncrement Incr && APSInt.isZero (Stride Incr) then
                    (StmtError,
                     d ++ d' ++ [Diag (RHSLoc Incr) err_cilk_for_increment_zero])
                  else if HasConstantIncrement Incr
                          && (((CondDirection >? 0) && APSInt.isNegative (Stride Incr))
                              || ((CondDirection <? 0)
                                  && APSInt.isStrictlyPositive (Stride Incr)))
                  then
                    (StmtError,
                     d ++ d'
                       ++ [Diag (getExprLoc Third) err_cilk_for_increment_inconsistent
                             <<< ArgBool (CondDirection >? 0);
                           Diag (getExprLoc Third) note_cilk_constant_stride
                             <<< ArgString (APSInt.toStringSigned (Stride Incr) true)
                             <<< ArgSourceRange (getExprLoc Third) (getLocEnd Third)])
                  else
                    (* Build end - begin *)
                    let Begin0 := DeclRefExpr (VarId CV) in
                    let End0 := Limit in
                    let '(Begin, End') :=
                      if CondDirection <? 0 then (End0, Begin0)
                      else (Begin0, End0) in
                    if negb (differenceIsValid End' Begin) then
                      (StmtError,
                       d ++ d'
                         ++ [Diag CilkForLoc err_cilk_for_difference_ill_formed;
                             Diag (getLocStart Begin) note_cilk_for_begin_expr
                               <<< SourceRangeOf Begin;
                             Diag (getLocStart End') note_cilk_for_end_expr
                               <<< SourceRangeOf End'])
                    else
                      let Span := BuildBinOp BO_Sub End' Begin in
                      if negb (hasIntegralOrEnumerationType Span) then
                        (StmtError,
                         d ++ d'
                           ++ [Diag CilkForLoc err_non_integral_cilk_for_difference_type
                                 <<< ArgString (getTypeAsString Span);
                               Diag (getLocStart Begin) note_cilk_for_begin_expr
                                 <<< SourceRangeOf Begin;
                               Diag (getLocStart End') note_cilk_for_end_expr
                                 <<< SourceRangeOf End'])
                      else
                        let LoopCount :=
                          buildLoopCount Opcode CondDirection Span (StrideExpr Incr) in
                        (* Loop count should be either u32 or u64 *)
                        let LoopCountType :=
                          if (64 <? getTypeSize LoopCount)%N then UnsignedLongLongTy
                          else if (getTypeSize LoopCount <=? 32)%N then UnsignedIntTy
                          else UnsignedLongLongTy in
                        (* Implicitly casting LoopCount to u32/u64 *)
                        (Owned (IntegralCastTo LoopCountType LoopCount) (StrideExpr Incr),
                         d ++ d')
              end
        end
  end.

(** *** The value of an expression

    Modelled from the spec: the value an expression has when the program
    runs, in the arithmetic of its type.  A value is the integer it
    denotes; an operation converts its operands to the type of the
    operation and reduces its result modulo 2 to the width of that type,
    in two's complement when the type is signed; [/] truncates toward
    zero and a comparison yields 1 or 0.  Calls, constructions and
    assignments have no value here. *)

Record Env : Type := mkEnv
  { var : nat -> Z;
    opaque : nat -> option Z }.

Definition setVar (rho : Env) (D : nat) (v : Z) : Env :=
  mkEnv (fun x => if Nat.eqb x D then v else var rho x) (opaque rho).

Definition countBits (T : CountType) : Z :=
  match T with UnsignedIntTy => 32 | UnsignedLongLongTy => 64 end.

Definition b2z (b : bool) : Z := if b then 1 else 0.

(** The value of type [T] that is congruent to [z] modulo 2 to the
    width of [T]. *)
Definition wrap (T : IntType) (z : Z) : Z :=
  APSInt.value (APSInt.make (Width T) z (negb (Signed T))).

(** [z] is a value of type [T]. *)
Definition fits (T : IntType) (z : Z) : bool := wrap T z =? z.

(** A binary operation in the type [T], on operands of that type. *)
Definition evalBinary (T : IntType) (op : BinaryOperatorKind) (x y : Z) : option Z :=
  match op with
  | BO_Mul => Some (wrap T (x * y))
  | BO_Div => if y =? 0 then None else Some (wrap T (Z.quot x y))
  | BO_Add => Some (wrap T (x + y))
  | BO_Sub => Some (wrap T (x - y))
  | BO_LT => Some (b2z (x <? y))
  | BO_GT => Some (b2z (x >? y))
  | BO_LE => Some (b2z (x <=? y))
  | BO_GE => Some (b2z (x >=? y))
  | BO_EQ => Some (b2z (x =? y))
  | BO_NE => Some (b2z (negb (x =? y)))
  | _ => None
  end.

Fixpoint eval {A : ExprAnalysis} (rho : Env) (e : Expr) : option Z :=
  match e with
  | DeclRefExpr D => Some (wrap (typeOf e) (var rho D))
  | IntegerLiteral v => Some (wrap IntTy v)
  | ParenExpr x => eval rho x
  | CastExpr _ _ _ x => option_map (wrap (typeOf e)) (eval rho x)
  | ExprWithCleanups x => eval rho x
  | CXXBindTemporaryExpr x => eval rho x
  | MaterializeTemporaryExpr x => eval rho x
  | UnaryOperator UO_Minus x =>
      option_map (fun z => wrap (typeOf e) (- wrap (typeOf e) z)) (eval rho x)
  | UnaryOperator UO_LNot x => option_map (fun z => b2z (z =? 0)) (eval rho x)
  | BinaryOperator op l r =>
      match eval rho l, eval rho r with
      | Some x, Some y =>
          let T := common (typeOf l) (typeOf r) in
          evalBinary T op (wrap T x) (wrap T y)
      | _, _ => None
      end
  | ConditionalOperator c a b =>
      match eval rho c with
      | Some z =>
          option_map (wrap (typeOf e)) (if z =? 0 then eval rho b else eval rho a)
      | None => None
      end
  | IntegralCastTo T x => option_map (wrap (countType T)) (eval rho x)
  | OtherExpr id => option_map (wrap (typeOf e)) (opaque rho id)
  | _ => None
  end.

(** A plain analysis for integer loops written with literals: every
    expression has type [int], and [EvaluateAsInt] folds literals and
    their negation. *)
Fixpoint foldLiteral (e : Expr) : option Z :=
  match e with
  | IntegerLiteral v => Some v
  | ParenExpr x => foldLiteral x
  | UnaryOperator UO_Minus x => option_map Z.opp (foldLiteral x)
  | _ => None
  end.

#[export] Instance IntAnalysis : ExprAnalysis :=
  mkExprAnalysis (fun _ => 0) (fun _ => 0) (fun _ => 0) (fun _ => 0)
    (fun _ => true) (fun _ => false)
    (fun e => option_map (fun v => APSInt.make 32 v false) (foldLiteral e))
    (fun _ _ => true) (fun _ => IntTy) (fun _ => "int"%string).

(** The loop count of [_Cilk_for (i = ...; Cond; Inc)] over the control
    variable 0, with the control variable holding [v0] after the
    initialization. *)
Definition loopCountOf (Cond Inc : Expr) (v0 : Z) : option Z :=
  match ActOnCilkForStmt 0 (Some (mkVar 0 false false)) Cond Inc with
  | (Owned LoopCount _, _) => eval (mkEnv (fun _ => v0) (fun _ => None)) LoopCount
  | (StmtError, _) => None
  end.

End CilkFor.

(** ** What the specification says of a parallel loop, and concrete loops *)
Module CilkForSpec.
Import CilkFor.

(** *** The loop read over the integers

    The mathematically exact number of iterations is the one of the
    loop whose clauses are read over the integers: no operation
    overflows and a conversion keeps the value. *)

Definition idealBinary (op : BinaryOperatorKind) (x y : Z) : option Z :=
  match op with
  | BO_Mul => Some (x * y)
  | BO_Div => if y =? 0 then None else Some (Z.quot x y)
  | BO_Add => Some (x + y)
  | BO_Sub => Some (x - y)
  | BO_LT => Some (b2z (x <? y))
  | BO_GT => Some (b2z (x >? y))
  | BO_LE => Some (b2z (x <=? y))
  | BO_GE => Some (b2z (x >=? y))
  | BO_EQ => Some (b2z (x =? y))
  | BO_NE => Some (b2z (negb (x =? y)))
  | _ => None
  end.

Fixpoint ideal (rho : Env) (e : Expr) : option Z :=
  match e with
  | DeclRefExpr D => Some (var rho D)
  | IntegerLiteral v => Some v
  | ParenExpr x => ideal rho x
  | CastExpr _ _ _ x => ideal rho x
  | ExprWithCleanups x => ideal rho x
  | CXXBindTemporaryExpr x => ideal rho x
  | MaterializeTemporaryExpr x => ideal rho x
  | UnaryOperator UO_Minus x => option_map Z.opp (ideal rho x)
  | UnaryOperator UO_LNot x => option_map (fun z => b2z (z =? 0)) (ideal rho x)
  | BinaryOperator op l r =>
      match ideal rho l, ideal rho r with
      | Some x, Some y => idealBinary op x y
      | _, _ => None
      end
  | ConditionalOperator c a b =>
      match ideal rho c with
      | Some z => if z =? 0 then ideal rho b else ideal rho a
      | None => None
      end
  | IntegralCastTo T x => ideal rho x
  | OtherExpr id => opaque rho id
  | _ => None
  end.

(** No operation of [e] overflows: every operand, before and after its
    conversion to the type of the operation, and every result is a value
    of the type it has, so that it is the value the expression has over
    the integers. *)
Fixpoint noOverflow {A : ExprAnalysis} (rho : Env) (e : Expr) : bool :=
  match e with
  | DeclRefExpr D => fits (typeOf e) (var rho D)
  | IntegerLiteral v => fits IntTy v
  | ParenExpr x => noOverflow rho x
  | CastExpr _ _ _ x =>
      noOverflow rho x
      && match ideal rho x with
         | Some z => fits (typeOf e) z
         | None => false
         end
  | ExprWithCleanups x => noOverflow rho x
  | CXXBindTemporaryExpr x => noOverflow rho x
  | MaterializeTemporaryExpr x => noOverflow rho x
  | UnaryOperator UO_Minus x =>
      noOverflow rho x
      && match ideal rho x with
         | Some z => fits (typeOf e) z && fits (typeOf e) (- z)
         | None => false
         end
  | UnaryOperator UO_LNot x => noOverflow rho x
  | BinaryOperator op l r =>
      noOverflow rho l && noOverflow rho r
      && match ideal rho l, ideal rho r with
         | Some x, Some y =>
             let T := common (typeOf l) (typeOf r) in
             fits T x && fits T y
             && match idealBinary op x y with
                | Some z => if isComparisonOp op then true else fits T z
                | None => false
                end
         | _, _ => false
         end
  | ConditionalOperator c a b =>
      noOverflow rho c
      && match ideal rho c with
         | Some z =>
             if z =? 0 then
               noOverflow rho b
               && match ideal rho b with
                  | Some y => fits (typeOf e) y
                  | None => false
                  end
             else
               noOverflow rho a
               && match ideal rho a with
                  | Some x => fits (typeOf e) x
                  | None => false
                  end
         | None => false
         end
  | IntegralCastTo T x =>
      noOverflow rho x
      && match ideal rho x with
         | Some z => fits (typeOf e) z
         | None => false
         end
  | OtherExpr id =>
      match opaque rho id with
      | Some z => fits (typeOf e) z
      | None => false
      end
  | _ => false
  end.

(** The expression under the conversion of the loop count to its
    unsigned type; that conversion is not an operation of the count. *)
Definition countOperand (e : Expr) : Expr :=
  match e with
  | IntegralCastTo _ x => x
  | _ => e
  end.

(** The truth of the loop condition when the control variable holds
    [v]. *)
Definition test (rho : Env) (D : nat) (Cond : Expr) (v : Z) : option bool :=
  option_map (fun z => negb (z =? 0)) (ideal (setVar rho D v) Cond).

Fixpoint stripIncrement (e : Expr) : Expr :=
  match e with
  | ParenExpr x => stripIncrement x
  | ExprWithCleanups x => stripIncrement x
  | _ => e
  end.

Definition refersTo (e : Expr) (D : nat) : bool :=
  match IgnoreImpCasts e with
  | DeclRefExpr D' => Nat.eqb D' D
  | _ => false
  end.

(** The value the built-in increment leaves in the control variable
    that held [v]. *)
Definition next (rho : Env) (D : nat) (Inc : Expr) (v : Z) : option Z :=
  match stripIncrement Inc with
  | UnaryOperator op x =>
      if refersTo x D then
        match op with
        | UO_PostInc | UO_PreInc => Some (v + 1)
        | UO_PostDec | UO_PreDec => Some (v - 1)
        | _ => None
        end
      else None
  | BinaryOperator op l r =>
      if refersTo l D then
        match op, ideal (setVar rho D v) r with
        | BO_AddAssign, Some z => Some (v + z)
        | BO_SubAssign, Some z => Some (v - z)
        | _, _ => None
        end
      else None
  | _ => None
  end.

(** [Iterates t n v k]: started with the control variable at [v], the
    loop with test [t] and increment [n] runs its body exactly [k]
    times and then leaves. *)
Inductive Iterates (t : Z -> option bool) (n : Z -> option Z) : Z -> nat -> Prop :=
| Iterates_leave : forall v, t v = Some false -> Iterates t n v O
| Iterates_body : forall v v' k,
    t v = Some true -> n v = Some v' -> Iterates t n v' k ->
    Iterates t n v (S k).

(** The same run, computed with a bound on the number of steps. *)
Fixpoint run (t : Z -> option bool) (n : Z -> option Z) (fuel : nat) (v : Z) : option nat :=
  match fuel with
  | O => None
  | S f =>
      match t v with
      | Some false => Some O
      | Some true =>
          match n v with
          | Some v' => option_map S (run t n f v')
          | None => None
          end
      | None => None
      end
  end.

(** The five comparisons a [_Cilk_for] condition may use. *)
Definition compare (op : BinaryOperatorKind) (x y : Z) : bool :=
  match op with
  | BO_LT => x <? y
  | BO_GT => y <? x
  | BO_LE => x <=? y
  | BO_GE => y <=? x
  | BO_NE => negb (x =? y)
  | _ => false
  end.

(** The control variable [i] and the clauses of the loops of the
    specification. *)
Definition i : Expr := DeclRefExpr 0.
Definition control : VarDecl := mkVar 0 false false.
Definition noOther : Env := mkEnv (fun _ => 0) (fun _ => None).

(** [i < 10; ++i], [i > 0; --i], [i <= 9; i += 3], [i < 0; ++i],
    [i != 10; i += 3], and [i < 2147483647] with [i += 2] and with
    [i += 1073741824]. *)
Definition less10 : Expr := BinaryOperator BO_LT i (IntegerLiteral 10).
Definition greater0 : Expr := BinaryOperator BO_GT i (IntegerLiteral 0).
Definition atMost9 : Expr := BinaryOperator BO_LE i (IntegerLiteral 9).
Definition less0 : Expr := BinaryOperator BO_LT i (IntegerLiteral 0).
Definition differs10 : Expr := BinaryOperator BO_NE i (IntegerLiteral 10).
Definition lessMax : Expr := BinaryOperator BO_LT i (IntegerLiteral 2147483647).
Definition plusPlus : Expr := UnaryOperator UO_PreInc i.
Definition minusMinus : Expr := UnaryOperator UO_PreDec i.
Definition plus3 : Expr := BinaryOperator BO_AddAssign i (IntegerLiteral 3).
Definition plus2 : Expr := BinaryOperator BO_AddAssign i (IntegerLiteral 2).
Definition plusHalf : Expr := BinaryOperator BO_AddAssign i (IntegerLiteral 1073741824).

(** The number of times the body of [for (i = v0; Cond; Inc)] runs,
    found by running the loop for at most [fuel] steps. *)
Definition iterations (fuel : nat) (Cond Inc : Expr) (v0 : Z) : option nat :=
  run (test noOther 0 Cond) (next noOther 0 Inc) fuel v0.

(** Whether every operation of the loop count of
    [for (i = v0; Cond; Inc)] stays in its type. *)
Definition countInRange (Cond Inc : Expr) (v0 : Z) : option bool :=
  match ActOnCilkForStmt 0 (Some control) Cond Inc with
  | (Owned LoopCount _, _) => Some (noOverflow (setVar noOther 0 v0) LoopCount)
  | (StmtError, _) => None
  end.

End CilkForSpec.

(** ** What the specification says of a case list

    The notions the specification uses, stated over the labels of a
    switch: the converted values of its singleton labels and of its
    ranges, what it is for the list to be malformed, and what it is for
    an enumerator to be covered. *)
Module SwitchSpec.
Import Sema Switch.

(** Two entries of a list, at different places, in the order they have
    in the list. *)
Definition twoOf {X : Type} (l : list X) (x y : X) : Prop :=
  exists l1 l2 l3, l = l1 ++ x :: l2 ++ y :: l3.

(** A label of the switch has a dependent value. *)
Definition labelDependent (c : SwitchCase) : bool :=
  match c with
  | SCDefault _ => false
  | SCCase CS =>
      isDependent (getLHS CS)
      || match getRHS CS with
         | Some Hi => isDependent Hi
         | None => false
         end
  end.

(** Neither the condition nor a label is dependent, and the condition
    has the integral or enumeration type [ActOnStartOfSwitchStmt] gave
    it. *)
Definition nonDependent (CondExpr : Expr) (cases : list SwitchCase) : bool :=
  negb (isDependent CondExpr)
  && isIntegralOrEnumerationType (getType (info CondExpr))
  && forallb (fun c => negb (labelDependent c)) cases.

Section Converted.
Variables (cpp11 : bool) (CondType : QualType) (W : N) (Sg : bool).

(** The value of a label expression after conversion to the width and
    signedness the condition had before promotion. *)
Definition converted (E : Expr) : option APSInt.t :=
  match caseValue cpp11 CondType E with
  | Some v =>
      Some (fst (ConvertIntegerToTypeWarnOnOverflow v W Sg
                   (getLocStart (info E)) warn_case_value_overflow))
  | None => None
  end.

(** The overflow warning of that conversion, if any. *)
Definition conversionDiags (E : Expr) : list Diagnostic :=
  match caseValue cpp11 CondType E with
  | Some v =>
      snd (ConvertIntegerToTypeWarnOnOverflow v W Sg
             (getLocStart (info E)) warn_case_value_overflow)
  | None => []
  end.

(** The advisory for a range whose low value is greater than its high
    value. *)
Definition emptyRangeDiag (CR : CaseStmt) : Diagnostic :=
  Diag (getLocStart (info (getLHS CR))) warn_case_empty_range
    <<< ArgSourceRange (getLocStart (info (getLHS CR)))
                       (getLocEnd (info (rangeRHS CR))).

(** The singleton labels with their converted values, in the order of
    the case list. *)
Definition singletons (cases : list SwitchCase) : CaseValsTy :=
  flat_map
    (fun c =>
       match c with
       | SCCase CS =>
           match getRHS CS, converted (getLHS CS) with
           | None, Some v => [(v, CS)]
           | _, _ => []
           end
       | SCDefault _ => []
       end) cases.

(** The range labels with their converted low values. *)
Definition ranges (cases : list SwitchCase) : CaseRangesTy :=
  flat_map
    (fun c =>
       match c with
       | SCCase CS =>
           match getRHS CS, converted (getLHS CS) with
           | Some _, Some v => [(v, CS)]
           | _, _ => []
           end
       | SCDefault _ => []
       end) cases.

(** The range labels with both converted bounds. *)
Definition boundedRanges (cases : list SwitchCase) : list (APSInt.t * APSInt.t * CaseStmt) :=
  flat_map
    (fun r =>
       match converted (rangeRHS (snd r)) with
       | Some hi => [(fst r, hi, snd r)]
       | None => []
       end) (ranges cases).

(** In C++11 every range bound is a converted constant expression. *)
Definition rangesConvertible (cases : list SwitchCase) : bool :=
  forallb (fun r => isSome (converted (rangeRHS (snd r)))) (ranges cases).

Definition lowOf (r : APSInt.t * APSInt.t * CaseStmt) : Z := APSInt.value (fst (fst r)).
Definition highOf (r : APSInt.t * APSInt.t * CaseStmt) : Z := APSInt.value (snd (fst r)).

Definition duplicateDefault (cases : list SwitchCase) : Prop :=
  exists d1 d2, twoOf cases (SCDefault d1) (SCDefault d2).

Definition duplicateSingleton (cases : list SwitchCase) : Prop :=
  exists x y, twoOf (singletons cases) x y
              /\ APSInt.value (fst x) = APSInt.value (fst y).

(** A singleton value lies between the bounds of a range. *)
Definition rangeSingletonOverlap (cases : list SwitchCase) : Prop :=
  exists r hi c,
    In r (ranges cases) /\ converted (rangeRHS (snd r)) = Some hi
    /\ In c (singletons cases)
    /\ APSInt.value (fst r) <= APSInt.value (fst c) <= APSInt.value hi.

(** Two ranges, neither of them empty, have a value in common. *)
Definition rangeRangeOverlap (cases : list SwitchCase) : Prop :=
  exists r1 r2 h1 h2,
    twoOf (ranges cases) r1 r2
    /\ converted (rangeRHS (snd r1)) = Some h1
    /\ converted (rangeRHS (snd r2)) = Some h2
    /\ APSInt.value (fst r1) <= APSInt.value h1
    /\ APSInt.value (fst r2) <= APSInt.value h2
    /\ APSInt.value (fst r1) <= APSInt.value h2
    /\ APSInt.value (fst r2) <= APSInt.value h1.

(** The case list is malformed. *)
Definition malformed (cases : list SwitchCase) : Prop :=
  duplicateDefault cases \/ duplicateSingleton cases
  \/ rangeSingletonOverlap cases \/ rangeRangeOverlap cases.

(** The vectors of the analysis: the singleton values after the sort,
    the ranges after the sort, the ranges that are kept (a range is
    erased when its low value is greater than its high value), and the
    high values of the ranges kept. *)
Definition sortedSingletons (cases : list SwitchCase) : CaseValsTy :=
  Std.stable_sort CmpCaseVals (singletons cases).

Definition sortedRanges (cases : list SwitchCase) : CaseRangesTy :=
  Std.stable_sort PairLess (ranges cases).

Definition isEmptyRange (r : APSInt.t * CaseStmt) : bool :=
  match converted (rangeRHS (snd r)) with
  | Some hi => APSInt.gt (fst r) hi
  | None => false
  end.

Definition keptRanges (cases : list SwitchCase) : CaseRangesTy :=
  List.filter (fun r => negb (isEmptyRange r)) (sortedRanges cases).

Definition keptHighs (cases : list SwitchCase) : list APSInt.t :=
  flat_map
    (fun r =>
       match converted (rangeRHS (snd r)) with
       | Some hi => [hi]
       | None => []
       end) (keptRanges cases).


(** The search for overlaps, on the vectors it is given. *)
Definition overlapScan (cases : list SwitchCase) : OverlapScan :=
  checkOverlaps (sortedSingletons cases) (keptRanges cases) (keptHighs cases)
    (seq 0 (List.length (keptRanges cases))).

(** The search for overlaps reads the vector of high values inside its
    bounds.  In the round of the range kept at [i] it reads the entry at
    [i] when a singleton value is not below the low value of the range,
    and the entry at [i - 1] when [i] is not 0.  Outside C++11, and in
    C++11 when every high bound converts, each range kept has its high
    value at its own index. *)
Definition highsInReach (cases : list SwitchCase) : bool :=
  forallb
    (fun i =>
       match nth_error (keptRanges cases) i with
       | Some r =>
           ((i <? List.length (keptHighs cases))%nat
            || forallb (fun c => APSInt.value (fst c) <? APSInt.value (fst r))
                       (singletons cases))
           && match i with
              | O => true
              | S k => (k <? List.length (keptHighs cases))%nat
              end
       | None => true
       end)
    (seq 0 (List.length (keptRanges cases))).

(** The order of the sorted singleton values: by value, then by the
    location of the [case] keyword. *)
Definition byValueThenLoc (x y : APSInt.t * CaseStmt) : Prop :=
  APSInt.value (fst x) < APSInt.value (fst y)
  \/ (APSInt.value (fst x) = APSInt.value (fst y)
      /\ getCaseLoc (snd x) <= getCaseLoc (snd y)).

(** The value set of the enumeration, at the width and signedness of
    the condition. *)
Definition enumValues (ED : EnumDecl) : list Z :=
  map (fun e => APSInt.value (AdjustAPSInt (getInitVal e) W Sg)) ED.

Definition inEnum (ED : EnumDecl) (z : Z) : bool :=
  existsb (fun v => v =? z) (enumValues ED).

(** A value is matched by a singleton label or lies in a range. *)
Definition covered (cases : list SwitchCase) (z : Z) : bool :=
  existsb (fun c => APSInt.value (fst c) =? z) (singletons cases)
  || existsb (fun r => (lowOf r <=? z) && (z <=? highOf r)) (boundedRanges cases).

Definition allEnumValuesCovered (ED : EnumDecl) (cases : list SwitchCase) : bool :=
  forallb (covered cases) (enumValues ED).

(** The low and the high value of a range label. *)
Definition lowValue (r : APSInt.t * CaseStmt) : Z := APSInt.value (fst r).

Definition highValue (r : APSInt.t * CaseStmt) : Z :=
  match converted (rangeRHS (snd r)) with
  | Some h => APSInt.value h
  | None => 0
  end.

(** The ranges are in increasing order and apart, none is empty, and
    the high value evaluated again for the enumeration is the one
    converted before. *)
Definition apart (RI : CaseRangesTy) : Prop :=
  StronglySorted (fun a b => highValue a < lowValue b) RI
  /\ Forall (fun r => lowValue r <= highValue r) RI
  /\ Forall (fun r => APSInt.value (rangeHiForEnum CondType W Sg (snd r))
                      = highValue r) RI
  /\ Forall (fun r => APSInt.hasType W (negb Sg) (fst r)) RI.

(** The advisory for a label value that is not a value of the
    enumeration [Tbp]. *)
Definition notInEnumDiag (Tbp : QualType) (Loc : SourceLocation) : Diagnostic :=
  Diag Loc warn_not_in_enum <<< ArgString (getTypeName Tbp).

(** One advisory for each singleton label whose value is not in the
    enumeration. *)
Definition singlesNotInEnum (Tbp : QualType) (ED : EnumDecl)
  (cases : list SwitchCase) : list Diagnostic :=
  flat_map
    (fun c =>
       if inEnum ED (APSInt.value (fst c)) then []
       else [notInEnumDiag Tbp (getExprLoc (info (getLHS (snd c))))])
    (sortedSingletons cases).

(** The loop over the ranges of the enumeration block comes to every
    range kept: the enumeration has a value when there is a range, and
    a range that is followed by another one has a value of the
    enumeration at or above its high value. *)
Definition rangesReached (ED : EnumDecl) (cases : list SwitchCase) : bool :=
  match keptRanges cases with
  | [] => true
  | _ :: _ =>
      negb (match ED with [] => true | _ :: _ => false end)
      && forallb (fun r => existsb (fun z => highValue r <=? z) (enumValues ED))
                 (removelast (keptRanges cases))
  end.

(** The ranges of [l] up to the first one that has all the values [E]
    of the enumeration below the high value of the range before it. *)
Fixpoint examinedRanges (E : list Z) (l : CaseRangesTy) : CaseRangesTy :=
  match l with
  | [] => []
  | r :: rest =>
      match E with
      | [] => []
      | _ :: _ =>
          r :: examinedRanges (List.filter (fun z => highValue r <=? z) E) rest
      end
  end.

(** One advisory for each bound that is not in the enumeration. *)
Definition rangeBoundsNotInEnum (Tbp : QualType) (ED : EnumDecl)
  (l : CaseRangesTy) : list Diagnostic :=
  flat_map
    (fun r =>
       (if inEnum ED (lowValue r) then []
        else [notInEnumDiag Tbp (getExprLoc (info (getLHS (snd r))))])
       ++ (if inEnum ED (highValue r) then []
           else [notInEnumDiag Tbp (getExprLoc (info (rangeRHS (snd r))))]))
    l.

(** The names of the enumerators, one for each value of the
    enumeration in increasing order, whose value no label covers. *)
Definition uncoveredEnumerators (ED : EnumDecl) (cases : list SwitchCase) : list string :=
  map (fun e => getDeclName (snd e))
      (List.filter (fun e => negb (covered cases (APSInt.value (fst e))))
                   (gatherEnumVals ED W Sg)).

End Converted.

(** [Under] is what is left of an expression when the implicit
    integral casts around it are taken off. *)
Inductive underIntegralCasts : Expr -> Expr -> Prop :=
| under_self : forall e,
    match e with EImplicitCast _ CK_IntegralCast _ => False | _ => True end ->
    underIntegralCasts e e
| under_cast : forall i sub Under,
    underIntegralCasts sub Under ->
    underIntegralCasts (EImplicitCast i CK_IntegralCast sub) Under.

(** The condition before the integral promotion: the expression under
    its cleanups, if it has any, and under the implicit integral casts
    of the promotion. *)
Definition beforePromotion (CondExpr Under : Expr) : Prop :=
  match CondExpr with
  | EExprWithCleanups _ sub => underIntegralCasts sub Under
  | _ => underIntegralCasts CondExpr Under
  end.


(** The type of the condition, and the width and signedness it had
    before the integral promotion. *)
Definition condType (CondExpr : Expr) : QualType := getType (info CondExpr).

Definition condWidth (CondExpr : Expr) : N :=
  getIntWidth (GetTypeBeforeIntegralPromotion CondExpr).

Definition condIsSigned (CondExpr : Expr) : bool :=
  isSignedIntegerOrEnumerationType (GetTypeBeforeIntegralPromotion CondExpr).

(** The value of a condition that is an integer constant. *)
Definition condValue (CondExpr : Expr) : APSInt.t :=
  IntValue (info (ExprBeforePromotion CondExpr)).

Definition hasDefault (cases : list SwitchCase) : bool :=
  existsb (fun c => match c with SCDefault _ => true | SCCase _ => false end) cases.

(** The enumeration the condition had as its type before promotion. *)
Definition condEnum (CondExpr : Expr) : option EnumDecl :=
  getAsEnumType (GetTypeBeforeIntegralPromotion CondExpr).

(** The condition is an integer constant and the switch has no default
    label. *)
Definition constantCondition (CondExpr : Expr) (cases : list SwitchCase) : bool :=
  negb (hasDefault cases) && isIntConstant (info (ExprBeforePromotion CondExpr)).




(** No diagnostic of the list is the advisory for an empty range. *)
Definition otherThanEmptyRange (l : list Diagnostic) : Prop :=
  Forall (fun x => isID warn_case_empty_range x = false) l.

End SwitchSpec.

(** ** Concrete inputs *)
Module Examples.
Import Sema Switch.

Definition intTy : QualType := mkType true 32 true None "int".

(** The integer literal [v] of type [int] written at [loc]. *)
Definition lit (loc : SourceLocation) (v : Z) : Expr :=
  EOther (mkExpr loc loc loc false false intTy false true
                 (APSInt.make 32 v false) None true).

(** A reference at [loc] to the constant named [n], of value [v]. *)
Definition named (loc : SourceLocation) (n : string) (v : Z) : Expr :=
  EOther (mkExpr loc loc loc false false intTy false true
                 (APSInt.make 32 v false) (Some n) true).

(** A variable of type [T]. *)
Definition variable (T : QualType) : Expr :=
  EOther (mkExpr 1 1 1 false false T false false (APSInt.make 32 0 false) None false).

(** A constant of type [T] and value [v]. *)
Definition constant (T : QualType) (v : Z) : Expr :=
  EOther (mkExpr 1 1 1 false false T false true
                 (APSInt.make (getIntWidth T) v
                    (negb (isSignedIntegerOrEnumerationType T))) None true).

(** A type-dependent condition, as in a template. *)
Definition dependentCondition : Expr :=
  EOther (mkExpr 1 1 1 true false intTy false false (APSInt.make 32 0 false) None false).

Definition body : AST.Stmt := AST.CompoundStmt [].

Definition caseAt (loc : SourceLocation) (e : Expr) : SwitchCase :=
  SCCase (mkCase loc e None loc).

Definition rangeAt (loc : SourceLocation) (lo hi : Expr) : SwitchCase :=
  SCCase (mkCase loc lo (Some hi) loc).

Definition defaultAt (loc : SourceLocation) : SwitchCase :=
  SCDefault (mkDefault loc (loc + 1) (AST.OtherStmt [])).

(** The switch on [cond] whose labels are [labels], in source order;
    each label was linked in at the head of the chain. *)
Definition switchOf (cond : Expr) (labels : list SwitchCase) : SwitchStmt :=
  mkSwitch (Some cond) (rev labels) None 0 false.

(** Collaborators that accept every expression and report nothing. *)
#[export] Instance Quiet : Collaborators :=
  mkCollab (fun _ => []) (fun _ _ => []) Some Some Some Some Some.

(** The state at the start of a function body. *)
Definition functionStart (cpp11 : bool) : State :=
  mkState cpp11 (mkFSI SK_Function [] false) [] (fun _ => None) O [].

(** The state in which the switch [SS] is open at address 0. *)
Definition insideSwitch (cpp11 : bool) (SS : SwitchStmt) : State :=
  mkState cpp11 (mkFSI SK_Function [O] true) []
          (fun p => if Nat.eqb p 0 then Some SS else None) 1%nat [].

(** [enum Color { Red, Green, Blue }] with an underlying type of 32
    unsigned bits. *)
Definition Color : EnumDecl :=
  [ mkEnumerator "Red" (APSInt.make 32 0 true);
    mkEnumerator "Green" (APSInt.make 32 1 true);
    mkEnumerator "Blue" (APSInt.make 32 2 true) ].

Definition ColorTy : QualType := mkType true 32 false (Some Color) "Color".

(** [switch (x) { default: ; default: ; }], from the start of the switch
    to the point where it is finished. *)
Definition twoDefaults : list SwitchCase := [defaultAt 10; defaultAt 20].


(** [switch (x) { case One: ; case 1: ; }], the constant [One] being 1. *)
Definition duplicateSwitch : SwitchStmt :=
  switchOf (variable intTy) [caseAt 10 (named 11 "One" 1); caseAt 20 (lit 21 1)].




(** [switch (t) { default: ; default: ; }] on a type-dependent [t]. *)
Definition dependentDefaults : SwitchStmt := switchOf dependentCondition twoDefaults.

(** An integer constant at [loc] that is not a converted constant
    expression of type [int]. *)
Definition unconverted (loc : SourceLocation) (v : Z) : Expr :=
  EOther (mkExpr loc loc loc false false intTy false true
                 (APSInt.make 32 v false) None false).

(** [switch (x) { case 1 ... e: ; default: ; default: ; }], the bound
    [e] not being a converted constant expression. *)
Definition unconvertedBound : SwitchStmt :=
  switchOf (variable intTy)
    [rangeAt 10 (lit 11 1) (unconverted 12 7); defaultAt 20; defaultAt 30].

(** [switch (x) { case 1 ... e: ; case 5: ; default: ; default: ; }],
    with the same bound [e]. *)
Definition unconvertedBoundRead : SwitchStmt :=
  switchOf (variable intTy)
    [rangeAt 10 (lit 11 1) (unconverted 12 7); caseAt 15 (lit 16 5);
     defaultAt 20; defaultAt 30].

(** [switch (x) { case 1 ... 5: ; case 3: ; }]. *)
Definition overlapSwitch : SwitchStmt :=
  switchOf (variable intTy)
    [rangeAt 10 (lit 11 1) (lit 12 5); caseAt 20 (lit 21 3)].

(** [switch (c) { case Red: ; case 7: ; }] on a variable [c] of type
    [Color]. *)
Definition colorSwitch : SwitchStmt :=
  switchOf (variable ColorTy) [caseAt 10 (named 11 "Red" 0); caseAt 20 (lit 21 7)].

(** [switch (Red) { case Red: ; case Green: ; case Blue: ; }], the
    condition being the constant. *)
Definition constantColor : SwitchStmt :=
  switchOf (constant ColorTy 0)
    [caseAt 10 (named 11 "Red" 0); caseAt 20 (named 21 "Green" 1);
     caseAt 30 (named 31 "Blue" 2)].

(** [enum Direction { North, East, South, West }] and a switch without
    labels on a variable of that type. *)
Definition Direction : EnumDecl :=
  [ mkEnumerator "North" (APSInt.make 32 0 true);
    mkEnumerator "East" (APSInt.make 32 1 true);
    mkEnumerator "South" (APSInt.make 32 2 true);
    mkEnumerator "West" (APSInt.make 32 3 true) ].

Definition DirectionTy : QualType := mkType true 32 false (Some Direction) "Direction".

Definition noLabels : SwitchStmt := switchOf (variable DirectionTy) [].

(** [switch (c) { case 5 ... 6: ; case 8 ... 9: ; default: ; }] on a
    variable [c] of type [Color]. *)
Definition farRanges : SwitchStmt :=
  switchOf (variable ColorTy)
    [rangeAt 10 (lit 11 5) (lit 12 6); rangeAt 20 (lit 21 8) (lit 22 9);
     defaultAt 30].

(** [switch (c) { case 0 ... 1: ; case 5 ... 6: ; default: ; }] on a
    variable [c] of type [Color]. *)
Definition nearRanges : SwitchStmt :=
  switchOf (variable ColorTy)
    [rangeAt 10 (lit 11 0) (lit 12 1); rangeAt 20 (lit 21 5) (lit 22 6);
     defaultAt 30].

Definition afterStart : State :=
  snd (ActOnStartOfSwitchStmt 5 (Some (variable intTy)) None (functionStart false)).

Definition beforeFinish : State :=
  snd (ActOnDefaultStmt 20 21 (AST.OtherStmt [])
         (snd (ActOnDefaultStmt 10 11 (AST.OtherStmt []) afterStart))).


End Examples.

(** ** Concrete inputs for [break] and for range-based [for] *)
Module JumpExamples.
Import Sema Jump.

(** A [break] in a block of the body of a [_Cilk_for] that sits in an
    ordinary loop of a function. *)
Definition cilkForInLoop : list Scope :=
  [OtherScope; FnScope SK_CilkFor; BreakScope; FnScope SK_Function].

Definition inCilkFor : State :=
  mkState false (mkFSI SK_CilkFor [] false) [mkFSI SK_Function [] false]
          (fun _ => None) O [].

End JumpExamples.

Module ForRangeExamples.
Import ForRange.

(** A class with a [begin] member and no [end] member. *)
Definition onlyBegin : RangeType :=
  mkRangeType
    (Some (fun n => if String.eqb n "begin" then [1%nat] else []))
    "myRange".

Definition noCalls : Collaborators := mkCollab (fun _ _ => FRS_Success) (fun _ => false).

End ForRangeExamples.

(* ===================================================================== *)
(** * Further notions and inputs                                          *)
(* ===================================================================== *)

(** ** More on the labels of a switch *)
Module SwitchExtra.
Import Sema Switch SwitchSpec.

(** Every case label has a value: in C++11 its low bound is a converted
    constant expression of the type of the condition. *)
Definition labelsConvertible (cpp11 : bool) (CondType : QualType)
  (cases : list SwitchCase) : bool :=
  forallb
    (fun c =>
       match c with
       | SCCase CS => isSome (caseValue cpp11 CondType (getLHS CS))
       | SCDefault _ => true
       end) cases.

(** [switch (x) { case 1: ; }] on an [int] variable. *)
Definition oneCase : SwitchStmt :=
  Examples.switchOf (Examples.variable Examples.intTy)
    [Examples.caseAt 10 (Examples.lit 11 1)].

(** The identifiers of the errors of the switch analysis: a second
    default label, and a duplicate case value. *)
Definition isSwitchErrorID (i : DiagID) : bool :=
  DiagID_beq i err_multiple_default_labels_defined
  || DiagID_beq i err_duplicate_case
  || DiagID_beq i err_duplicate_case_differing_expr.

Definition isSwitchError (d : Diagnostic) : bool := isSwitchErrorID (DID d).

(** Every diagnostic of the list has one of the identifiers [ids]. *)
Definition issues (ids : list DiagID) (l : list Diagnostic) : Prop :=
  Forall (fun d => In (DID d) ids) l.

(** The advisory for a constant condition that no label matches. *)
Definition missingCaseDiag (CondExpr : Expr) : Diagnostic :=
  Diag (getExprLoc (info CondExpr)) warn_missing_case_for_condition
    <<< ArgString (APSInt.toString (condValue CondExpr))
    <<< ArgSourceRange (getLocStart (info CondExpr)) (getLocEnd (info CondExpr)).

(** The advisory for a condition known to have a boolean value. *)
Definition boolConditionDiags (SwitchLoc : SourceLocation) (CondExpr : Expr)
  : list Diagnostic :=
  if negb (isTypeDependent (info CondExpr))
     && isKnownToHaveBooleanValue (info CondExpr)
  then [Diag SwitchLoc warn_bool_switch_condition
          <<< ArgSourceRange (getLocStart (info CondExpr))
                             (getLocEnd (info CondExpr))]
  else [].

(** The range of a label is not empty and holds the constant [const]:
    the test of the first loop over the ranges. *)
Definition holdsConstant (cpp11 : bool) (CondType : QualType) (W : N) (Sg : bool)
  (const : APSInt.t) (r : APSInt.t * CaseStmt) : bool :=
  match converted cpp11 CondType W Sg (rangeRHS (snd r)) with
  | Some h =>
      negb (APSInt.gt (fst r) h) && APSInt.le (fst r) const && APSInt.le const h
  | None => false
  end.

(** The identifiers of the advisories of the enumeration block. *)
Definition enumAdvisories : list DiagID :=
  [warn_not_in_enum; warn_unreachable_default;
   warn_def_missing_case1; warn_missing_case1;
   warn_def_missing_case2; warn_missing_case2;
   warn_def_missing_case3; warn_missing_case3;
   warn_def_missing_cases; warn_missing_cases].

(** The identifiers of the diagnostics issued for the labels before the
    advisory for a constant condition. *)
Definition labelDiagnostics : list DiagID :=
  [err_multiple_default_labels_defined; note_duplicate_case_prev;
   warn_case_value_overflow; err_duplicate_case;
   err_duplicate_case_differing_expr; warn_case_empty_range].

(** [switch (2) { case 1: ; }]: the condition is a constant no label
    matches. *)
Definition constantUnmatched : SwitchStmt :=
  Examples.switchOf (Examples.constant Examples.intTy 2)
    [Examples.caseAt 10 (Examples.lit 11 1)].

End SwitchExtra.

(** ** More on the placement of a spawn *)
Module SpawnExtra.
Import AST Spawn.

(** The two errors with which [DiagnoseCilkSpawn] sets [HasError]. *)
Definition isSpawnFlag (d : Diagnostic) : bool :=
  isID err_spawn_not_whole_expr d || isID err_cannot_init_static_variable d.

(** What is reported of a spawned call itself: that it calls a builtin,
    and that it is a user-defined literal or a CUDA kernel call. *)
Definition calleeDiags (cls : CallClass) (E : CallInfo) : list Diagnostic :=
  (if isBuiltinCall E
   then [Diag (CilkSpawnLoc E) err_cannot_spawn_builtin
           <<< ArgSourceRange (CallRangeBegin E) (CallRangeEnd E)]
   else [])
  ++ match cls with
     | UserDefinedLiteralClass | CUDAKernelCallExprClass =>
         [Diag (CilkSpawnLoc E) err_cannot_spawn_function
            <<< ArgSourceRange (CallRangeBegin E) (CallRangeEnd E)]
     | _ => []
     end.

(** The storage class of an initialized variable is one the function
    expects: for the others the source reaches [llvm_unreachable]. *)
Definition expectedStorage (sc : StorageClass) : bool :=
  match sc with
  | SC_Extern | SC_PrivateExtern => false
  | _ => true
  end.

(** No declaration that [DiagnoseCilkSpawn] takes as the target of an
    initializer, in [S] or in a statement it goes on to check, has an
    unexpected storage class. *)
Fixpoint storagesExpected (S : Stmt) : bool :=
  match S with
  | CXXCatchStmt h => storagesExpected h
  | CXXForRangeStmt _ b => storagesExpected b
  | CXXBindTemporaryExpr e => storagesExpected e
  | ExprWithCleanups e => storagesExpected e
  | CXXTryStmt t _ => storagesExpected t
  | DeclStmt [d] =>
      if isVarDecl d then
        match getInit d with
        | Some _ => expectedStorage (getStorageClass d)
        | None => true
        end
      else true
  | DoStmt b _ => storagesExpected b
  | ForStmt _ _ _ b => storagesExpected b
  | IfStmt _ t e =>
      storagesExpected t
      && match e with Some x => storagesExpected x | None => true end
  | LabelStmt b => storagesExpected b
  | CaseStmt b => storagesExpected b
  | DefaultStmt b => storagesExpected b
  | WhileStmt _ b => storagesExpected b
  | _ => true
  end.

(** The run did not reach [llvm_unreachable]. *)
Definition returns (r : Checked) : bool :=
  match r with Some _ => true | None => false end.

(** [x = (T) _Cilk_spawn f();]: the spawn under an implicit cast and a
    temporary. *)
Definition spawn_converted : Stmt :=
  BinaryOperator BO_Assign (SpawnSpec.name 1)
    (ExprWithCleanups (ImplicitCastExpr (CXXBindTemporaryExpr SpawnSpec.spawn_f))).

End SpawnExtra.

(** ** The captured statements of a spawn ([SpawnHelper],
       [tryCreateCilkSpawnCapturedStmt], [BuildCilkSpawnStmt],
       [ActOnCilkSpawnStmt]) *)
Module SpawnBuild.
Import AST Spawn.

(** [SpawnHelper]: the traversal stops at the first spawned call;
    [hasSpawn()] tells whether there is one.  As in
    [DiagnoseCilkSpawnHelper], a [CompoundStmt] is not entered. *)
Fixpoint hasSpawn (s : Stmt) : bool :=
  let opt (o : option Stmt) :=
    match o with Some x => hasSpawn x | None => false end in
  match s with
  | CompoundStmt _ => false
  | CXXCatchStmt h => hasSpawn h
  | CXXForRangeStmt r b => hasSpawn r || hasSpawn b
  | CXXBindTemporaryExpr e => hasSpawn e
  | ExprWithCleanups e => hasSpawn e
  | CXXTryStmt t hs => hasSpawn t || existsb hasSpawn hs
  | DeclStmt ds => existsb (fun d => opt (snd d)) ds
  | BinaryOperator _ l r => hasSpawn l || hasSpawn r
  | DoStmt b c => hasSpawn b || hasSpawn c
  | ForStmt i c n b => opt i || opt c || opt n || hasSpawn b
  | IfStmt c t e => hasSpawn c || hasSpawn t || opt e
  | LabelStmt b => hasSpawn b
  | CaseStmt b => hasSpawn b
  | DefaultStmt b => hasSpawn b
  | WhileStmt c b => hasSpawn c || hasSpawn b
  | CallExpr _ info callee args =>
      isCilkSpawnCall info || hasSpawn callee || existsb hasSpawn args
  | ImplicitCastExpr e => hasSpawn e
  | MaterializeTemporaryExpr e => hasSpawn e
  | CXXConstructExpr _ args => existsb hasSpawn args
  | OtherStmt cs => existsb hasSpawn cs
  end.

(** The statement after [BuildCilkSpawnStmt]: the statements it leaves
    as they are, the [CilkSpawnCapturedStmt]s it creates, and the
    statements whose body it sets again. *)
Inductive Spawned : Type :=
| Kept (S : Stmt)
| CilkSpawnCapturedStmt (SubStmt : Stmt)
| InForRange (RangeInit : Stmt) (Body : Spawned)
| InDo (Body : Spawned) (Cond : Stmt)
| InFor (Init Cond Inc : option Stmt) (Body : Spawned)
| InIf (Cond : Stmt) (Then : Spawned) (Else : option Spawned)
| InLabel (SubStmt : Spawned)
| InCase (SubStmt : Spawned)
| InDefault (SubStmt : Spawned)
| InWhile (Cond : Stmt) (Body : Spawned).

(** [tryCreateCilkSpawnCapturedStmt] for a statement that is not null.
    The captures, the record and the helper function that
    [buildCilkSpawnCaptures] attaches are left to the collaborators. *)
Definition tryCreateCilkSpawnCapturedStmt (S : Stmt) : Spawned :=
  if hasSpawn S then CilkSpawnCapturedStmt S else Kept S.

(** [BuildCilkSpawnStmt]. *)
Fixpoint BuildCilkSpawnStmt (S : Stmt) : Spawned :=
  match S with
  | CXXForRangeStmt r b => InForRange r (BuildCilkSpawnStmt b)
  | DeclStmt _
  | BinaryOperator _ _ _
  | ExprWithCleanups _
  | CallExpr CallExprClass _ _ _
  | CallExpr (CXXOperatorCallExprClass _) _ _ _
  | CallExpr CXXMemberCallExprClass _ _ _ => tryCreateCilkSpawnCapturedStmt S
  | DoStmt b c => InDo (BuildCilkSpawnStmt b) c
  | ForStmt i c n b => InFor i c n (BuildCilkSpawnStmt b)
  | IfStmt c t e =>
      InIf c (BuildCilkSpawnStmt t)
           match e with
           | Some x => Some (BuildCilkSpawnStmt x)
           | None => None
           end
  | LabelStmt b => InLabel (BuildCilkSpawnStmt b)
  | CaseStmt b => InCase (BuildCilkSpawnStmt b)
  | DefaultStmt b => InDefault (BuildCilkSpawnStmt b)
  | WhileStmt c b => InWhile c (BuildCilkSpawnStmt b)
  | _ => Kept S (* No need to tranform *)
  end.

(** [Sema::ActOnCilkSpawnStmt]; [None] is [StmtError()]. *)
Definition ActOnCilkSpawnStmt (S : option Stmt) : option Spawned :=
  match S with
  | None => None
  | Some S0 => Some (BuildCilkSpawnStmt S0)
  end.

(** The statement under the captured statements. *)
Fixpoint getSubStmts (R : Spawned) : Stmt :=
  match R with
  | Kept S0 => S0
  | CilkSpawnCapturedStmt S0 => S0
  | InForRange r b => CXXForRangeStmt r (getSubStmts b)
  | InDo b c => DoStmt (getSubStmts b) c
  | InFor i c n b => ForStmt i c n (getSubStmts b)
  | InIf c t e =>
      IfStmt c (getSubStmts t)
             match e with Some x => Some (getSubStmts x) | None => None end
  | InLabel b => LabelStmt (getSubStmts b)
  | InCase b => CaseStmt (getSubStmts b)
  | InDefault b => DefaultStmt (getSubStmts b)
  | InWhile c b => WhileStmt c (getSubStmts b)
  end.

(** A spawned call lies outside every captured statement (and outside
    the compound statements nested in the statement). *)
Fixpoint uncaptured (R : Spawned) : bool :=
  let opt (o : option Stmt) :=
    match o with Some x => hasSpawn x | None => false end in
  match R with
  | Kept S0 => hasSpawn S0
  | CilkSpawnCapturedStmt _ => false
  | InForRange r b => hasSpawn r || uncaptured b
  | InDo b c => uncaptured b || hasSpawn c
  | InFor i c n b => opt i || opt c || opt n || uncaptured b
  | InIf c t e =>
      hasSpawn c || uncaptured t
      || match e with Some x => uncaptured x | None => false end
  | InLabel b => uncaptured b
  | InCase b => uncaptured b
  | InDefault b => uncaptured b
  | InWhile c b => hasSpawn c || uncaptured b
  end.

(** The statements [DiagnoseCilkSpawn] enters and [BuildCilkSpawnStmt]
    does not, a handler, a try statement and a bound temporary, hold a
    spawn only inside their compound statements. *)
Fixpoint blocksHoldSpawns (S : Stmt) : bool :=
  match S with
  | CXXCatchStmt _ | CXXTryStmt _ _ | CXXBindTemporaryExpr _ => negb (hasSpawn S)
  | CXXForRangeStmt _ b => blocksHoldSpawns b
  | DoStmt b _ => blocksHoldSpawns b
  | ForStmt _ _ _ b => blocksHoldSpawns b
  | IfStmt _ t e =>
      blocksHoldSpawns t
      && match e with Some x => blocksHoldSpawns x | None => true end
  | LabelStmt b => blocksHoldSpawns b
  | CaseStmt b => blocksHoldSpawns b
  | DefaultStmt b => blocksHoldSpawns b
  | WhileStmt _ b => blocksHoldSpawns b
  | _ => true
  end.

(** [if (c) x = _Cilk_spawn f(); else g();] *)
Definition spawn_in_branch : Stmt :=
  IfStmt (SpawnSpec.name 2) SpawnSpec.spawn_assigned (Some SpawnSpec.call_f).

End SpawnBuild.

(** ** Assignment of a constant to an enumeration
       ([Sema::DiagnoseAssignmentEnum]) *)
Module AssignEnum.
Import Sema Switch.

(** What the function asks of the AST context, of the diagnostics engine
    and of the source expression. *)
Class Context : Type := mkContext
  { (* Diags.getDiagnosticLevel(DIAG, Loc) == DiagnosticsEngine::Ignored *)
    isIgnored : SourceLocation -> bool;
    hasSameType : QualType -> QualType -> bool;
    isIntegerType : QualType -> bool;
    isIntegerConstantExpr : Expr -> bool }.

(** The one diagnostic of the function, which is not among those of the
    statement analyzer. *)
Inductive AssignDiagID : Type := warn_not_in_enum_assignement.

Record AssignDiagnostic : Type := mkAssignDiag
  { ALoc : SourceLocation; AID : AssignDiagID; AArgs : list DiagArg }.

(** [Diag(SrcExpr->getExprLoc(), diag::warn_not_in_enum_assignement)
    << DstType]. *)
Definition notInEnumAssignment (DstType : QualType) (SrcExpr : Expr)
  : AssignDiagnostic :=
  mkAssignDiag (getExprLoc (info SrcExpr)) warn_not_in_enum_assignement
               [ArgString (getTypeName DstType)].

(** [Sema::DiagnoseAssignmentEnum]: the diagnostics issued. *)
Definition DiagnoseAssignmentEnum {X : Context} (DstType SrcType : QualType)
  (SrcExpr : Expr) : list AssignDiagnostic :=
  if isIgnored (getExprLoc (info SrcExpr)) then []
  else
    match getAsEnumType DstType with
    | Some ED =>
        if negb (hasSameType SrcType DstType) && isIntegerType SrcType then
          if negb (isTypeDependent (info SrcExpr))
             && negb (isValueDependent (info SrcExpr))
             && isIntegerConstantExpr SrcExpr
          then
            (* Get the bitwidth of the enum value before promotions. *)
            let DstWith := getIntWidth DstType in
            let DstIsSigned := isSignedIntegerOrEnumerationType DstType in
            let RhsVal := EvaluateKnownConstInt SrcExpr in
            (* Gather all enum values, set their type and sort them. *)
            let EnumVals :=
              map (fun EDI => (AdjustAPSInt (getInitVal EDI) DstWith DstIsSigned, EDI))
                  ED in
            match EnumVals with
            | [] => []
            | _ :: _ =>
                let Sorted := Std.stable_sort CmpEnumVals EnumVals in
                (* the range from EnumVals.begin() to EIend *)
                let Unique := Std.unique EqEnumVals Sorted in
                (* while (EI != EIend && EI->first < RhsVal) EI++; *)
                let EI := Std.advance (fun e => APSInt.lt (fst e) RhsVal) Unique in
                match EI with
                | [] => [notInEnumAssignment DstType SrcExpr]
                | e :: _ =>
                    if APSInt.ne (fst e) RhsVal
                    then [notInEnumAssignment DstType SrcExpr]
                    else []
                end
            end
          else []
        else []
    | None => []
    end.

(** A context in which the advisory is enabled, two types are the same
    when they have the same name, every type but an enumeration is an
    integer type and every expression with a known value is an integer
    constant expression. *)
Definition plainContext : Context :=
  mkContext (fun _ => false)
            (fun a b => String.eqb (getTypeName a) (getTypeName b))
            (fun T => negb (isSome (getAsEnumType T)))
            (fun E => isIntConstant (info E)).

(** [enum Sign { Minus = -1, Zero, Plus }], of 32 signed bits. *)
Definition Sign : EnumDecl :=
  [ mkEnumerator "Minus" (APSInt.make 32 (-1) false);
    mkEnumerator "Zero" (APSInt.make 32 0 false);
    mkEnumerator "Plus" (APSInt.make 32 1 false) ].

Definition SignTy : QualType := mkType true 32 true (Some Sign) "Sign".

End AssignEnum.

(* ===================================================================== *)
(** * Part II. Lemmas and theorems                                        *)
(* ===================================================================== *)

(** ** Case and default labels outside a switch *)
Module LabelFacts.
Import Sema Switch Examples.

(** C10.  While no switch is open in the current function,
    [ActOnCaseStmt] reports [err_case_not_in_switch] and returns the
    invalid result, whereas [ActOnDefaultStmt] reports
    [err_default_not_in_switch] and returns the sub-statement of the
    label as a valid result. *)
Theorem labels_outside_switch :
  forall (C : Collaborators) (S : State) (CaseLoc DotDotDotLoc ColonLoc : SourceLocation)
         (LHSVal : Expr) (RHSVal : option Expr)
         (DefaultLoc DefColonLoc : SourceLocation) (SubStmt : AST.Stmt),
    SwitchStack (CurFunction S) = [] ->
    ActOnCaseStmt CaseLoc LHSVal DotDotDotLoc RHSVal ColonLoc S
      = (StmtError, emit [Diag CaseLoc err_case_not_in_switch] S)
    /\ ActOnDefaultStmt DefaultLoc DefColonLoc SubStmt S
       = (Owned (NodeStmt SubStmt),
          emit [Diag DefaultLoc err_default_not_in_switch]
               (emit (DiagnoseUnusedExprResult SubStmt) S)).
Proof.
  intros C S CaseLoc Dots ColonLoc L R DefaultLoc DefColonLoc Sub Hempty.
  split.
  - unfold ActOnCaseStmt. rewrite Hempty. reflexivity.
  - unfold ActOnDefaultStmt. cbn [CurFunction emit]. rewrite Hempty. reflexivity.
Qed.

Lemma labels_outside_switch_witness :
  SwitchStack (CurFunction (functionStart false)) = []
  /\ (ActOnCaseStmt 7 (lit 8 1) 0 None 9 (functionStart false)
        = (StmtError, emit [Diag 7 err_case_not_in_switch] (functionStart false))
      /\ ActOnDefaultStmt 7 8 body (functionStart false)
         = (Owned (NodeStmt body),
            emit [Diag 7 err_default_not_in_switch]
                 (emit (DiagnoseUnusedExprResult body) (functionStart false)))).
Proof.
  split.
  - reflexivity.
  - apply (labels_outside_switch Quiet (functionStart false) 7 0 9 (lit 8 1) None
             7 8 body).
    reflexivity.
Defined.

End LabelFacts.

(** ** [break] *)
Module JumpFacts.
Import Sema Jump Examples JumpExamples.

Lemma getBreakParent_through_blocks :
  forall inner rest,
    Forall (fun s => s = OtherScope) inner ->
    getBreakParent (inner ++ rest) = getBreakParent rest.
Proof.
  induction inner as [|s inner IH]; intros rest Hall.
  - reflexivity.
  - inversion Hall as [|? ? Hs Hrest]; subst. cbn. now apply IH.
Qed.

Lemma enclosingFunction_through_blocks :
  forall inner rest,
    Forall (fun s => s = OtherScope) inner ->
    enclosingFunction (inner ++ rest) = enclosingFunction rest.
Proof.
  induction inner as [|s inner IH]; intros rest Hall.
  - reflexivity.
  - inversion Hall as [|? ? Hs Hrest]; subst. cbn. now apply IH.
Qed.

Lemma getBreakParent_no_target :
  forall CurScope, noEnclosingLoopOrSwitch CurScope -> getBreakParent CurScope = None.
Proof.
  induction CurScope as [|s rest IH]; intros Hall.
  - reflexivity.
  - inversion Hall as [|? ? Hs Hrest]; subst.
    destruct s; cbn; try reflexivity.
    + now contradiction Hs.
    + now apply IH.
Qed.

(** C6.  A [break] whose nearest enclosing break target is the body of
    a [_Cilk_for] (only plain blocks in between, whatever encloses the
    [_Cilk_for]) is rejected with the hard error
    [err_cilk_for_cannot_break] and the invalid result; a [break] with
    no enclosing loop or switch at all, outside a [_Cilk_for], is
    rejected with the hard error [err_break_not_in_loop_or_switch]. *)
Theorem break_rejected :
  forall (BreakLoc : SourceLocation) (CurScope : list Scope) (S : State),
    consistent CurScope S ->
    (directlyInCilkFor CurScope ->
       ActOnBreakStmt BreakLoc CurScope S
         = (StmtError, emit [Diag BreakLoc err_cilk_for_cannot_break] S)
       /\ getDiagnosticLevel err_cilk_for_cannot_break = Error)
    /\ (noEnclosingLoopOrSwitch CurScope ->
        isCilkForScopeInfo (CurFunction S) = false ->
          ActOnBreakStmt BreakLoc CurScope S
            = (StmtError, emit [Diag BreakLoc err_break_not_in_loop_or_switch] S)
          /\ getDiagnosticLevel err_break_not_in_loop_or_switch = Error).
Proof.
  intros BreakLoc CurScope S Hcons. split.
  - intros (inner & outer & -> & Hinner). split; [|reflexivity].
    unfold consistent in Hcons.
    rewrite enclosingFunction_through_blocks in Hcons by assumption.
    cbn in Hcons. injection Hcons as Hkind.
    unfold ActOnBreakStmt.
    rewrite getBreakParent_through_blocks by assumption. cbn.
    unfold isCilkForScopeInfo. now rewrite <- Hkind.
  - intros Hnone Hkind. split; [|reflexivity].
    unfold ActOnBreakStmt.
    rewrite (getBreakParent_no_target _ Hnone). now rewrite Hkind.
Qed.

Lemma break_rejected_witness :
  consistent cilkForInLoop inCilkFor
  /\ directlyInCilkFor cilkForInLoop
  /\ ActOnBreakStmt 3 cilkForInLoop inCilkFor
       = (StmtError, emit [Diag 3 err_cilk_for_cannot_break] inCilkFor).
Proof.
  assert (Hc : consistent cilkForInLoop inCilkFor) by reflexivity.
  assert (Hd : directlyInCilkFor cilkForInLoop).
  { exists [OtherScope], [BreakScope; FnScope SK_Function].
    split; [reflexivity | repeat constructor]. }
  split; [exact Hc | split; [exact Hd |]].
  exact (proj1 (proj1 (break_rejected 3 cilkForInLoop inCilkFor Hc) Hd)).
Defined.

End JumpFacts.

(** ** Range-based [for] *)
Module ForRangeFacts.
Import ForRange ForRangeExamples.

(** C8.  For a class-type range where member lookup finds declarations
    for exactly one of [begin] and [end], [BuildNonArrayForRange] issues
    the hard error [err_for_range_member_begin_end_mismatch], whose
    select argument is the member found, so that the member reported
    missing is the other one, and it makes no call that could use
    argument-dependent lookup. *)
Theorem member_begin_end_mismatch :
  forall (C : Collaborators) (RangeTy : RangeType) (RangeLoc : SourceLocation)
         (D : string -> list nat),
    getAsCXXRecordDecl RangeTy = Some D ->
    isEmpty (D "begin"%string) <> isEmpty (D "end"%string) ->
    exists d,
      BuildNonArrayForRange RangeTy RangeLoc
        = (FRS_DiagnosticIssued,
           Some (if isEmpty (D "begin"%string) then BEF_end else BEF_begin),
           [Issued d])
      /\ DID d = err_for_range_member_begin_end_mismatch
      /\ getDiagnosticLevel (DID d) = Error
      /\ missingMember d
         = Some (if isEmpty (D "begin"%string) then BEF_begin else BEF_end)
      /\ existsb isBeginEndCall [Issued d] = false.
Proof.
  intros C RangeTy RangeLoc D HD Hne.
  unfold BuildNonArrayForRange. rewrite HD.
  destruct (isEmpty (D "begin"%string)) eqn:Hb,
           (isEmpty (D "end"%string)) eqn:He;
    try (exfalso; apply Hne; reflexivity); cbn;
    eexists; repeat split.
Qed.

Lemma member_begin_end_mismatch_witness :
  getAsCXXRecordDecl onlyBegin
    = Some (fun n => if String.eqb n "begin" then [1%nat] else [])
  /\ isEmpty [1%nat] <> isEmpty []
  /\ exists d,
       @BuildNonArrayForRange noCalls onlyBegin 4
         = (FRS_DiagnosticIssued, Some BEF_begin, [Issued d])
       /\ missingMember d = Some BEF_end.
Proof.
  assert (H1 : getAsCXXRecordDecl onlyBegin
               = Some (fun n => if String.eqb n "begin" then [1%nat] else []))
    by reflexivity.
  assert (H2 : isEmpty ((fun n => if String.eqb n "begin" then [1%nat] else []) "begin"%string)
               <> isEmpty ((fun n => if String.eqb n "begin" then [1%nat] else [] : list nat) "end"%string))
    by (cbn; discriminate).
  split; [exact H1 | split; [cbn; discriminate |]].
  destruct (member_begin_end_mismatch noCalls onlyBegin 4 _ H1 H2)
    as (d & Hrun & _ & _ & Hmiss & _).
  exists d. split; [exact Hrun | exact Hmiss].
Defined.

End ForRangeFacts.

(** ** The switch stack *)
Module SwitchStackFacts.
Import Sema Switch Examples.

Lemma ActOnStartOfSwitchStmt_pushes :
  forall (C : Collaborators) S SwitchLoc Cond CondVar n S1,
    ActOnStartOfSwitchStmt SwitchLoc Cond CondVar S = (Owned n, S1) ->
    n = NodeSwitch (NextPtr S)
    /\ SwitchStack (CurFunction S1) = NextPtr S :: SwitchStack (CurFunction S)
    /\ exists SS, Heap S1 (NextPtr S) = Some SS /\ getBody SS = None.
Proof.
  intros C S SwitchLoc Cond CondVar n S1. unfold ActOnStartOfSwitchStmt.
  destruct CondVar as [cv|].
  - destruct (CheckConditionVariable cv) as [c1|]; [|discriminate].
    destruct (ConvertToIntegralOrEnumerationType c1) as [c2|]; [|discriminate].
    destruct (UsualUnaryConversions c2) as [c3|]; [|discriminate].
    cbn. intros H. injection H as <- <-. cbn. rewrite Nat.eqb_refl.
    repeat split. eexists; split; reflexivity.
  - destruct Cond as [c1|]; [|discriminate].
    destruct (ConvertToIntegralOrEnumerationType c1) as [c2|]; [|discriminate].
    destruct (UsualUnaryConversions c2) as [c3|]; [|discriminate].
    destruct (ActOnFinishFullExpr c3) as [c4|]; [|discriminate].
    cbn. intros H. injection H as <- <-. cbn. rewrite Nat.eqb_refl.
    repeat split. eexists; split; reflexivity.
Qed.

(** The state after the two steps that open [ActOnFinishSwitchStmt]:
    the body is attached and the switch is popped.  The rest of the
    function only adds diagnostics and may set the coverage flag. *)
Lemma ActOnFinishSwitchStmt_effects :
  forall (C : Collaborators) S Loc p Body SS rest,
    Heap S p = Some SS ->
    SwitchStack (CurFunction S) = p :: rest ->
    exists r S3 SS3,
      ActOnFinishSwitchStmt Loc p Body S = (r, S3)
      /\ r <> AssertionFailed
      /\ SwitchStack (CurFunction S3) = rest
      /\ Heap S3 p = Some SS3
      /\ getBody SS3 = Some Body
      /\ getSwitchLoc SS3 = Loc
      /\ getSwitchCaseList SS3 = getSwitchCaseList SS
      /\ (forall q, q <> p -> Heap S3 q = Heap S q).
Proof.
  intros C S Loc p Body SS rest Hheap Hstack.
  unfold ActOnFinishSwitchStmt. rewrite Hheap, Hstack, Nat.eqb_refl.
  set (A := checkCaseList (CPlusPlus11 S) Loc (setBody Body Loc SS) Body).
  assert (Hres : Result A <> AssertionFailed).
  { subst A. unfold checkCaseList, checkLabels.
    repeat match goal with
           | |- context [match ?x with _ => _ end] => destruct x
           end; cbn; discriminate. }
  destruct (Covered A) eqn:Hcov.
  - exists (match Result A with
            | Returns Keep => Returns (Owned (NodeSwitch p))
            | Returns Discard => Returns StmtError
            | AssertionFailed => AssertionFailed
            | OutOfBounds => OutOfBounds
            end).
    eexists. exists (setAllEnumCasesCovered (setBody Body Loc SS)).
    split; [reflexivity|]. split.
    { destruct (Result A) as [[|]| |]; try discriminate. now contradiction Hres. }
    cbn. rewrite Nat.eqb_refl. repeat split.
    intros q Hq. apply Nat.eqb_neq in Hq. now rewrite !Hq.
  - exists (match Result A with
            | Returns Keep => Returns (Owned (NodeSwitch p))
            | Returns Discard => Returns StmtError
            | AssertionFailed => AssertionFailed
            | OutOfBounds => OutOfBounds
            end).
    eexists. exists (setBody Body Loc SS).
    split; [reflexivity|]. split.
    { destruct (Result A) as [[|]| |]; try discriminate. now contradiction Hres. }
    cbn. rewrite Nat.eqb_refl. repeat split.
    intros q Hq. apply Nat.eqb_neq in Hq. now rewrite Hq.
Qed.

(** C9.  [ActOnFinishSwitchStmt] pops exactly the switch that the
    matching [ActOnStartOfSwitchStmt] pushed and attaches the body to
    it; this happens whatever the validation of the case list decides,
    so the stack is back to what it was before the switch and the body
    is attached also when the result is the invalid one. *)
Theorem switch_stack_balanced :
  forall (C : Collaborators) (S S1 : State) (SwitchLoc : SourceLocation)
         (Cond CondVar : option Expr) (p : SwitchPtr),
    ActOnStartOfSwitchStmt SwitchLoc Cond CondVar S = (Owned (NodeSwitch p), S1) ->
    SwitchStack (CurFunction S1) = p :: SwitchStack (CurFunction S)
    /\ forall (S2 : State) (Loc : SourceLocation) (Body : AST.Stmt) (SS : SwitchStmt),
         SwitchStack (CurFunction S2) = SwitchStack (CurFunction S1) ->
         Heap S2 p = Some SS ->
         exists r S3 SS3,
           ActOnFinishSwitchStmt Loc p Body S2 = (r, S3)
           /\ r <> AssertionFailed
           /\ SwitchStack (CurFunction S3) = SwitchStack (CurFunction S)
           /\ Heap S3 p = Some SS3
           /\ getBody SS3 = Some Body.
Proof.
  intros C S S1 SwitchLoc Cond CondVar p Hstart.
  destruct (ActOnStartOfSwitchStmt_pushes _ _ _ _ _ _ _ Hstart)
    as (Hp & Hstack & _).
  injection Hp as ->. split; [exact Hstack|].
  intros S2 Loc Body SS Hsame Hheap.
  rewrite Hstack in Hsame.
  destruct (ActOnFinishSwitchStmt_effects C S2 Loc _ Body SS _ Hheap Hsame)
    as (r & S3 & SS3 & Hrun & Hr & Hpop & Hh & Hb & _).
  now exists r, S3, SS3.
Qed.

(** [switch (x) { default: ; default: ; }]: the case list is erroneous,
    the result is the invalid one, and still the switch is popped and
    owns its body. *)
Lemma switch_stack_balanced_witness :
  ActOnStartOfSwitchStmt 5 (Some (variable intTy)) None (functionStart false)
    = (Owned (NodeSwitch O), afterStart)
  /\ SwitchStack (CurFunction beforeFinish) = SwitchStack (CurFunction afterStart)
  /\ Heap beforeFinish O = Some (switchOf (variable intTy) twoDefaults)
  /\ exists S3 SS3,
       ActOnFinishSwitchStmt 5 O body beforeFinish = (Returns StmtError, S3)
       /\ SwitchStack (CurFunction S3) = []
       /\ Heap S3 O = Some SS3
       /\ getBody SS3 = Some body.
Proof.
  assert (H0 : ActOnStartOfSwitchStmt 5 (Some (variable intTy)) None (functionStart false)
               = (Owned (NodeSwitch O), afterStart)) by reflexivity.
  assert (H1 : SwitchStack (CurFunction beforeFinish)
               = SwitchStack (CurFunction afterStart)) by reflexivity.
  assert (H2 : Heap beforeFinish O = Some (switchOf (variable intTy) twoDefaults))
    by reflexivity.
  split; [exact H0 | split; [exact H1 | split; [exact H2 |]]].
  destruct (proj2 (switch_stack_balanced Quiet _ _ _ _ _ _ H0)
              beforeFinish 5 body _ H1 H2)
    as (r & S3 & SS3 & Hrun & _ & Hpop & Hh & Hb).
  exists S3, SS3.
  assert (Hr : fst (ActOnFinishSwitchStmt 5 O body beforeFinish) = Returns StmtError)
    by (vm_compute; reflexivity).
  rewrite Hrun in Hr. cbn in Hr. subst r.
  split; [exact Hrun | split; [exact Hpop | split; [exact Hh | exact Hb]]].
Defined.

End SwitchStackFacts.

(** ** Placement of [_Cilk_spawn] *)
Module SpawnFacts.
Import AST Spawn SpawnSpec.

(** A spawn in each of the three permitted positions is accepted without
    a diagnostic. *)
Lemma permitted_positions_accepted :
  DiagnoseCilkSpawn spawn_statement = Some (false, [])
  /\ DiagnoseCilkSpawn spawn_assigned = Some (false, [])
  /\ DiagnoseCilkSpawn spawn_initializer = Some (false, []).
Proof. repeat split. Qed.

(** The scenario of the specification: in [a = _Cilk_spawn f() + 1;] the
    spawn is not the whole right-hand side and draws the hard error
    [err_spawn_not_whole_expr]. *)
Lemma spawn_in_sum_rejected :
  permittedSpawn spawn_in_sum = None
  /\ DiagnoseCilkSpawn spawn_in_sum
     = Some (true, [Diag 3 err_spawn_not_whole_expr <<< ArgSourceRange 4 6])
  /\ getDiagnosticLevel err_spawn_not_whole_expr = Error.
Proof. repeat split. Qed.

(** The spawn checker looks at the arguments of a call statement and of
    a spawned call, never at the callee.  Whatever the callee contains,
    a call statement that is not itself a spawn draws exactly the
    diagnostics of its arguments. *)
Lemma callee_never_traversed :
  forall (C : CallInfo) (callee1 callee2 : Stmt) (args : list Stmt),
    DiagnoseCilkSpawn (CallExpr CallExprClass C callee1 args)
    = DiagnoseCilkSpawn (CallExpr CallExprClass C callee2 args).
Proof. reflexivity. Qed.

(** C7 (the code departs from the claim).  The statement
    [(_Cilk_spawn f())(3);] holds one spawn call, in none of the three
    permitted positions, and [DiagnoseCilkSpawn] issues no diagnostic
    and leaves [HasError] false: the statement is accepted. *)
Theorem spawn_in_callee_accepted :
  spawnCalls spawn_in_callee = 1%nat
  /\ permittedSpawn spawn_in_callee = None
  /\ DiagnoseCilkSpawn spawn_in_callee = Some (false, [])
  /\ spawn_errors spawn_in_callee = []
  /\ accepted spawn_in_callee = true.
Proof. repeat split. Qed.

End SpawnFacts.

(** ** The loop count of [_Cilk_for] *)
Module CilkForFacts.
Import CilkFor CilkForSpec.

(** *** Runs of a loop *)

Lemma Iterates_deterministic :
  forall t n v k1, Iterates t n v k1 -> forall k2, Iterates t n v k2 -> k1 = k2.
Proof.
  induction 1 as [v Hstop | v v' k Hgo Hnext _ IH]; intros k2 H2.
  - inversion H2; subst; [reflexivity | congruence].
  - inversion H2 as [| ? v2 k' Hgo2 Hnext2 Hrest]; subst; [congruence|].
    rewrite Hnext in Hnext2. injection Hnext2 as <-. f_equal. now apply IH.
Qed.

Lemma Iterates_run :
  forall t n v k, Iterates t n v k -> run t n (S k) v = Some k.
Proof.
  induction 1 as [v Hstop | v v' k Hgo Hnext _ IH].
  - cbn. now rewrite Hstop.
  - cbn [run]. rewrite Hgo, Hnext. cbn [run] in IH. now rewrite IH.
Qed.

(** A loop whose test is [0 < m v] for a distance [m] that each step
    shortens by [s] runs [ceil (m v / s)] times. *)
Lemma Iterates_distance :
  forall (t : Z -> option bool) (n : Z -> option Z) (m : Z -> Z) (s : Z),
    0 < s ->
    (forall v, t v = Some (0 <? m v)) ->
    (forall v, exists v', n v = Some v' /\ m v' = m v - s) ->
    forall k v,
      0 <= m v + s - 1 ->
      (m v + s - 1) / s = Z.of_nat k ->
      Iterates t n v k.
Proof.
  intros t n m s Hs Ht Hn. induction k as [|k IH]; intros v Hnonneg Hq.
  - apply Iterates_leave. rewrite Ht. f_equal. apply Z.ltb_ge.
    assert (m v + s - 1 < s); [|lia].
    apply Z.div_small_iff in Hq; lia.
  - destruct (Hn v) as (v' & Hv' & Hm).
    assert (Hge : s <= m v + s - 1).
    { destruct (Z_lt_ge_dec (m v + s - 1) s) as [Hlt|]; [|lia].
      rewrite Z.div_small in Hq by lia. lia. }
    apply Iterates_body with v'.
    + rewrite Ht. f_equal. apply Z.ltb_lt. lia.
    + exact Hv'.
    + apply IH; rewrite Hm.
      * lia.
      * replace (m v - s + s - 1) with ((m v + s - 1) + (-1) * s) by ring.
        rewrite Z.div_add by lia. lia.
Qed.

(** A loop that leaves when the variable is equal to the limit, started
    [k] strides before the limit, runs [k] times. *)
Lemma Iterates_until_equal :
  forall (t : Z -> option bool) (n : Z -> option Z) (lim s : Z),
    s <> 0 ->
    (forall v, t v = Some (negb (v =? lim))) ->
    (forall v, n v = Some (v + s)) ->
    forall k v, lim = v + Z.of_nat k * s -> Iterates t n v k.
Proof.
  intros t n lim s Hs Ht Hn. induction k as [|k IH]; intros v Hlim.
  - apply Iterates_leave. rewrite Ht. f_equal.
    apply negb_false_iff, Z.eqb_eq. lia.
  - apply Iterates_body with (v + s).
    + rewrite Ht. f_equal. apply negb_true_iff, Z.eqb_neq. nia.
    + apply Hn.
    + apply IH. lia.
Qed.

(** *** The value of the pieces *)

Lemma getSExtValue_zero :
  forall x, APSInt.getSExtValue x = 0 -> APSInt.isZero x = true.
Proof.
  intros x. unfold APSInt.getSExtValue, APSInt.isZero, APSInt.getZExtValue.
  assert (HM : 0 < APSInt.modulus (APSInt.BitWidth x))
    by (unfold APSInt.modulus; apply Z.pow_pos_nonneg; lia).
  pose proof (Z.mod_pos_bound (APSInt.bits x) _ HM) as Hb.
  destruct (_ <? _); intros H; apply Z.eqb_eq; lia.
Qed.

Lemma ExtractCilkForCondition_value :
  forall (A : ExprAnalysis) rho Cond op OpLoc L R d z,
    ExtractCilkForCondition Cond = (Some (op, OpLoc, L, R), d) ->
    ideal rho Cond = Some z ->
    exists l r, ideal rho L = Some l /\ ideal rho R = Some r
                /\ idealBinary op l r = Some z.
Proof.
  intros A rho. induction Cond; intros op0 OpLoc L R d z Hex Hev; cbn in Hex;
    try discriminate.
  - (* CastExpr *)
    destruct implicit; [|discriminate].
    destruct (ExtractCilkForCondition Cond) as [[[[[o ol] l0] r0]|] d0] eqn:Hsub;
      [|destruct k; discriminate].
    assert (Hres : (o, ol, l0, r0) = (op0, OpLoc, L, R))
      by (destruct k; injection Hex; intros; congruence).
    injection Hres as -> -> -> ->. cbn in Hev. eapply IHCond; eauto.
  - (* ExprWithCleanups *) cbn in Hev. eapply IHCond; eauto.
  - (* CXXBindTemporaryExpr *) cbn in Hev. eapply IHCond; eauto.
  - (* BinaryOperator *)
    injection Hex as -> _ -> -> _. cbn in Hev.
    destruct (ideal rho L) as [l|]; [|discriminate].
    destruct (ideal rho R) as [r|]; [|discriminate].
    now exists l, r.
Qed.

Lemma IsCilkForControlVarRef_value :
  forall rho CV E c c' z,
    IsCilkForControlVarRef E CV c = (true, c') ->
    ideal rho E = Some z ->
    z = var rho (VarId CV).
Proof.
  intros rho CV. induction E; intros c c' z Href Hev; cbn in Href, Hev;
    try discriminate.
  - (* DeclRefExpr *)
    injection Href as Heq _. apply Nat.eqb_eq in Heq. subst. congruence.
  - (* ParenExpr *) eauto.
  - (* CastExpr *) destruct sameRepresentation; eauto.
  - (* MaterializeTemporaryExpr *) eauto.
Qed.

Lemma comparison_value :
  forall op l r z,
    idealBinary op l r = Some z ->
    match op with
    | BO_LT | BO_GT | BO_LE | BO_GE | BO_NE => True
    | _ => False
    end ->
    negb (z =? 0) = compare op l r.
Proof.
  intros op l r z Hev Hop.
  destruct op; try contradiction; cbn in Hev; injection Hev as <-; cbn;
    rewrite ?Z.gtb_ltb, ?Z.geb_leb;
    match goal with |- context [b2z ?b] => destruct b end; reflexivity.
Qed.

Lemma var_setVar : forall rho D v, var (setVar rho D v) D = v.
Proof. intros. cbn. now rewrite Nat.eqb_refl. Qed.

(** The condition the analyzer accepts tests the control variable
    against the limit, from the left or from the right; the direction is
    negated in the second case. *)
Lemma CheckCilkForCondition_test :
  forall (A : ExprAnalysis) rho CV Cond Limit Dir Op d lim,
    CheckCilkForCondition CV Cond = (Some (Limit, Dir, Op), d) ->
    (forall v, ideal (setVar rho (VarId CV) v) Limit = Some lim) ->
    (forall v, test rho (VarId CV) Cond v <> None) ->
    match Op with
    | BO_LT | BO_LE =>
        (Dir = 1 /\ forall v, test rho (VarId CV) Cond v
                              = Some (compare Op v lim))
        \/ (Dir = -1 /\ forall v, test rho (VarId CV) Cond v
                                  = Some (compare Op lim v))
    | BO_GT | BO_GE =>
        (Dir = -1 /\ forall v, test rho (VarId CV) Cond v
                               = Some (compare Op v lim))
        \/ (Dir = 1 /\ forall v, test rho (VarId CV) Cond v
                                 = Some (compare Op lim v))
    | BO_NE =>
        Dir = 0 /\ forall v, test rho (VarId CV) Cond v
                             = Some (negb (v =? lim))
    | _ => False
    end.
Proof.
  intros A rho CV Cond Limit Dir Op d lim Hcheck Hlim Hdef.
  unfold CheckCilkForCondition in Hcheck.
  destruct (ExtractCilkForCondition Cond) as [[[[[Opcode OpLoc] L] R]|] d0] eqn:Hex;
    [|discriminate].
  assert (Htest : forall v, exists l r,
             ideal (setVar rho (VarId CV) v) L = Some l
             /\ ideal (setVar rho (VarId CV) v) R = Some r
             /\ (match Opcode with
                 | BO_LT | BO_GT | BO_LE | BO_GE | BO_NE => True
                 | _ => False
                 end ->
                 test rho (VarId CV) Cond v = Some (compare Opcode l r))).
  { intros v. specialize (Hdef v). unfold test in *.
    destruct (ideal (setVar rho (VarId CV) v) Cond) as [z|] eqn:Hz;
      [|now contradiction Hdef].
    destruct (ExtractCilkForCondition_value _ _ _ _ _ _ _ _ _ Hex Hz)
      as (l & r & Hl & Hr & Hb).
    exists l, r. repeat split; try assumption.
    intros Hop. cbn. f_equal. now apply comparison_value. }
  unfold CanonicalizeCilkForCondOperands in Hcheck.
  destruct (IsCilkForControlVarRef L CV CK_NoOp) as [isL castL] eqn:HL.
  destruct isL.
  - (* the control variable is on the left *)
    assert (Hv : forall v, test rho (VarId CV) Cond v
                           = Some (compare Opcode v lim)
                           \/ match Opcode with
                              | BO_LT | BO_GT | BO_LE | BO_GE | BO_NE => False
                              | _ => True
                              end).
    { intros v. destruct (Htest v) as (l & r & Hl & Hr & Hc).
      pose proof (IsCilkForControlVarRef_value _ _ _ _ _ _ HL Hl) as El.
      rewrite var_setVar in El. subst l.
      destruct Opcode; try (right; exact Logic.I); left;
        rewrite (Hc Logic.I); repeat f_equal;
        (assert (Limit = R) by (cbn in Hcheck; congruence)); subst;
        rewrite Hlim in Hr; congruence. }
    destruct Opcode; cbn in Hcheck; try discriminate;
      injection Hcheck as <- <- <- _;
      try (left; split; [reflexivity|]; intros v;
           destruct (Hv v) as [H|[]]; exact H).
    split; [reflexivity|]. intros v. destruct (Hv v) as [H|[]]. exact H.
  - destruct (IsCilkForControlVarRef R CV CK_NoOp) as [isR castR] eqn:HR.
    destruct isR.
    + (* the control variable is on the right *)
      assert (Hv : forall v, test rho (VarId CV) Cond v
                             = Some (compare Opcode lim v)
                             \/ match Opcode with
                                | BO_LT | BO_GT | BO_LE | BO_GE | BO_NE => False
                                | _ => True
                                end).
      { intros v. destruct (Htest v) as (l & r & Hl & Hr & Hc).
        pose proof (IsCilkForControlVarRef_value _ _ _ _ _ _ HR Hr) as Er.
        rewrite var_setVar in Er. subst r.
        destruct Opcode; try (right; exact Logic.I); left;
          rewrite (Hc Logic.I); repeat f_equal;
          (assert (Limit = L) by (cbn in Hcheck; congruence)); subst;
          rewrite Hlim in Hl; congruence. }
      destruct Opcode; cbn in Hcheck; try discriminate;
        injection Hcheck as <- <- <- _;
        try (right; split; [reflexivity|]; intros v;
             destruct (Hv v) as [H|[]]; exact H).
      split; [reflexivity|]. intros v. destruct (Hv v) as [H|[]].
      rewrite H. cbn. f_equal. f_equal. apply Z.eqb_sym.
    + destruct Opcode; cbn in Hcheck; discriminate.
Qed.

Lemma stripIncrement_IgnoreParens :
  forall e, stripIncrement (IgnoreParens e) = stripIncrement e.
Proof. induction e; cbn; auto. Qed.

Lemma CheckIncrementVar_refersTo :
  forall (A : ExprAnalysis) e CV d,
    CheckIncrementVar e CV = (true, d) -> refersTo e (VarId CV) = true.
Proof.
  intros A e CV d. unfold CheckIncrementVar, refersTo.
  destruct (IgnoreImpCasts e); try discriminate.
  destruct (Nat.eqb D (VarId CV)); [reflexivity | discriminate].
Qed.

(** The built-in increment the analyzer accepts adds the value of the
    stride expression to the control variable. *)
Lemma IsValidCilkForIncrement_next :
  forall (A : ExprAnalysis) rho CV Inc Incr d v v' s,
    IsValidCilkForIncrement Inc CV = (Some Incr, d) ->
    next rho (VarId CV) Inc v = Some v' ->
    ideal (setVar rho (VarId CV) v) (StrideExpr Incr) = Some s ->
    v' = v + s.
Proof.
  intros A rho CV Inc Incr d v v' s Hvalid Hnext Hs.
  unfold IsValidCilkForIncrement in Hvalid. unfold next in Hnext.
  rewrite <- stripIncrement_IgnoreParens in Hnext.
  assert (Hstrip : stripIncrement (IgnoreParens Inc)
                   = stripIncrement match IgnoreParens Inc with
                                    | ExprWithCleanups e => e
                                    | e => e
                                    end)
    by (destruct (IgnoreParens Inc); reflexivity).
  rewrite Hstrip in Hnext. clear Hstrip.
  destruct (match IgnoreParens Inc with
            | ExprWithCleanups e => e
            | e => e
            end) as [ | | | | | | | | |op x|op l r| | | |] eqn:HInc;
    cbn in Hvalid; try discriminate.
  - (* UnaryOperator *)
    cbn in Hnext.
    destruct (CheckIncrementVar x CV) as [[|] d0] eqn:Hvar; [|discriminate].
    destruct (refersTo x (VarId CV)); [|discriminate].
    destruct op; cbn in Hvalid; try discriminate;
      injection Hvalid as <- _; cbn in Hs; injection Hs as <-;
      injection Hnext as <-; lia.
  - (* BinaryOperator *)
    cbn in Hnext.
    destruct (refersTo l (VarId CV)); [|discriminate].
    destruct op; cbn in Hvalid; try discriminate;
      destruct (CheckIncrementVar l CV) as [[|] d0]; try discriminate;
      unfold checkIncrementRHS in Hvalid;
      destruct (hasIntegralOrEnumerationType r); cbn in Hvalid; try discriminate;
      destruct (EvaluateAsInt r); cbn in Hvalid;
      injection Hvalid as <- _; cbn in Hs;
      destruct (ideal (setVar rho (VarId CV) v) r) as [z|]; try discriminate;
      cbn in Hs; injection Hs as <-; injection Hnext as <-; lia.
Qed.

(** With a constant stride that the analyzer accepted, the sign of the
    stride follows the direction of the comparison. *)
Lemma accepted_stride_sign :
  forall Dir (St : APSInt.t),
    APSInt.isZero St = false ->
    ((Dir >? 0) && APSInt.isNegative St
     || (Dir <? 0) && APSInt.isStrictlyPositive St) = false ->
    APSInt.getSExtValue St <> 0
    /\ (Dir = 1 -> 0 < APSInt.getSExtValue St)
    /\ (Dir = -1 -> APSInt.getSExtValue St < 0).
Proof.
  intros Dir St Hz Hsign.
  assert (Hnz : APSInt.getSExtValue St <> 0).
  { intros H0. apply getSExtValue_zero in H0. congruence. }
  split; [exact Hnz|]. unfold APSInt.isStrictlyPositive, APSInt.isNegative in Hsign.
  rewrite Hz in Hsign. split; intros ->; cbn in Hsign.
  - rewrite orb_false_r in Hsign. apply Z.ltb_ge in Hsign. lia.
  - rewrite andb_true_r in Hsign. apply negb_false_iff, Z.ltb_lt in Hsign. exact Hsign.
Qed.

(** *** The value of the loop count expression *)

Lemma buildLoopCount_value_open :
  forall rho Op Dir Span SE span s,
    ideal rho Span = Some span -> ideal rho SE = Some s ->
    Op = BO_LT \/ Op = BO_GT ->
    (if Dir =? 1 then s else - s) <> 0 ->
    ideal rho (buildLoopCount Op Dir Span SE)
    = Some (Z.quot (span + ((if Dir =? 1 then s else - s) - 1))
                   (if Dir =? 1 then s else - s)).
Proof.
  intros rho Op Dir Span SE span s Hspan Hs [-> | ->] Hnz;
    cbn; rewrite Hspan; destruct (Dir =? 1); cbn; rewrite Hs; cbn;
    apply Z.eqb_neq in Hnz; rewrite Hnz; reflexivity.
Qed.

Lemma buildLoopCount_value_closed :
  forall rho Op Dir Span SE span s,
    ideal rho Span = Some span -> ideal rho SE = Some s ->
    Op = BO_LE \/ Op = BO_GE ->
    (if Dir =? 1 then s else - s) <> 0 ->
    ideal rho (buildLoopCount Op Dir Span SE)
    = Some (Z.quot (span + ((if Dir =? 1 then s else - s) - 1) + 1)
                   (if Dir =? 1 then s else - s)).
Proof.
  intros rho Op Dir Span SE span s Hspan Hs [-> | ->] Hnz;
    cbn; rewrite Hspan; destruct (Dir =? 1); cbn; rewrite Hs; cbn;
    apply Z.eqb_neq in Hnz; rewrite Hnz; reflexivity.
Qed.

Lemma buildLoopCount_value_ne :
  forall rho Dir Span SE span s,
    ideal rho Span = Some span -> ideal rho SE = Some s ->
    s <> 0 ->
    ideal rho (buildLoopCount BO_NE Dir Span SE)
    = Some (Z.quot (if s <? 0 then - span else span)
                   (if s <? 0 then - s else s)).
Proof.
  intros rho Dir Span SE span s Hspan Hs Hnz.
  cbn. rewrite ?Hspan, ?Hs. cbn.
  destruct (s <? 0) eqn:Hneg; cbn; rewrite ?Hspan, ?Hs; cbn.
  - assert (H : (- s =? 0) = false) by (apply Z.eqb_neq; lia). now rewrite H.
  - apply Z.eqb_neq in Hnz. now rewrite Hnz.
Qed.

(** The count [(m + (S - 1)) / S] of a loop at distance [m >= 0] from
    its limit, with strides of size [S > 0]. *)
Lemma count_of_distance :
  forall (t : Z -> option bool) (n : Z -> option Z) (m : Z -> Z) (S v0 : Z),
    0 < S ->
    (forall v, t v = Some (0 <? m v)) ->
    (forall v, exists v', n v = Some v' /\ m v' = m v - S) ->
    0 <= m v0 ->
    exists k, Iterates t n v0 k
              /\ Z.quot (m v0 + (S - 1)) S = Z.of_nat k.
Proof.
  intros t n m S v0 HS Ht Hn Hm.
  assert (Hq : Z.quot (m v0 + (S - 1)) S = (m v0 + S - 1) / S).
  { rewrite Z.quot_div_nonneg by lia. f_equal. ring. }
  assert (Hpos : 0 <= (m v0 + S - 1) / S) by (apply Z.div_pos; lia).
  exists (Z.to_nat ((m v0 + S - 1) / S)). split.
  - eapply Iterates_distance; eauto; lia.
  - rewrite Hq. lia.
Qed.

(** *** The value the count has when the loop runs *)

Lemma wrap_fits : forall T z, fits T z = true -> wrap T z = z.
Proof. intros T z H. now apply Z.eqb_eq. Qed.

Lemma wrap_count :
  forall T z, wrap (countType T) z = z mod 2 ^ countBits T.
Proof.
  intros T z. unfold wrap, APSInt.value, APSInt.make, APSInt.getZExtValue,
    APSInt.modulus.
  destruct T; cbn [countType Width Signed negb APSInt.IsUnsigned APSInt.bits
                   APSInt.BitWidth countBits Z.of_N];
    now rewrite Z.mod_mod by lia.
Qed.

(** An expression none of whose operations overflows has the value it
    has over the integers. *)
Lemma noOverflow_value :
  forall (A : ExprAnalysis) rho e,
    noOverflow rho e = true ->
    exists z, ideal rho e = Some z /\ eval rho e = Some z.
Proof.
  intros A rho. induction e; intros H; cbn [noOverflow] in H;
    try discriminate.
  - (* DeclRefExpr *)
    exists (var rho D). split; [reflexivity|].
    cbn [eval]. now rewrite (wrap_fits _ _ H).
  - (* IntegerLiteral *)
    exists v. split; [reflexivity|]. cbn [eval]. now rewrite (wrap_fits _ _ H).
  - (* ParenExpr *) exact (IHe H).
  - (* CastExpr *)
    apply andb_true_iff in H. destruct H as [Hx Hf].
    destruct (IHe Hx) as (z & Hi & He).
    cbn [ideal eval]. rewrite Hi in Hf |- *. rewrite He. cbn [option_map].
    exists z. split; [reflexivity|]. now rewrite (wrap_fits _ _ Hf).
  - (* ExprWithCleanups *) exact (IHe H).
  - (* CXXBindTemporaryExpr *) exact (IHe H).
  - (* MaterializeTemporaryExpr *) exact (IHe H).
  - (* UnaryOperator *)
    destruct op; try discriminate.
    + apply andb_true_iff in H. destruct H as [Hx Hf].
      destruct (IHe Hx) as (z & Hi & He).
      cbn [ideal eval]. rewrite Hi in Hf |- *. rewrite He. cbn [option_map].
      apply andb_true_iff in Hf. destruct Hf as [Hz Hn].
      exists (- z). split; [reflexivity|].
      now rewrite (wrap_fits _ _ Hz), (wrap_fits _ _ Hn).
    + destruct (IHe H) as (z & Hi & He).
      cbn [ideal eval]. rewrite Hi, He. cbn [option_map]. eauto.
  - (* BinaryOperator *)
    apply andb_true_iff in H. destruct H as [H Hf].
    apply andb_true_iff in H. destruct H as [Hl Hr].
    destruct (IHe1 Hl) as (x & Hix & Hex).
    destruct (IHe2 Hr) as (y & Hiy & Hey).
    cbn [ideal eval]. rewrite Hix, Hiy in Hf |- *. rewrite Hex, Hey.
    cbv zeta in Hf |- *.
    apply andb_true_iff in Hf. destruct Hf as [Hf Hz].
    apply andb_true_iff in Hf. destruct Hf as [Hfx Hfy].
    rewrite (wrap_fits _ _ Hfx), (wrap_fits _ _ Hfy).
    destruct (idealBinary op x y) as [z|] eqn:Hop; [|discriminate].
    exists z. split; [reflexivity|].
    destruct op; cbn [idealBinary evalBinary isComparisonOp] in *;
      try discriminate; try exact Hop;
      try (injection Hop as <-; now rewrite (wrap_fits _ _ Hz)).
    destruct (y =? 0); [discriminate|].
    injection Hop as <-. now rewrite (wrap_fits _ _ Hz).
  - (* ConditionalOperator *)
    apply andb_true_iff in H. destruct H as [Hc Hf].
    destruct (IHe1 Hc) as (c & Hic & Hec).
    cbn [ideal eval]. rewrite Hic in Hf |- *. rewrite Hec.
    destruct (c =? 0); apply andb_true_iff in Hf; destruct Hf as [Hb Hf].
    + destruct (IHe3 Hb) as (y & Hiy & Hey). rewrite Hiy in Hf |- *.
      rewrite Hey. cbn [option_map]. exists y. split; [reflexivity|].
      now rewrite (wrap_fits _ _ Hf).
    + destruct (IHe2 Hb) as (x & Hix & Hex). rewrite Hix in Hf |- *.
      rewrite Hex. cbn [option_map]. exists x. split; [reflexivity|].
      now rewrite (wrap_fits _ _ Hf).
  - (* IntegralCastTo *)
    apply andb_true_iff in H. destruct H as [Hx Hf].
    destruct (IHe Hx) as (z & Hi & He).
    cbn [ideal eval]. rewrite Hi in Hf |- *. rewrite He. cbn [option_map].
    cbn [typeOf] in Hf.
    exists z. split; [reflexivity|]. now rewrite (wrap_fits _ _ Hf).
  - (* OtherExpr *)
    cbn [ideal eval]. destruct (opaque rho id) as [z|]; [|discriminate].
    exists z. split; [reflexivity|]. cbn [option_map].
    now rewrite (wrap_fits _ _ H).
Qed.

(** *** The loop count is the number of iterations *)

(** Over the integers the loop count expression of an accepted loop has
    the value of the number of iterations, when the control variable
    starts at the limit or on the side of it where the condition holds
    (for [!=]: a whole number of strides before the limit). *)
Lemma loop_count_ideal :
  forall (A : ExprAnalysis) (CilkForLoc : SourceLocation) (rho : Env)
         (CV : VarDecl) (Cond Inc : Expr)
         (LoopCount SE : Expr) (d : list Diagnostic)
         (Limit : Expr) (Dir : Z) (Op : BinaryOperatorKind) (dc : list Diagnostic)
         (Incr : Increment) (di : list Diagnostic) (v0 lim : Z),
    ActOnCilkForStmt CilkForLoc (Some CV) Cond Inc = (Owned LoopCount SE, d) ->
    CheckCilkForCondition CV Cond = (Some (Limit, Dir, Op), dc) ->
    IsValidCilkForIncrement Inc CV = (Some Incr, di) ->
    HasConstantIncrement Incr = true ->
    (forall v, ideal (setVar rho (VarId CV) v) Limit = Some lim) ->
    (forall v, ideal (setVar rho (VarId CV) v) (StrideExpr Incr)
               = Some (APSInt.getSExtValue (Stride Incr))) ->
    (forall v, test rho (VarId CV) Cond v <> None) ->
    (forall v, next rho (VarId CV) Inc v <> None) ->
    (Op = BO_NE ->
     exists k, lim = v0 + Z.of_nat k * APSInt.getSExtValue (Stride Incr)) ->
    (Op <> BO_NE -> v0 = lim \/ test rho (VarId CV) Cond v0 = Some true) ->
    exists (n : nat) (T : CountType) (E : Expr),
      LoopCount = IntegralCastTo T E
      /\ Iterates (test rho (VarId CV) Cond) (next rho (VarId CV) Inc) v0 n
      /\ ideal (setVar rho (VarId CV) v0) LoopCount = Some (Z.of_nat n).
Proof.
  intros A CilkForLoc rho CV Cond Inc LoopCount SE d Limit Dir Op dc Incr di
         v0 lim Hact Hcond Hinc Hconst Hlim Hstride Htest Hnext HNE Hstart.
  set (s := APSInt.getSExtValue (Stride Incr)) in *.
  set (D := VarId CV) in *.
  (* what acceptance tells *)
  unfold ActOnCilkForStmt in Hact.
  destruct (VarIsDependentType CV); [discriminate|].
  destruct (VarIsReferenceType CV); [discriminate|].
  rewrite Hcond in Hact.
  destruct (hasDependentType Limit); [discriminate|].
  rewrite Hinc, Hconst in Hact. cbn [andb] in Hact.
  destruct (APSInt.isZero (Stride Incr)) eqn:Hzero; [discriminate|].
  destruct ((Dir >? 0) && APSInt.isNegative (Stride Incr)
            || (Dir <? 0) && APSInt.isStrictlyPositive (Stride Incr)) eqn:Hsign;
    [discriminate|].
  destruct (accepted_stride_sign Dir _ Hzero Hsign) as (Hnz & Hup & Hdown).
  fold s in Hnz, Hup, Hdown.
  (* the increment adds the stride *)
  assert (Hstep : forall v, next rho D Inc v = Some (v + s)).
  { intros v. specialize (Hnext v).
    destruct (next rho D Inc v) as [v'|] eqn:Hv'; [|now contradiction Hnext].
    f_equal. eapply IsValidCilkForIncrement_next; eauto. }
  (* the test compares the variable with the limit *)
  pose proof (CheckCilkForCondition_test A rho CV Cond Limit Dir Op dc lim
                Hcond Hlim Htest) as Hshape.
  fold D in Hshape.
  (* the expression built *)
  assert (Hbuilt : exists T,
             LoopCount
             = IntegralCastTo T
                 (buildLoopCount Op Dir
                    (BuildBinOp BO_Sub
                       (if Dir <? 0 then DeclRefExpr D else Limit)
                       (if Dir <? 0 then Limit else DeclRefExpr D))
                    (StrideExpr Incr))).
  { destruct (Dir <? 0);
      destruct (differenceIsValid _ _); try discriminate;
      destruct (hasIntegralOrEnumerationType _); try discriminate;
      cbn in Hact; injection Hact as <- _ _; eexists; reflexivity. }
  destruct Hbuilt as (T & ->). clear Hact.
  assert (Hvar : ideal (setVar rho D v0) (DeclRefExpr D) = Some v0)
    by (cbn [ideal]; now rewrite var_setVar).
  (* the final conversion keeps the value over the integers *)
  assert (Hcast : forall z,
             ideal (setVar rho D v0)
               (buildLoopCount Op Dir
                  (BuildBinOp BO_Sub
                     (if Dir <? 0 then DeclRefExpr D else Limit)
                     (if Dir <? 0 then Limit else DeclRefExpr D))
                  (StrideExpr Incr)) = Some z ->
             ideal (setVar rho D v0)
               (IntegralCastTo T
                  (buildLoopCount Op Dir
                     (BuildBinOp BO_Sub
                        (if Dir <? 0 then DeclRefExpr D else Limit)
                        (if Dir <? 0 then Limit else DeclRefExpr D))
                     (StrideExpr Incr)))
             = Some z).
  { intros z HE. cbn [ideal]. exact HE. }
  (* the four ordered comparisons share one argument *)
  assert (Hordered :
    forall (m : Z -> Z) (S : Z) (closed : bool),
      0 < S -> S = (if Dir =? 1 then s else - s) ->
      (forall v, test rho D Cond v = Some (0 <? m v)) ->
      (forall v, m (v + s) = m v - S) ->
      0 <= m v0 ->
      ideal (setVar rho D v0)
           (BuildBinOp BO_Sub (if Dir <? 0 then DeclRefExpr D else Limit)
                              (if Dir <? 0 then Limit else DeclRefExpr D))
        = Some (if closed then m v0 - 1 else m v0) ->
      (if closed then Op = BO_LE \/ Op = BO_GE else Op = BO_LT \/ Op = BO_GT) ->
      exists (n : nat) (T0 : CountType) (E : Expr),
        IntegralCastTo T
          (buildLoopCount Op Dir
             (BuildBinOp BO_Sub (if Dir <? 0 then DeclRefExpr D else Limit)
                                (if Dir <? 0 then Limit else DeclRefExpr D))
             (StrideExpr Incr)) = IntegralCastTo T0 E
        /\ Iterates (test rho D Cond) (next rho D Inc) v0 n
        /\ ideal (setVar rho D v0)
             (IntegralCastTo T
                (buildLoopCount Op Dir
                   (BuildBinOp BO_Sub (if Dir <? 0 then DeclRefExpr D else Limit)
                                      (if Dir <? 0 then Limit else DeclRefExpr D))
                   (StrideExpr Incr)))
           = Some (Z.of_nat n)).
  { intros m S closed HS HSdef Hm Hmstep Hm0 Hspan Hop.
    destruct (count_of_distance (test rho D Cond) (next rho D Inc) m S v0 HS Hm)
      as (k & Hk & Hq).
    - intros v. exists (v + s). split; [apply Hstep | apply Hmstep].
    - exact Hm0.
    - exists k, T. eexists. split; [reflexivity|]. split; [exact Hk|].
      apply Hcast. destruct closed.
      + rewrite (buildLoopCount_value_closed _ Op Dir _ _ _ s Hspan (Hstride v0) Hop)
          by (rewrite <- HSdef; lia).
        rewrite <- HSdef. f_equal. rewrite <- Hq. f_equal. ring.
      + rewrite (buildLoopCount_value_open _ Op Dir _ _ _ s Hspan (Hstride v0) Hop)
          by (rewrite <- HSdef; lia).
        rewrite <- HSdef. f_equal. exact Hq. }
  assert (Hstart' : Op <> BO_NE ->
                    forall b, test rho D Cond v0 = Some b -> v0 = lim \/ b = true).
  { intros Hne b Hb. destruct (Hstart Hne) as [?|Ht]; [now left|].
    right. congruence. }
  assert (Hspan : forall z,
             z = (if Dir <? 0 then v0 - lim else lim - v0) ->
             ideal (setVar rho D v0)
                  (BuildBinOp BO_Sub (if Dir <? 0 then DeclRefExpr D else Limit)
                                     (if Dir <? 0 then Limit else DeclRefExpr D))
             = Some z).
  { intros z ->. unfold BuildBinOp. destruct (Dir <? 0); cbn [ideal];
      rewrite Hlim, var_setVar; reflexivity. }
  destruct Op; try contradiction.
  - (* < *)
    destruct Hshape as [[-> Ht] | [-> Ht]]; cbn in Ht.
    + apply (Hordered (fun v => lim - v) s false);
        [ now apply Hup | reflexivity
        | intros v; rewrite Ht; f_equal; apply eq_true_iff_eq;
          rewrite !Z.ltb_lt; lia
        | intros v; ring
        | destruct (Hstart' ltac:(discriminate) _ (Ht v0)) as [?|H];
          [|apply Z.ltb_lt in H]; lia
        | apply Hspan; reflexivity
        | now left ].
    + apply (Hordered (fun v => v - lim) (- s) false);
        [ specialize (Hdown eq_refl); lia | reflexivity
        | intros v; rewrite Ht; f_equal; apply eq_true_iff_eq;
          rewrite !Z.ltb_lt; lia
        | intros v; ring
        | destruct (Hstart' ltac:(discriminate) _ (Ht v0)) as [?|H];
          [|apply Z.ltb_lt in H]; lia
        | apply Hspan; reflexivity
        | now left ].
  - (* > *)
    destruct Hshape as [[-> Ht] | [-> Ht]]; cbn in Ht.
    + apply (Hordered (fun v => v - lim) (- s) false);
        [ specialize (Hdown eq_refl); lia | reflexivity
        | intros v; rewrite Ht; f_equal; apply eq_true_iff_eq;
          rewrite !Z.ltb_lt; lia
        | intros v; ring
        | destruct (Hstart' ltac:(discriminate) _ (Ht v0)) as [?|H];
          [|apply Z.ltb_lt in H]; lia
        | apply Hspan; reflexivity
        | now right ].
    + apply (Hordered (fun v => lim - v) s false);
        [ now apply Hup | reflexivity
        | intros v; rewrite Ht; f_equal; apply eq_true_iff_eq;
          rewrite !Z.ltb_lt; lia
        | intros v; ring
        | destruct (Hstart' ltac:(discriminate) _ (Ht v0)) as [?|H];
          [|apply Z.ltb_lt in H]; lia
        | apply Hspan; reflexivity
        | now right ].
  - (* <= *)
    destruct Hshape as [[-> Ht] | [-> Ht]]; cbn in Ht.
    + apply (Hordered (fun v => lim - v + 1) s true);
        [ now apply Hup | reflexivity
        | intros v; rewrite Ht; f_equal; apply eq_true_iff_eq;
          rewrite Z.ltb_lt, Z.leb_le; lia
        | intros v; ring
        | destruct (Hstart' ltac:(discriminate) _ (Ht v0)) as [?|H];
          [|apply Z.leb_le in H]; lia
        | apply Hspan; cbn; ring
        | now left ].
    + apply (Hordered (fun v => v - lim + 1) (- s) true);
        [ specialize (Hdown eq_refl); lia | reflexivity
        | intros v; rewrite Ht; f_equal; apply eq_true_iff_eq;
          rewrite Z.ltb_lt, Z.leb_le; lia
        | intros v; ring
        | destruct (Hstart' ltac:(discriminate) _ (Ht v0)) as [?|H];
          [|apply Z.leb_le in H]; lia
        | apply Hspan; cbn; ring
        | now left ].
  - (* >= *)
    destruct Hshape as [[-> Ht] | [-> Ht]]; cbn in Ht.
    + apply (Hordered (fun v => v - lim + 1) (- s) true);
        [ specialize (Hdown eq_refl); lia | reflexivity
        | intros v; rewrite Ht; f_equal; apply eq_true_iff_eq;
          rewrite Z.ltb_lt, Z.leb_le; lia
        | intros v; ring
        | destruct (Hstart' ltac:(discriminate) _ (Ht v0)) as [?|H];
          [|apply Z.leb_le in H]; lia
        | apply Hspan; cbn; ring
        | now right ].
    + apply (Hordered (fun v => lim - v + 1) s true);
        [ now apply Hup | reflexivity
        | intros v; rewrite Ht; f_equal; apply eq_true_iff_eq;
          rewrite Z.ltb_lt, Z.leb_le; lia
        | intros v; ring
        | destruct (Hstart' ltac:(discriminate) _ (Ht v0)) as [?|H];
          [|apply Z.leb_le in H]; lia
        | apply Hspan; cbn; ring
        | now right ].
  - (* != *)
    destruct Hshape as [-> Ht]. destruct (HNE eq_refl) as (k & Hk).
    exists k, T. eexists. split; [reflexivity|]. split.
    + eapply Iterates_until_equal; eauto.
    + apply Hcast.
      rewrite (buildLoopCount_value_ne _ 0 _ _ (lim - v0) s);
        [ | apply Hspan; reflexivity | apply Hstride | exact Hnz ].
      f_equal. rewrite Hk.
      replace (v0 + Z.of_nat k * s - v0) with (Z.of_nat k * s) by ring.
      destruct (s <? 0) eqn:Hneg.
      * replace (- (Z.of_nat k * s)) with (Z.of_nat k * - s) by ring.
        apply Z.quot_mul. lia.
      * now apply Z.quot_mul.
Qed.

(** When the operations under the final conversion do not overflow, the
    loop count expression has, in the arithmetic of its types, the value
    of the number of iterations reduced modulo 2^32 or 2^64 by that
    conversion. *)
Lemma loop_count_modulo :
  forall (A : ExprAnalysis) (CilkForLoc : SourceLocation) (rho : Env)
         (CV : VarDecl) (Cond Inc : Expr)
         (LoopCount SE : Expr) (d : list Diagnostic)
         (Limit : Expr) (Dir : Z) (Op : BinaryOperatorKind) (dc : list Diagnostic)
         (Incr : Increment) (di : list Diagnostic) (v0 lim : Z),
    ActOnCilkForStmt CilkForLoc (Some CV) Cond Inc = (Owned LoopCount SE, d) ->
    CheckCilkForCondition CV Cond = (Some (Limit, Dir, Op), dc) ->
    IsValidCilkForIncrement Inc CV = (Some Incr, di) ->
    HasConstantIncrement Incr = true ->
    (forall v, ideal (setVar rho (VarId CV) v) Limit = Some lim) ->
    (forall v, ideal (setVar rho (VarId CV) v) (StrideExpr Incr)
               = Some (APSInt.getSExtValue (Stride Incr))) ->
    (forall v, test rho (VarId CV) Cond v <> None) ->
    (forall v, next rho (VarId CV) Inc v <> None) ->
    (Op = BO_NE ->
     exists k, lim = v0 + Z.of_nat k * APSInt.getSExtValue (Stride Incr)) ->
    (Op <> BO_NE -> v0 = lim \/ test rho (VarId CV) Cond v0 = Some true) ->
    noOverflow (setVar rho (VarId CV) v0) (countOperand LoopCount) = true ->
    exists (n : nat) (T : CountType) (E : Expr),
      LoopCount = IntegralCastTo T E
      /\ Iterates (test rho (VarId CV) Cond) (next rho (VarId CV) Inc) v0 n
      /\ eval (setVar rho (VarId CV) v0) LoopCount
         = Some (Z.of_nat n mod 2 ^ countBits T).
Proof.
  intros A CilkForLoc rho CV Cond Inc LoopCount SE d Limit Dir Op dc Incr di
         v0 lim Hact Hcond Hinc Hconst Hlim Hstride Htest Hnext HNE Hstart Hno.
  destruct (loop_count_ideal A CilkForLoc rho CV Cond Inc LoopCount SE d Limit
              Dir Op dc Incr di v0 lim Hact Hcond Hinc Hconst Hlim Hstride
              Htest Hnext HNE Hstart) as (n & T & E & -> & Hit & Hid).
  exists n, T, E. split; [reflexivity|]. split; [exact Hit|].
  cbn [countOperand] in Hno. cbn [ideal] in Hid.
  destruct (noOverflow_value A _ _ Hno) as (z & Hi & He).
  rewrite Hid in Hi. injection Hi as <-.
  cbn [eval]. rewrite He. cbn [option_map]. now rewrite wrap_count.
Qed.

(** C1, as amended.  Take a [_Cilk_for] loop that [ActOnCilkForStmt]
    accepts, with a compile-time constant stride (non-zero and of a sign
    consistent with the comparison, or the loop would have been
    rejected), whose condition and increment are the built-in ones.  If
    the control variable starts at the limit or on the side of it where
    the condition holds (for [!=]: a whole number of strides before the
    limit), and no operation of the loop count expression overflows the
    type in which it is done, then the loop count expression has, in the
    arithmetic of its types, the value of the exact number of
    iterations. *)
Theorem loop_count_exact :
  forall (A : ExprAnalysis) (CilkForLoc : SourceLocation) (rho : Env)
         (CV : VarDecl) (Cond Inc : Expr)
         (LoopCount SE : Expr) (d : list Diagnostic)
         (Limit : Expr) (Dir : Z) (Op : BinaryOperatorKind) (dc : list Diagnostic)
         (Incr : Increment) (di : list Diagnostic) (v0 lim : Z),
    ActOnCilkForStmt CilkForLoc (Some CV) Cond Inc = (Owned LoopCount SE, d) ->
    CheckCilkForCondition CV Cond = (Some (Limit, Dir, Op), dc) ->
    IsValidCilkForIncrement Inc CV = (Some Incr, di) ->
    HasConstantIncrement Incr = true ->
    (forall v, ideal (setVar rho (VarId CV) v) Limit = Some lim) ->
    (forall v, ideal (setVar rho (VarId CV) v) (StrideExpr Incr)
               = Some (APSInt.getSExtValue (Stride Incr))) ->
    (forall v, test rho (VarId CV) Cond v <> None) ->
    (forall v, next rho (VarId CV) Inc v <> None) ->
    (Op = BO_NE ->
     exists k, lim = v0 + Z.of_nat k * APSInt.getSExtValue (Stride Incr)) ->
    (Op <> BO_NE -> v0 = lim \/ test rho (VarId CV) Cond v0 = Some true) ->
    noOverflow (setVar rho (VarId CV) v0) LoopCount = true ->
    exists n : nat,
      Iterates (test rho (VarId CV) Cond) (next rho (VarId CV) Inc) v0 n
      /\ eval (setVar rho (VarId CV) v0) LoopCount = Some (Z.of_nat n).
Proof.
  intros A CilkForLoc rho CV Cond Inc LoopCount SE d Limit Dir Op dc Incr di
         v0 lim Hact Hcond Hinc Hconst Hlim Hstride Htest Hnext HNE Hstart Hno.
  destruct (loop_count_ideal A CilkForLoc rho CV Cond Inc LoopCount SE d Limit
              Dir Op dc Incr di v0 lim Hact Hcond Hinc Hconst Hlim Hstride
              Htest Hnext HNE Hstart) as (n & T & E & HL & Hit & Hid).
  exists n. split; [exact Hit|].
  destruct (noOverflow_value A _ _ Hno) as (z & Hi & He).
  rewrite Hid in Hi. injection Hi as <-. exact He.
Qed.

(** The loop [for (i = 0; i <= 9; i += 3)]: the body runs for 0, 3, 6
    and 9, and the loop count expression has the value 4. *)
Lemma loop_count_exact_witness :
  ActOnCilkForStmt 0 (Some control) atMost9 plus3
    = (Owned (IntegralCastTo UnsignedIntTy
                (buildLoopCount BO_LE 1
                   (BuildBinOp BO_Sub (IntegerLiteral 9) i)
                   (IntegerLiteral 3)))
             (IntegerLiteral 3), [])
  /\ exists n : nat,
       Iterates (test noOther 0 atMost9) (next noOther 0 plus3) 0 n
       /\ eval (setVar noOther 0 0)
            (IntegralCastTo UnsignedIntTy
               (buildLoopCount BO_LE 1
                  (BuildBinOp BO_Sub (IntegerLiteral 9) i)
                  (IntegerLiteral 3)))
          = Some (Z.of_nat n).
Proof.
  split; [reflexivity|].
  apply (loop_count_exact IntAnalysis 0 noOther control atMost9 plus3 _
           (IntegerLiteral 3) []
           (IntegerLiteral 9) 1 BO_LE []
           (mkIncrement true (APSInt.make 32 3 false) (IntegerLiteral 3) 0) []
           0 9).
  - reflexivity.
  - reflexivity.
  - reflexivity.
  - reflexivity.
  - intros v. reflexivity.
  - intros v. reflexivity.
  - intros v. cbn. discriminate.
  - intros v. cbn. discriminate.
  - discriminate.
  - intros _. right. reflexivity.
  - vm_compute. reflexivity.
Defined.

(** The first two loops of the specification: [i = 0; i < 10; ++i] and
    [i = 10; i > 0; --i], the stride of 1 being a decrement, have the
    loop count 10, and run 10 times. *)
Lemma loop_count_examples :
  loopCountOf less10 plusPlus 0 = Some 10
  /\ iterations 20 less10 plusPlus 0 = Some 10%nat
  /\ loopCountOf greater0 minusMinus 10 = Some 10
  /\ iterations 20 greater0 minusMinus 10 = Some 10%nat.
Proof. repeat split. Qed.

(** The loop [i = 0; i < 2147483647; i += 2] runs 1073741824 times. *)
Lemma lessMax_plus2_iterations :
  exists n : nat,
    Iterates (test noOther 0 lessMax) (next noOther 0 plus2) 0 n
    /\ Z.of_nat n = 1073741824.
Proof.
  destruct (count_of_distance (test noOther 0 lessMax) (next noOther 0 plus2)
              (fun v => 2147483647 - v) 2 0) as (k & Hk & Hq).
  - lia.
  - intros v. unfold test, lessMax, i.
    cbn [ideal setVar var idealBinary option_map Nat.eqb]. f_equal.
    destruct (Z.ltb_spec v 2147483647) as [H|H];
      destruct (Z.ltb_spec 0 (2147483647 - v)) as [H'|H']; try lia; reflexivity.
  - intros v. exists (v + 2). split; [|ring].
    unfold next, plus2, i. cbn [stripIncrement refersTo IgnoreImpCasts Nat.eqb].
    cbn [ideal]. reflexivity.
  - lia.
  - exists k. split; [exact Hk|]. rewrite <- Hq. reflexivity.
Qed.

(** C1 fails as stated.  For [i = 0; i <= 9; i += 3] the loop count is
    4, as is the number of iterations, and not 3.  For a loop that
    starts past its limit, [i = 10; i < 0; ++i], the body never runs
    while the loop count expression has the value 2^32 - 10.  And the
    count is computed in the type of its operands: for
    [i = 0; i < 2147483647; i += 1073741824] the sum of the span and the
    stride less one overflows [int], and the loop count is 2^32 - 1
    while the body runs twice; for [i = 0; i < 2147483647; i += 2] the
    loop count is 3221225472 while the body runs 1073741824 times. *)
Lemma loop_count_counterexample :
  (loopCountOf atMost9 plus3 0 = Some 4
   /\ loopCountOf atMost9 plus3 0 <> Some 3
   /\ iterations 20 atMost9 plus3 0 = Some 4%nat)
  /\ (loopCountOf less0 plusPlus 10 = Some 4294967286
      /\ iterations 20 less0 plusPlus 10 = Some 0%nat)
  /\ (loopCountOf lessMax plusHalf 0 = Some 4294967295
      /\ iterations 20 lessMax plusHalf 0 = Some 2%nat)
  /\ (loopCountOf lessMax plus2 0 = Some 3221225472
      /\ exists n : nat,
           Iterates (test noOther 0 lessMax) (next noOther 0 plus2) 0 n
           /\ Z.of_nat n = 1073741824).
Proof.
  split; [|split; [|split]].
  - repeat split. cbv. discriminate.
  - split; reflexivity.
  - split; vm_compute; reflexivity.
  - split; [vm_compute; reflexivity | exact lessMax_plus2_iterations].
Qed.

(** In the three loops of the specification every operation of the loop
    count stays in its type.  In the loop that starts past its limit the
    final conversion does not, and in the two loops near the largest
    [int] the sum of the span and the stride less one does not. *)
Lemma loop_count_in_range :
  countInRange less10 plusPlus 0 = Some true
  /\ countInRange greater0 minusMinus 10 = Some true
  /\ countInRange atMost9 plus3 0 = Some true
  /\ countInRange less0 plusPlus 10 = Some false
  /\ countInRange lessMax plusHalf 0 = Some false
  /\ countInRange lessMax plus2 0 = Some false.
Proof. repeat split; vm_compute; reflexivity. Qed.

End CilkForFacts.

(** ** Values of one integer type *)
Module APSIntFacts.
Import APSInt.

Lemma modulus_pos : forall w, 0 < modulus w.
Proof. intros w. unfold modulus. apply Z.pow_pos_nonneg; lia. Qed.

Lemma getZExtValue_bound :
  forall x, 0 <= getZExtValue x < modulus (BitWidth x).
Proof. intros x. apply Z.mod_pos_bound, modulus_pos. Qed.

(** Under one width and signedness, equal bit patterns and equal values
    are the same thing. *)
Lemma value_inj :
  forall w u a b,
    hasType w u a -> hasType w u b ->
    (getZExtValue a = getZExtValue b <-> value a = value b).
Proof.
  intros w u a b [Wa Ua] [Wb Ub]. unfold value, getSExtValue.
  pose proof (getZExtValue_bound a) as Ha.
  pose proof (getZExtValue_bound b) as Hb.
  rewrite Ua, Ub, Wa, Wb in *.
  destruct u; [tauto|].
  destruct (2 * getZExtValue a <? modulus w) eqn:Ea,
           (2 * getZExtValue b <? modulus w) eqn:Eb;
    rewrite ?Z.ltb_lt, ?Z.ltb_ge in *; lia.
Qed.

Section Comparisons.
Variables (w : N) (u : bool) (a b : t).
Hypotheses (Ha : hasType w u a) (Hb : hasType w u b).

Lemma lt_value : lt a b = (value a <? value b).
Proof.
  destruct Ha as [_ Ua], Hb as [_ Ub]. unfold lt, value.
  rewrite Ua, Ub. now destruct u.
Qed.

Lemma gt_value : gt a b = (value b <? value a).
Proof.
  destruct Ha as [_ Ua], Hb as [_ Ub]. unfold gt, value.
  rewrite Ua, Ub. now destruct u.
Qed.

Lemma le_value : le a b = (value a <=? value b).
Proof.
  destruct Ha as [_ Ua], Hb as [_ Ub]. unfold le, value.
  rewrite Ua, Ub. now destruct u.
Qed.

Lemma ge_value : ge a b = (value b <=? value a).
Proof.
  destruct Ha as [_ Ua], Hb as [_ Ub]. unfold ge, value.
  rewrite Ua, Ub. now destruct u.
Qed.

Lemma eq_value : eq a b = (value a =? value b).
Proof.
  unfold eq. apply eq_true_iff_eq. rewrite !Z.eqb_eq.
  now apply value_inj with w u.
Qed.

Lemma ne_value : ne a b = negb (value a =? value b).
Proof. unfold ne. now rewrite eq_value. Qed.

End Comparisons.

End APSIntFacts.

(** ** The library algorithms *)
Module StdFacts.
Import Std.

Section Sorting.
Context {A : Type}.
Variable less : A -> A -> bool.
(** The elements on which [less] is a strict weak order. *)
Variable P : A -> Prop.
Hypothesis less_asym :
  forall x y, P x -> P y -> less x y = true -> less y x = false.
Hypothesis less_trans :
  forall x y z, P x -> P y -> P z ->
                less y x = false -> less z y = false -> less z x = false.

Lemma insert_perm : forall x l, Permutation (insert less x l) (x :: l).
Proof.
  intros x. induction l as [|y t IH]; cbn.
  - reflexivity.
  - destruct (less y x).
    + rewrite IH. apply perm_swap.
    + reflexivity.
Qed.

Lemma stable_sort_perm : forall l, Permutation (stable_sort less l) l.
Proof.
  induction l as [|x t IH]; cbn.
  - reflexivity.
  - fold (stable_sort less t). rewrite insert_perm. now constructor.
Qed.

Lemma Forall_permuted :
  forall (Q : A -> Prop) l l', Permutation l l' -> Forall Q l -> Forall Q l'.
Proof.
  intros Q l l' Hperm HQ. rewrite Forall_forall in *. intros z Hz.
  apply HQ. eapply Permutation_in; [symmetry; exact Hperm | exact Hz].
Qed.

Lemma insert_sorted :
  forall x l,
    P x -> Forall P l ->
    StronglySorted (fun a b => less b a = false) l ->
    StronglySorted (fun a b => less b a = false) (insert less x l).
Proof.
  intros x l Px. induction l as [|y t IH]; intros HP Hs; cbn.
  - repeat constructor.
  - inversion HP as [|? ? Py Pt]; subst.
    inversion Hs as [|? ? Hst Hy]; subst.
    destruct (less y x) eqn:Hyx.
    + constructor; [now apply IH|].
      apply Forall_permuted with (x :: t).
      * symmetry. apply insert_perm.
      * constructor; [now apply less_asym | exact Hy].
    + constructor; [exact Hs|]. constructor; [exact Hyx|].
      rewrite Forall_forall in *. intros z Hz.
      apply less_trans with y; auto.
Qed.

Lemma stable_sort_sorted :
  forall l,
    Forall P l ->
    StronglySorted (fun a b => less b a = false) (stable_sort less l).
Proof.
  induction l as [|x t IH]; intros HP; cbn.
  - constructor.
  - inversion HP; subst. fold (stable_sort less t).
    apply insert_sorted; auto.
    apply Forall_permuted with t; [|assumption].
    symmetry. apply stable_sort_perm.
Qed.

End Sorting.

(** Two entries of a list are two entries of each of its permutations,
    in one order or the other. *)
Lemma twoOf_perm :
  forall {X : Type} (l l' : list X) (x y : X),
    Permutation l l' ->
    SwitchSpec.twoOf l x y ->
    SwitchSpec.twoOf l' x y \/ SwitchSpec.twoOf l' y x.
Proof.
  intros X l l' x y Hperm (l1 & l2 & l3 & ->).
  assert (Hx : In x l').
  { eapply Permutation_in; [exact Hperm|]. apply in_elt. }
  apply in_split in Hx. destruct Hx as (a & b & ->).
  assert (Hrest : Permutation (l1 ++ l2 ++ y :: l3) (a ++ b)).
  { apply Permutation_app_inv with (a := x).
    exact Hperm. }
  assert (Hy : In y (a ++ b)).
  { eapply Permutation_in; [exact Hrest|].
    apply in_or_app. right. apply in_elt. }
  apply in_app_or in Hy. destruct Hy as [Hy | Hy];
    apply in_split in Hy; destruct Hy as (c & e & ->).
  - right. exists c, e, b. now rewrite <- app_assoc.
  - left. now exists a, c, e.
Qed.

End StdFacts.

(** ** The switch analyzer *)
Module SwitchFacts.
Import Sema Switch SwitchSpec.
Import APSIntFacts StdFacts.

(** *** The condition before the promotion *)

Lemma underIntegralCasts_strip :
  forall e Under, underIntegralCasts e Under -> stripIntegralCasts e = Under.
Proof.
  induction 1 as [e He | i sub Under _ IH].
  - destruct e as [i sub|i k sub|i]; try reflexivity.
    destruct k; try reflexivity. contradiction.
  - exact IH.
Qed.

(** The expression [GetTypeBeforeIntegralPromotion] leaves is the one
    under the cleanups and the integral casts of the condition. *)
Lemma beforePromotion_spec :
  forall CondExpr Under,
    beforePromotion CondExpr Under -> ExprBeforePromotion CondExpr = Under.
Proof.
  intros CondExpr Under H. unfold ExprBeforePromotion.
  destruct CondExpr; now apply underIntegralCasts_strip.
Qed.

Lemma beforePromotion_width :
  forall CondExpr Under,
    beforePromotion CondExpr Under ->
    condWidth CondExpr = getIntWidth (getType (info Under))
    /\ condIsSigned CondExpr
       = isSignedIntegerOrEnumerationType (getType (info Under))
    /\ condEnum CondExpr = getAsEnumType (getType (info Under)).
Proof.
  intros CondExpr Under H.
  unfold condWidth, condIsSigned, condEnum, GetTypeBeforeIntegralPromotion.
  now rewrite (beforePromotion_spec _ _ H).
Qed.

(** *** Converted values have the type of the condition *)

Lemma ConvertIntegerToTypeWarnOnOverflow_hasType :
  forall Val W Sg Loc ID,
    APSInt.hasType W (negb Sg)
      (fst (ConvertIntegerToTypeWarnOnOverflow Val W Sg Loc ID)).
Proof.
  intros Val W Sg Loc ID. unfold ConvertIntegerToTypeWarnOnOverflow.
  destruct (APSInt.BitWidth Val <? W)%N eqn:E1; [now split|].
  destruct (W <? APSInt.BitWidth Val)%N eqn:E2; [now split|].
  apply N.ltb_ge in E1, E2.
  destruct (negb (Bool.eqb Sg (APSInt.isSigned Val))) eqn:E3; cbn.
  - split; cbn; [lia | reflexivity].
  - apply negb_false_iff, eqb_prop in E3. split; [lia|].
    unfold APSInt.isSigned in E3. subst Sg. now rewrite negb_involutive.
Qed.

Lemma AdjustAPSInt_hasType :
  forall Val W Sg, APSInt.hasType W (negb Sg) (AdjustAPSInt Val W Sg).
Proof.
  intros Val W Sg. unfold AdjustAPSInt.
  destruct (APSInt.BitWidth Val <? W)%N eqn:E1; [now split|].
  destruct (W <? APSInt.BitWidth Val)%N eqn:E2; [now split|].
  apply N.ltb_ge in E1, E2. split; cbn; [lia | reflexivity].
Qed.

Section Typed.
Variables (cpp11 : bool) (CondType : QualType) (W : N) (Sg : bool).

Lemma converted_hasType :
  forall E v, converted cpp11 CondType W Sg E = Some v ->
              APSInt.hasType W (negb Sg) v.
Proof.
  intros E v. unfold converted.
  destruct (caseValue cpp11 CondType E); [|discriminate].
  intros H. injection H as <-. apply ConvertIntegerToTypeWarnOnOverflow_hasType.
Qed.

Lemma singletons_hasType :
  forall cases,
    Forall (fun c => APSInt.hasType W (negb Sg) (fst c))
           (singletons cpp11 CondType W Sg cases).
Proof.
  intros cases. apply Forall_forall. intros c Hc.
  unfold singletons in Hc. apply in_flat_map in Hc.
  destruct Hc as ([DS|CS] & _ & Hin); [contradiction|].
  destruct (getRHS CS); [contradiction|].
  destruct (converted cpp11 CondType W Sg (getLHS CS)) eqn:Hv; [|contradiction].
  destruct Hin as [<-|[]]. cbn. eapply converted_hasType; eauto.
Qed.

Lemma ranges_hasType :
  forall cases,
    Forall (fun c => APSInt.hasType W (negb Sg) (fst c))
           (ranges cpp11 CondType W Sg cases).
Proof.
  intros cases. apply Forall_forall. intros c Hc.
  unfold ranges in Hc. apply in_flat_map in Hc.
  destruct Hc as ([DS|CS] & _ & Hin); [contradiction|].
  destruct (getRHS CS); [|contradiction].
  destruct (converted cpp11 CondType W Sg (getLHS CS)) eqn:Hv; [|contradiction].
  destruct Hin as [<-|[]]. cbn. eapply converted_hasType; eauto.
Qed.

End Typed.

(** *** The three orders *)

Section Orders.
Variables (W : N) (U : bool).

Lemma CmpCaseVals_order :
  forall x y : APSInt.t * CaseStmt,
    APSInt.hasType W U (fst x) -> APSInt.hasType W U (fst y) ->
    (CmpCaseVals y x = false <-> byValueThenLoc x y).
Proof.
  intros x y Hx Hy. unfold CmpCaseVals, byValueThenLoc.
  rewrite (lt_value W U _ _ Hy Hx), (eq_value W U _ _ Hy Hx).
  destruct (Z.ltb_spec (APSInt.value (fst y)) (APSInt.value (fst x)));
    [split; [discriminate | lia]|].
  destruct (Z.eqb_spec (APSInt.value (fst y)) (APSInt.value (fst x))); cbn.
  - destruct (Z.ltb_spec (getCaseLoc (snd y)) (getCaseLoc (snd x)));
      split; try discriminate; try reflexivity; lia.
  - split; [lia | reflexivity].
Qed.

Lemma CmpCaseVals_asym :
  forall x y : APSInt.t * CaseStmt,
    APSInt.hasType W U (fst x) -> APSInt.hasType W U (fst y) ->
    CmpCaseVals x y = true -> CmpCaseVals y x = false.
Proof.
  intros x y Hx Hy Hxy. apply CmpCaseVals_order; auto.
  destruct (CmpCaseVals y x) eqn:Hyx.
  - exfalso. unfold CmpCaseVals in *.
    rewrite (lt_value W U _ _ Hy Hx), (eq_value W U _ _ Hy Hx) in Hyx.
    rewrite (lt_value W U _ _ Hx Hy), (eq_value W U _ _ Hx Hy) in Hxy.
    destruct (Z.ltb_spec (APSInt.value (fst y)) (APSInt.value (fst x)));
      destruct (Z.ltb_spec (APSInt.value (fst x)) (APSInt.value (fst y)));
      try lia;
      destruct (Z.eqb_spec (APSInt.value (fst y)) (APSInt.value (fst x)));
      destruct (Z.eqb_spec (APSInt.value (fst x)) (APSInt.value (fst y)));
      cbn in *; try discriminate; try lia;
      destruct (Z.ltb_spec (getCaseLoc (snd y)) (getCaseLoc (snd x)));
      destruct (Z.ltb_spec (getCaseLoc (snd x)) (getCaseLoc (snd y)));
      try discriminate; lia.
  - now apply CmpCaseVals_order in Hyx.
Qed.

Lemma CmpCaseVals_trans :
  forall x y z : APSInt.t * CaseStmt,
    APSInt.hasType W U (fst x) -> APSInt.hasType W U (fst y) ->
    APSInt.hasType W U (fst z) ->
    CmpCaseVals y x = false -> CmpCaseVals z y = false ->
    CmpCaseVals z x = false.
Proof.
  intros x y z Hx Hy Hz Hxy Hyz.
  apply CmpCaseVals_order in Hxy, Hyz; auto. apply CmpCaseVals_order; auto.
  unfold byValueThenLoc in *. lia.
Qed.

Lemma PairLess_order :
  forall x y : APSInt.t * CaseStmt,
    APSInt.hasType W U (fst x) -> APSInt.hasType W U (fst y) ->
    (PairLess y x = false
     <-> APSInt.value (fst x) < APSInt.value (fst y)
         \/ (APSInt.value (fst x) = APSInt.value (fst y)
             /\ CaseAddr (snd x) <= CaseAddr (snd y))).
Proof.
  intros x y Hx Hy. unfold PairLess.
  rewrite (lt_value W U _ _ Hy Hx), (lt_value W U _ _ Hx Hy).
  destruct (Z.ltb_spec (APSInt.value (fst y)) (APSInt.value (fst x)));
    [split; [discriminate | lia]|].
  destruct (Z.ltb_spec (APSInt.value (fst x)) (APSInt.value (fst y))); cbn.
  - split; [lia | reflexivity].
  - destruct (Z.ltb_spec (CaseAddr (snd y)) (CaseAddr (snd x)));
      split; try discriminate; try reflexivity; lia.
Qed.

Lemma PairLess_asym :
  forall x y : APSInt.t * CaseStmt,
    APSInt.hasType W U (fst x) -> APSInt.hasType W U (fst y) ->
    PairLess x y = true -> PairLess y x = false.
Proof.
  intros x y Hx Hy Hxy. apply PairLess_order; auto.
  destruct (PairLess y x) eqn:Hyx.
  - exfalso. unfold PairLess in *.
    rewrite (lt_value W U _ _ Hy Hx), (lt_value W U _ _ Hx Hy) in Hyx.
    rewrite (lt_value W U _ _ Hy Hx), (lt_value W U _ _ Hx Hy) in Hxy.
    destruct (Z.ltb_spec (APSInt.value (fst y)) (APSInt.value (fst x)));
      destruct (Z.ltb_spec (APSInt.value (fst x)) (APSInt.value (fst y)));
      cbn in *; try discriminate; try lia;
      destruct (Z.ltb_spec (CaseAddr (snd y)) (CaseAddr (snd x)));
      destruct (Z.ltb_spec (CaseAddr (snd x)) (CaseAddr (snd y)));
      try discriminate; lia.
  - now apply PairLess_order in Hyx.
Qed.

Lemma PairLess_trans :
  forall x y z : APSInt.t * CaseStmt,
    APSInt.hasType W U (fst x) -> APSInt.hasType W U (fst y) ->
    APSInt.hasType W U (fst z) ->
    PairLess y x = false -> PairLess z y = false -> PairLess z x = false.
Proof.
  intros x y z Hx Hy Hz Hxy Hyz.
  apply PairLess_order in Hxy, Hyz; auto. apply PairLess_order; auto. lia.
Qed.

Lemma CmpEnumVals_order :
  forall x y : APSInt.t * EnumConstantDecl,
    APSInt.hasType W U (fst x) -> APSInt.hasType W U (fst y) ->
    (CmpEnumVals y x = false <-> APSInt.value (fst x) <= APSInt.value (fst y)).
Proof.
  intros x y Hx Hy. unfold CmpEnumVals.
  rewrite (lt_value W U _ _ Hy Hx). now rewrite Z.ltb_ge.
Qed.

End Orders.

(** *** Sorted vectors *)

Lemma StronglySorted_impl_on :
  forall {X : Type} (P : X -> Prop) (R R' : X -> X -> Prop) (l : list X),
    (forall x y, P x -> P y -> R x y -> R' x y) ->
    Forall P l -> StronglySorted R l -> StronglySorted R' l.
Proof.
  intros X P R R' l Himp HP Hs. induction Hs as [|x t Hs IH Hx].
  - constructor.
  - inversion HP as [|? ? Px Pt]; subst. constructor; [now apply IH|].
    rewrite Forall_forall in *. intros z Hz. apply Himp; auto.
Qed.

Lemma twoOf_cons :
  forall {X : Type} (c x y : X) (l : list X),
    twoOf (c :: l) x y -> (c = x /\ In y l) \/ twoOf l x y.
Proof.
  intros X c x y l (l1 & l2 & l3 & Heq). destruct l1 as [|c' l1]; cbn in Heq.
  - injection Heq as -> ->. left. split; [reflexivity|]. apply in_elt.
  - injection Heq as -> ->. right. now exists l1, l2, l3.
Qed.

Lemma twoOf_in :
  forall {X : Type} (l : list X) (x y : X), twoOf l x y -> In x l /\ In y l.
Proof.
  intros X l x y (l1 & l2 & l3 & ->). split.
  - apply in_elt.
  - apply in_or_app. right. right. apply in_elt.
Qed.

(** In a sorted list the earlier of two entries is not after the
    later. *)
Lemma StronglySorted_twoOf :
  forall {X : Type} (R : X -> X -> Prop) (l : list X) (x y : X),
    StronglySorted R l -> twoOf l x y -> R x y.
Proof.
  intros X R l x y Hs (l1 & l2 & l3 & ->).
  induction l1 as [|c l1 IH]; cbn in Hs.
  - inversion Hs as [|? ? _ Hall]; subst. rewrite Forall_forall in Hall.
    apply Hall. apply in_elt.
  - inversion Hs; subst. now apply IH.
Qed.

Section Scan.
Variables (cpp11 : bool) (CondType : QualType) (W : N) (Sg : bool).

Lemma sortedSingletons_perm :
  forall cases,
    Permutation (sortedSingletons cpp11 CondType W Sg cases)
                (singletons cpp11 CondType W Sg cases).
Proof. intros. apply stable_sort_perm. Qed.

Lemma sortedSingletons_hasType :
  forall cases,
    Forall (fun c => APSInt.hasType W (negb Sg) (fst c))
           (sortedSingletons cpp11 CondType W Sg cases).
Proof.
  intros cases. eapply Forall_permuted; [|apply singletons_hasType].
  symmetry. apply sortedSingletons_perm.
Qed.

Lemma sortedSingletons_sorted :
  forall cases,
    StronglySorted byValueThenLoc (sortedSingletons cpp11 CondType W Sg cases).
Proof.
  intros cases.
  apply StronglySorted_impl_on
    with (P := fun c : APSInt.t * CaseStmt => APSInt.hasType W (negb Sg) (fst c))
         (R := fun a b => CmpCaseVals b a = false).
  - intros x y Hx Hy. now apply CmpCaseVals_order with W (negb Sg).
  - apply sortedSingletons_hasType.
  - apply stable_sort_sorted
      with (P := fun c : APSInt.t * CaseStmt => APSInt.hasType W (negb Sg) (fst c)).
    + intros x y. apply CmpCaseVals_asym.
    + intros x y z. apply CmpCaseVals_trans.
    + apply singletons_hasType.
Qed.

Lemma sortedRanges_perm :
  forall cases,
    Permutation (sortedRanges cpp11 CondType W Sg cases)
                (ranges cpp11 CondType W Sg cases).
Proof. intros. apply stable_sort_perm. Qed.

Lemma sortedRanges_hasType :
  forall cases,
    Forall (fun c => APSInt.hasType W (negb Sg) (fst c))
           (sortedRanges cpp11 CondType W Sg cases).
Proof.
  intros cases. eapply Forall_permuted; [|apply ranges_hasType].
  symmetry. apply sortedRanges_perm.
Qed.

Lemma sortedRanges_sorted :
  forall cases,
    StronglySorted
      (fun a b => APSInt.value (fst a) <= APSInt.value (fst b))
      (sortedRanges cpp11 CondType W Sg cases).
Proof.
  intros cases.
  apply StronglySorted_impl_on
    with (P := fun c : APSInt.t * CaseStmt => APSInt.hasType W (negb Sg) (fst c))
         (R := fun a b => PairLess b a = false).
  - intros x y Hx Hy Hxy. apply (PairLess_order W (negb Sg)) in Hxy; auto. lia.
  - apply sortedRanges_hasType.
  - apply stable_sort_sorted
      with (P := fun c : APSInt.t * CaseStmt => APSInt.hasType W (negb Sg) (fst c)).
    + intros x y. apply PairLess_asym.
    + intros x y z. apply PairLess_trans.
    + apply ranges_hasType.
Qed.

(** *** The loop over the labels *)

Lemma scanCases_nonDependent :
  forall cases st,
    forallb (fun c => negb (labelDependent c)) cases = true ->
    HasDependentValue st = false ->
    HasDependentValue (scanCases cpp11 CondType W Sg cases st) = false
    /\ CaseVals (scanCases cpp11 CondType W Sg cases st)
       = CaseVals st ++ singletons cpp11 CondType W Sg cases
    /\ CaseRanges (scanCases cpp11 CondType W Sg cases st)
       = CaseRanges st ++ ranges cpp11 CondType W Sg cases
    /\ (CaseListIsErroneous st = true ->
        CaseListIsErroneous (scanCases cpp11 CondType W Sg cases st) = true)
    /\ isSome (TheDefaultStmt (scanCases cpp11 CondType W Sg cases st))
       = isSome (TheDefaultStmt st) || hasDefault cases
    /\ (isSome (TheDefaultStmt st) = true -> hasDefault cases = true ->
        CaseListIsErroneous (scanCases cpp11 CondType W Sg cases st) = true)
    /\ (duplicateDefault cases ->
        CaseListIsErroneous (scanCases cpp11 CondType W Sg cases st) = true)
    /\ exists d,
         ScanDiags (scanCases cpp11 CondType W Sg cases st) = ScanDiags st ++ d
         /\ Forall (fun x => isID warn_case_empty_range x = false) d.
Proof.
  induction cases as [|c cases IH]; intros st Hdep Hst.
  - cbn. rewrite !app_nil_r, orb_false_r. repeat split; auto; try discriminate.
    + intros (d1 & d2 & l1 & l2 & l3 & Heq). destruct l1; discriminate.
    + exists []. now rewrite app_nil_r.
  - cbn [forallb] in Hdep. apply andb_true_iff in Hdep. destruct Hdep as [Hc Hdep].
    apply negb_true_iff in Hc.
    cbn [scanCases]. rewrite Hst.
    destruct c as [DS|CS].
    + (* default *)
      assert (Hdup : duplicateDefault (SCDefault DS :: cases) ->
                     hasDefault cases = true \/ duplicateDefault cases).
      { intros (d1 & d2 & Htwo). apply twoOf_cons in Htwo.
        destruct Htwo as [[_ Hin] | Htwo].
        - left. unfold hasDefault. apply existsb_exists. now exists (SCDefault d2).
        - right. now exists d1, d2. }
      destruct (TheDefaultStmt st) as [prev|] eqn:Hdef;
        match goal with
        | |- context [scanCases _ _ _ _ cases ?x] => set (st' := x)
        end;
        destruct (IH st' Hdep eq_refl)
          as (H1 & H2 & H3 & H4 & H5 & H6 & H7 & d & H8 & H9);
        try (assert (Herr : CaseListIsErroneous
                              (scanCases cpp11 CondType W Sg cases st') = true)
               by (apply H4; reflexivity));
        repeat split; auto;
        try (rewrite H5; reflexivity);
        try discriminate;
        try (intros Htwo; destruct (Hdup Htwo) as [Hd | Hd];
             [apply H6; [reflexivity | exact Hd] | now apply H7]);
        try (eexists; split;
             [ rewrite H8; subst st'; cbn [ScanDiags]; rewrite <- app_assoc;
               reflexivity
             | apply Forall_app; split; [repeat constructor | exact H9] ]).
    + (* case *)
      cbn in Hc. apply orb_false_iff in Hc. destruct Hc as [HcL HcR].
      rewrite HcL.
      cbn [singletons ranges flat_map hasDefault existsb]. unfold converted.
      destruct (caseValue cpp11 CondType (getLHS CS)) as [LoVal0|] eqn:Hval.
      * destruct (ConvertIntegerToTypeWarnOnOverflow LoVal0 W Sg
                    (getLocStart (info (getLHS CS))) warn_case_value_overflow)
          as [LoVal d0] eqn:Hconv.
        assert (Hd0 : Forall (fun x => isID warn_case_empty_range x = false) d0).
        { unfold ConvertIntegerToTypeWarnOnOverflow in Hconv.
          repeat match type of Hconv with
                 | (if ?b then _ else _) = _ => destruct b
                 end; injection Hconv as _ <-;
            try match goal with
                | |- context [if ?b then _ else _] => destruct b
                end; repeat constructor. }
        cbn [fst].
        destruct (getRHS CS) as [Hi|] eqn:HRHS; rewrite ?HcR;
          match goal with
          | |- context [scanCases _ _ _ _ cases ?x] => set (st' := x)
          end;
          destruct (IH st' Hdep eq_refl)
            as (H1 & H2 & H3 & H4 & H5 & H6 & H7 & d & H8 & H9);
          repeat split; auto;
          try (rewrite H2; subst st'; cbn; now rewrite <- ?app_assoc);
          try (rewrite H3; subst st'; cbn; now rewrite <- ?app_assoc);
          try (intros (d1 & d2 & Htwo); apply twoOf_cons in Htwo;
               destruct Htwo as [[Heq _] | Htwo]; [discriminate|];
               apply H7; now exists d1, d2);
          try (eexists; split;
               [ rewrite H8; subst st'; cbn [ScanDiags]; rewrite <- ?app_assoc;
                 reflexivity
               | apply Forall_app; now split ]).
      * match goal with
        | |- context [scanCases _ _ _ _ cases ?x] => set (st' := x)
        end.
        destruct (IH st' Hdep eq_refl)
          as (H1 & H2 & H3 & H4 & H5 & H6 & H7 & d & H8 & H9).
        repeat split; auto;
          try (rewrite H2; subst st'; cbn; now destruct (getRHS CS));
          try (rewrite H3; subst st'; cbn; now destruct (getRHS CS));
          try (intros (d1 & d2 & Htwo); apply twoOf_cons in Htwo;
               destruct Htwo as [[Heq _] | Htwo]; [discriminate|];
               apply H7; now exists d1, d2);
          try (exists d; split; [exact H8 | exact H9]).
Qed.

(** The default label the loop leaves is a label of the switch. *)
Lemma scanCases_default :
  forall cases st DS,
    TheDefaultStmt (scanCases cpp11 CondType W Sg cases st) = Some DS ->
    TheDefaultStmt st = Some DS \/ In (SCDefault DS) cases.
Proof.
  induction cases as [|c cases IH]; intros st DS Hdef; cbn [scanCases] in Hdef.
  - now left.
  - destruct (HasDependentValue st); [now left|].
    destruct c as [DS'|CS].
    + destruct (TheDefaultStmt st) as [prev|]; apply IH in Hdef; cbn in Hdef;
        (destruct Hdef as [Hdef|Hdef];
         [injection Hdef as ->; right; now left | right; now right]).
    + destruct (isDependent (getLHS CS)); [now left|].
      destruct (caseValue cpp11 CondType (getLHS CS)) as [v|].
      * destruct (ConvertIntegerToTypeWarnOnOverflow v W Sg _ _) as [LoVal d].
        destruct (getRHS CS) as [Hi|].
        -- destruct (isDependent Hi); [now left|].
           apply IH in Hdef. cbn in Hdef.
           destruct Hdef as [Hdef|Hdef]; [now left | right; now right].
        -- apply IH in Hdef. cbn in Hdef.
           destruct Hdef as [Hdef|Hdef]; [now left | right; now right].
      * apply IH in Hdef. cbn in Hdef.
        destruct Hdef as [Hdef|Hdef]; [now left | right; now right].
Qed.

End Scan.

(** *** Duplicate singleton values *)



(** Two neighbours of the sorted vector with equal values are reported,
    the error and its note next to each other. *)
Lemma checkDuplicates_reports :
  forall const l1 a b l2 prev should,
    APSInt.eq (fst b) (fst a) = true ->
    DupFound (checkDuplicates const prev (l1 ++ a :: b :: l2) should) = true
    /\ exists pre post,
         DupDiags (checkDuplicates const prev (l1 ++ a :: b :: l2) should)
         = pre ++ reportDuplicate a b ++ post.
Proof.
  intros const. induction l1 as [|c l1 IH]; intros a b l2 prev should Heq.
  - cbn [app checkDuplicates]. rewrite Heq.
    destruct prev as [p|].
    + destruct (APSInt.eq (fst a) (fst p)); cbn.
      * split; [reflexivity|]. eexists (reportDuplicate p a), _.
        reflexivity.
      * split; [reflexivity|]. now eexists [], _.
    + cbn. split; [reflexivity|]. now eexists [], _.
  - cbn [app checkDuplicates].
    match goal with
    | |- context [checkDuplicates const (Some c) _ ?s] =>
        destruct (IH a b l2 (Some c) s Heq) as (Hf & pre & post & Hd)
    end.
    destruct prev as [p|].
    + destruct (APSInt.eq (fst c) (fst p)); cbn.
      * split; [reflexivity|]. rewrite Hd.
        exists (reportDuplicate p c ++ pre), post. now rewrite <- app_assoc.
      * split; [exact Hf|]. now exists pre, post.
    + split; [exact Hf|]. now exists pre, post.
Qed.

(** *** The first loop over the ranges *)

Section Ranges.
Variables (cpp11 : bool) (CondType : QualType) (W : N) (Sg : bool).
Variable const : APSInt.t.

Lemma scanRanges_step :
  forall LoVal CR rest should,
    scanRanges cpp11 CondType W Sg const ((LoVal, CR) :: rest) should
    = match converted cpp11 CondType W Sg (rangeRHS CR) with
      | None =>
          let r := scanRanges cpp11 CondType W Sg const rest should in
          mkRangeScan ((LoVal, CR) :: KeptRanges r) (HiVals r) (RangeDiags r)
                      true (RangeShouldCheck r)
      | Some HiVal =>
          if APSInt.gt LoVal HiVal then
            let r := scanRanges cpp11 CondType W Sg const rest should in
            mkRangeScan (KeptRanges r) (HiVals r)
              (conversionDiags cpp11 CondType W Sg (rangeRHS CR)
               ++ [emptyRangeDiag CR] ++ RangeDiags r)
              (RangeError r) (RangeShouldCheck r)
          else
            let r := scanRanges cpp11 CondType W Sg const rest
                       (if should && APSInt.le LoVal const && APSInt.le const HiVal
                        then false else should) in
            mkRangeScan ((LoVal, CR) :: KeptRanges r) (HiVal :: HiVals r)
              (conversionDiags cpp11 CondType W Sg (rangeRHS CR) ++ RangeDiags r)
              (RangeError r) (RangeShouldCheck r)
      end.
Proof.
  intros LoVal CR rest should. cbn [scanRanges].
  unfold converted, conversionDiags.
  destruct (caseValue cpp11 CondType (rangeRHS CR)) as [HiVal0|]; [|reflexivity].
  destruct (ConvertIntegerToTypeWarnOnOverflow HiVal0 W Sg _ _) as [HiVal d0].
  reflexivity.
Qed.

Lemma scanRanges_kept :
  forall l should,
    KeptRanges (scanRanges cpp11 CondType W Sg const l should)
    = List.filter (fun r => negb (isEmptyRange cpp11 CondType W Sg r)) l.
Proof.
  induction l as [|[LoVal CR] rest IH]; intros should.
  - reflexivity.
  - rewrite scanRanges_step. cbn [List.filter]. unfold isEmptyRange. cbn [fst snd].
    destruct (converted cpp11 CondType W Sg (rangeRHS CR)) as [hi|].
    + destruct (APSInt.gt LoVal hi); cbn; now rewrite IH.
    + cbn. now rewrite IH.
Qed.

Lemma scanRanges_highs :
  forall l should,
    HiVals (scanRanges cpp11 CondType W Sg const l should)
    = flat_map
        (fun r =>
           match converted cpp11 CondType W Sg (rangeRHS (snd r)) with
           | Some hi => [hi]
           | None => []
           end)
        (List.filter (fun r => negb (isEmptyRange cpp11 CondType W Sg r)) l).
Proof.
  induction l as [|[LoVal CR] rest IH]; intros should.
  - reflexivity.
  - rewrite scanRanges_step. cbn [List.filter]. unfold isEmptyRange. cbn [fst snd].
    destruct (converted cpp11 CondType W Sg (rangeRHS CR)) as [hi|] eqn:Hc.
    + destruct (APSInt.gt LoVal hi); cbn [negb flat_map HiVals snd].
      * apply IH.
      * rewrite Hc, IH. reflexivity.
    + cbn [negb flat_map HiVals snd]. rewrite Hc, IH. reflexivity.
Qed.

Lemma conversionDiags_not_empty_range :
  forall E, Forall (fun x => isID warn_case_empty_range x = false)
                   (conversionDiags cpp11 CondType W Sg E).
Proof.
  intros E. unfold conversionDiags.
  destruct (caseValue cpp11 CondType E) as [v|]; [|constructor].
  unfold ConvertIntegerToTypeWarnOnOverflow.
  repeat match goal with
         | |- context [if ?b then _ else _] => destruct b
         end; repeat constructor.
Qed.

Lemma filter_none :
  forall {X : Type} (p : X -> bool) (l : list X),
    Forall (fun x => p x = false) l -> List.filter p l = [].
Proof.
  intros X p l H. induction H as [|x t Hx _ IH]; cbn.
  - reflexivity.
  - now rewrite Hx.
Qed.

(** One advisory for each range that is empty, and no other. *)
Lemma scanRanges_advisories :
  forall l should,
    List.filter (isID warn_case_empty_range)
                (RangeDiags (scanRanges cpp11 CondType W Sg const l should))
    = map (fun r => emptyRangeDiag (snd r))
          (List.filter (isEmptyRange cpp11 CondType W Sg) l).
Proof.
  induction l as [|[LoVal CR] rest IH]; intros should.
  - reflexivity.
  - rewrite scanRanges_step. cbn [List.filter]. unfold isEmptyRange. cbn [fst snd].
    destruct (converted cpp11 CondType W Sg (rangeRHS CR)) as [hi|].
    + destruct (APSInt.gt LoVal hi); cbn [RangeDiags].
      * rewrite !filter_app.
        rewrite (filter_none _ _ (conversionDiags_not_empty_range _)).
        cbn. now rewrite IH.
      * rewrite filter_app.
        rewrite (filter_none _ _ (conversionDiags_not_empty_range _)).
        cbn. apply IH.
    + cbn [RangeDiags]. apply IH.
Qed.

End Ranges.

(** *** One round of the overlap search *)

(** When [HiVals] has an entry for the range at [i], the round reads
    inside the vectors, and this is what it finds. *)
Lemma findOverlap_in_bounds :
  forall (Vals : CaseValsTy) (Ranges : CaseRangesTy) His i CRLo CR CRHi,
    nth_error Ranges i = Some (CRLo, CR) ->
    nth_error His i = Some CRHi ->
    findOverlap Vals Ranges His i
    = Some
        (let I := Std.lower_bound CaseCompareLeft Vals CRLo in
         let ov1 :=
           match nth_error Vals I with
           | Some c => if APSInt.lt (fst c) CRHi then Some c else None
           | None => None
           end in
         let I2 := (I + Std.upper_bound CaseCompareRight (skipn I Vals) CRHi)%nat in
         let ov2 :=
           match I2 with
           | O => ov1
           | S k =>
               match nth_error Vals k with
               | Some c => if APSInt.ge (fst c) CRLo then Some c else ov1
               | None => ov1
               end
           end in
         match i with
         | O => ov2
         | S k =>
             match nth_error His k, nth_error Ranges k with
             | Some prevHi, Some prevR =>
                 if APSInt.le CRLo prevHi then Some (prevHi, snd prevR) else ov2
             | _, _ => ov2
             end
         end).
Proof.
  intros Vals Ranges His i CRLo CR CRHi HR HH.
  assert (Hprev : forall k, i = S k ->
            (exists h, nth_error His k = Some h)
            /\ (exists r, nth_error Ranges k = Some r)).
  { intros k ->. split.
    - destruct (nth_error His k) eqn:E; [eauto|].
      apply nth_error_None in E.
      assert (Hlt : (S k < List.length His)%nat)
        by (apply nth_error_Some; rewrite HH; discriminate). lia.
    - destruct (nth_error Ranges k) eqn:E; [eauto|].
      apply nth_error_None in E.
      assert (Hlt : (S k < List.length Ranges)%nat)
        by (apply nth_error_Some; rewrite HR; discriminate). lia. }
  unfold findOverlap. rewrite HR. cbv zeta.
  destruct (nth_error Vals (Std.lower_bound CaseCompareLeft Vals CRLo)) as [c|] eqn:HI.
  - rewrite HH. destruct i as [|k]; [reflexivity|].
    destruct (Hprev k eq_refl) as ((h & ->) & (r & ->)). reflexivity.
  - apply nth_error_None in HI. rewrite (skipn_all2 _ HI). cbn [Std.upper_bound].
    rewrite Nat.add_0_r. destruct i as [|k]; [reflexivity|].
    destruct (Hprev k eq_refl) as ((h & ->) & (r & ->)). reflexivity.
Qed.

(** *** Which diagnostics are the advisory for an empty range *)

Lemma otherThanEmptyRange_app :
  forall l1 l2,
    otherThanEmptyRange l1 -> otherThanEmptyRange l2 ->
    otherThanEmptyRange (l1 ++ l2).
Proof. intros l1 l2 H1 H2. apply Forall_app. now split. Qed.



Lemma casesNotInEnum_other :
  forall T CI EI, otherThanEmptyRange (casesNotInEnum T EI CI).
Proof.
  intros T. induction CI as [|c rest IH]; intros EI; cbn [casesNotInEnum].
  - constructor.
  - apply otherThanEmptyRange_app; [|apply IH].
    destruct (Std.advance _ EI) as [|e ?]; [repeat constructor|].
    destruct (APSInt.gt (fst e) (fst c)); repeat constructor.
Qed.

Lemma rangesNotInEnum_other :
  forall T CondType W Sg RI EI,
    otherThanEmptyRange (rangesNotInEnum T CondType W Sg EI RI).
Proof.
  intros T CondType W Sg. induction RI as [|r rest IH]; intros EI;
    cbn [rangesNotInEnum].
  - constructor.
  - destruct EI as [|e0 EI0]; [constructor|].
    repeat apply otherThanEmptyRange_app; [| |apply IH].
    + destruct (Std.advance _ (e0 :: EI0)) as [|e ?]; [repeat constructor|].
      destruct (APSInt.ne (fst e) (fst r)); repeat constructor.
    + destruct (Std.advance _ (Std.advance _ (e0 :: EI0))) as [|e ?];
        [repeat constructor|].
      destruct (APSInt.ne (fst e) _); repeat constructor.
Qed.

Lemma reportUnhandled_other :
  forall Loc d names, otherThanEmptyRange (reportUnhandled Loc d names).
Proof.
  intros Loc d names. unfold reportUnhandled.
  destruct names as [|a [|b [|c [|e rest]]]]; destruct d; repeat constructor.
Qed.

Lemma checkEnum_other :
  forall ED T CondType W Sg Loc D Vals Ranges,
    otherThanEmptyRange (fst (checkEnum ED T CondType W Sg Loc D Vals Ranges)).
Proof.
  intros. unfold checkEnum. cbn [fst].
  repeat apply otherThanEmptyRange_app.
  - apply casesNotInEnum_other.
  - apply rangesNotInEnum_other.
  - destruct D; [|constructor].
    destruct (unhandledEnumVals _ _ _ _ _ _); repeat constructor.
  - apply reportUnhandled_other.
Qed.

(** *** The analysis of a switch without dependent values *)

Section Analysis.
Context {C : Collaborators}.
Variables (cpp11 : bool) (SwitchLoc : SourceLocation) (SS : SwitchStmt).
Variables (BodyStmt : AST.Stmt) (CondExpr : Expr).
Hypothesis Hcond : getCond SS = Some CondExpr.
Hypothesis Hnd : nonDependent CondExpr (getSwitchCaseList SS) = true.

Local Abbreviation cases := (getSwitchCaseList SS).
Local Abbreviation T := (condType CondExpr).
Local Abbreviation W := (condWidth CondExpr).
Local Abbreviation Sg := (condIsSigned CondExpr).
Local Abbreviation dEnd :=
  (DiagnoseEmptyStmtBody (getLocEnd (info CondExpr)) BodyStmt).

Lemma checkCaseList_nonDependent :
  exists scan d0,
    checkCaseList cpp11 SwitchLoc SS BodyStmt
    = checkLabels cpp11 CondExpr W d0 dEnd scan
    /\ CaseVals scan = singletons cpp11 T W Sg cases
    /\ CaseRanges scan = ranges cpp11 T W Sg cases
    /\ isSome (TheDefaultStmt scan) = hasDefault cases
    /\ (duplicateDefault cases -> CaseListIsErroneous scan = true)
    /\ otherThanEmptyRange d0
    /\ otherThanEmptyRange (ScanDiags scan)
    /\ (forall DS, TheDefaultStmt scan = Some DS -> In (SCDefault DS) cases).
Proof.
  unfold nonDependent in Hnd.
  apply andb_true_iff in Hnd. destruct Hnd as [Hnd1 Hlabels].
  apply andb_true_iff in Hnd1. destruct Hnd1 as [Hdep Hint].
  apply negb_true_iff in Hdep.
  assert (Htd : isTypeDependent (info CondExpr) = false).
  { unfold isDependent in Hdep. now apply orb_false_iff in Hdep. }
  destruct (scanCases_nonDependent cpp11 T W Sg cases (scanStart false)
              Hlabels eq_refl)
    as (Hhas & Hvals & Hranges & _ & Hdef & _ & Hdup & d & Hd & Hother).
  eexists (scanCases cpp11 T W Sg cases (scanStart false)), _.
  split; [|repeat split].
  - unfold checkCaseList. rewrite Hcond.
    rewrite Htd, Hint, Hdep. cbn [negb andb].
    fold (condType CondExpr) (condWidth CondExpr) (condIsSigned CondExpr).
    rewrite Hhas. reflexivity.
  - exact Hvals.
  - exact Hranges.
  - exact Hdef.
  - exact Hdup.
  - destruct (isKnownToHaveBooleanValue (info CondExpr)); repeat constructor.
  - rewrite Hd. exact Hother.
  - intros DS HDS. apply scanCases_default in HDS.
    destruct HDS as [HDS|HDS]; [discriminate | exact HDS].
Qed.

(** The diagnostics and the result of the analysis, phase by phase:
    the scan of the labels, the duplicates among the sorted singleton
    values, the first loop over the sorted ranges, the search for
    overlaps, and what follows it. *)
Lemma checkCaseList_structure :
  exists scan d0 should tail,
    let A := checkCaseList cpp11 SwitchLoc SS BodyStmt in
    let Dup :=
      checkDuplicates (condValue CondExpr) None
        (sortedSingletons cpp11 T W Sg cases) should in
    let RS :=
      scanRanges cpp11 T W Sg (condValue CondExpr)
        (sortedRanges cpp11 T W Sg cases) (DupShouldCheck Dup) in
    let OS := overlapScan cpp11 T W Sg cases in
    AnalysisDiags A
    = (d0 ++ ScanDiags scan ++ DupDiags Dup ++ RangeDiags RS ++ OverlapDiags OS)
      ++ tail
    /\ Result A
       = (if PastTheEnd OS then OutOfBounds
          else Returns (verdictOf (CaseListIsErroneous scan || DupFound Dup
                                   || RangeError RS || OverlapError OS)))
    /\ (duplicateDefault cases -> CaseListIsErroneous scan = true)
    /\ otherThanEmptyRange d0
    /\ otherThanEmptyRange (ScanDiags scan)
    /\ (tail = [] \/ exists t, tail = t ++ dEnd /\ otherThanEmptyRange t).
Proof.
  destruct checkCaseList_nonDependent
    as (scan & d0 & HA & Hvals & Hranges & Hdef & Hdup & Hd0 & Hscan & _).
  exists scan, d0,
    (match TheDefaultStmt scan with
     | None => isIntConstant (info (ExprBeforePromotion CondExpr))
     | Some _ => false
     end).
  cbv zeta. rewrite HA. unfold checkLabels. cbv zeta.
  rewrite Hvals, Hranges.
  fold (condType CondExpr) (condIsSigned CondExpr) (condValue CondExpr).
  fold (sortedSingletons cpp11 T W Sg cases) (sortedRanges cpp11 T W Sg cases).
  rewrite !scanRanges_kept, !scanRanges_highs.
  fold (keptRanges cpp11 T W Sg cases).
  fold (keptHighs cpp11 T W Sg cases).
  fold (overlapScan cpp11 T W Sg cases).
  destruct (PastTheEnd (overlapScan cpp11 T W Sg cases)).
  - exists []. cbn [AnalysisDiags Result]. rewrite app_nil_r.
    repeat split; auto.
  - eexists. cbn [AnalysisDiags Result].
    split; [reflexivity|]. repeat split; auto.
    right. eexists. split; [apply app_assoc|].
    apply otherThanEmptyRange_app.
    + match goal with
      | |- context [if ?b then _ else _] => destruct b; repeat constructor
      end.
    + destruct (getAsEnumType _) as [ED|]; [|constructor].
      match goal with
      | |- context [if ?b then _ else _] => destruct b; [|constructor]
      end.
      apply checkEnum_other.
Qed.

End Analysis.

(** A range is empty when its high value is below its low value. *)
Lemma isEmptyRange_value :
  forall cpp11 T W Sg cases r hi,
    In r (sortedRanges cpp11 T W Sg cases) ->
    converted cpp11 T W Sg (rangeRHS (snd r)) = Some hi ->
    isEmptyRange cpp11 T W Sg r = (APSInt.value hi <? APSInt.value (fst r)).
Proof.
  intros cpp11 T W Sg cases r hi Hin Hhi.
  unfold isEmptyRange. rewrite Hhi.
  apply (gt_value W (negb Sg)).
  - pose proof (sortedRanges_hasType cpp11 T W Sg cases) as Hall.
    rewrite Forall_forall in Hall. now apply Hall.
  - eapply converted_hasType; eauto.
Qed.

(** *** Duplicates among the singleton values *)





(** In a vector sorted by value, an entry that has an entry of the same
    value before it has one just before it. *)
Lemma sorted_duplicate_predecessor :
  forall (l : CaseValsTy) x y,
    StronglySorted byValueThenLoc l ->
    twoOf l x y ->
    APSInt.value (fst x) = APSInt.value (fst y) ->
    exists l1 p l2,
      l = l1 ++ p :: y :: l2
      /\ APSInt.value (fst p) = APSInt.value (fst y)
      /\ getCaseLoc (snd p) <= getCaseLoc (snd y).
Proof.
  intros l x y Hs (l1 & l2 & l3 & ->) Hv.
  assert (Hs' : StronglySorted byValueThenLoc (x :: l2 ++ y :: l3)).
  { clear -Hs. induction l1; cbn in Hs; [exact Hs|].
    inversion Hs; subst; auto. }
  assert (Hxy : forall z, In z (l2 ++ y :: l3) -> byValueThenLoc x z).
  { inversion Hs' as [|? ? _ Hall]; subst. now rewrite Forall_forall in Hall. }
  destruct (exists_last (l := x :: l2)) as (l0 & p & Hlast); [discriminate|].
  assert (Hl : l1 ++ x :: l2 ++ y :: l3 = (l1 ++ l0) ++ p :: y :: l3).
  { change (x :: l2 ++ y :: l3) with ((x :: l2) ++ y :: l3).
    rewrite Hlast, <- !app_assoc. reflexivity. }
  assert (Hpy : byValueThenLoc p y).
  { rewrite Hl in Hs.
    assert (Hs2 : StronglySorted byValueThenLoc (p :: y :: l3)).
    { clear -Hs. induction (l1 ++ l0) as [|h t IHt]; cbn in Hs; [exact Hs|].
      inversion Hs; subst; auto. }
    inversion Hs2 as [|? ? _ Hall]; subst. rewrite Forall_forall in Hall.
    apply Hall. now left. }
  assert (Hxp : APSInt.value (fst x) <= APSInt.value (fst p)).
  { destruct l0 as [|h t]; cbn in Hlast.
    - injection Hlast as <- _. lia.
    - injection Hlast as <- Ht.
      assert (Hin : In p (l2 ++ y :: l3)).
      { rewrite Ht, <- app_assoc. apply in_elt. }
      specialize (Hxy p Hin). unfold byValueThenLoc in Hxy. lia. }
  exists (l1 ++ l0), p, l3. split; [exact Hl|].
  unfold byValueThenLoc in Hpy. lia.
Qed.

(** *** The search for overlaps *)

Lemma upper_bound_length :
  forall {X Y : Type} (comp : Y -> X -> bool) (l : list X) (v : Y),
    (Std.upper_bound comp l v <= List.length l)%nat.
Proof.
  intros X Y comp l v. induction l as [|e t IH]; cbn; [lia|].
  destruct (comp v e); lia.
Qed.

Section Bounds.
Variables (W : N) (U : bool).
Variables (lo hi : APSInt.t).
Hypotheses (Hlo : APSInt.hasType W U lo) (Hhi : APSInt.hasType W U hi).

Local Abbreviation typed :=
  (Forall (fun c : APSInt.t * CaseStmt => APSInt.hasType W U (fst c))).
Local Abbreviation byValue :=
  (fun a b : APSInt.t * CaseStmt => APSInt.value (fst a) <= APSInt.value (fst b)).

(** From the first value that is not below [lo], the values up to [hi]
    end in a value of the range when there is one. *)
Lemma upper_bound_in_range :
  forall (l : CaseValsTy) c,
    typed l -> StronglySorted byValue l ->
    (forall x, In x l -> APSInt.value lo <= APSInt.value (fst x)) ->
    In c l -> APSInt.value (fst c) <= APSInt.value hi ->
    exists k c',
      Std.upper_bound CaseCompareRight l hi = S k
      /\ nth_error l k = Some c'
      /\ APSInt.value lo <= APSInt.value (fst c').
Proof.
  intros l c Hty Hs Hge Hc Hle.
  destruct l as [|e t]; [contradiction|].
  assert (Hec : APSInt.value (fst e) <= APSInt.value (fst c)).
  { destruct Hc as [->|Hc]; [lia|].
    inversion Hs as [|? ? _ Hall]; subst. rewrite Forall_forall in Hall.
    now apply Hall. }
  assert (He : APSInt.hasType W U (fst e)) by (inversion Hty; assumption).
  cbn [Std.upper_bound]. unfold CaseCompareRight at 1.
  rewrite (lt_value W U _ _ Hhi He).
  destruct (Z.ltb_spec (APSInt.value hi) (APSInt.value (fst e))); [lia|].
  pose proof (upper_bound_length CaseCompareRight t hi) as Hlen.
  destruct (nth_error (e :: t) (Std.upper_bound CaseCompareRight t hi))
    as [c'|] eqn:Hnth.
  - exists (Std.upper_bound CaseCompareRight t hi), c'.
    split; [reflexivity|]. split; [exact Hnth|].
    apply Hge. eapply nth_error_In; eauto.
  - apply nth_error_None in Hnth. cbn in Hnth. lia.
Qed.

Lemma bounds_in_range :
  forall (Vals : CaseValsTy) c,
    typed Vals -> StronglySorted byValue Vals ->
    In c Vals ->
    APSInt.value lo <= APSInt.value (fst c) <= APSInt.value hi ->
    exists k c',
      (Std.lower_bound CaseCompareLeft Vals lo
       + Std.upper_bound CaseCompareRight
           (skipn (Std.lower_bound CaseCompareLeft Vals lo) Vals) hi)%nat
      = S k
      /\ nth_error Vals k = Some c'
      /\ APSInt.ge (fst c') lo = true.
Proof.
  induction Vals as [|e t IH]; intros c Hty Hs Hc Hrange; [contradiction|].
  assert (He : APSInt.hasType W U (fst e)) by (inversion Hty; assumption).
  assert (Ht : typed t) by (inversion Hty; assumption).
  assert (Hst : StronglySorted byValue t) by (inversion Hs; assumption).
  cbn [Std.lower_bound]. unfold CaseCompareLeft at 1 3.
  rewrite (lt_value W U _ _ He Hlo).
  destruct (Z.ltb_spec (APSInt.value (fst e)) (APSInt.value lo)) as [Hlt|Hge].
  - assert (Hct : In c t).
    { destruct Hc as [->|Hc]; [lia | exact Hc]. }
    destruct (IH c Ht Hst Hct Hrange) as (k & c' & Hk & Hnth & Hc').
    exists (S k), c'. cbn [skipn Nat.add]. rewrite Hk. auto.
  - cbn [skipn Nat.add].
    destruct (upper_bound_in_range (e :: t) c Hty Hs) as (k & c' & Hk & Hnth & Hc');
      [|exact Hc|lia|].
    + intros x [<-|Hx]; [lia|].
      inversion Hs as [|? ? _ Hall]; subst. rewrite Forall_forall in Hall.
      specialize (Hall x Hx). cbn in Hall. lia.
    + exists k, c'. split; [exact Hk|]. split; [exact Hnth|].
      assert (Hc't : APSInt.hasType W U (fst c')).
      { rewrite Forall_forall in Hty. apply Hty. eapply nth_error_In; eauto. }
      rewrite (ge_value W U _ _ Hc't Hlo). now apply Z.leb_le.
Qed.

(** A singleton value between the bounds of the range at [i] is found. *)
Lemma findOverlap_singleton :
  forall (Vals : CaseValsTy) (Ranges : CaseRangesTy) His i CR c,
    typed Vals -> StronglySorted byValue Vals ->
    nth_error Ranges i = Some (lo, CR) ->
    nth_error His i = Some hi ->
    In c Vals ->
    APSInt.value lo <= APSInt.value (fst c) <= APSInt.value hi ->
    exists o, findOverlap Vals Ranges His i = Some (Some o).
Proof.
  intros Vals Ranges His i CR c Hty Hs HR HH Hc Hrange.
  destruct (bounds_in_range Vals c Hty Hs Hc Hrange) as (k & c' & Hk & Hnth & Hge).
  rewrite (findOverlap_in_bounds _ _ _ _ _ _ _ HR HH). cbv zeta.
  rewrite Hk, Hnth, Hge.
  destruct i as [|j]; [eauto|].
  destruct (nth_error His j); [|eauto].
  destruct (nth_error Ranges j); [|eauto].
  destruct (APSInt.le lo t); eauto.
Qed.

End Bounds.

(** A range that starts at or below the high value of the range before
    it is found. *)
Lemma findOverlap_neighbour :
  forall (Vals : CaseValsTy) (Ranges : CaseRangesTy) His k lo CR hi prevHi prevR,
    nth_error Ranges (S k) = Some (lo, CR) ->
    nth_error His (S k) = Some hi ->
    nth_error His k = Some prevHi ->
    nth_error Ranges k = Some prevR ->
    APSInt.le lo prevHi = true ->
    exists o, findOverlap Vals Ranges His (S k) = Some (Some o).
Proof.
  intros Vals Ranges His k lo CR hi prevHi prevR HR HH HpH HpR Hle.
  rewrite (findOverlap_in_bounds _ _ _ _ _ _ _ HR HH). cbv zeta.
  rewrite HpH, HpR, Hle. eauto.
Qed.

Lemma checkOverlaps_in_bounds :
  forall Vals Ranges His idx,
    (forall i, In i idx -> findOverlap Vals Ranges His i <> None) ->
    PastTheEnd (checkOverlaps Vals Ranges His idx) = false.
Proof.
  intros Vals Ranges His. induction idx as [|i rest IH]; intros Hall.
  - reflexivity.
  - cbn [checkOverlaps].
    destruct (findOverlap Vals Ranges His i) as [ov|] eqn:Hov.
    + assert (Hrest : PastTheEnd (checkOverlaps Vals Ranges His rest) = false).
      { apply IH. intros j Hj. apply Hall. now right. }
      destruct ov; [|exact Hrest]. destruct (nth_error Ranges i); exact Hrest.
    + exfalso. apply (Hall i); [now left | exact Hov].
Qed.

Lemma checkOverlaps_found :
  forall Vals Ranges His idx i o,
    (forall j, In j idx -> findOverlap Vals Ranges His j <> None) ->
    In i idx ->
    findOverlap Vals Ranges His i = Some (Some o) ->
    OverlapError (checkOverlaps Vals Ranges His idx) = true.
Proof.
  intros Vals Ranges His. induction idx as [|j rest IH]; intros i o Hall Hin Hov.
  - contradiction.
  - cbn [checkOverlaps].
    destruct (findOverlap Vals Ranges His j) as [ov|] eqn:Hj.
    + destruct Hin as [->|Hin].
      * rewrite Hov in Hj. injection Hj as <-.
        assert (HR : exists r, nth_error Ranges i = Some r).
        { unfold findOverlap in Hov.
          destruct (nth_error Ranges i); [eauto | discriminate]. }
        destruct HR as (r & ->). reflexivity.
      * assert (Hrest : OverlapError (checkOverlaps Vals Ranges His rest) = true).
        { eapply IH; eauto. intros j' Hj'. apply Hall. now right. }
        destruct ov; [|exact Hrest].
        destruct (nth_error Ranges j); [reflexivity | exact Hrest].
    + exfalso. apply (Hall j); [now left | exact Hj].
Qed.

(** *** The ranges kept and their high values *)

Lemma StronglySorted_filter :
  forall {X : Type} (R : X -> X -> Prop) (p : X -> bool) (l : list X),
    StronglySorted R l -> StronglySorted R (List.filter p l).
Proof.
  intros X R p l Hs. induction Hs as [|x t Hs IH Hx]; cbn; [constructor|].
  destruct (p x); [|exact IH]. constructor; [exact IH|].
  rewrite Forall_forall in *. intros z Hz. apply filter_In in Hz. now apply Hx.
Qed.

Lemma twoOf_filter :
  forall {X : Type} (p : X -> bool) (l : list X) (x y : X),
    twoOf l x y -> p x = true -> p y = true -> twoOf (List.filter p l) x y.
Proof.
  intros X p l x y (l1 & l2 & l3 & ->) Hx Hy.
  exists (List.filter p l1), (List.filter p l2), (List.filter p l3).
  rewrite filter_app. cbn. rewrite Hx, filter_app. cbn. now rewrite Hy.
Qed.

Lemma highs_aligned :
  forall {X Y : Type} (f : X -> option Y) (l1 : list X) r l2 h,
    (forall x, In x (l1 ++ r :: l2) -> f x <> None) ->
    f r = Some h ->
    nth_error
      (flat_map (fun x => match f x with Some h => [h] | None => [] end)
                (l1 ++ r :: l2))
      (List.length l1)
    = Some h.
Proof.
  intros X Y f l1 r l2 h. induction l1 as [|a l1 IH]; intros Hall Hr; cbn.
  - now rewrite Hr.
  - destruct (f a) eqn:Ha.
    + cbn. apply IH; [|exact Hr]. intros x Hx. apply Hall. now right.
    + exfalso. apply (Hall a); [now left | exact Ha].
Qed.

Lemma nth_error_middle :
  forall {X : Type} (l1 : list X) r l2,
    nth_error (l1 ++ r :: l2) (List.length l1) = Some r.
Proof.
  intros X l1 r l2. rewrite nth_error_app2 by lia.
  now rewrite Nat.sub_diag.
Qed.

Section Kept.
Variables (cpp11 : bool) (T : QualType) (W : N) (Sg : bool).
Variable cases : list SwitchCase.
Hypothesis Hconv : rangesConvertible cpp11 T W Sg cases = true.

Local Abbreviation K := (keptRanges cpp11 T W Sg cases).
Local Abbreviation H := (keptHighs cpp11 T W Sg cases).
Local Abbreviation V := (sortedSingletons cpp11 T W Sg cases).
Local Abbreviation byValue :=
  (fun a b : APSInt.t * CaseStmt => APSInt.value (fst a) <= APSInt.value (fst b)).

Lemma keptRanges_in :
  forall r, In r K ->
            In r (sortedRanges cpp11 T W Sg cases)
            /\ APSInt.hasType W (negb Sg) (fst r)
            /\ exists hi, converted cpp11 T W Sg (rangeRHS (snd r)) = Some hi
                          /\ APSInt.hasType W (negb Sg) hi.
Proof.
  intros r Hr. unfold keptRanges in Hr. apply filter_In in Hr.
  destruct Hr as [Hr _]. split; [exact Hr|]. split.
  - pose proof (sortedRanges_hasType cpp11 T W Sg cases) as Hty.
    rewrite Forall_forall in Hty. now apply Hty.
  - apply (Permutation_in _ (sortedRanges_perm cpp11 T W Sg cases)) in Hr.
    unfold rangesConvertible in Hconv. rewrite forallb_forall in Hconv.
    specialize (Hconv r Hr).
    destruct (converted cpp11 T W Sg (rangeRHS (snd r))) as [hi|] eqn:Hhi;
      [|discriminate].
    exists hi. split; [reflexivity|]. eapply converted_hasType; eauto.
Qed.

Lemma kept_at :
  forall l1 r l2 hi,
    K = l1 ++ r :: l2 ->
    converted cpp11 T W Sg (rangeRHS (snd r)) = Some hi ->
    nth_error K (List.length l1) = Some r
    /\ nth_error H (List.length l1) = Some hi.
Proof.
  intros l1 r l2 hi HK Hhi. split.
  - rewrite HK. apply nth_error_middle.
  - unfold keptHighs. rewrite HK.
    apply (highs_aligned (fun r => converted cpp11 T W Sg (rangeRHS (snd r))));
      [|exact Hhi].
    intros x Hx. rewrite <- HK in Hx.
    destruct (keptRanges_in x Hx) as (_ & _ & h & -> & _). discriminate.
Qed.

Lemma overlapScan_total :
  forall i, In i (seq 0 (List.length K)) -> findOverlap V K H i <> None.
Proof.
  intros i Hi. apply in_seq in Hi.
  destruct (nth_error K i) as [r|] eqn:Hr;
    [|apply nth_error_None in Hr; lia].
  destruct (nth_error_split _ _ Hr) as (l1 & l2 & HK & Hlen).
  assert (Hin : In r K) by (rewrite HK; apply in_elt).
  destruct (keptRanges_in r Hin) as (_ & _ & hi & Hhi & _).
  destruct (kept_at l1 r l2 hi HK Hhi) as [_ HH]. rewrite Hlen in HH.
  destruct r as [lo CR].
  rewrite (findOverlap_in_bounds _ _ _ _ _ _ _ Hr HH). discriminate.
Qed.

Lemma overlapScan_in_bounds :
  PastTheEnd (overlapScan cpp11 T W Sg cases) = false.
Proof. apply checkOverlaps_in_bounds, overlapScan_total. Qed.

Lemma index_in_seq :
  forall {X : Type} (l1 : list X) r l2,
    In (List.length l1) (seq 0 (List.length (l1 ++ r :: l2))).
Proof.
  intros X l1 r l2. apply in_seq. rewrite length_app. cbn. lia.
Qed.

Lemma sortedSingletons_byValue : StronglySorted byValue V.
Proof.
  apply StronglySorted_impl_on
    with (P := fun _ : APSInt.t * CaseStmt => True) (R := byValueThenLoc).
  - intros x y _ _ Hxy. unfold byValueThenLoc in Hxy. lia.
  - apply Forall_forall. auto.
  - apply sortedSingletons_sorted.
Qed.

Lemma keptRanges_sorted : StronglySorted byValue K.
Proof. apply StronglySorted_filter, sortedRanges_sorted. Qed.

Lemma kept_of_range :
  forall r hi,
    In r (ranges cpp11 T W Sg cases) ->
    converted cpp11 T W Sg (rangeRHS (snd r)) = Some hi ->
    APSInt.value (fst r) <= APSInt.value hi ->
    In r (sortedRanges cpp11 T W Sg cases)
    /\ negb (isEmptyRange cpp11 T W Sg r) = true.
Proof.
  intros r hi Hr Hhi Hle.
  assert (Hs : In r (sortedRanges cpp11 T W Sg cases)).
  { eapply Permutation_in; [symmetry; apply sortedRanges_perm | exact Hr]. }
  split; [exact Hs|].
  rewrite (isEmptyRange_value cpp11 T W Sg cases r hi Hs Hhi).
  apply negb_true_iff, Z.ltb_ge. exact Hle.
Qed.

(** A singleton value within a range is an error of the search. *)
Lemma overlap_singleton_error :
  rangeSingletonOverlap cpp11 T W Sg cases ->
  OverlapError (overlapScan cpp11 T W Sg cases) = true.
Proof.
  intros (r & hi & c & Hr & Hhi & Hc & Hrange).
  destruct (kept_of_range r hi Hr Hhi ltac:(lia)) as [Hs Hne].
  assert (HrK : In r K) by (apply filter_In; auto).
  destruct (in_split _ _ HrK) as (l1 & l2 & HK).
  destruct (kept_at l1 r l2 hi HK Hhi) as [HnK HnH].
  destruct (keptRanges_in r HrK) as (_ & Hlo & hi' & Hhi' & Hhit).
  rewrite Hhi in Hhi'. injection Hhi' as <-.
  destruct r as [lo CR]. cbn [fst snd] in *.
  destruct (findOverlap_singleton W (negb Sg) lo hi Hlo Hhit V K H
              (List.length l1) CR c) as (o & Ho); auto.
  - apply sortedSingletons_hasType.
  - apply sortedSingletons_byValue.
  - eapply Permutation_in; [symmetry; apply sortedSingletons_perm | exact Hc].
  - unfold overlapScan.
    eapply checkOverlaps_found; [apply overlapScan_total| |exact Ho].
    rewrite HK. apply index_in_seq.
Qed.

(** Of two ranges kept, the later one starting at or below the high
    value of the earlier one: the range after the earlier one does so
    too, and is reported. *)
Lemma overlap_later_error :
  forall a b ha,
    twoOf K a b ->
    converted cpp11 T W Sg (rangeRHS (snd a)) = Some ha ->
    APSInt.value (fst b) <= APSInt.value ha ->
    OverlapError (overlapScan cpp11 T W Sg cases) = true.
Proof.
  intros a b ha Hab Hha Hle.
  assert (Hnext : exists l1 c rest,
             K = l1 ++ a :: c :: rest
             /\ APSInt.value (fst c) <= APSInt.value ha).
  { destruct Hab as (l1 & l2 & l3 & HK). destruct l2 as [|c l2].
    - exists l1, b, l3. split; [exact HK | exact Hle].
    - exists l1, c, (l2 ++ b :: l3). split; [exact HK|].
      assert (Hcb : byValue c b).
      { apply (StronglySorted_twoOf byValue K); [apply keptRanges_sorted|].
        exists (l1 ++ [a]), l2, l3. rewrite HK, <- app_assoc. reflexivity. }
      cbn in Hcb. lia. }
  destruct Hnext as (l1 & c & rest & HK & Hc).
  assert (HaK : In a K) by (rewrite HK; apply in_elt).
  assert (HK' : K = (l1 ++ [a]) ++ c :: rest)
    by (rewrite HK, <- app_assoc; reflexivity).
  assert (HcK : In c K) by (rewrite HK'; apply in_elt).
  destruct (keptRanges_in a HaK) as (_ & _ & ha' & Hha' & Hhat).
  rewrite Hha in Hha'. injection Hha' as <-.
  destruct (keptRanges_in c HcK) as (_ & Hlo & hc & Hhc & _).
  destruct (kept_at l1 a (c :: rest) ha HK Hha) as [HaR HaH].
  destruct (kept_at (l1 ++ [a]) c rest hc HK' Hhc) as [HcR HcH].
  assert (Hlen : List.length (l1 ++ [a]) = S (List.length l1))
    by (rewrite length_app; cbn; lia).
  rewrite Hlen in HcR, HcH.
  destruct c as [lo CR]. cbn [fst snd] in *.
  destruct (findOverlap_neighbour V K H (List.length l1) lo CR hc ha a)
    as (o & Ho); auto.
  - rewrite (le_value W (negb Sg) _ _ Hlo Hhat). now apply Z.leb_le.
  - unfold overlapScan.
    eapply checkOverlaps_found; [apply overlapScan_total| |exact Ho].
    rewrite <- Hlen. rewrite HK' at 1. apply index_in_seq.
Qed.

(** Two ranges with a value in common are an error of the search. *)
Lemma overlap_range_error :
  rangeRangeOverlap cpp11 T W Sg cases ->
  OverlapError (overlapScan cpp11 T W Sg cases) = true.
Proof.
  intros (r1 & r2 & h1 & h2 & Htwo & Hh1 & Hh2 & Hn1 & Hn2 & H12 & H21).
  destruct (twoOf_in _ _ _ Htwo) as [Hr1 Hr2].
  destruct (kept_of_range r1 h1 Hr1 Hh1 Hn1) as [_ Hk1].
  destruct (kept_of_range r2 h2 Hr2 Hh2 Hn2) as [_ Hk2].
  destruct (twoOf_perm _ (sortedRanges cpp11 T W Sg cases) _ _
              (Permutation_sym (sortedRanges_perm cpp11 T W Sg cases)) Htwo)
    as [Hs|Hs].
  - apply (overlap_later_error r1 r2 h1); auto.
    unfold keptRanges. now apply twoOf_filter.
  - apply (overlap_later_error r2 r1 h2); auto.
    unfold keptRanges. now apply twoOf_filter.
Qed.

End Kept.

(** Two singleton labels of the same value are found by the loop over
    the sorted values. *)
Lemma duplicate_singleton_found :
  forall cpp11 T W Sg cases const prev should,
    duplicateSingleton cpp11 T W Sg cases ->
    DupFound (checkDuplicates const prev (sortedSingletons cpp11 T W Sg cases) should)
    = true.
Proof.
  intros cpp11 T W Sg cases const prev should (x & y & Htwo & Hv).
  assert (Hsorted : exists a b,
             twoOf (sortedSingletons cpp11 T W Sg cases) a b
             /\ APSInt.value (fst a) = APSInt.value (fst b)).
  { destruct (twoOf_perm _ (sortedSingletons cpp11 T W Sg cases) _ _
                (Permutation_sym (sortedSingletons_perm cpp11 T W Sg cases)) Htwo)
      as [Hs|Hs]; eauto. }
  destruct Hsorted as (a & b & Hab & Hvab).
  destruct (sorted_duplicate_predecessor _ a b
              (sortedSingletons_sorted cpp11 T W Sg cases) Hab Hvab)
    as (l1 & p & l2 & Hl & Hpv & _).
  pose proof (sortedSingletons_hasType cpp11 T W Sg cases) as Hty.
  rewrite Forall_forall in Hty.
  assert (Heq : APSInt.eq (fst b) (fst p) = true).
  { rewrite (eq_value W (negb Sg)).
    - apply Z.eqb_eq. now symmetry.
    - apply Hty. rewrite Hl. apply in_or_app. right. right. now left.
    - apply Hty. rewrite Hl. apply in_elt. }
  rewrite Hl.
  now destruct (checkDuplicates_reports const l1 p b l2 prev should Heq).
Qed.

(** *** A malformed case list *)

(** A range whose high bound does not convert is an error of the case
    list. *)
Lemma scanRanges_error :
  forall cpp11 T W Sg const l should,
    forallb (fun r => isSome (converted cpp11 T W Sg (rangeRHS (snd r)))) l = false ->
    RangeError (scanRanges cpp11 T W Sg const l should) = true.
Proof.
  intros cpp11 T W Sg const. induction l as [|[LoVal CR] rest IH];
    intros should Hall; [discriminate|].
  cbn [forallb snd] in Hall. rewrite scanRanges_step.
  destruct (converted cpp11 T W Sg (rangeRHS CR)) as [h|]; [|reflexivity].
  cbn [isSome andb] in Hall.
  destruct (APSInt.gt LoVal h); cbn [RangeError]; now apply IH.
Qed.

Lemma rangesConvertible_sorted :
  forall cpp11 T W Sg cases,
    forallb (fun r => isSome (converted cpp11 T W Sg (rangeRHS (snd r))))
            (sortedRanges cpp11 T W Sg cases)
    = rangesConvertible cpp11 T W Sg cases.
Proof.
  intros cpp11 T W Sg cases. unfold rangesConvertible.
  apply eq_true_iff_eq. rewrite !forallb_forall.
  split; intros Hall r Hr; apply Hall.
  - eapply Permutation_in; [symmetry; apply sortedRanges_perm | exact Hr].
  - eapply Permutation_in; [apply sortedRanges_perm | exact Hr].
Qed.

(** All the elements are below [lo]: the lower bound is the end. *)
Lemma lower_bound_end :
  forall W U (Vals : CaseValsTy) lo,
    APSInt.hasType W U lo ->
    Forall (fun c => APSInt.hasType W U (fst c)) Vals ->
    Forall (fun c => APSInt.value (fst c) < APSInt.value lo) Vals ->
    nth_error Vals (Std.lower_bound CaseCompareLeft Vals lo) = None.
Proof.
  intros W U Vals lo Hlo. induction Vals as [|e t IH]; intros Hty Hlt;
    [reflexivity|].
  inversion Hty as [|? ? He Ht]; subst. inversion Hlt as [|? ? Hel Htl]; subst.
  cbn [Std.lower_bound]. unfold CaseCompareLeft at 1.
  rewrite (lt_value W U _ _ He Hlo).
  apply Z.ltb_lt in Hel. rewrite Hel. cbn [nth_error]. now apply IH.
Qed.

(** When the search for overlaps reads the high values inside their
    vector, it runs to its end. *)
Lemma highsInReach_in_bounds :
  forall cpp11 T W Sg cases,
    highsInReach cpp11 T W Sg cases = true ->
    PastTheEnd (overlapScan cpp11 T W Sg cases) = false.
Proof.
  intros cpp11 T W Sg cases Hreach. unfold overlapScan.
  apply checkOverlaps_in_bounds. intros i Hi.
  unfold highsInReach in Hreach. rewrite forallb_forall in Hreach.
  specialize (Hreach i Hi).
  set (K := keptRanges cpp11 T W Sg cases) in *.
  set (H := keptHighs cpp11 T W Sg cases) in *.
  set (V := sortedSingletons cpp11 T W Sg cases) in *.
  destruct (nth_error K i) as [[lo CR]|] eqn:Hr;
    [|apply in_seq in Hi; apply nth_error_None in Hr; lia].
  apply andb_true_iff in Hreach. destruct Hreach as [Hown Hprev].
  assert (Hprev' : forall k, i = S k ->
            (exists h, nth_error H k = Some h)
            /\ (exists r, nth_error K k = Some r)).
  { intros k ->. apply Nat.ltb_lt in Hprev. split.
    - destruct (nth_error H k) eqn:E; [eauto|].
      apply nth_error_None in E. lia.
    - destruct (nth_error K k) eqn:E; [eauto|].
      apply nth_error_None in E.
      assert (S k < List.length K)%nat
        by (apply nth_error_Some; rewrite Hr; discriminate). lia. }
  destruct (nth_error H i) as [hi|] eqn:HH.
  - rewrite (findOverlap_in_bounds _ _ _ _ _ _ _ Hr HH). discriminate.
  - apply orb_true_iff in Hown. destruct Hown as [Hlt|Hbelow].
    { apply Nat.ltb_lt in Hlt. apply nth_error_None in HH. lia. }
    assert (Hend : nth_error V (Std.lower_bound CaseCompareLeft V lo) = None).
    { apply (lower_bound_end W (negb Sg)).
      - pose proof (sortedRanges_hasType cpp11 T W Sg cases) as Hty.
        rewrite Forall_forall in Hty. apply (Hty (lo, CR)).
        apply nth_error_In in Hr. unfold K, keptRanges in Hr.
        apply filter_In in Hr. apply Hr.
      - apply sortedSingletons_hasType.
      - rewrite forallb_forall in Hbelow. apply Forall_forall. intros c Hc.
        apply Z.ltb_lt. apply (Hbelow c).
        eapply Permutation_in; [apply sortedSingletons_perm | exact Hc]. }
    unfold findOverlap. rewrite Hr. cbv zeta. rewrite Hend.
    destruct i as [|k]; [discriminate|].
    destruct (Hprev' k eq_refl) as ((h & ->) & (r & ->)). discriminate.
Qed.

(** When every high bound converts, each range kept has its high value
    at its own index. *)
Lemma rangesConvertible_highsInReach :
  forall cpp11 T W Sg cases,
    rangesConvertible cpp11 T W Sg cases = true ->
    highsInReach cpp11 T W Sg cases = true.
Proof.
  intros cpp11 T W Sg cases Hconv. unfold highsInReach.
  apply forallb_forall. intros i Hi.
  destruct (nth_error (keptRanges cpp11 T W Sg cases) i) as [r|] eqn:Hr;
    [|reflexivity].
  destruct (nth_error_split _ _ Hr) as (l1 & l2 & HK & Hlen).
  assert (Hin : In r (keptRanges cpp11 T W Sg cases))
    by (rewrite HK; apply in_elt).
  destruct (keptRanges_in _ _ _ _ _ Hconv r Hin) as (_ & _ & hi & Hhi & _).
  destruct (kept_at _ _ _ _ _ Hconv l1 r l2 hi HK Hhi) as [_ HH].
  rewrite Hlen in HH.
  assert (Hlt : (i < List.length (keptHighs cpp11 T W Sg cases))%nat)
    by (apply nth_error_Some; rewrite HH; discriminate).
  apply andb_true_iff. split.
  - apply orb_true_iff. left. now apply Nat.ltb_lt.
  - destruct i as [|k]; [reflexivity|]. apply Nat.ltb_lt. lia.
Qed.

Lemma checkCaseList_malformed :
  forall (C : Collaborators) cpp11 SwitchLoc SS BodyStmt CondExpr,
    getCond SS = Some CondExpr ->
    nonDependent CondExpr (getSwitchCaseList SS) = true ->
    highsInReach cpp11 (condType CondExpr) (condWidth CondExpr)
      (condIsSigned CondExpr) (getSwitchCaseList SS) = true ->
    malformed cpp11 (condType CondExpr) (condWidth CondExpr)
      (condIsSigned CondExpr) (getSwitchCaseList SS) ->
    Result (checkCaseList cpp11 SwitchLoc SS BodyStmt) = Returns Discard.
Proof.
  intros C cpp11 SwitchLoc SS BodyStmt CondExpr Hcond Hnd Hreach Hbad.
  destruct (checkCaseList_structure cpp11 SwitchLoc SS BodyStmt CondExpr
              Hcond Hnd)
    as (scan & d0 & should & tail & _ & Hres & Hdef & _).
  cbv zeta in Hres. rewrite Hres.
  rewrite (highsInReach_in_bounds _ _ _ _ _ Hreach).
  destruct (rangesConvertible cpp11 (condType CondExpr) (condWidth CondExpr)
              (condIsSigned CondExpr) (getSwitchCaseList SS)) eqn:Hconv.
  - destruct Hbad as [Hbad|[Hbad|[Hbad|Hbad]]].
    + now rewrite (Hdef Hbad).
    + rewrite (duplicate_singleton_found _ _ _ _ _ _ _ _ Hbad).
      now rewrite orb_true_r.
    + rewrite (overlap_singleton_error _ _ _ _ _ Hconv Hbad).
      now rewrite orb_true_r.
    + rewrite (overlap_range_error _ _ _ _ _ Hconv Hbad).
      now rewrite orb_true_r.
  - rewrite <- rangesConvertible_sorted in Hconv.
    rewrite (scanRanges_error _ _ _ _ _ _ _ Hconv).
    now rewrite !orb_true_r.
Qed.

(** C3, as the code has it.  When the switch that is finished is the
    innermost open one, neither its condition nor a label is dependent,
    and the search for overlaps reads no high value past the end of the
    vector of high values (which holds outside C++11, and in C++11 when
    every high bound converts), a malformed case list, that is a second
    default label, two singleton labels of the same value, a singleton
    value within a range or two ranges with a value in common, makes
    [ActOnFinishSwitchStmt] return [StmtError]. *)
Theorem malformed_switch_discarded :
  forall (C : Collaborators) (SwitchLoc : SourceLocation) (Switch : SwitchPtr)
         (BodyStmt : AST.Stmt) (S : State) (SS : SwitchStmt) (CondExpr : Expr)
         (rest : list SwitchPtr),
    Heap S Switch = Some SS ->
    SwitchStack (CurFunction S) = Switch :: rest ->
    getCond SS = Some CondExpr ->
    nonDependent CondExpr (getSwitchCaseList SS) = true ->
    highsInReach (CPlusPlus11 S) (condType CondExpr) (condWidth CondExpr)
      (condIsSigned CondExpr) (getSwitchCaseList SS) = true ->
    malformed (CPlusPlus11 S) (condType CondExpr) (condWidth CondExpr)
      (condIsSigned CondExpr) (getSwitchCaseList SS) ->
    fst (ActOnFinishSwitchStmt SwitchLoc Switch BodyStmt S) = Returns StmtError.
Proof.
  intros C SwitchLoc Switch BodyStmt S SS CondExpr rest Hheap Hstack Hcond
         Hnd Hreach Hbad.
  unfold ActOnFinishSwitchStmt. rewrite Hheap, Hstack, Nat.eqb_refl.
  cbn [fst].
  rewrite (checkCaseList_malformed C (CPlusPlus11 S) SwitchLoc
             (setBody BodyStmt SwitchLoc SS) BodyStmt CondExpr); auto.
Qed.

(** In C++11, [switch (x) { case 1 ... e: ; default: ; default: ; }]
    with a bound [e] that does not convert is discarded: no singleton
    value makes the search for overlaps read the missing high value. *)
Lemma malformed_switch_discarded_witness :
  fst (ActOnFinishSwitchStmt (C := Examples.Quiet) 5 O Examples.body
         (Examples.insideSwitch true Examples.unconvertedBound))
  = Returns StmtError.
Proof.
  apply (malformed_switch_discarded Examples.Quiet 5 O Examples.body
           (Examples.insideSwitch true Examples.unconvertedBound)
           Examples.unconvertedBound (Examples.variable Examples.intTy) []);
    try reflexivity.
  left.
  exists (mkDefault 30 31 (AST.OtherStmt [])), (mkDefault 20 21 (AST.OtherStmt [])).
  exists [], [], [SCCase (mkCase 10 (Examples.lit 11 1)
                            (Some (Examples.unconverted 12 7)) 10)].
  reflexivity.
Defined.

(** C3 as the specification has it fails.  A switch on a type-dependent
    condition with two default labels is kept, and nothing is reported.
    And in C++11 a range whose high bound does not convert stays among
    the ranges without an entry among the high values: with a singleton
    value at or above its low value, the search for overlaps reads the
    vector of high values past its end, and the call does not return
    [StmtError]. *)
Lemma malformed_switch_counterexample :
  (duplicateDefault (getSwitchCaseList Examples.dependentDefaults)
   /\ fst (ActOnFinishSwitchStmt (C := Examples.Quiet) 5 O Examples.body
             (Examples.insideSwitch false Examples.dependentDefaults))
      = Returns (Owned (NodeSwitch O))
   /\ Diags (snd (ActOnFinishSwitchStmt (C := Examples.Quiet) 5 O Examples.body
                    (Examples.insideSwitch false Examples.dependentDefaults)))
      = [])
  /\ (duplicateDefault (getSwitchCaseList Examples.unconvertedBoundRead)
      /\ fst (ActOnFinishSwitchStmt (C := Examples.Quiet) 5 O Examples.body
                (Examples.insideSwitch true Examples.unconvertedBoundRead))
         = OutOfBounds).
Proof.
  split; [split; [|split] | split].
  - exists (mkDefault 20 21 (AST.OtherStmt [])), (mkDefault 10 11 (AST.OtherStmt [])).
    exists [], [], []. reflexivity.
  - vm_compute. reflexivity.
  - vm_compute. reflexivity.
  - exists (mkDefault 30 31 (AST.OtherStmt [])), (mkDefault 20 21 (AST.OtherStmt [])).
    exists [], [], [SCCase (mkCase 15 (Examples.lit 16 5) None 15);
                    SCCase (mkCase 10 (Examples.lit 11 1)
                              (Some (Examples.unconverted 12 7)) 10)].
    reflexivity.
  - vm_compute. reflexivity.
Qed.

End SwitchFacts.

(** ** The enumeration block of the switch analyzer *)
Module EnumFacts.
Import Sema Switch SwitchSpec.
Import APSIntFacts StdFacts SwitchFacts.

(** *** Iterators over sorted vectors *)

Section Merge.
Context {X : Type}.
Variable k : X -> Z.

Local Abbreviation byKey := (fun a b : X => k a <= k b).

(** On a vector sorted by [k], stepping an iterator over the elements
    below [v] leaves the elements that are not below [v]. *)
Lemma advance_filter :
  forall (p : X -> bool) (v : Z) (l : list X),
    (forall x, In x l -> p x = (k x <? v)) ->
    StronglySorted byKey l ->
    Std.advance p l = List.filter (fun x => v <=? k x) l.
Proof.
  intros p v l Hp Hs. induction Hs as [|e t Hs IH He]; cbn; [reflexivity|].
  rewrite (Hp e) by now left.
  destruct (Z.ltb_spec (k e) v) as [Hlt|Hge].
  - replace (v <=? k e) with false by (symmetry; apply Z.leb_gt; lia).
    apply IH. intros x Hx. apply Hp. now right.
  - replace (v <=? k e) with true by (symmetry; apply Z.leb_le; lia).
    f_equal. symmetry. apply forallb_filter_id. apply forallb_forall.
    intros x Hx. rewrite Forall_forall in He. specialize (He x Hx).
    cbn in He. apply Z.leb_le. lia.
Qed.

Lemma filter_filter_above :
  forall (v v' : Z) (l : list X),
    v <= v' ->
    List.filter (fun x => v' <=? k x) (List.filter (fun x => v <=? k x) l)
    = List.filter (fun x => v' <=? k x) l.
Proof.
  intros v v' l Hle. induction l as [|e t IH]; cbn; [reflexivity|].
  destruct (Z.leb_spec v (k e)); cbn.
  - now rewrite IH.
  - replace (v' <=? k e) with false by (symmetry; apply Z.leb_gt; lia).
    exact IH.
Qed.

(** The key [v] is in a sorted vector when the first element that is
    not below [v] has it. *)
Lemma member_head :
  forall (v : Z) (l : list X),
    StronglySorted byKey l ->
    existsb (fun x => k x =? v) l
    = match List.filter (fun x => v <=? k x) l with
      | [] => false
      | h :: _ => k h =? v
      end.
Proof.
  intros v l Hs. induction Hs as [|e t Hs IH He]; cbn; [reflexivity|].
  destruct (Z.leb_spec v (k e)) as [Hle|Hgt].
  - destruct (Z.eqb_spec (k e) v) as [Heq|Hne]; [reflexivity|]. cbn.
    apply not_true_is_false. intros Hex. apply existsb_exists in Hex.
    destruct Hex as (x & Hx & Hxv). apply Z.eqb_eq in Hxv.
    rewrite Forall_forall in He. specialize (He x Hx). cbn in He. lia.
  - replace (k e =? v) with false by (symmetry; apply Z.eqb_neq; lia).
    cbn. exact IH.
Qed.

Lemma member_filter_above :
  forall (v v' : Z) (l : list X),
    v <= v' ->
    existsb (fun x => k x =? v') (List.filter (fun x => v <=? k x) l)
    = existsb (fun x => k x =? v') l.
Proof.
  intros v v' l Hle. induction l as [|e t IH]; cbn; [reflexivity|].
  destruct (Z.leb_spec v (k e)); cbn.
  - now rewrite IH.
  - replace (k e =? v') with false by (symmetry; apply Z.eqb_neq; lia).
    exact IH.
Qed.

Lemma filter_head_least :
  forall (v : Z) (l : list X) h t,
    StronglySorted byKey l ->
    List.filter (fun x => v <=? k x) l = h :: t ->
    In h l /\ v <= k h /\ forall x, In x l -> v <= k x -> k h <= k x.
Proof.
  intros v l h t Hs Hf.
  assert (Hh : In h (List.filter (fun x => v <=? k x) l))
    by (rewrite Hf; now left).
  apply filter_In in Hh. destruct Hh as [Hh Hv]. apply Z.leb_le in Hv.
  split; [exact Hh|]. split; [exact Hv|].
  intros x Hx Hxv.
  assert (Hxf : In x (List.filter (fun x => v <=? k x) l)).
  { apply filter_In. split; [exact Hx | now apply Z.leb_le]. }
  pose proof (StronglySorted_filter byKey (fun x => v <=? k x) l Hs) as Hsf.
  rewrite Hf in Hsf, Hxf. destruct Hxf as [<-|Hxt]; [lia|].
  inversion Hsf as [|? ? _ Hall]; subst. rewrite Forall_forall in Hall.
  now apply Hall.
Qed.

End Merge.

Lemma flat_map_ext_in :
  forall {X Y : Type} (f g : X -> list Y) (l : list X),
    (forall x, In x l -> f x = g x) -> flat_map f l = flat_map g l.
Proof.
  intros X Y f g l Hfg. induction l as [|x t IH]; cbn; [reflexivity|].
  rewrite (Hfg x) by now left. f_equal. apply IH.
  intros y Hy. apply Hfg. now right.
Qed.

Lemma Forall_filter :
  forall {X : Type} (Q : X -> Prop) (p : X -> bool) (l : list X),
    Forall Q l -> Forall Q (List.filter p l).
Proof.
  intros X Q p l HQ. rewrite Forall_forall in *. intros x Hx.
  apply filter_In in Hx. now apply HQ.
Qed.

(** *** Label values that are not in the enumeration *)

Section Values.
Variables (W : N) (U : bool).

Local Abbreviation typedE :=
  (Forall (fun e : APSInt.t * EnumConstantDecl => APSInt.hasType W U (fst e))).
Local Abbreviation typedC :=
  (Forall (fun c : APSInt.t * CaseStmt => APSInt.hasType W U (fst c))).
Local Abbreviation keyE := (fun e : APSInt.t * EnumConstantDecl => APSInt.value (fst e)).
Local Abbreviation keyC := (fun c : APSInt.t * CaseStmt => APSInt.value (fst c)).
Local Abbreviation sortedE :=
  (StronglySorted (fun a b : APSInt.t * EnumConstantDecl => keyE a <= keyE b)).
Local Abbreviation sortedC :=
  (StronglySorted (fun a b : APSInt.t * CaseStmt => keyC a <= keyC b)).

(** Whether [z] is the value of an entry of [EI]. *)
Local Abbreviation among EI z := (existsb (fun e => keyE e =? z) EI).

Lemma advance_enum :
  forall (EI : EnumValsTy) (v : APSInt.t),
    typedE EI -> sortedE EI -> APSInt.hasType W U v ->
    Std.advance (fun e => APSInt.lt (fst e) v) EI
    = List.filter (fun e => APSInt.value v <=? keyE e) EI.
Proof.
  intros EI v Hty Hs Hv. apply (advance_filter keyE); [|exact Hs].
  intros x Hx. rewrite Forall_forall in Hty.
  apply (lt_value W U); [now apply Hty | exact Hv].
Qed.

(** The test [EI == EIend || EI->first > v] after the iterator was
    stepped over the values below [v]. *)
Lemma missing_after_advance :
  forall (EI : EnumValsTy) (v : APSInt.t),
    typedE EI -> sortedE EI -> APSInt.hasType W U v ->
    match List.filter (fun e => APSInt.value v <=? keyE e) EI with
    | [] => true
    | e :: _ => APSInt.gt (fst e) v
    end
    = negb (among EI (APSInt.value v)).
Proof.
  intros EI v Hty Hs Hv. rewrite (member_head keyE _ _ Hs).
  destruct (List.filter (fun e => APSInt.value v <=? keyE e) EI)
    as [|h t] eqn:Hf; [reflexivity|].
  destruct (filter_head_least keyE _ _ _ _ Hs Hf) as (Hh & Hle & _).
  rewrite Forall_forall in Hty.
  rewrite (gt_value W U _ _ (Hty h Hh) Hv).
  destruct (Z.eqb_spec (keyE h) (APSInt.value v)) as [Heq|Hne]; cbn.
  - apply Z.ltb_ge. lia.
  - apply Z.ltb_lt. cbn in Hle. lia.
Qed.

(** The same with the test [EI == EIend || EI->first != v]. *)
Lemma differs_after_advance :
  forall (EI : EnumValsTy) (v : APSInt.t),
    typedE EI -> sortedE EI -> APSInt.hasType W U v ->
    match List.filter (fun e => APSInt.value v <=? keyE e) EI with
    | [] => true
    | e :: _ => APSInt.ne (fst e) v
    end
    = negb (among EI (APSInt.value v)).
Proof.
  intros EI v Hty Hs Hv. rewrite (member_head keyE _ _ Hs).
  destruct (List.filter (fun e => APSInt.value v <=? keyE e) EI)
    as [|h t] eqn:Hf; [reflexivity|].
  destruct (filter_head_least keyE _ _ _ _ Hs Hf) as (Hh & _ & _).
  rewrite Forall_forall in Hty.
  now rewrite (ne_value W U _ _ (Hty h Hh) Hv).
Qed.

Lemma casesNotInEnum_spec :
  forall (T : QualType) (CI : CaseValsTy) (EI : EnumValsTy),
    typedE EI -> sortedE EI -> typedC CI -> sortedC CI ->
    casesNotInEnum T EI CI
    = flat_map
        (fun c =>
           if among EI (keyC c) then []
           else [notInEnumDiag T (getExprLoc (info (getLHS (snd c))))])
        CI.
Proof.
  intros T. induction CI as [|c rest IH]; intros EI HtE HsE HtC HsC;
    [reflexivity|].
  assert (Hc : APSInt.hasType W U (fst c)) by (inversion HtC; assumption).
  assert (Hrest : typedC rest) by (inversion HtC; assumption).
  assert (Hsrest : sortedC rest) by (inversion HsC; assumption).
  assert (Hle : forall c', In c' rest -> keyC c <= keyC c').
  { inversion HsC as [|? ? _ Hall]; subst. now rewrite Forall_forall in Hall. }
  cbn [casesNotInEnum flat_map].
  rewrite (advance_enum EI (fst c) HtE HsE Hc). f_equal.
  - pose proof (missing_after_advance EI (fst c) HtE HsE Hc) as Hm.
    destruct (List.filter (fun e => APSInt.value (fst c) <=? keyE e) EI)
      as [|h t]; destruct (among EI (keyC c)); cbn in Hm;
      try discriminate; try reflexivity; now rewrite Hm.
  - rewrite IH; auto; [|now apply Forall_filter|now apply StronglySorted_filter].
    apply flat_map_ext_in. intros c' Hc'.
    now rewrite (member_filter_above keyE _ _ EI (Hle c' Hc')).
Qed.

End Values.

Lemma existsb_filter_kept :
  forall {X : Type} (p q : X -> bool) (l : list X),
    (forall x, In x l -> p x = false -> q x = false) ->
    existsb q (List.filter p l) = existsb q l.
Proof.
  intros X p q l Hpq. induction l as [|x t IH]; cbn; [reflexivity|].
  assert (Ht : existsb q (List.filter p t) = existsb q t).
  { apply IH. intros y Hy. apply Hpq. now right. }
  destruct (p x) eqn:Hp; cbn.
  - now rewrite Ht.
  - rewrite (Hpq x) by (auto; now left). exact Ht.
Qed.

(** *** Range bounds that are not in the enumeration, and the values of
    the enumeration that no label covers *)

Section RangesEnum.
Variables (cpp11 : bool) (T : QualType) (W : N) (Sg : bool).
Variable Tbp : QualType.

Local Abbreviation U := (negb Sg).
Local Abbreviation typedE :=
  (Forall (fun e : APSInt.t * EnumConstantDecl => APSInt.hasType W U (fst e))).
Local Abbreviation typedC :=
  (Forall (fun c : APSInt.t * CaseStmt => APSInt.hasType W U (fst c))).
Local Abbreviation keyE := (fun e : APSInt.t * EnumConstantDecl => APSInt.value (fst e)).
Local Abbreviation keyC := (fun c : APSInt.t * CaseStmt => APSInt.value (fst c)).
Local Abbreviation sortedE :=
  (StronglySorted (fun a b : APSInt.t * EnumConstantDecl => keyE a <= keyE b)).
Local Abbreviation sortedC :=
  (StronglySorted (fun a b : APSInt.t * CaseStmt => keyC a <= keyC b)).
Local Abbreviation among EI z := (existsb (fun e => keyE e =? z) EI).
Local Abbreviation lo := lowValue.
Local Abbreviation hi := (highValue cpp11 T W Sg).

Lemma apart_tail : forall r RI, apart cpp11 T W Sg (r :: RI) -> apart cpp11 T W Sg RI.
Proof.
  intros r RI (Hs & Hne & Hh & Hty). unfold apart. repeat split.
  - now inversion Hs.
  - now inversion Hne.
  - now inversion Hh.
  - now inversion Hty.
Qed.

Lemma apart_filter : forall p RI, apart cpp11 T W Sg RI -> apart cpp11 T W Sg (List.filter p RI).
Proof.
  intros p RI (Hs & Hne & Hh & Hty). unfold apart. repeat split.
  - now apply StronglySorted_filter.
  - now apply Forall_filter.
  - now apply Forall_filter.
  - now apply Forall_filter.
Qed.

Lemma apart_by_high :
  forall RI, apart cpp11 T W Sg RI ->
             StronglySorted (fun a b => hi a <= hi b) RI.
Proof.
  intros RI (Hs & Hne & _ & _). induction Hs as [|r t Hs IH Hr].
  - constructor.
  - inversion Hne as [|? ? Hr0 Ht]; subst. constructor; [now apply IH|].
    rewrite Forall_forall in *. intros x Hx.
    specialize (Hr x Hx). specialize (Ht x Hx). cbn in *. lia.
Qed.

Lemma Hi_hasType :
  forall r : APSInt.t * CaseStmt,
    APSInt.hasType W U (rangeHiForEnum T W Sg (snd r)).
Proof. intros r. apply AdjustAPSInt_hasType. Qed.

Lemma rangesNotInEnum_spec :
  forall (mem : Z -> bool) (RI : CaseRangesTy) (EI : EnumValsTy) (E : list Z) (b : Z),
    typedE EI -> sortedE EI -> apart cpp11 T W Sg RI ->
    (forall z, In z E <-> among EI z = true) ->
    (forall z, b <= z -> among EI z = mem z) ->
    Forall (fun r => b <= lo r) RI ->
    rangesNotInEnum Tbp T W Sg EI RI
    = flat_map
        (fun r =>
           (if mem (lo r) then []
            else [notInEnumDiag Tbp (getExprLoc (info (getLHS (snd r))))])
           ++ (if mem (hi r) then []
               else [notInEnumDiag Tbp (getExprLoc (info (rangeRHS (snd r))))]))
        (examinedRanges cpp11 T W Sg E RI).
Proof.
  intros mem. induction RI as [|r rest IH]; intros EI E b HtE HsE Hap HE Hmem Hb;
    [reflexivity|].
  cbn [rangesNotInEnum examinedRanges].
  destruct EI as [|e0 EI0].
  - destruct E as [|z E]; [reflexivity|].
    exfalso. assert (Hz : In z (z :: E)) by now left.
    apply HE in Hz. discriminate.
  - destruct E as [|z0 E0].
    { exfalso. assert (Hin : among (e0 :: EI0) (keyE e0) = true).
      { cbn. now rewrite Z.eqb_refl. }
      apply HE in Hin. contradiction. }
    set (EI := e0 :: EI0) in *. set (E := z0 :: E0) in *.
    destruct Hap as (Hs & Hne & Hh & Hty). unfold lowValue in *.
    assert (Hr : APSInt.hasType W U (fst r)) by (inversion Hty; assumption).
    assert (Hrne : APSInt.value (fst r) <= hi r) by (inversion Hne; assumption).
    assert (Hrh : APSInt.value (rangeHiForEnum T W Sg (snd r)) = hi r) by (inversion Hh; assumption).
    assert (Hrb : b <= APSInt.value (fst r)) by (inversion Hb; assumption).
    assert (Hap' : apart cpp11 T W Sg rest).
    { apply (apart_tail r). unfold apart. repeat split; assumption. }
    rewrite (advance_enum W U EI (fst r) HtE HsE Hr).
    set (EI1 := List.filter (fun e => APSInt.value (fst r) <=? keyE e) EI).
    assert (HtE1 : typedE EI1) by now apply Forall_filter.
    assert (HsE1 : sortedE EI1) by now apply StronglySorted_filter.
    rewrite (advance_enum W U EI1 (rangeHiForEnum T W Sg (snd r)) HtE1 HsE1
               (Hi_hasType r)).
    rewrite Hrh.
    assert (Heq2 : List.filter (fun e => hi r <=? APSInt.value (fst e)) EI1
                   = List.filter (fun e => hi r <=? APSInt.value (fst e)) EI)
      by apply (filter_filter_above keyE (APSInt.value (fst r)) (hi r) EI Hrne).
    assert (Hm2 : existsb (fun e => APSInt.value (fst e) =? hi r) EI1
                  = existsb (fun e => APSInt.value (fst e) =? hi r) EI)
      by apply (member_filter_above keyE (APSInt.value (fst r)) (hi r) EI Hrne).
    pose proof (differs_after_advance W U EI (fst r) HtE HsE Hr) as Hd1.
    pose proof (differs_after_advance W U EI1 (rangeHiForEnum T W Sg (snd r))
                  HtE1 HsE1 (Hi_hasType r)) as Hd2.
    rewrite Hrh in Hd2.
    cbv beta in Hd1, Hd2, Hmem |- *.
    rewrite Heq2, Hm2 in Hd2. rewrite !Heq2.
    rewrite (Hmem (APSInt.value (fst r)) Hrb) in Hd1.
    rewrite (Hmem (hi r)) in Hd2 by lia.
    fold EI1 in Hd1.
    set (EI2 := List.filter (fun e => hi r <=? APSInt.value (fst e)) EI) in *.
    cbn [flat_map]. rewrite <- !app_assoc. f_equal; [|f_equal].
    + destruct EI1 as [|h t]; destruct (mem (APSInt.value (fst r))); cbn in Hd1;
        try discriminate; try reflexivity; now rewrite Hd1.
    + destruct EI2 as [|h t]; destruct (mem (hi r)); cbn in Hd2;
        try discriminate; try reflexivity; now rewrite Hd2.
    + apply (IH EI2 _ (hi r)); auto.
      * now apply Forall_filter.
      * now apply StronglySorted_filter.
      * intros z. rewrite filter_In, HE. unfold EI2.
        destruct (Z.leb_spec (hi r) z) as [Hle|Hgt].
        -- rewrite (member_filter_above keyE _ _ EI Hle). tauto.
        -- split; [intros [_ Hf]; discriminate|].
           intros Hex. apply existsb_exists in Hex.
           destruct Hex as (x & Hx & Hxz). apply filter_In in Hx.
           destruct Hx as [_ Hx]. apply Z.leb_le in Hx. apply Z.eqb_eq in Hxz. lia.
      * intros z Hz. unfold EI2.
        rewrite (member_filter_above keyE _ _ EI Hz).
        apply Hmem. unfold lowValue in *. lia.
      * inversion Hs as [|? ? _ Hall]; subst.
        rewrite Forall_forall in *. intros x Hx. specialize (Hall x Hx).
        cbn in Hall. lia.
Qed.

(** Whether the value [z] is matched by an entry of [CI] or lies in a
    range of [RI]. *)
Local Abbreviation matched CI z :=
  (existsb (fun c : APSInt.t * CaseStmt => APSInt.value (fst c) =? z) CI).
Local Abbreviation within RI z :=
  (existsb (fun r : APSInt.t * CaseStmt => (lowValue r <=? z) && (z <=? hi r)) RI).

(** The test [RI == CaseRanges.end() || EI->first < RI->first] after
    the ranges that end below the value were dropped. *)
Lemma missing_after_drop :
  forall (RI : CaseRangesTy) (v : APSInt.t),
    apart cpp11 T W Sg RI -> APSInt.hasType W U v ->
    match List.filter (fun r => APSInt.value v <=? hi r) RI with
    | [] => true
    | r :: _ => APSInt.lt v (fst r)
    end
    = negb (within RI (APSInt.value v)).
Proof.
  intros RI v Hap Hv. set (z := APSInt.value v).
  destruct (List.filter (fun r => z <=? hi r) RI) as [|r0 t] eqn:Hf.
  - symmetry. apply negb_true_iff, not_true_is_false. intros Hex.
    apply existsb_exists in Hex. destruct Hex as (r & Hr & Hc).
    apply andb_true_iff in Hc. destruct Hc as [_ Hc].
    assert (Hin : In r (List.filter (fun r => z <=? hi r) RI))
      by (apply filter_In; auto).
    rewrite Hf in Hin. contradiction.
  - assert (Hin0 : In r0 (List.filter (fun r => z <=? hi r) RI))
      by (rewrite Hf; now left).
    apply filter_In in Hin0. destruct Hin0 as [Hr0 Hz0]. apply Z.leb_le in Hz0.
    destruct Hap as (Hs & _ & _ & Hty).
    rewrite Forall_forall in Hty.
    rewrite (lt_value W U _ _ Hv (Hty r0 Hr0)). fold z.
    destruct (Z.ltb_spec z (APSInt.value (fst r0))) as [Hlt|Hge].
    + symmetry. apply negb_true_iff, not_true_is_false. intros Hex.
      apply existsb_exists in Hex. destruct Hex as (r & Hr & Hc).
      apply andb_true_iff in Hc. destruct Hc as [Hc1 Hc2].
      apply Z.leb_le in Hc1, Hc2. unfold lowValue in Hc1.
      assert (Hin : In r (List.filter (fun r => z <=? hi r) RI)).
      { apply filter_In. split; [exact Hr | now apply Z.leb_le]. }
      rewrite Hf in Hin. destruct Hin as [<-|Hin]; [lia|].
      pose proof (StronglySorted_filter _ (fun r => z <=? hi r) RI Hs) as Hsf.
      rewrite Hf in Hsf. inversion Hsf as [|? ? _ Hall]; subst.
      rewrite Forall_forall in Hall. specialize (Hall r Hin). cbn in Hall.
      unfold lowValue in Hall. lia.
    + symmetry. apply negb_false_iff. apply existsb_exists. exists r0.
      split; [exact Hr0|]. apply andb_true_iff. unfold lowValue.
      split; apply Z.leb_le; lia.
Qed.

Lemma unhandledEnumVals_spec :
  forall (EI : EnumValsTy) (CI : CaseValsTy) (RI : CaseRangesTy),
    typedE EI -> sortedE EI -> typedC CI -> sortedC CI ->
    apart cpp11 T W Sg RI ->
    unhandledEnumVals T W Sg EI CI RI
    = map (fun e => getDeclName (snd e))
          (List.filter
             (fun e => negb (matched CI (keyE e) || within RI (keyE e))) EI).
Proof.
  induction EI as [|e rest IH]; intros CI RI HtE HsE HtC HsC Hap;
    [reflexivity|].
  assert (He : APSInt.hasType W U (fst e)) by (inversion HtE; assumption).
  assert (Hrest : typedE rest) by (inversion HtE; assumption).
  assert (Hsrest : sortedE rest) by (inversion HsE; assumption).
  assert (Hle : forall e', In e' rest -> keyE e <= keyE e').
  { inversion HsE as [|? ? _ Hall]; subst. now rewrite Forall_forall in Hall. }
  cbn [unhandledEnumVals List.filter].
  assert (HadvC : Std.advance (fun c => APSInt.lt (fst c) (fst e)) CI
                  = List.filter (fun c => APSInt.value (fst e) <=? APSInt.value (fst c)) CI).
  { apply (advance_filter keyC); [|exact HsC].
    intros x Hx. rewrite Forall_forall in HtC.
    apply (lt_value W U); [now apply HtC | exact He]. }
  rewrite HadvC.
  set (CI1 := List.filter (fun c => APSInt.value (fst e) <=? APSInt.value (fst c)) CI).
  assert (Hm : match CI1 with
               | c :: _ => APSInt.eq (fst c) (fst e)
               | [] => false
               end = matched CI (APSInt.value (fst e))).
  { pose proof (member_head keyC (APSInt.value (fst e)) CI HsC) as Hh.
    cbv beta in Hh. rewrite Hh. fold CI1.
    destruct CI1 as [|c t] eqn:Hc1; [reflexivity|].
    assert (Hc : In c CI).
    { assert (Hin : In c CI1) by (rewrite Hc1; now left).
      unfold CI1 in Hin. apply filter_In in Hin. tauto. }
    rewrite Forall_forall in HtC.
    apply (eq_value W U); [now apply HtC | exact He]. }
  rewrite Hm. cbv beta.
  assert (HC1 : forall e', In e' rest ->
                           matched CI1 (keyE e') = matched CI (keyE e')).
  { intros e' He'. apply (member_filter_above keyC). now apply Hle. }
  assert (HtC1 : typedC CI1) by now apply Forall_filter.
  assert (HsC1 : sortedC CI1) by now apply StronglySorted_filter.
  destruct (matched CI (APSInt.value (fst e))) eqn:Hmatched; cbn [orb negb].
  - rewrite (IH CI1 RI Hrest Hsrest HtC1 HsC1 Hap). f_equal.
    apply filter_ext_in. intros e' He'. cbv beta. now rewrite (HC1 e' He').
  - assert (HadvR : Std.advance
                      (fun r => negb (APSInt.le (fst e) (rangeHiForEnum T W Sg (snd r))))
                      RI
                    = List.filter (fun r => APSInt.value (fst e) <=? hi r) RI).
    { apply (advance_filter hi); [|now apply apart_by_high].
      intros x Hx. destruct Hap as (_ & _ & Hh & _).
      rewrite Forall_forall in Hh.
      rewrite (le_value W U _ _ He (Hi_hasType x)), (Hh x Hx).
      now rewrite Z.ltb_antisym. }
    rewrite HadvR.
    set (RI1 := List.filter (fun r => APSInt.value (fst e) <=? hi r) RI).
    pose proof (missing_after_drop RI (fst e) Hap He) as Hmiss.
    fold RI1 in Hmiss. cbv beta in Hmiss. rewrite Hmiss.
    assert (HR1 : forall e', In e' rest ->
                             within RI1 (keyE e') = within RI (keyE e')).
    { intros e' He'. apply existsb_filter_kept. intros x _ Hx.
      apply Z.leb_gt in Hx. specialize (Hle e' He'). cbn in Hle.
      apply andb_false_iff. right. apply Z.leb_gt. lia. }
    rewrite (IH CI1 RI1 Hrest Hsrest HtC1 HsC1 (apart_filter _ RI Hap)).
    assert (Hext : List.filter
                     (fun e0 => negb (matched CI1 (keyE e0) || within RI1 (keyE e0)))
                     rest
                   = List.filter
                       (fun e0 => negb (matched CI (keyE e0) || within RI (keyE e0)))
                       rest).
    { apply filter_ext_in. intros e' He'. cbv beta.
      now rewrite (HC1 e' He'), (HR1 e' He'). }
    cbv beta in Hext |- *. rewrite Hext.
    destruct (within RI (APSInt.value (fst e))); reflexivity.
Qed.

End RangesEnum.

(** *** The values of the enumeration *)

Lemma existsb_map :
  forall {X Y : Type} (f : Y -> bool) (g : X -> Y) (l : list X),
    existsb f (map g l) = existsb (fun x => f (g x)) l.
Proof.
  intros X Y f g l. induction l as [|x t IH]; cbn; [reflexivity|].
  now rewrite IH.
Qed.

Lemma existsb_perm :
  forall {X : Type} (f : X -> bool) (l l' : list X),
    Permutation l l' -> existsb f l = existsb f l'.
Proof.
  intros X f l l' Hp. induction Hp; cbn.
  - reflexivity.
  - now rewrite IHHp.
  - destruct (f x), (f y); reflexivity.
  - congruence.
Qed.

Section Unique.
Variables (W : N) (U : bool).

Local Abbreviation typedE :=
  (Forall (fun e : APSInt.t * EnumConstantDecl => APSInt.hasType W U (fst e))).
Local Abbreviation keyE := (fun e : APSInt.t * EnumConstantDecl => APSInt.value (fst e)).
Local Abbreviation among EI z := (existsb (fun e => keyE e =? z) EI).

Lemma unique_from_in :
  forall (l : EnumValsTy) last x,
    In x (Std.unique_from EqEnumVals last l) -> In x l.
Proof.
  induction l as [|y t IH]; intros last x Hx; cbn in Hx; [contradiction|].
  destruct (EqEnumVals last y).
  - right. eapply IH; eauto.
  - destruct Hx as [<-|Hx]; [now left|]. right. eapply IH; eauto.
Qed.

Lemma unique_from_strict :
  forall (l : EnumValsTy) last,
    typedE (last :: l) ->
    StronglySorted (fun a b => keyE a <= keyE b) (last :: l) ->
    StronglySorted (fun a b => keyE a < keyE b)
                   (last :: Std.unique_from EqEnumVals last l).
Proof.
  induction l as [|y t IH]; intros last Hty Hs; cbn [Std.unique_from].
  - repeat constructor.
  - assert (Hlast : APSInt.hasType W U (fst last)) by (inversion Hty; assumption).
    assert (Hyt : typedE (y :: t)) by (inversion Hty; assumption).
    assert (Hy : APSInt.hasType W U (fst y)) by (inversion Hyt; assumption).
    assert (Hsyt : StronglySorted (fun a b => keyE a <= keyE b) (y :: t))
      by (inversion Hs; assumption).
    assert (Hall : forall x, In x (y :: t) -> keyE last <= keyE x).
    { inversion Hs as [|? ? _ Hall]; subst. now rewrite Forall_forall in Hall. }
    unfold EqEnumVals at 1. rewrite (eq_value W U _ _ Hlast Hy).
    destruct (Z.eqb_spec (APSInt.value (fst last)) (APSInt.value (fst y)))
      as [Heq|Hne].
    + apply IH.
      * constructor; [exact Hlast | now inversion Hyt].
      * constructor; [now inversion Hsyt|].
        apply Forall_forall. intros x Hx. apply Hall. now right.
    + specialize (IH y Hyt Hsyt). constructor; [exact IH|].
      apply Forall_forall. intros x Hx.
      assert (Hxy : keyE y <= keyE x).
      { destruct Hx as [<-|Hx]; [cbn; lia|].
        apply unique_from_in in Hx.
        inversion Hsyt as [|? ? _ Hally]; subst.
        rewrite Forall_forall in Hally. now apply Hally. }
      specialize (Hall y (or_introl eq_refl)). cbn in *. lia.
Qed.

Lemma unique_from_among :
  forall (l : EnumValsTy) last z,
    typedE (last :: l) ->
    among (last :: Std.unique_from EqEnumVals last l) z = among (last :: l) z.
Proof.
  induction l as [|y t IH]; intros last z Hty; [reflexivity|].
  assert (Hlast : APSInt.hasType W U (fst last)) by (inversion Hty; assumption).
  assert (Hyt : typedE (y :: t)) by (inversion Hty; assumption).
  assert (Hy : APSInt.hasType W U (fst y)) by (inversion Hyt; assumption).
  cbn [Std.unique_from]. unfold EqEnumVals at 1.
  rewrite (eq_value W U _ _ Hlast Hy).
  destruct (Z.eqb_spec (APSInt.value (fst last)) (APSInt.value (fst y)))
    as [Heq|Hne].
  - rewrite IH by (constructor; [exact Hlast | now inversion Hyt]).
    cbn [existsb]. cbv beta. rewrite <- Heq.
    destruct (APSInt.value (fst last) =? z); reflexivity.
  - specialize (IH y z Hyt). cbn [existsb] in IH |- *. cbv beta in IH |- *.
    now rewrite IH.
Qed.

End Unique.

Section Gathered.
Variables (ED : EnumDecl) (W : N) (Sg : bool).

Local Abbreviation G := (gatherEnumVals ED W Sg).
Local Abbreviation M :=
  (map (fun EDI => (AdjustAPSInt (getInitVal EDI) W Sg, EDI)) ED).
Local Abbreviation keyE := (fun e : APSInt.t * EnumConstantDecl => APSInt.value (fst e)).
Local Abbreviation typedE :=
  (Forall (fun e : APSInt.t * EnumConstantDecl => APSInt.hasType W (negb Sg) (fst e))).

Lemma enumerators_typed : typedE M.
Proof.
  apply Forall_forall. intros e He. apply in_map_iff in He.
  destruct He as (EDI & <- & _). apply AdjustAPSInt_hasType.
Qed.

Lemma sorted_enumerators_typed : typedE (Std.stable_sort CmpEnumVals M).
Proof.
  eapply Forall_permuted; [|apply enumerators_typed].
  symmetry. apply stable_sort_perm.
Qed.

Lemma sorted_enumerators :
  StronglySorted (fun a b => keyE a <= keyE b) (Std.stable_sort CmpEnumVals M).
Proof.
  apply StronglySorted_impl_on
    with (P := fun e : APSInt.t * EnumConstantDecl =>
                 APSInt.hasType W (negb Sg) (fst e))
         (R := fun a b => CmpEnumVals b a = false).
  - intros x y Hx Hy Hxy. now apply (CmpEnumVals_order W (negb Sg)) in Hxy.
  - apply sorted_enumerators_typed.
  - apply stable_sort_sorted
      with (P := fun e : APSInt.t * EnumConstantDecl =>
                   APSInt.hasType W (negb Sg) (fst e)).
    + intros x y Hx Hy Hxy. apply (CmpEnumVals_order W (negb Sg)); auto.
      unfold CmpEnumVals in Hxy. rewrite (lt_value W (negb Sg) _ _ Hx Hy) in Hxy.
      apply Z.ltb_lt in Hxy. lia.
    + intros x y z Hx Hy Hz Hyx Hzy.
      apply (CmpEnumVals_order W (negb Sg)) in Hyx, Hzy; auto.
      apply (CmpEnumVals_order W (negb Sg)); auto. lia.
    + apply enumerators_typed.
Qed.

Lemma gatherEnumVals_in :
  forall e, In e G -> In (snd e) ED /\ fst e = AdjustAPSInt (getInitVal (snd e)) W Sg.
Proof.
  intros e He.
  assert (Hs : In e (Std.stable_sort CmpEnumVals M)).
  { unfold gatherEnumVals, Std.unique in He.
    destruct (Std.stable_sort CmpEnumVals M) as [|x t]; [contradiction|].
    destruct He as [<-|He]; [now left|]. right. eapply unique_from_in; eauto. }
  apply (Permutation_in _ (stable_sort_perm CmpEnumVals M)) in Hs.
  apply in_map_iff in Hs. destruct Hs as (EDI & <- & HEDI). auto.
Qed.

Lemma gatherEnumVals_typed : typedE G.
Proof.
  apply Forall_forall. intros e He.
  destruct (gatherEnumVals_in e He) as [_ ->]. apply AdjustAPSInt_hasType.
Qed.

(** The vector is sorted and holds no value twice. *)
Lemma gatherEnumVals_strict :
  StronglySorted (fun a b => keyE a < keyE b) G.
Proof.
  unfold gatherEnumVals, Std.unique.
  pose proof sorted_enumerators as Hs. pose proof sorted_enumerators_typed as Hty.
  destruct (Std.stable_sort CmpEnumVals M) as [|x t]; [constructor|].
  now apply (unique_from_strict W (negb Sg)).
Qed.

Lemma gatherEnumVals_sorted :
  StronglySorted (fun a b => keyE a <= keyE b) G.
Proof.
  apply StronglySorted_impl_on
    with (P := fun _ : APSInt.t * EnumConstantDecl => True)
         (R := fun a b => keyE a < keyE b).
  - intros x y _ _ Hxy. cbn in *. lia.
  - apply Forall_forall. auto.
  - apply gatherEnumVals_strict.
Qed.

(** Its values are the values of the enumerators. *)
Lemma gatherEnumVals_values :
  forall z, existsb (fun e => keyE e =? z) G = inEnum W Sg ED z.
Proof.
  intros z. unfold inEnum, enumValues. rewrite existsb_map.
  transitivity (existsb (fun e => keyE e =? z) (Std.stable_sort CmpEnumVals M)).
  - unfold gatherEnumVals, Std.unique.
    pose proof sorted_enumerators_typed as Hty.
    destruct (Std.stable_sort CmpEnumVals M) as [|x t]; [reflexivity|].
    now apply (unique_from_among W (negb Sg)).
  - rewrite (existsb_perm _ _ _ (stable_sort_perm CmpEnumVals M)).
    now rewrite existsb_map.
Qed.

End Gathered.

(** *** The high value of a range, evaluated again *)

Lemma mod_mod_pow :
  forall (a : Z) (w w' : N),
    (w <= w')%N ->
    (a mod APSInt.modulus w') mod APSInt.modulus w = a mod APSInt.modulus w.
Proof.
  intros a w w' Hle. apply Z.mod_mod_divide.
  unfold APSInt.modulus. exists (2 ^ (Z.of_N w' - Z.of_N w)).
  rewrite <- Z.pow_add_r by lia. f_equal. lia.
Qed.

Lemma value_mod :
  forall x, APSInt.value x mod APSInt.modulus (APSInt.BitWidth x)
            = APSInt.getZExtValue x.
Proof.
  intros x. pose proof (modulus_pos (APSInt.BitWidth x)) as HM.
  unfold APSInt.value, APSInt.getSExtValue, APSInt.getZExtValue.
  set (M := APSInt.modulus (APSInt.BitWidth x)) in *.
  destruct (APSInt.IsUnsigned x); [apply Z.mod_mod; lia|].
  destruct (2 * (APSInt.bits x mod M) <? M); [apply Z.mod_mod; lia|].
  replace (APSInt.bits x mod M - M) with (APSInt.bits x mod M + (-1) * M) by lia.
  rewrite Z.mod_add by lia. apply Z.mod_mod. lia.
Qed.

Lemma getZExtValue_AdjustAPSInt :
  forall x w s,
    APSInt.getZExtValue (AdjustAPSInt x w s) = APSInt.value x mod APSInt.modulus w.
Proof.
  intros x w s. pose proof (modulus_pos w) as HM. unfold AdjustAPSInt.
  destruct (APSInt.BitWidth x <? w)%N eqn:E1.
  - unfold APSInt.getZExtValue. cbn. apply Z.mod_mod. lia.
  - destruct (w <? APSInt.BitWidth x)%N eqn:E2.
    + apply N.ltb_lt in E2.
      unfold APSInt.getZExtValue at 1. cbn. rewrite Z.mod_mod by lia.
      rewrite <- value_mod. apply mod_mod_pow. lia.
    + apply N.ltb_ge in E1, E2.
      assert (Hw : APSInt.BitWidth x = w) by lia.
      clear E1 E2. subst w. rewrite value_mod. reflexivity.
Qed.

Lemma getZExtValue_ConvertIntegerToTypeWarnOnOverflow :
  forall x w s loc id,
    APSInt.getZExtValue (fst (ConvertIntegerToTypeWarnOnOverflow x w s loc id))
    = APSInt.value x mod APSInt.modulus w.
Proof.
  intros x w s loc id. pose proof (modulus_pos w) as HM.
  unfold ConvertIntegerToTypeWarnOnOverflow.
  destruct (APSInt.BitWidth x <? w)%N eqn:E1.
  - unfold APSInt.getZExtValue. cbn. apply Z.mod_mod. lia.
  - destruct (w <? APSInt.BitWidth x)%N eqn:E2.
    + apply N.ltb_lt in E2.
      unfold APSInt.getZExtValue at 1. cbn. rewrite Z.mod_mod by lia.
      rewrite <- value_mod. apply mod_mod_pow. lia.
    + apply N.ltb_ge in E1, E2.
      assert (Hw : APSInt.BitWidth x = w) by lia.
      clear E1 E2. subst w. rewrite value_mod.
      destruct (negb (Bool.eqb s (APSInt.isSigned x))); reflexivity.
Qed.

Lemma value_of_bits :
  forall w u a b,
    APSInt.hasType w u a -> APSInt.hasType w u b ->
    APSInt.getZExtValue a = APSInt.getZExtValue b ->
    APSInt.value a = APSInt.value b.
Proof.
  intros w u a b [Wa Ua] [Wb Ub] Heq.
  unfold APSInt.value, APSInt.getSExtValue. now rewrite Ua, Ub, Wa, Wb, Heq.
Qed.

(** When the promoted type of the condition is not narrower than the
    type before promotion, the high value evaluated for the enumeration
    is the high value converted by the first loop over the ranges. *)
Lemma rangeHiForEnum_value :
  forall cpp11 T W Sg CR h,
    (W <= getIntWidth T)%N ->
    converted cpp11 T W Sg (rangeRHS CR) = Some h ->
    APSInt.value (rangeHiForEnum T W Sg CR) = APSInt.value h.
Proof.
  intros cpp11 T W Sg CR h Hw Hh.
  apply (value_of_bits W (negb Sg)).
  - apply AdjustAPSInt_hasType.
  - eapply converted_hasType; eauto.
  - unfold rangeHiForEnum. rewrite getZExtValue_AdjustAPSInt.
    unfold converted in Hh.
    destruct (caseValue cpp11 T (rangeRHS CR)) as [v|] eqn:Hv; [|discriminate].
    injection Hh as <-.
    rewrite getZExtValue_ConvertIntegerToTypeWarnOnOverflow.
    unfold caseValue in Hv. destruct cpp11.
    + unfold CheckConvertedConstantExpression in Hv.
      destruct (isConvertedConstant (info (rangeRHS CR))); [|discriminate].
      injection Hv as <-. reflexivity.
    + injection Hv as <-. unfold IntegralCastValue.
      rewrite <- (mod_mod_pow (APSInt.value (AdjustAPSInt _ _ _)) W (getIntWidth T) Hw).
      replace (getIntWidth T)
        with (APSInt.BitWidth
                (AdjustAPSInt (EvaluateKnownConstInt (rangeRHS CR)) (getIntWidth T)
                   (isSignedIntegerOrEnumerationType T))) at 2
        by apply AdjustAPSInt_hasType.
      rewrite value_mod, getZExtValue_AdjustAPSInt.
      now apply mod_mod_pow.
Qed.

(** *** What an accepted case list tells *)

Lemma checkOverlaps_clean :
  forall Vals Ranges His idx,
    PastTheEnd (checkOverlaps Vals Ranges His idx) = false ->
    OverlapError (checkOverlaps Vals Ranges His idx) = false ->
    forall i, In i idx -> findOverlap Vals Ranges His i = Some None.
Proof.
  intros Vals Ranges His. induction idx as [|j rest IH]; intros Hpast Herr i Hi.
  - contradiction.
  - cbn [checkOverlaps] in Hpast, Herr.
    destruct (findOverlap Vals Ranges His j) as [[o|]|] eqn:Hj.
    + exfalso. destruct (nth_error Ranges j) as [r|] eqn:Hr.
      * cbn in Herr. discriminate.
      * unfold findOverlap in Hj. rewrite Hr in Hj. discriminate.
    + destruct Hi as [<-|Hi]; [exact Hj | now apply IH].
    + cbn in Hpast. discriminate.
Qed.

Lemma findOverlap_apart :
  forall Vals Ranges His k lo CR prevHi prevR,
    findOverlap Vals Ranges His (S k) = Some None ->
    nth_error Ranges (S k) = Some (lo, CR) ->
    nth_error His k = Some prevHi ->
    nth_error Ranges k = Some prevR ->
    APSInt.le lo prevHi = false.
Proof.
  intros Vals Ranges His k lo CR prevHi prevR Hf HR HpH HpR.
  unfold findOverlap in Hf. rewrite HR in Hf. cbv zeta in Hf.
  rewrite HpH, HpR in Hf.
  destruct (nth_error Vals _) as [c|];
    [destruct (nth_error His (S k)) as [h|]; [|discriminate]|];
    destruct (APSInt.le lo prevHi); try discriminate; reflexivity.
Qed.

Lemma scanRanges_convertible :
  forall cpp11 T W Sg const l should,
    RangeError (scanRanges cpp11 T W Sg const l should) = false ->
    forallb (fun r => isSome (converted cpp11 T W Sg (rangeRHS (snd r)))) l = true.
Proof.
  intros cpp11 T W Sg const. induction l as [|[LoVal CR] rest IH]; intros should Herr.
  - reflexivity.
  - rewrite scanRanges_step in Herr. cbn [forallb snd].
    destruct (converted cpp11 T W Sg (rangeRHS CR)) as [h|]; [|discriminate].
    cbn [isSome andb].
    destruct (APSInt.gt LoVal h); cbn [RangeError] in Herr; eapply IH; eauto.
Qed.

Lemma apart_of_adjacent :
  forall {X : Type} (lo hi : X -> Z) (l : list X),
    Forall (fun r => lo r <= hi r) l ->
    (forall l1 a c l2, l = l1 ++ a :: c :: l2 -> hi a < lo c) ->
    StronglySorted (fun a b => hi a < lo b) l.
Proof.
  intros X lo hi. induction l as [|a t IH]; intros Hne Hadj; [constructor|].
  assert (Ht : StronglySorted (fun a b => hi a < lo b) t).
  { apply IH; [now inversion Hne|].
    intros l1 x c l2 Heq. apply (Hadj (a :: l1) x c l2). now rewrite Heq. }
  constructor; [exact Ht|].
  destruct t as [|c t']; [constructor|].
  assert (Hac : hi a < lo c) by (apply (Hadj [] a c t'); reflexivity).
  assert (Hc : lo c <= hi c).
  { inversion Hne as [|? ? _ Hnet]; subst. now inversion Hnet. }
  constructor; [exact Hac|].
  inversion Ht as [|? ? _ Hall]; subst.
  rewrite Forall_forall in *. intros x Hx. specialize (Hall x Hx). cbn in *. lia.
Qed.

Lemma existsb_flat_map :
  forall {X Y : Type} (f : Y -> bool) (g : X -> list Y) (l : list X),
    existsb f (flat_map g l) = existsb (fun x => existsb f (g x)) l.
Proof.
  intros X Y f g l. induction l as [|x t IH]; cbn; [reflexivity|].
  now rewrite existsb_app, IH.
Qed.

Lemma existsb_ext_in :
  forall {X : Type} (f g : X -> bool) (l : list X),
    (forall x, In x l -> f x = g x) -> existsb f l = existsb g l.
Proof.
  intros X f g l Hfg. induction l as [|x t IH]; cbn; [reflexivity|].
  rewrite (Hfg x) by now left. f_equal. apply IH.
  intros y Hy. apply Hfg. now right.
Qed.

Section Accepted.
Variables (cpp11 : bool) (T : QualType) (W : N) (Sg : bool).
Variable cases : list SwitchCase.
Hypothesis Hwide : (W <= getIntWidth T)%N.
Hypothesis Hconv : rangesConvertible cpp11 T W Sg cases = true.
Hypothesis Hpast : PastTheEnd (overlapScan cpp11 T W Sg cases) = false.
Hypothesis Hclean : OverlapError (overlapScan cpp11 T W Sg cases) = false.

Local Abbreviation K := (keptRanges cpp11 T W Sg cases).
Local Abbreviation V := (sortedSingletons cpp11 T W Sg cases).

Lemma kept_not_empty :
  forall r, In r K -> lowValue r <= highValue cpp11 T W Sg r.
Proof.
  intros r Hr.
  destruct (keptRanges_in cpp11 T W Sg cases Hconv r Hr) as (Hs & _ & h & Hh & _).
  unfold keptRanges in Hr. apply filter_In in Hr. destruct Hr as [_ Hne].
  apply negb_true_iff in Hne.
  rewrite (isEmptyRange_value cpp11 T W Sg cases r h Hs Hh) in Hne.
  apply Z.ltb_ge in Hne. unfold lowValue, highValue. now rewrite Hh.
Qed.

Lemma kept_apart : apart cpp11 T W Sg K.
Proof.
  unfold apart. split; [|split; [|split]].
  - apply apart_of_adjacent.
    + apply Forall_forall. apply kept_not_empty.
    + intros l1 a c l2 HK.
      assert (HaK : In a K) by (rewrite HK; apply in_elt).
      assert (HK' : K = (l1 ++ [a]) ++ c :: l2)
        by (rewrite HK, <- app_assoc; reflexivity).
      assert (HcK : In c K) by (rewrite HK'; apply in_elt).
      destruct (keptRanges_in cpp11 T W Sg cases Hconv a HaK)
        as (_ & _ & ha & Hha & Hhat).
      destruct (keptRanges_in cpp11 T W Sg cases Hconv c HcK)
        as (_ & Hlo & hc & Hhc & _).
      destruct (kept_at cpp11 T W Sg cases Hconv l1 a (c :: l2) ha HK Hha)
        as [HaR HaH].
      destruct (kept_at cpp11 T W Sg cases Hconv (l1 ++ [a]) c l2 hc HK' Hhc)
        as [HcR _].
      assert (Hlen : List.length (l1 ++ [a]) = S (List.length l1))
        by (rewrite length_app; cbn; lia).
      rewrite Hlen in HcR.
      assert (Hidx : In (S (List.length l1)) (seq 0 (List.length K))).
      { rewrite <- Hlen. rewrite HK' at 1. apply index_in_seq. }
      pose proof (checkOverlaps_clean V K _ _ Hpast Hclean _ Hidx) as Hf.
      destruct c as [lo CR]. cbn [fst snd] in *.
      pose proof (findOverlap_apart V K _ _ lo CR ha a Hf HcR HaH HaR) as Hle.
      rewrite (le_value W (negb Sg) _ _ Hlo Hhat) in Hle.
      apply Z.leb_gt in Hle. unfold highValue, lowValue. now rewrite Hha.
  - apply Forall_forall. apply kept_not_empty.
  - apply Forall_forall. intros r Hr.
    destruct (keptRanges_in cpp11 T W Sg cases Hconv r Hr) as (_ & _ & h & Hh & _).
    unfold highValue. rewrite Hh. now apply (rangeHiForEnum_value cpp11).
  - apply Forall_forall. intros r Hr.
    now destruct (keptRanges_in cpp11 T W Sg cases Hconv r Hr) as (_ & Hty & _).
Qed.

(** A value is covered by the labels of the switch when it is the value
    of a sorted singleton or lies in a range that was kept. *)
Lemma covered_kept :
  forall z,
    covered cpp11 T W Sg cases z
    = existsb (fun c => APSInt.value (fst c) =? z) V
      || existsb (fun r => (lowValue r <=? z) && (z <=? highValue cpp11 T W Sg r)) K.
Proof.
  intros z. unfold covered. f_equal.
  - symmetry. apply existsb_perm, sortedSingletons_perm.
  - unfold boundedRanges. rewrite existsb_flat_map.
    transitivity
      (existsb (fun r => (lowValue r <=? z) && (z <=? highValue cpp11 T W Sg r))
               (ranges cpp11 T W Sg cases)).
    + apply existsb_ext_in. intros r Hr.
      unfold rangesConvertible in Hconv. rewrite forallb_forall in Hconv.
      specialize (Hconv r Hr). unfold highValue.
      destruct (converted cpp11 T W Sg (rangeRHS (snd r))) as [h|];
        [|discriminate].
      cbn. now rewrite orb_false_r.
    + rewrite <- (existsb_perm _ _ _ (sortedRanges_perm cpp11 T W Sg cases)).
      symmetry. unfold keptRanges. apply existsb_filter_kept.
      intros r Hr Hempty. apply negb_false_iff in Hempty.
      apply (Permutation_in _ (sortedRanges_perm cpp11 T W Sg cases)) in Hr as Hr'.
      unfold rangesConvertible in Hconv. rewrite forallb_forall in Hconv.
      specialize (Hconv r Hr').
      destruct (converted cpp11 T W Sg (rangeRHS (snd r))) as [h|] eqn:Hh;
        [|discriminate].
      rewrite (isEmptyRange_value cpp11 T W Sg cases r h Hr Hh) in Hempty.
      apply Z.ltb_lt in Hempty. unfold highValue, lowValue. rewrite Hh.
      destruct (Z.leb_spec (APSInt.value (fst r)) z);
        destruct (Z.leb_spec z (APSInt.value h)); try reflexivity. lia.
Qed.

End Accepted.

(** *** The enumeration block on an accepted case list *)

Section Checked.
Variables (cpp11 : bool) (T : QualType) (W : N) (Sg : bool).
Variable cases : list SwitchCase.
Variables (ED : EnumDecl) (Tbp : QualType).
Hypothesis Hwide : (W <= getIntWidth T)%N.
Hypothesis Hconv : rangesConvertible cpp11 T W Sg cases = true.
Hypothesis Hpast : PastTheEnd (overlapScan cpp11 T W Sg cases) = false.
Hypothesis Hclean : OverlapError (overlapScan cpp11 T W Sg cases) = false.

Local Abbreviation K := (keptRanges cpp11 T W Sg cases).
Local Abbreviation V := (sortedSingletons cpp11 T W Sg cases).
Local Abbreviation G := (gatherEnumVals ED W Sg).
Local Abbreviation names := (uncoveredEnumerators cpp11 T W Sg ED cases).

Lemma casesNotInEnum_sorted :
  casesNotInEnum Tbp G V = singlesNotInEnum cpp11 T W Sg Tbp ED cases.
Proof.
  rewrite (casesNotInEnum_spec W (negb Sg)).
  - unfold singlesNotInEnum. apply flat_map_ext. intros c. cbv beta.
    now rewrite gatherEnumVals_values.
  - apply gatherEnumVals_typed.
  - apply gatherEnumVals_sorted.
  - apply sortedSingletons_hasType.
  - apply sortedSingletons_byValue.
Qed.

Lemma rangesNotInEnum_kept :
  rangesNotInEnum Tbp T W Sg G K
  = rangeBoundsNotInEnum cpp11 T W Sg Tbp ED
      (examinedRanges cpp11 T W Sg (enumValues W Sg ED) K).
Proof.
  pose proof (kept_apart cpp11 T W Sg cases Hwide Hconv Hpast Hclean) as Hap.
  destruct K as [|r0 K'] eqn:HK.
  - destruct G; reflexivity.
  - unfold rangeBoundsNotInEnum.
    apply (rangesNotInEnum_spec cpp11 T W Sg Tbp (inEnum W Sg ED) (r0 :: K') G
             (enumValues W Sg ED) (lowValue r0)).
    + apply gatherEnumVals_typed.
    + apply gatherEnumVals_sorted.
    + exact Hap.
    + intros z. rewrite gatherEnumVals_values. unfold inEnum.
      rewrite existsb_exists. split.
      * intros Hz. exists z. split; [exact Hz | apply Z.eqb_refl].
      * intros (v & Hv & Hvz). apply Z.eqb_eq in Hvz. now subst.
    + intros z _. apply gatherEnumVals_values.
    + destruct Hap as (Hs & Hne & _ & _). constructor; [lia|].
      inversion Hs as [|? ? _ Hall]; subst. inversion Hne as [|? ? Hr0 _]; subst.
      rewrite Forall_forall in *. intros x Hx. specialize (Hall x Hx).
      cbn in Hall. lia.
Qed.

Lemma unhandledEnumVals_kept :
  unhandledEnumVals T W Sg G V K = names.
Proof.
  rewrite (unhandledEnumVals_spec cpp11 T W Sg).
  - unfold uncoveredEnumerators. f_equal. apply filter_ext. intros e. cbv beta.
    now rewrite covered_kept by assumption.
  - apply gatherEnumVals_typed.
  - apply gatherEnumVals_sorted.
  - apply sortedSingletons_hasType.
  - apply sortedSingletons_byValue.
  - now apply kept_apart.
Qed.

(** No name is left when every value of the enumeration is covered,
    and only then. *)
Lemma names_empty :
  match names with [] => true | _ :: _ => false end
  = allEnumValuesCovered cpp11 T W Sg ED cases.
Proof.
  unfold uncoveredEnumerators, allEnumValuesCovered.
  destruct (forallb (covered cpp11 T W Sg cases) (enumValues W Sg ED)) eqn:Hall.
  - rewrite forallb_forall in Hall.
    rewrite filter_none; [reflexivity|].
    apply Forall_forall. intros e He. apply negb_false_iff. apply Hall.
    destruct (gatherEnumVals_in ED W Sg e He) as [Hin ->].
    unfold enumValues. apply in_map_iff. exists (snd e). auto.
  - destruct (List.filter _ G) as [|e t] eqn:Hf; [|reflexivity].
    exfalso. apply not_true_iff_false in Hall. apply Hall.
    apply forallb_forall. intros z Hz.
    assert (Hex : existsb (fun e => APSInt.value (fst e) =? z) G = true).
    { rewrite gatherEnumVals_values. unfold inEnum. apply existsb_exists.
      exists z. split; [exact Hz | apply Z.eqb_refl]. }
    apply existsb_exists in Hex. destruct Hex as (e & He & Hez).
    apply Z.eqb_eq in Hez. subst z.
    destruct (covered cpp11 T W Sg cases (APSInt.value (fst e))) eqn:Hc;
      [reflexivity|].
    assert (Hin : In e (List.filter
                          (fun e => negb (covered cpp11 T W Sg cases
                                            (APSInt.value (fst e)))) G)).
    { apply filter_In. split; [exact He | now rewrite Hc]. }
    rewrite Hf in Hin. contradiction.
Qed.

Lemma checkEnum_spec :
  forall Loc D,
    checkEnum ED Tbp T W Sg Loc D V K
    = (singlesNotInEnum cpp11 T W Sg Tbp ED cases
       ++ rangeBoundsNotInEnum cpp11 T W Sg Tbp ED
            (examinedRanges cpp11 T W Sg (enumValues W Sg ED) K)
       ++ match D, names with
          | Some DS, [] => [Diag (getDefaultLoc DS) warn_unreachable_default]
          | _, _ => []
          end
       ++ reportUnhandled Loc (isSome D) names,
       allEnumValuesCovered cpp11 T W Sg ED cases).
Proof.
  intros Loc D. unfold checkEnum.
  rewrite casesNotInEnum_sorted, rangesNotInEnum_kept, unhandledEnumVals_kept.
  now rewrite names_empty.
Qed.

End Checked.

Section EnumSwitch.
Context {C : Collaborators}.
Variables (cpp11 : bool) (SwitchLoc : SourceLocation) (SS : SwitchStmt).
Variables (BodyStmt : AST.Stmt) (CondExpr : Expr) (ED : EnumDecl).
Hypothesis Hcond : getCond SS = Some CondExpr.
Hypothesis Hnd : nonDependent CondExpr (getSwitchCaseList SS) = true.
Hypothesis Henum : condEnum CondExpr = Some ED.
Hypothesis Hconst : constantCondition CondExpr (getSwitchCaseList SS) = false.
Hypothesis Hkeep : Result (checkCaseList cpp11 SwitchLoc SS BodyStmt) = Returns Keep.

Local Abbreviation cases := (getSwitchCaseList SS).
Local Abbreviation T := (condType CondExpr).
Local Abbreviation W := (condWidth CondExpr).
Local Abbreviation Sg := (condIsSigned CondExpr).
Local Abbreviation Tbp := (GetTypeBeforeIntegralPromotion CondExpr).
Local Abbreviation dEnd :=
  (DiagnoseEmptyStmtBody (getLocEnd (info CondExpr)) BodyStmt).

(** The enumeration block runs, on the sorted singleton values and the
    ranges kept, and nothing but the check of the body follows it. *)
Lemma checkCaseList_enum :
  exists before D,
    AnalysisDiags (checkCaseList cpp11 SwitchLoc SS BodyStmt)
    = before
      ++ fst (checkEnum ED Tbp T W Sg (getExprLoc (info CondExpr)) D
                (sortedSingletons cpp11 T W Sg cases)
                (keptRanges cpp11 T W Sg cases))
      ++ dEnd
    /\ Covered (checkCaseList cpp11 SwitchLoc SS BodyStmt)
       = snd (checkEnum ED Tbp T W Sg (getExprLoc (info CondExpr)) D
                (sortedSingletons cpp11 T W Sg cases)
                (keptRanges cpp11 T W Sg cases))
    /\ isSome D = hasDefault cases
    /\ (forall DS, D = Some DS -> In (SCDefault DS) cases)
    /\ rangesConvertible cpp11 T W Sg cases = true
    /\ PastTheEnd (overlapScan cpp11 T W Sg cases) = false
    /\ OverlapError (overlapScan cpp11 T W Sg cases) = false.
Proof.
  destruct (checkCaseList_nonDependent cpp11 SwitchLoc SS BodyStmt CondExpr
              Hcond Hnd)
    as (scan & d0 & HA & Hvals & Hranges & Hdef & _ & _ & _ & Hin).
  pose proof Hkeep as Hk. rewrite HA in Hk |- *.
  unfold checkLabels in Hk |- *. cbv zeta in Hk |- *.
  rewrite Hvals, Hranges in Hk |- *.
  fold (condType CondExpr) (condIsSigned CondExpr) (condValue CondExpr) in Hk |- *.
  fold (sortedSingletons cpp11 T W Sg cases) (sortedRanges cpp11 T W Sg cases)
    in Hk |- *.
  assert (Hcst : match TheDefaultStmt scan with
                 | Some _ => false
                 | None => isIntConstant (info (ExprBeforePromotion CondExpr))
                 end = false).
  { unfold constantCondition in Hconst. rewrite <- Hdef in Hconst.
    destruct (TheDefaultStmt scan); [reflexivity | exact Hconst]. }
  rewrite Hcst in Hk |- *.
  set (Dup := checkDuplicates (condValue CondExpr) None
                (sortedSingletons cpp11 T W Sg cases) false) in *.
  set (RS := scanRanges cpp11 T W Sg (condValue CondExpr)
               (sortedRanges cpp11 T W Sg cases) (DupShouldCheck Dup)) in *.
  assert (HK : KeptRanges RS = keptRanges cpp11 T W Sg cases)
    by apply scanRanges_kept.
  assert (HH : HiVals RS = keptHighs cpp11 T W Sg cases)
    by apply scanRanges_highs.
  rewrite HK, HH in Hk |- *.
  fold (overlapScan cpp11 T W Sg cases) in Hk |- *.
  destruct (PastTheEnd (overlapScan cpp11 T W Sg cases)) eqn:Hpast;
    [discriminate|].
  cbn [Result AnalysisDiags Covered] in Hk |- *.
  set (erroneous := CaseListIsErroneous scan || DupFound Dup || RangeError RS
                    || OverlapError (overlapScan cpp11 T W Sg cases)) in *.
  assert (Herr : erroneous = false).
  { destruct erroneous; [discriminate | reflexivity]. }
  rewrite Herr. unfold condEnum in Henum. rewrite Henum. cbn [negb andb].
  unfold erroneous in Herr.
  apply orb_false_iff in Herr. destruct Herr as [Herr Hov].
  apply orb_false_iff in Herr. destruct Herr as [_ Hrange].
  eexists. exists (TheDefaultStmt scan).
  split; [apply app_assoc|].
  split; [reflexivity|]. split; [exact Hdef|]. split; [exact Hin|].
  split; [|split; [reflexivity | exact Hov]].
  apply scanRanges_convertible in Hrange.
  unfold rangesConvertible. rewrite forallb_forall in *.
  intros r Hr. apply Hrange.
  eapply Permutation_in; [symmetry; apply sortedRanges_perm | exact Hr].
Qed.

End EnumSwitch.

(** The advisory for the enumerators that no label covers: their names
    when there are at most three, and their number followed by the
    first three names when there are more. *)
Lemma reportUnhandled_shape :
  forall Loc d (names : list string),
    (names = [] -> reportUnhandled Loc d names = [])
    /\ (names <> [] -> (List.length names <= 3)%nat ->
        exists id,
          reportUnhandled Loc d names = [mkDiag Loc id (map ArgString names)]
          /\ getDiagnosticLevel id = Warning)
    /\ ((3 < List.length names)%nat ->
        exists id,
          reportUnhandled Loc d names
          = [mkDiag Loc id
               (ArgUnsigned (Z.of_nat (List.length names))
                :: map ArgString (firstn 3 names))]
          /\ getDiagnosticLevel id = Warning).
Proof.
  intros Loc d names. split; [|split].
  - intros ->. reflexivity.
  - intros Hne Hlen.
    destruct names as [|a [|b [|c [|e t]]]]; cbn in Hlen; try lia;
      try contradiction; destruct d; eexists; split; reflexivity.
  - intros Hlen.
    destruct names as [|a [|b [|c [|e t]]]]; cbn in Hlen; try lia.
    destruct d; eexists; split; reflexivity.
Qed.

(** When the loop over the ranges comes to every range kept, it looks
    up the bounds of each of them. *)
Lemma examinedRanges_all :
  forall cpp11 T W Sg (RI : CaseRangesTy) (E : list Z),
    StronglySorted (fun a b => highValue cpp11 T W Sg a < lowValue b) RI ->
    Forall (fun r => lowValue r <= highValue cpp11 T W Sg r) RI ->
    (RI <> [] -> E <> []) ->
    Forall (fun r => exists z, In z E /\ highValue cpp11 T W Sg r <= z)
           (removelast RI) ->
    examinedRanges cpp11 T W Sg E RI = RI.
Proof.
  intros cpp11 T W Sg. induction RI as [|r rest IH]; intros E Hs Hne HE Hall;
    [reflexivity|].
  cbn [examinedRanges].
  destruct E as [|z0 E0]; [exfalso; apply HE; [discriminate | reflexivity]|].
  f_equal. destruct rest as [|r2 rest']; [reflexivity|].
  inversion Hs as [|? ? Hs' Hr]; subst.
  inversion Hne as [|? ? Hr0 Hne']; subst.
  change (removelast (r :: r2 :: rest')) with (r :: removelast (r2 :: rest'))
    in Hall.
  inversion Hall as [|? ? (z & Hz & Hrz) Hall']; subst.
  apply IH; [exact Hs' | exact Hne' | |].
  - intros _ Hnil.
    assert (Hin : In z (List.filter (fun z => highValue cpp11 T W Sg r <=? z)
                                    (z0 :: E0))).
    { apply filter_In. split; [exact Hz | now apply Z.leb_le]. }
    rewrite Hnil in Hin. contradiction.
  - rewrite Forall_forall in *. intros x Hx.
    destruct (Hall' x Hx) as (y & Hy & Hxy). exists y. split; [|exact Hxy].
    apply filter_In. split; [exact Hy|]. apply Z.leb_le.
    assert (Hxin : In x (r2 :: rest')).
    { clear -Hx. revert Hx. generalize (r2 :: rest'). intros l.
      induction l as [|a l IHl]; [contradiction|].
      destruct l as [|b l]; [contradiction|].
      change (removelast (a :: b :: l)) with (a :: removelast (b :: l)).
      intros [<-|Hx]; [now left | right; now apply IHl]. }
    specialize (Hr x Hxin). specialize (Hne' x Hxin). cbn in Hr, Hne'. lia.
Qed.

Lemma rangesReached_all :
  forall cpp11 T W Sg ED cases,
    rangesReached cpp11 T W Sg ED cases = true ->
    apart cpp11 T W Sg (keptRanges cpp11 T W Sg cases) ->
    examinedRanges cpp11 T W Sg (enumValues W Sg ED) (keptRanges cpp11 T W Sg cases)
    = keptRanges cpp11 T W Sg cases.
Proof.
  intros cpp11 T W Sg ED cases Hreach (Hs & Hne & _ & _).
  unfold rangesReached in Hreach.
  destruct (keptRanges cpp11 T W Sg cases) as [|r0 K'] eqn:HK; [reflexivity|].
  apply andb_true_iff in Hreach. destruct Hreach as [Hval Hall].
  apply examinedRanges_all; [exact Hs | exact Hne | |].
  - intros _. destruct ED; [discriminate | discriminate].
  - apply Forall_forall. intros r Hr. rewrite forallb_forall in Hall.
    specialize (Hall r Hr). apply existsb_exists in Hall.
    destruct Hall as (z & Hz & Hle). exists z. split; [exact Hz|].
    now apply Z.leb_le.
Qed.

(** The enumeration block of an accepted switch, on the width and
    signedness the analysis takes for the condition. *)
Lemma ActOnFinishSwitchStmt_enum :
  forall (C : Collaborators) (SwitchLoc : SourceLocation) (Switch : SwitchPtr)
         (BodyStmt : AST.Stmt) (S : State) (SS : SwitchStmt) (CondExpr : Expr)
         (ED : EnumDecl) (rest : list SwitchPtr),
    Heap S Switch = Some SS ->
    SwitchStack (CurFunction S) = Switch :: rest ->
    getCond SS = Some CondExpr ->
    nonDependent CondExpr (getSwitchCaseList SS) = true ->
    condEnum CondExpr = Some ED ->
    constantCondition CondExpr (getSwitchCaseList SS) = false ->
    (condWidth CondExpr <= getIntWidth (condType CondExpr))%N ->
    rangesReached (CPlusPlus11 S) (condType CondExpr) (condWidth CondExpr)
      (condIsSigned CondExpr) ED (getSwitchCaseList SS) = true ->
    fst (ActOnFinishSwitchStmt SwitchLoc Switch BodyStmt S)
    = Returns (Owned (NodeSwitch Switch)) ->
    let cpp11 := CPlusPlus11 S in
    let cases := getSwitchCaseList SS in
    let T := condType CondExpr in
    let W := condWidth CondExpr in
    let Sg := condIsSigned CondExpr in
    let Tbp := GetTypeBeforeIntegralPromotion CondExpr in
    let names := uncoveredEnumerators cpp11 T W Sg ED cases in
    let S' := snd (ActOnFinishSwitchStmt SwitchLoc Switch BodyStmt S) in
    StronglySorted (fun a b => APSInt.value (fst a) < APSInt.value (fst b))
                   (gatherEnumVals ED W Sg)
    /\ (forall z, existsb (fun e => APSInt.value (fst e) =? z) (gatherEnumVals ED W Sg)
                  = inEnum W Sg ED z)
    /\ (exists before unreachable,
          Diags S'
          = Diags S
            ++ before
            ++ singlesNotInEnum cpp11 T W Sg Tbp ED cases
            ++ rangeBoundsNotInEnum cpp11 T W Sg Tbp ED
                 (keptRanges cpp11 T W Sg cases)
            ++ unreachable
            ++ reportUnhandled (getExprLoc (info CondExpr)) (hasDefault cases) names
            ++ DiagnoseEmptyStmtBody (getLocEnd (info CondExpr)) BodyStmt
          /\ ((hasDefault cases = true /\ names = []
               /\ exists DS, In (SCDefault DS) cases
                             /\ unreachable
                                = [Diag (getDefaultLoc DS) warn_unreachable_default])
              \/ ((hasDefault cases = false \/ names <> []) /\ unreachable = [])))
    /\ getDiagnosticLevel warn_not_in_enum = Warning
    /\ getDiagnosticLevel warn_unreachable_default = Warning
    /\ (names <> [] -> (List.length names <= 3)%nat ->
        exists id,
          reportUnhandled (getExprLoc (info CondExpr)) (hasDefault cases) names
          = [mkDiag (getExprLoc (info CondExpr)) id (map ArgString names)]
          /\ getDiagnosticLevel id = Warning)
    /\ ((3 < List.length names)%nat ->
        exists id,
          reportUnhandled (getExprLoc (info CondExpr)) (hasDefault cases) names
          = [mkDiag (getExprLoc (info CondExpr)) id
               (ArgUnsigned (Z.of_nat (List.length names))
                :: map ArgString (firstn 3 names))]
          /\ getDiagnosticLevel id = Warning)
    /\ (names = [] <-> allEnumValuesCovered cpp11 T W Sg ED cases = true)
    /\ exists SS',
         Heap S' Switch = Some SS'
         /\ isAllEnumCasesCovered SS'
            = isAllEnumCasesCovered SS || allEnumValuesCovered cpp11 T W Sg ED cases.
Proof.
  intros C SwitchLoc Switch BodyStmt S SS CondExpr ED rest Hheap Hstack Hcond
         Hnd Henum Hconst Hwide Hreach Hret cpp11 cases T W Sg Tbp names S'.
  set (SS1 := setBody BodyStmt SwitchLoc SS).
  set (A := checkCaseList cpp11 SwitchLoc SS1 BodyStmt).
  assert (Hrun : ActOnFinishSwitchStmt SwitchLoc Switch BodyStmt S
                 = (match Result A with
                    | Returns Keep => Returns (Owned (NodeSwitch Switch))
                    | Returns Discard => Returns StmtError
                    | AssertionFailed => AssertionFailed
                    | OutOfBounds => OutOfBounds
                    end,
                    emit (AnalysisDiags A)
                      (if Covered A
                       then store Switch (setAllEnumCasesCovered SS1)
                              (setCurFunction (setSwitchStack rest (CurFunction S))
                                 (store Switch SS1 S))
                       else setCurFunction (setSwitchStack rest (CurFunction S))
                              (store Switch SS1 S)))).
  { unfold ActOnFinishSwitchStmt. rewrite Hheap, Hstack, Nat.eqb_refl. reflexivity. }
  assert (Hkeep : Result A = Returns Keep).
  { rewrite Hrun in Hret. cbn [fst] in Hret.
    destruct (Result A) as [[|]| |]; try discriminate. reflexivity. }
  destruct (checkCaseList_enum cpp11 SwitchLoc SS1 BodyStmt CondExpr ED
              Hcond Hnd Henum Hconst Hkeep)
    as (before & D & Hdiags & Hcov & HD & Hin & Hconv & Hpast & Hclean).
  change (getSwitchCaseList SS1) with cases in *.
  fold T W Sg Tbp in Hdiags, Hcov, Hconv, Hpast, Hclean.
  rewrite (checkEnum_spec cpp11 T W Sg cases ED Tbp Hwide Hconv Hpast Hclean)
    in Hdiags, Hcov.
  rewrite (rangesReached_all cpp11 T W Sg ED cases Hreach
             (kept_apart cpp11 T W Sg cases Hwide Hconv Hpast Hclean))
    in Hdiags.
  cbn [fst snd] in Hdiags, Hcov. fold names in Hdiags.
  pose proof (names_empty cpp11 T W Sg cases ED) as Hnames. fold names in Hnames.
  destruct (reportUnhandled_shape (getExprLoc (info CondExpr)) (hasDefault cases) names)
    as (_ & Hfew & Hmany).
  split; [apply gatherEnumVals_strict|].
  split; [apply gatherEnumVals_values|].
  split; [|split; [reflexivity|split; [reflexivity|split; [exact Hfew|
          split; [exact Hmany|split]]]]].
  - exists before.
    exists (match D, names with
            | Some DS, [] => [Diag (getDefaultLoc DS) warn_unreachable_default]
            | _, _ => []
            end).
    split.
    + unfold S'. rewrite Hrun. cbn [snd].
      fold A in Hdiags. rewrite <- HD.
      replace (Diags (emit (AnalysisDiags A)
                        (if Covered A
                         then store Switch (setAllEnumCasesCovered SS1)
                                (setCurFunction
                                   (setSwitchStack rest (CurFunction S))
                                   (store Switch SS1 S))
                         else setCurFunction (setSwitchStack rest (CurFunction S))
                                (store Switch SS1 S))))
        with (Diags S ++ AnalysisDiags A)
        by (destruct (Covered A); reflexivity).
      rewrite Hdiags. rewrite <- !app_assoc. reflexivity.
    + destruct D as [DS|]; cbn [isSome] in HD.
      * destruct names as [|n t] eqn:Hn.
        -- left. split; [now symmetry|]. split; [reflexivity|].
           exists DS. split; [now apply Hin | reflexivity].
        -- right. split; [right; discriminate | reflexivity].
      * right. split; [left; now symmetry|]. now destruct names.
  - rewrite <- Hnames. destruct names; split; intros; congruence.
  - unfold S'. rewrite Hrun. cbn [snd]. fold A in Hcov. rewrite Hcov.
    destruct (allEnumValuesCovered cpp11 T W Sg ED cases).
    + eexists. split; [cbn; rewrite Nat.eqb_refl; reflexivity|].
      cbn. now rewrite orb_true_r.
    + eexists. split; [cbn; rewrite Nat.eqb_refl; reflexivity|].
      cbn. now rewrite orb_false_r.
Qed.

(** C4, as amended.  Take a switch that [ActOnFinishSwitchStmt]
    accepts, without dependent values; let [Under] be its condition
    before the integral promotion, of an enumeration type, the promoted
    type being at least as wide.  Let the condition not be an integer
    constant unless the switch has a default label, and let the loop
    over the ranges come to every range kept (a range that is followed
    by another one has a value of the enumeration at or above its high
    value).  The values of the enumeration are gathered sorted and
    without repetition.  After the diagnostics of the case list the
    analysis issues, in this order: one advisory [warn_not_in_enum] for
    each singleton label whose value is not in the enumeration; one for
    each bound of a range kept that is not in the enumeration; the
    advisory [warn_unreachable_default] at the default label when there
    is one and every value of the enumeration is covered; and one
    advisory for the enumerators that no singleton value or range
    covers, with their names when they are at most three and with their
    number and the first three names when they are more.  The flag of
    the switch is set when every value of the enumeration is covered,
    and is left as it was otherwise. *)
Theorem enum_switch_checked :
  forall (C : Collaborators) (SwitchLoc : SourceLocation) (Switch : SwitchPtr)
         (BodyStmt : AST.Stmt) (S : State) (SS : SwitchStmt)
         (CondExpr Under : Expr) (ED : EnumDecl) (rest : list SwitchPtr),
    Heap S Switch = Some SS ->
    SwitchStack (CurFunction S) = Switch :: rest ->
    getCond SS = Some CondExpr ->
    beforePromotion CondExpr Under ->
    nonDependent CondExpr (getSwitchCaseList SS) = true ->
    getAsEnumType (getType (info Under)) = Some ED ->
    negb (hasDefault (getSwitchCaseList SS)) && isIntConstant (info Under) = false ->
    (getIntWidth (getType (info Under)) <= getIntWidth (getType (info CondExpr)))%N ->
    rangesReached (CPlusPlus11 S) (getType (info CondExpr))
      (getIntWidth (getType (info Under)))
      (isSignedIntegerOrEnumerationType (getType (info Under)))
      ED (getSwitchCaseList SS) = true ->
    fst (ActOnFinishSwitchStmt SwitchLoc Switch BodyStmt S)
    = Returns (Owned (NodeSwitch Switch)) ->
    let cpp11 := CPlusPlus11 S in
    let cases := getSwitchCaseList SS in
    let T := getType (info CondExpr) in
    let W := getIntWidth (getType (info Under)) in
    let Sg := isSignedIntegerOrEnumerationType (getType (info Under)) in
    let Tbp := getType (info Under) in
    let names := uncoveredEnumerators cpp11 T W Sg ED cases in
    let S' := snd (ActOnFinishSwitchStmt SwitchLoc Switch BodyStmt S) in
    StronglySorted (fun a b => APSInt.value (fst a) < APSInt.value (fst b))
                   (gatherEnumVals ED W Sg)
    /\ (forall z, existsb (fun e => APSInt.value (fst e) =? z) (gatherEnumVals ED W Sg)
                  = inEnum W Sg ED z)
    /\ (exists before unreachable,
          Diags S'
          = Diags S
            ++ before
            ++ singlesNotInEnum cpp11 T W Sg Tbp ED cases
            ++ rangeBoundsNotInEnum cpp11 T W Sg Tbp ED
                 (keptRanges cpp11 T W Sg cases)
            ++ unreachable
            ++ reportUnhandled (getExprLoc (info CondExpr)) (hasDefault cases) names
            ++ DiagnoseEmptyStmtBody (getLocEnd (info CondExpr)) BodyStmt
          /\ ((hasDefault cases = true /\ names = []
               /\ exists DS, In (SCDefault DS) cases
                             /\ unreachable
                                = [Diag (getDefaultLoc DS) warn_unreachable_default])
              \/ ((hasDefault cases = false \/ names <> []) /\ unreachable = [])))
    /\ getDiagnosticLevel warn_not_in_enum = Warning
    /\ getDiagnosticLevel warn_unreachable_default = Warning
    /\ (names <> [] -> (List.length names <= 3)%nat ->
        exists id,
          reportUnhandled (getExprLoc (info CondExpr)) (hasDefault cases) names
          = [mkDiag (getExprLoc (info CondExpr)) id (map ArgString names)]
          /\ getDiagnosticLevel id = Warning)
    /\ ((3 < List.length names)%nat ->
        exists id,
          reportUnhandled (getExprLoc (info CondExpr)) (hasDefault cases) names
          = [mkDiag (getExprLoc (info CondExpr)) id
               (ArgUnsigned (Z.of_nat (List.length names))
                :: map ArgString (firstn 3 names))]
          /\ getDiagnosticLevel id = Warning)
    /\ (names = [] <-> allEnumValuesCovered cpp11 T W Sg ED cases = true)
    /\ exists SS',
         Heap S' Switch = Some SS'
         /\ isAllEnumCasesCovered SS'
            = isAllEnumCasesCovered SS || allEnumValuesCovered cpp11 T W Sg ED cases.
Proof.
  intros C SwitchLoc Switch BodyStmt S SS CondExpr Under ED rest Hheap Hstack
         Hcond Hunder Hnd Henum Hconst Hwide Hreach Hret.
  destruct (beforePromotion_width _ _ Hunder) as (HW & HSg & HE).
  pose proof (beforePromotion_spec _ _ Hunder) as HU.
  assert (HT : GetTypeBeforeIntegralPromotion CondExpr = getType (info Under))
    by (unfold GetTypeBeforeIntegralPromotion; now rewrite HU).
  cbv zeta. rewrite <- HW, <- HSg in *. rewrite <- HT.
  apply (ActOnFinishSwitchStmt_enum C SwitchLoc Switch BodyStmt S SS CondExpr ED rest);
    try assumption.
  - now rewrite HE.
  - unfold constantCondition. now rewrite HU.
Qed.

(** [switch (c) { case 0 ... 1: ; case 5 ... 6: ; default: ; }] on a
    variable of type [Color]: the bounds 5 and 6 are reported, and the
    flag is not set, [Blue] being covered by no label. *)
Lemma enum_switch_checked_witness :
  exists SS',
    Heap (snd (ActOnFinishSwitchStmt (C := Examples.Quiet) 5 O Examples.body
                 (Examples.insideSwitch false Examples.nearRanges))) O
    = Some SS'
    /\ isAllEnumCasesCovered SS' = false.
Proof.
  destruct (enum_switch_checked Examples.Quiet 5 O Examples.body
              (Examples.insideSwitch false Examples.nearRanges)
              Examples.nearRanges (Examples.variable Examples.ColorTy)
              (Examples.variable Examples.ColorTy)
              Examples.Color []
              eq_refl eq_refl eq_refl
              (under_self (Examples.variable Examples.ColorTy) Logic.I)
              eq_refl eq_refl eq_refl
              ltac:(vm_compute; discriminate) eq_refl eq_refl)
    as (_ & _ & _ & _ & _ & _ & _ & _ & SS' & Hh & Hf).
  exists SS'. split; [exact Hh|]. rewrite Hf. reflexivity.
Defined.

(** C4 as the specification has it fails.  With the constant [Red] as
    the condition, a switch with a label for each of the three
    enumerators is accepted and its flag is not set, the enumeration
    block being skipped for a constant condition without a default
    label.  With four enumerators missing the advisory carries their
    number and also the first three names. *)
Lemma enum_switch_counterexample :
  (fst (ActOnFinishSwitchStmt (C := Examples.Quiet) 5 O Examples.body
          (Examples.insideSwitch false Examples.constantColor))
   = Returns (Owned (NodeSwitch O))
   /\ condEnum (Examples.constant Examples.ColorTy 0) = Some Examples.Color
   /\ allEnumValuesCovered false Examples.ColorTy 32 false Examples.Color
        (getSwitchCaseList Examples.constantColor) = true
   /\ Heap (snd (ActOnFinishSwitchStmt (C := Examples.Quiet) 5 O Examples.body
                   (Examples.insideSwitch false Examples.constantColor))) O
      = Some (setBody Examples.body 5 Examples.constantColor)
   /\ isAllEnumCasesCovered (setBody Examples.body 5 Examples.constantColor) = false)
  /\ Diags (snd (ActOnFinishSwitchStmt (C := Examples.Quiet) 5 O Examples.body
                   (Examples.insideSwitch false Examples.noLabels)))
     = [mkDiag 1 warn_missing_cases
          [ArgUnsigned 4; ArgString "North"; ArgString "East"; ArgString "South"]].
Proof.
  repeat split; vm_compute; reflexivity.
Qed.

(** [switch (c) { case 5 ... 6: ; case 8 ... 9: ; default: ; }] on a
    variable of type [Color]: the loop over the ranges leaves when the
    iterator over the values of the enumeration is at its end, after the
    first range, and the bounds 8 and 9 are not looked up. *)
Lemma ranges_past_the_enumeration :
  fst (ActOnFinishSwitchStmt (C := Examples.Quiet) 5 O Examples.body
         (Examples.insideSwitch false Examples.farRanges))
  = Returns (Owned (NodeSwitch O))
  /\ rangesReached false Examples.ColorTy 32 false Examples.Color
       (getSwitchCaseList Examples.farRanges) = false
  /\ List.filter (isID warn_not_in_enum)
       (Diags (snd (ActOnFinishSwitchStmt (C := Examples.Quiet) 5 O
                      Examples.body
                      (Examples.insideSwitch false Examples.farRanges))))
     = [mkDiag 11 warn_not_in_enum [ArgString "Color"];
        mkDiag 12 warn_not_in_enum [ArgString "Color"]]
  /\ inEnum 32 false Examples.Color 8 = false
  /\ inEnum 32 false Examples.Color 9 = false.
Proof.
  repeat split; vm_compute; reflexivity.
Qed.

End EnumFacts.

(** ** Conversion of a value to the type of the condition *)
Module ConversionFacts.
Import Sema Switch SwitchSpec.
Import APSIntFacts SwitchFacts EnumFacts.

(** The values of a type lie in one window of the length of its
    modulus. *)
Lemma value_range :
  forall x,
    (APSInt.IsUnsigned x = true ->
     0 <= APSInt.value x < APSInt.modulus (APSInt.BitWidth x))
    /\ (APSInt.IsUnsigned x = false ->
        - APSInt.modulus (APSInt.BitWidth x) <= 2 * APSInt.value x
        < APSInt.modulus (APSInt.BitWidth x)).
Proof.
  intros x. pose proof (getZExtValue_bound x) as Hb.
  unfold APSInt.value, APSInt.getSExtValue. split; intros ->; [exact Hb|].
  destruct (Z.ltb_spec (2 * APSInt.getZExtValue x)
                       (APSInt.modulus (APSInt.BitWidth x))); lia.
Qed.

Lemma congruent_close :
  forall a b M,
    0 < M -> - M < a - b < M -> a mod M = b mod M -> a = b.
Proof.
  intros a b M HM Hclose Hmod.
  assert (Hz : (a - b) mod M = 0).
  { rewrite Zminus_mod, Hmod, Z.sub_diag. apply Z.mod_0_l. lia. }
  apply Z.mod_divide in Hz; [|lia]. destruct Hz as (k & Hk).
  assert (Hk0 : k = 0).
  { destruct (Z.lt_trichotomy k 0) as [H|[H|H]]; [|exact H|].
    - assert (k * M <= - M) by nia. lia.
    - assert (M <= k * M) by nia. lia. }
  subst k. lia.
Qed.

Lemma modulus_mono :
  forall w w', (w <= w')%N -> APSInt.modulus w <= APSInt.modulus w'.
Proof.
  intros w w' Hle. unfold APSInt.modulus. apply Z.pow_le_mono_r; lia.
Qed.

(** X1.  Apart from the warning, [ConvertIntegerToTypeWarnOnOverflow]
    is [AdjustAPSInt]: the value it leaves has the width and the
    signedness asked for, and its bit pattern is the value of the
    operand modulo 2 to the new width. *)
Theorem conversion_is_adjustment :
  forall (Val : APSInt.t) (NewWidth : N) (NewSign : bool)
         (Loc : SourceLocation) (ID : DiagID),
    fst (ConvertIntegerToTypeWarnOnOverflow Val NewWidth NewSign Loc ID)
    = AdjustAPSInt Val NewWidth NewSign
    /\ APSInt.hasType NewWidth (negb NewSign) (AdjustAPSInt Val NewWidth NewSign)
    /\ APSInt.getZExtValue (AdjustAPSInt Val NewWidth NewSign)
       = APSInt.value Val mod APSInt.modulus NewWidth.
Proof.
  intros Val NewWidth NewSign Loc ID. split; [|split].
  - unfold ConvertIntegerToTypeWarnOnOverflow, AdjustAPSInt.
    destruct (APSInt.BitWidth Val <? NewWidth)%N; [reflexivity|].
    destruct (NewWidth <? APSInt.BitWidth Val)%N; [reflexivity|].
    destruct Val as [w b u]. unfold APSInt.isSigned, APSInt.setIsSigned. cbn.
    destruct NewSign, u; reflexivity.
  - apply AdjustAPSInt_hasType.
  - apply getZExtValue_AdjustAPSInt.
Qed.

(** X2.  A conversion that does not narrow never warns, whatever it
    does to the sign.  A conversion that narrows issues at most one
    diagnostic, at the location and with the identifier given; when it
    keeps the signedness, it warns exactly when the value changes. *)
Theorem conversion_warning :
  forall (Val : APSInt.t) (NewWidth : N) (NewSign : bool)
         (Loc : SourceLocation) (ID : DiagID),
    let r := ConvertIntegerToTypeWarnOnOverflow Val NewWidth NewSign Loc ID in
    ((APSInt.BitWidth Val <= NewWidth)%N -> snd r = [])
    /\ (snd r = []
        \/ exists a b, snd r = [Diag Loc ID <<< ArgString a <<< ArgString b])
    /\ ((NewWidth < APSInt.BitWidth Val)%N -> NewSign = APSInt.isSigned Val ->
        (snd r = [] <-> APSInt.value (fst r) = APSInt.value Val)).
Proof.
  intros Val NewWidth NewSign Loc ID r. subst r.
  unfold ConvertIntegerToTypeWarnOnOverflow. split; [|split].
  - intros Hle.
    destruct (APSInt.BitWidth Val <? NewWidth)%N eqn:E1; [reflexivity|].
    destruct (NewWidth <? APSInt.BitWidth Val)%N eqn:E2.
    + apply N.ltb_lt in E2. lia.
    + destruct (negb (Bool.eqb NewSign (APSInt.isSigned Val))); reflexivity.
  - destruct (APSInt.BitWidth Val <? NewWidth)%N; [now left|].
    destruct (NewWidth <? APSInt.BitWidth Val)%N.
    + cbn [snd]. destruct (APSInt.ne _ Val); [right; eauto | now left].
    + destruct (negb (Bool.eqb NewSign (APSInt.isSigned Val))); now left.
  - intros Hlt ->.
    replace (APSInt.BitWidth Val <? NewWidth)%N with false
      by (symmetry; apply N.ltb_ge; lia).
    replace (NewWidth <? APSInt.BitWidth Val)%N with true
      by (symmetry; apply N.ltb_lt; lia).
    cbn [fst snd].
    set (res := APSInt.setIsSigned (APSInt.trunc Val NewWidth) (APSInt.isSigned Val)).
    set (M := APSInt.modulus (APSInt.BitWidth Val)).
    assert (HM : 0 < M) by apply modulus_pos.
    assert (Hne : APSInt.ne
                    (APSInt.setIsSigned (APSInt.extend res (APSInt.BitWidth Val))
                                        (APSInt.isSigned Val)) Val
                  = negb (APSInt.value res mod M =? APSInt.value Val mod M)).
    { unfold APSInt.ne, APSInt.eq. f_equal. f_equal.
      - unfold APSInt.getZExtValue at 1. cbn. fold M. apply Z.mod_mod. lia.
      - symmetry. apply value_mod. }
    rewrite Hne.
    assert (Hclose : - M < APSInt.value res - APSInt.value Val < M).
    { pose proof (value_range Val) as [HuV HsV].
      pose proof (value_range res) as [Hur Hsr].
      pose proof (modulus_mono NewWidth (APSInt.BitWidth Val) ltac:(lia)) as Hmono.
      fold M in Hmono.
      assert (Hw : APSInt.BitWidth res = NewWidth) by reflexivity.
      assert (Hs : APSInt.IsUnsigned res = APSInt.IsUnsigned Val).
      { unfold res, APSInt.setIsSigned, APSInt.isSigned. cbn.
        apply negb_involutive. }
      rewrite Hw, Hs in Hur, Hsr. fold M in HuV, HsV.
      pose proof (modulus_pos NewWidth).
      destruct (APSInt.IsUnsigned Val);
        [specialize (HuV eq_refl); specialize (Hur eq_refl)
        |specialize (HsV eq_refl); specialize (Hsr eq_refl)]; lia. }
    destruct (Z.eqb_spec (APSInt.value res mod M) (APSInt.value Val mod M))
      as [Heq|Hneq]; cbn [negb].
    + split; [intros _; now apply (congruent_close _ _ M) | reflexivity].
    + split; [discriminate|]. intros Hv. exfalso. apply Hneq. now rewrite Hv.
Qed.

Lemma conversion_warning_witness :
  (snd (ConvertIntegerToTypeWarnOnOverflow (APSInt.make 32 300 false) 8 true
          11 warn_case_value_overflow) = []
   <-> APSInt.value (fst (ConvertIntegerToTypeWarnOnOverflow
                            (APSInt.make 32 300 false) 8 true
                            11 warn_case_value_overflow))
       = APSInt.value (APSInt.make 32 300 false)).
Proof.
  apply (conversion_warning (APSInt.make 32 300 false) 8 true 11
           warn_case_value_overflow).
  - reflexivity.
  - reflexivity.
Defined.

(** X3.  A value that has the width and the signedness asked for is
    left as it is, without a warning; so converting twice is converting
    once. *)
Theorem conversion_idempotent :
  forall (Val : APSInt.t) (NewWidth : N) (NewSign : bool)
         (Loc Loc' : SourceLocation) (ID ID' : DiagID),
    ConvertIntegerToTypeWarnOnOverflow
      (fst (ConvertIntegerToTypeWarnOnOverflow Val NewWidth NewSign Loc ID))
      NewWidth NewSign Loc' ID'
    = (fst (ConvertIntegerToTypeWarnOnOverflow Val NewWidth NewSign Loc ID), []).
Proof.
  intros Val NewWidth NewSign Loc Loc' ID ID'.
  pose proof (ConvertIntegerToTypeWarnOnOverflow_hasType Val NewWidth NewSign Loc ID)
    as [Hw Hu].
  set (v := fst (ConvertIntegerToTypeWarnOnOverflow Val NewWidth NewSign Loc ID)) in *.
  unfold ConvertIntegerToTypeWarnOnOverflow.
  rewrite Hw, N.ltb_irrefl. unfold APSInt.isSigned. rewrite Hu.
  rewrite negb_involutive, Bool.eqb_reflx. reflexivity.
Qed.

End ConversionFacts.

(** ** The order of the sort of the singleton values *)
Module OrderFacts.
Import Sema Switch SwitchSpec.
Import APSIntFacts SwitchFacts.

(** X4.  On values of one width and signedness [CmpCaseVals] is the
    lexicographic order on the value and the location of the [case]
    keyword, so it is a strict weak order as [std::stable_sort] asks
    for: irreflexive, transitive, and with a transitive equivalence. *)
Theorem CmpCaseVals_lexicographic :
  forall (W : N) (U : bool) (a b : APSInt.t * CaseStmt),
    APSInt.hasType W U (fst a) -> APSInt.hasType W U (fst b) ->
    (CmpCaseVals a b = true
     <-> APSInt.value (fst a) < APSInt.value (fst b)
         \/ (APSInt.value (fst a) = APSInt.value (fst b)
             /\ getCaseLoc (snd a) < getCaseLoc (snd b))).
Proof.
  intros W U a b Ha Hb. unfold CmpCaseVals.
  rewrite (lt_value W U _ _ Ha Hb), (eq_value W U _ _ Ha Hb).
  destruct (Z.ltb_spec (APSInt.value (fst a)) (APSInt.value (fst b)));
    [split; [lia | reflexivity]|].
  destruct (Z.eqb_spec (APSInt.value (fst a)) (APSInt.value (fst b))); cbn.
  - destruct (Z.ltb_spec (getCaseLoc (snd a)) (getCaseLoc (snd b)));
      split; try discriminate; try reflexivity; lia.
  - split; [discriminate | lia].
Qed.

Lemma CmpCaseVals_lexicographic_witness :
  CmpCaseVals (APSInt.make 32 1 false, mkCase 10 (Examples.lit 11 1) None 10)
              (APSInt.make 32 1 false, mkCase 20 (Examples.lit 21 1) None 20)
  = true.
Proof.
  apply (CmpCaseVals_lexicographic 32 false
           (APSInt.make 32 1 false, mkCase 10 (Examples.lit 11 1) None 10)
           (APSInt.make 32 1 false, mkCase 20 (Examples.lit 21 1) None 20)).
  - split; reflexivity.
  - split; reflexivity.
  - right. split; [reflexivity | reflexivity].
Defined.

End OrderFacts.

(** ** A case list that is well formed *)
Module AcceptFacts.
Import Sema Switch SwitchSpec SwitchExtra.
Import APSIntFacts StdFacts SwitchFacts EnumFacts.

Lemma twoOf_later :
  forall {X : Type} (c : X) (l : list X) (x y : X),
    twoOf l x y -> twoOf (c :: l) x y.
Proof.
  intros X c l x y (l1 & l2 & l3 & ->). now exists (c :: l1), l2, l3.
Qed.

Lemma twoOf_length :
  forall {X : Type} (l : list X) (x y : X),
    twoOf l x y -> (2 <= List.length l)%nat.
Proof.
  intros X l x y (l1 & l2 & l3 & ->).
  rewrite length_app. cbn. rewrite length_app. cbn. lia.
Qed.

Lemma filter_split :
  forall {X : Type} (p : X -> bool) (l m1 m2 : list X) (x : X),
    List.filter p l = m1 ++ x :: m2 ->
    exists l1 l2, l = l1 ++ x :: l2 /\ List.filter p l2 = m2.
Proof.
  intros X p. induction l as [|a l IH]; intros m1 m2 x Hf; cbn in Hf.
  - destruct m1; discriminate.
  - destruct (p a) eqn:Hpa.
    + destruct m1 as [|b m1]; cbn in Hf.
      * injection Hf as -> Hf. now exists [], l.
      * injection Hf as _ Hf. destruct (IH _ _ _ Hf) as (l1 & l2 & -> & H2).
        now exists (a :: l1), l2.
    + destruct (IH _ _ _ Hf) as (l1 & l2 & -> & H2). now exists (a :: l1), l2.
Qed.

Lemma twoOf_of_filter :
  forall {X : Type} (p : X -> bool) (l : list X) (x y : X),
    twoOf (List.filter p l) x y -> twoOf l x y.
Proof.
  intros X p l x y (m1 & m2 & m3 & Hf).
  destruct (filter_split p l m1 _ x Hf) as (l1 & l2 & -> & H2).
  destruct (filter_split p l2 m2 _ y H2) as (l3 & l4 & -> & _).
  now exists l1, l3, l4.
Qed.

(** *** The loop over the labels *)

Lemma default_twice :
  forall DS cases,
    hasDefault cases = true -> duplicateDefault (SCDefault DS :: cases).
Proof.
  intros DS cases Hhas. unfold hasDefault in Hhas.
  apply existsb_exists in Hhas. destruct Hhas as ([DS'|CS] & Hin & Hd);
    [|discriminate].
  apply in_split in Hin. destruct Hin as (l2 & l3 & ->).
  exists DS, DS', [], l2, l3. reflexivity.
Qed.

(** The loop marks the list erroneous only for a second default label,
    when every label has a value. *)
Lemma scanCases_erroneous :
  forall cpp11 T W Sg cases st,
    labelsConvertible cpp11 T cases = true ->
    CaseListIsErroneous (scanCases cpp11 T W Sg cases st) = true ->
    CaseListIsErroneous st = true
    \/ (isSome (TheDefaultStmt st) = true /\ hasDefault cases = true)
    \/ duplicateDefault cases.
Proof.
  intros cpp11 T W Sg. induction cases as [|c cases IH];
    intros st Hconv Herr; cbn [scanCases] in Herr; [now left|].
  destruct (HasDependentValue st); [now left|].
  cbn [labelsConvertible forallb] in Hconv.
  apply andb_true_iff in Hconv. destruct Hconv as [Hc Hconv].
  assert (Hlater : duplicateDefault cases -> duplicateDefault (c :: cases)).
  { intros (d1 & d2 & Htwo). exists d1, d2. now apply twoOf_later. }
  destruct c as [DS|CS].
  - destruct (TheDefaultStmt st) as [prev|] eqn:Hdef.
    + right. left. split; reflexivity.
    + apply IH in Herr; [|exact Hconv]. cbn in Herr.
      destruct Herr as [Herr|[[_ Hhas]|Hdup]].
      * now left.
      * right. right. now apply default_twice.
      * right. right. now apply Hlater.
  - destruct (isDependent (getLHS CS)); [now left|].
    destruct (caseValue cpp11 T (getLHS CS)) as [v|]; [|discriminate].
    destruct (ConvertIntegerToTypeWarnOnOverflow v W Sg _ _) as [LoVal d].
    assert (Hstep : forall st',
               TheDefaultStmt st' = TheDefaultStmt st ->
               CaseListIsErroneous st' = CaseListIsErroneous st ->
               CaseListIsErroneous (scanCases cpp11 T W Sg cases st') = true ->
               CaseListIsErroneous st = true
               \/ (isSome (TheDefaultStmt st) = true
                   /\ hasDefault (SCCase CS :: cases) = true)
               \/ duplicateDefault (SCCase CS :: cases)).
    { intros st' Hd He Hr. apply IH in Hr; [|exact Hconv].
      rewrite Hd, He in Hr. destruct Hr as [Hr|[Hr|Hr]]; auto. }
    destruct (getRHS CS) as [Hi|].
    + destruct (isDependent Hi); [now left|].
      eapply Hstep; [| |exact Herr]; reflexivity.
    + eapply Hstep; [| |exact Herr]; reflexivity.
Qed.

(** *** The loop over the sorted singleton values *)

Lemma checkDuplicates_found :
  forall const l prev should,
    DupFound (checkDuplicates const prev l should) = true ->
    (exists p c rest, prev = Some p /\ l = c :: rest
                      /\ APSInt.eq (fst c) (fst p) = true)
    \/ exists l1 a b l2, l = l1 ++ a :: b :: l2
                         /\ APSInt.eq (fst b) (fst a) = true.
Proof.
  intros const. induction l as [|c rest IH]; intros prev should Hf;
    cbn [checkDuplicates] in Hf; [discriminate|].
  assert (Hrec : DupFound (checkDuplicates const (Some c) rest
                             (if should && APSInt.eq (fst c) const
                              then false else should)) = true ->
                 exists l1 a b l2, c :: rest = l1 ++ a :: b :: l2
                                   /\ APSInt.eq (fst b) (fst a) = true).
  { intros Hr. apply IH in Hr. destruct Hr as [(p & c' & r' & Hp & -> & Heq)|Hr].
    - injection Hp as <-. now exists [], c, c', r'.
    - destruct Hr as (l1 & a & b & l2 & -> & Heq). now exists (c :: l1), a, b, l2. }
  destruct prev as [p|]; [|right; now apply Hrec].
  destruct (APSInt.eq (fst c) (fst p)) eqn:Heq.
  - left. now exists p, c, rest.
  - right. now apply Hrec.
Qed.

Lemma duplicate_found_singleton :
  forall cpp11 T W Sg cases const should,
    DupFound (checkDuplicates const None (sortedSingletons cpp11 T W Sg cases) should)
    = true ->
    duplicateSingleton cpp11 T W Sg cases.
Proof.
  intros cpp11 T W Sg cases const should Hf.
  apply checkDuplicates_found in Hf.
  destruct Hf as [(p & _ & _ & Hp & _)|(l1 & a & b & l2 & Hl & Heq)];
    [discriminate|].
  pose proof (sortedSingletons_hasType cpp11 T W Sg cases) as Hty.
  rewrite Forall_forall in Hty.
  assert (Ha : In a (sortedSingletons cpp11 T W Sg cases))
    by (rewrite Hl; apply in_elt).
  assert (Hb : In b (sortedSingletons cpp11 T W Sg cases)).
  { rewrite Hl. apply in_or_app. right. right. now left. }
  rewrite (eq_value W (negb Sg) _ _ (Hty b Hb) (Hty a Ha)) in Heq.
  apply Z.eqb_eq in Heq.
  assert (Htwo : twoOf (sortedSingletons cpp11 T W Sg cases) a b)
    by (exists l1, [], l2; exact Hl).
  destruct (twoOf_perm _ (singletons cpp11 T W Sg cases) _ _
              (sortedSingletons_perm cpp11 T W Sg cases) Htwo) as [Hs|Hs].
  - exists a, b. split; [exact Hs | now symmetry].
  - exists b, a. split; [exact Hs | exact Heq].
Qed.

(** *** The first loop over the sorted ranges *)

Lemma scanRanges_no_error :
  forall cpp11 T W Sg const l should,
    forallb (fun r => isSome (converted cpp11 T W Sg (rangeRHS (snd r)))) l = true ->
    RangeError (scanRanges cpp11 T W Sg const l should) = false.
Proof.
  intros cpp11 T W Sg const. induction l as [|[LoVal CR] rest IH];
    intros should Hall; [reflexivity|].
  cbn [forallb snd] in Hall. apply andb_true_iff in Hall.
  destruct Hall as [Hr Hall]. rewrite scanRanges_step.
  destruct (converted cpp11 T W Sg (rangeRHS CR)) as [h|]; [|discriminate].
  destruct (APSInt.gt LoVal h); cbn [RangeError]; now apply IH.
Qed.

Lemma sortedRanges_convertible :
  forall cpp11 T W Sg cases,
    rangesConvertible cpp11 T W Sg cases = true ->
    forallb (fun r => isSome (converted cpp11 T W Sg (rangeRHS (snd r))))
            (sortedRanges cpp11 T W Sg cases) = true.
Proof.
  intros cpp11 T W Sg cases Hconv. unfold rangesConvertible in Hconv.
  rewrite forallb_forall in *. intros r Hr. apply Hconv.
  eapply Permutation_in; [apply sortedRanges_perm | exact Hr].
Qed.

(** *** The search for overlaps *)

Lemma lower_bound_before :
  forall {X Y : Type} (comp : X -> Y -> bool) (l : list X) (v : Y) k e,
    (k < Std.lower_bound comp l v)%nat -> nth_error l k = Some e ->
    comp e v = true.
Proof.
  intros X Y comp. induction l as [|a l IH]; intros v k e Hk Hn; cbn in Hk; [lia|].
  destruct (comp a v) eqn:Ha; [|lia].
  destruct k as [|k]; cbn in Hn.
  - now injection Hn as <-.
  - apply (IH v k); [lia | exact Hn].
Qed.

Lemma lower_bound_at :
  forall {X Y : Type} (comp : X -> Y -> bool) (l : list X) (v : Y) e,
    nth_error l (Std.lower_bound comp l v) = Some e -> comp e v = false.
Proof.
  intros X Y comp. induction l as [|a l IH]; intros v e Hn; cbn in Hn;
    [discriminate|].
  destruct (comp a v) eqn:Ha; cbn in Hn.
  - now apply (IH v).
  - now injection Hn as <-.
Qed.

Lemma upper_bound_before :
  forall {X Y : Type} (comp : Y -> X -> bool) (l : list X) (v : Y) k e,
    (k < Std.upper_bound comp l v)%nat -> nth_error l k = Some e ->
    comp v e = false.
Proof.
  intros X Y comp. induction l as [|a l IH]; intros v k e Hk Hn; cbn in Hk; [lia|].
  destruct (comp v a) eqn:Ha; [lia|].
  destruct k as [|k]; cbn in Hn.
  - now injection Hn as <-.
  - apply (IH v k); [lia | exact Hn].
Qed.

(** What the search reports for the range at [i] is a singleton value
    between its bounds, or the high value of the range before it, which
    the range does not start above. *)
Lemma findOverlap_sound :
  forall W U (Vals : CaseValsTy) (Ranges : CaseRangesTy) His i lo CR hi o,
    Forall (fun c : APSInt.t * CaseStmt => APSInt.hasType W U (fst c)) Vals ->
    APSInt.hasType W U lo -> APSInt.hasType W U hi ->
    nth_error Ranges i = Some (lo, CR) ->
    nth_error His i = Some hi ->
    findOverlap Vals Ranges His i = Some (Some o) ->
    (exists c, In c Vals
               /\ APSInt.value lo <= APSInt.value (fst c) <= APSInt.value hi)
    \/ (exists k prevHi prevR,
           i = S k /\ nth_error His k = Some prevHi
           /\ nth_error Ranges k = Some prevR
           /\ APSInt.le lo prevHi = true).
Proof.
  intros W U Vals Ranges His i lo CR hi o Hty Hlo Hhi HR HH Hov.
  rewrite Forall_forall in Hty.
  rewrite (findOverlap_in_bounds _ _ _ _ _ _ _ HR HH) in Hov. cbv zeta in Hov.
  set (I := Std.lower_bound CaseCompareLeft Vals lo) in *.
  set (ov1 := match nth_error Vals I with
              | Some c => if APSInt.lt (fst c) hi then Some c else None
              | None => None
              end) in *.
  assert (H1 : forall c, ov1 = Some c ->
                         In c Vals
                         /\ APSInt.value lo <= APSInt.value (fst c)
                            <= APSInt.value hi).
  { intros c Hc. subst ov1.
    destruct (nth_error Vals I) as [c'|] eqn:Hn; [|discriminate].
    destruct (APSInt.lt (fst c') hi) eqn:Hlt; [|discriminate].
    injection Hc as ->.
    assert (Hin : In c Vals) by (eapply nth_error_In; eauto).
    split; [exact Hin|].
    rewrite (lt_value W U _ _ (Hty c Hin) Hhi) in Hlt. apply Z.ltb_lt in Hlt.
    apply lower_bound_at in Hn. unfold CaseCompareLeft in Hn.
    rewrite (lt_value W U _ _ (Hty c Hin) Hlo) in Hn. apply Z.ltb_ge in Hn.
    lia. }
  set (I2 := (I + Std.upper_bound CaseCompareRight (skipn I Vals) hi)%nat) in *.
  set (ov2 := match I2 with
              | O => ov1
              | S k =>
                  match nth_error Vals k with
                  | Some c => if APSInt.ge (fst c) lo then Some c else ov1
                  | None => ov1
                  end
              end) in *.
  assert (H2 : forall c, ov2 = Some c ->
                         In c Vals
                         /\ APSInt.value lo <= APSInt.value (fst c)
                            <= APSInt.value hi).
  { intros c Hc. subst ov2.
    destruct I2 as [|k] eqn:HI2; [now apply H1|].
    destruct (nth_error Vals k) as [c'|] eqn:Hn; [|now apply H1].
    destruct (APSInt.ge (fst c') lo) eqn:Hge; [|now apply H1].
    injection Hc as ->.
    assert (Hin : In c Vals) by (eapply nth_error_In; eauto).
    split; [exact Hin|].
    rewrite (ge_value W U _ _ (Hty c Hin) Hlo) in Hge. apply Z.leb_le in Hge.
    split; [exact Hge|].
    destruct (Nat.lt_ge_cases k I) as [Hlt|Hle].
    - apply (lower_bound_before CaseCompareLeft Vals lo k c Hlt) in Hn.
      unfold CaseCompareLeft in Hn.
      rewrite (lt_value W U _ _ (Hty c Hin) Hlo) in Hn. apply Z.ltb_lt in Hn.
      lia.
    - assert (Hn' : nth_error (skipn I Vals) (k - I) = Some c).
      { rewrite nth_error_skipn. replace (I + (k - I))%nat with k by lia.
        exact Hn. }
      apply (upper_bound_before CaseCompareRight _ hi) in Hn'; [|subst I2; lia].
      unfold CaseCompareRight in Hn'.
      rewrite (lt_value W U _ _ Hhi (Hty c Hin)) in Hn'. apply Z.ltb_ge in Hn'.
      exact Hn'. }
  destruct i as [|k].
  - left. injection Hov as Hov. destruct (H2 o Hov). eauto.
  - destruct (nth_error His k) as [prevHi|] eqn:HpH;
      [|left; injection Hov as Hov; destruct (H2 o Hov); eauto].
    destruct (nth_error Ranges k) as [prevR|] eqn:HpR;
      [|left; injection Hov as Hov; destruct (H2 o Hov); eauto].
    destruct (APSInt.le lo prevHi) eqn:Hle.
    + right. exists k, prevHi, prevR. auto.
    + left. injection Hov as Hov. destruct (H2 o Hov). eauto.
Qed.

Lemma checkOverlaps_error :
  forall Vals Ranges His idx,
    OverlapError (checkOverlaps Vals Ranges His idx) = true ->
    exists i o, In i idx /\ findOverlap Vals Ranges His i = Some (Some o).
Proof.
  intros Vals Ranges His. induction idx as [|j rest IH]; intros Herr;
    cbn [checkOverlaps] in Herr; [discriminate|].
  destruct (findOverlap Vals Ranges His j) as [[o|]|] eqn:Hj.
  - exists j, o. split; [now left | exact Hj].
  - destruct (IH Herr) as (i & o & Hi & Ho). exists i, o. split; [now right|exact Ho].
  - discriminate.
Qed.

Section Found.
Variables (cpp11 : bool) (T : QualType) (W : N) (Sg : bool).
Variable cases : list SwitchCase.
Hypothesis Hconv : rangesConvertible cpp11 T W Sg cases = true.

Local Abbreviation K := (keptRanges cpp11 T W Sg cases).
Local Abbreviation H := (keptHighs cpp11 T W Sg cases).
Local Abbreviation V := (sortedSingletons cpp11 T W Sg cases).

Lemma kept_range :
  forall r, In r K ->
            In r (ranges cpp11 T W Sg cases)
            /\ APSInt.hasType W (negb Sg) (fst r)
            /\ exists hi, converted cpp11 T W Sg (rangeRHS (snd r)) = Some hi
                          /\ APSInt.hasType W (negb Sg) hi
                          /\ APSInt.value (fst r) <= APSInt.value hi.
Proof.
  intros r Hr.
  destruct (keptRanges_in cpp11 T W Sg cases Hconv r Hr)
    as (Hs & Hlo & hi & Hhi & Hhit).
  split; [eapply Permutation_in; [apply sortedRanges_perm | exact Hs]|].
  split; [exact Hlo|]. exists hi. split; [exact Hhi|]. split; [exact Hhit|].
  unfold keptRanges in Hr. apply filter_In in Hr. destruct Hr as [_ Hne].
  apply negb_true_iff in Hne.
  rewrite (isEmptyRange_value cpp11 T W Sg cases r hi Hs Hhi) in Hne.
  now apply Z.ltb_ge in Hne.
Qed.

(** An error of the search is an overlap of the case list. *)
Lemma overlap_error_found :
  OverlapError (overlapScan cpp11 T W Sg cases) = true ->
  rangeSingletonOverlap cpp11 T W Sg cases
  \/ rangeRangeOverlap cpp11 T W Sg cases.
Proof.
  intros Herr. unfold overlapScan in Herr.
  apply checkOverlaps_error in Herr. destruct Herr as (i & o & Hi & Ho).
  apply in_seq in Hi.
  destruct (nth_error K i) as [r|] eqn:Hr;
    [|apply nth_error_None in Hr; lia].
  destruct (nth_error_split _ _ Hr) as (l1 & l2 & HK & Hlen).
  assert (HrK : In r K) by (rewrite HK; apply in_elt).
  destruct (kept_range r HrK) as (Hrin & Hlo & hi & Hhi & Hhit & Hne).
  destruct (kept_at cpp11 T W Sg cases Hconv l1 r l2 hi HK Hhi) as [_ HH].
  rewrite Hlen in HH.
  destruct r as [lo CR]. cbn [fst snd] in *.
  destruct (findOverlap_sound W (negb Sg) V K H i lo CR hi o
              (sortedSingletons_hasType cpp11 T W Sg cases) Hlo Hhit Hr HH Ho)
    as [(c & Hc & Hrange)|(k & prevHi & prevR & -> & HpH & HpR & Hle)].
  - left. exists (lo, CR), hi, c. cbn [fst snd].
    split; [exact Hrin|]. split; [exact Hhi|]. split; [|exact Hrange].
    eapply Permutation_in; [apply sortedSingletons_perm | exact Hc].
  - right.
    destruct (nth_error_split _ _ HpR) as (m1 & m2 & HK2 & Hlen2).
    assert (HpK : In prevR K) by (rewrite HK2; apply in_elt).
    destruct (kept_range prevR HpK) as (Hpin & Hplo & hp & Hhp & Hhpt & Hpne).
    destruct (kept_at cpp11 T W Sg cases Hconv m1 prevR m2 hp HK2 Hhp) as [_ HH2].
    rewrite Hlen2, HpH in HH2. injection HH2 as ->.
    assert (Hm2 : exists rest, m2 = (lo, CR) :: rest).
    { rewrite HK2 in Hr. rewrite nth_error_app2 in Hr by lia.
      replace (S k - List.length m1)%nat with 1%nat in Hr by lia.
      cbn in Hr. destruct m2 as [|x rest]; [discriminate|].
      cbn in Hr. injection Hr as ->. now exists rest. }
    destruct Hm2 as (rest & ->).
    assert (Htwo : twoOf K prevR (lo, CR)) by (exists m1, [], rest; exact HK2).
    assert (Hord : APSInt.value (fst prevR) <= APSInt.value lo).
    { apply (StronglySorted_twoOf _ K _ _
               (keptRanges_sorted cpp11 T W Sg cases) Htwo). }
    rewrite (le_value W (negb Sg) _ _ Hlo Hhpt) in Hle. apply Z.leb_le in Hle.
    apply twoOf_of_filter in Htwo.
    destruct (twoOf_perm _ (ranges cpp11 T W Sg cases) _ _
                (sortedRanges_perm cpp11 T W Sg cases) Htwo) as [Hs|Hs].
    + exists prevR, (lo, CR), hp, hi. cbn [fst snd].
      repeat (split; [first [assumption | lia]|]). lia.
    + exists (lo, CR), prevR, hi, hp. cbn [fst snd].
      repeat (split; [first [assumption | lia]|]). lia.
Qed.

End Found.

(** *** The verdict on the case list *)

Lemma checkCaseList_flags :
  forall (C : Collaborators) cpp11 SwitchLoc SS BodyStmt CondExpr,
    getCond SS = Some CondExpr ->
    nonDependent CondExpr (getSwitchCaseList SS) = true ->
    exists should,
      let T := condType CondExpr in
      let W := condWidth CondExpr in
      let Sg := condIsSigned CondExpr in
      let cases := getSwitchCaseList SS in
      let Dup :=
        checkDuplicates (condValue CondExpr) None
          (sortedSingletons cpp11 T W Sg cases) should in
      let RS :=
        scanRanges cpp11 T W Sg (condValue CondExpr)
          (sortedRanges cpp11 T W Sg cases) (DupShouldCheck Dup) in
      let OS := overlapScan cpp11 T W Sg cases in
      Result (checkCaseList cpp11 SwitchLoc SS BodyStmt)
      = (if PastTheEnd OS then OutOfBounds
         else Returns
                (verdictOf
                   (CaseListIsErroneous
                      (scanCases cpp11 T W Sg cases (scanStart false))
                    || DupFound Dup || RangeError RS || OverlapError OS))).
Proof.
  intros C cpp11 SwitchLoc SS BodyStmt CondExpr Hcond Hnd.
  unfold nonDependent in Hnd.
  apply andb_true_iff in Hnd. destruct Hnd as [Hnd1 Hlabels].
  apply andb_true_iff in Hnd1. destruct Hnd1 as [Hdep Hint].
  apply negb_true_iff in Hdep.
  assert (Htd : isTypeDependent (info CondExpr) = false).
  { unfold isDependent in Hdep. now apply orb_false_iff in Hdep. }
  destruct (scanCases_nonDependent cpp11 (condType CondExpr) (condWidth CondExpr)
              (condIsSigned CondExpr) (getSwitchCaseList SS) (scanStart false)
              Hlabels eq_refl)
    as (Hhas & Hvals & Hranges & _).
  cbn [scanStart CaseVals CaseRanges app] in Hvals, Hranges.
  eexists. cbv zeta.
  unfold checkCaseList. rewrite Hcond, Htd, Hint, Hdep. cbn [negb andb].
  fold (condType CondExpr) (condWidth CondExpr) (condIsSigned CondExpr).
  rewrite Hhas. unfold checkLabels. cbv zeta.
  rewrite Hvals, Hranges.
  fold (condType CondExpr) (condIsSigned CondExpr) (condValue CondExpr).
  fold (sortedSingletons cpp11 (condType CondExpr) (condWidth CondExpr)
          (condIsSigned CondExpr) (getSwitchCaseList SS))
       (sortedRanges cpp11 (condType CondExpr) (condWidth CondExpr)
          (condIsSigned CondExpr) (getSwitchCaseList SS)).
  rewrite !scanRanges_kept, !scanRanges_highs.
  fold (keptRanges cpp11 (condType CondExpr) (condWidth CondExpr)
          (condIsSigned CondExpr) (getSwitchCaseList SS)).
  fold (keptHighs cpp11 (condType CondExpr) (condWidth CondExpr)
          (condIsSigned CondExpr) (getSwitchCaseList SS)).
  fold (overlapScan cpp11 (condType CondExpr) (condWidth CondExpr)
          (condIsSigned CondExpr) (getSwitchCaseList SS)).
  destruct (PastTheEnd _); reflexivity.
Qed.

(** The analysis discards the case list exactly when it is malformed. *)
Lemma checkCaseList_verdict :
  forall (C : Collaborators) cpp11 SwitchLoc SS BodyStmt CondExpr,
    getCond SS = Some CondExpr ->
    nonDependent CondExpr (getSwitchCaseList SS) = true ->
    labelsConvertible cpp11 (condType CondExpr) (getSwitchCaseList SS) = true ->
    rangesConvertible cpp11 (condType CondExpr) (condWidth CondExpr)
      (condIsSigned CondExpr) (getSwitchCaseList SS) = true ->
    (Result (checkCaseList cpp11 SwitchLoc SS BodyStmt) = Returns Discard
     /\ malformed cpp11 (condType CondExpr) (condWidth CondExpr)
          (condIsSigned CondExpr) (getSwitchCaseList SS))
    \/ (Result (checkCaseList cpp11 SwitchLoc SS BodyStmt) = Returns Keep
        /\ ~ malformed cpp11 (condType CondExpr) (condWidth CondExpr)
               (condIsSigned CondExpr) (getSwitchCaseList SS)).
Proof.
  intros C cpp11 SwitchLoc SS BodyStmt CondExpr Hcond Hnd Hlab Hconv.
  destruct (checkCaseList_flags C cpp11 SwitchLoc SS BodyStmt CondExpr Hcond Hnd)
    as (should & Hres).
  cbv zeta in Hres.
  rewrite (overlapScan_in_bounds _ _ _ _ _ Hconv) in Hres.
  rewrite (scanRanges_no_error _ _ _ _ _ _ _
             (sortedRanges_convertible _ _ _ _ _ Hconv)) in Hres.
  rewrite orb_false_r in Hres.
  assert (Hbad : forall b : bool,
             Result (checkCaseList cpp11 SwitchLoc SS BodyStmt)
             = Returns (verdictOf b) ->
             (b = true ->
              malformed cpp11 (condType CondExpr) (condWidth CondExpr)
                (condIsSigned CondExpr) (getSwitchCaseList SS)) ->
             (Result (checkCaseList cpp11 SwitchLoc SS BodyStmt) = Returns Discard
              /\ malformed cpp11 (condType CondExpr) (condWidth CondExpr)
                   (condIsSigned CondExpr) (getSwitchCaseList SS))
             \/ (Result (checkCaseList cpp11 SwitchLoc SS BodyStmt) = Returns Keep
                 /\ ~ malformed cpp11 (condType CondExpr) (condWidth CondExpr)
                        (condIsSigned CondExpr) (getSwitchCaseList SS))).
  { intros [|] Hr Hm.
    - left. split; [exact Hr | now apply Hm].
    - right. split; [exact Hr|]. intros Hmal.
      rewrite (checkCaseList_malformed C cpp11 SwitchLoc SS BodyStmt CondExpr
                 Hcond Hnd (rangesConvertible_highsInReach _ _ _ _ _ Hconv) Hmal)
        in Hr.
      discriminate. }
  apply (Hbad _ Hres). intros Htrue.
  apply orb_true_iff in Htrue. destruct Htrue as [Htrue|Hov].
  - apply orb_true_iff in Htrue. destruct Htrue as [Hscan|Hdup].
    + apply scanCases_erroneous in Hscan; [|exact Hlab].
      destruct Hscan as [Hs|[[Hs _]|Hs]]; [discriminate|discriminate|].
      now left.
    + right. left. eapply duplicate_found_singleton; eauto.
  - right. right. apply or_comm, or_comm. 
    destruct (overlap_error_found _ _ _ _ _ Hconv Hov); auto.
Qed.

(** X5.  When the switch that is finished is the innermost open one,
    neither its condition nor a label is dependent and every label and
    range bound converts to the type of the condition (which holds
    outside C++11), [ActOnFinishSwitchStmt] returns [StmtError] if and
    only if the case list has a second default label, two singleton
    labels of the same value, a singleton value within a range or two
    ranges with a value in common; it returns the switch statement if
    and only if the case list has none of these. *)
Theorem switch_rejected_iff_malformed :
  forall (C : Collaborators) (SwitchLoc : SourceLocation) (Switch : SwitchPtr)
         (BodyStmt : AST.Stmt) (S : State) (SS : SwitchStmt) (CondExpr : Expr)
         (rest : list SwitchPtr),
    Heap S Switch = Some SS ->
    SwitchStack (CurFunction S) = Switch :: rest ->
    getCond SS = Some CondExpr ->
    nonDependent CondExpr (getSwitchCaseList SS) = true ->
    labelsConvertible (CPlusPlus11 S) (condType CondExpr) (getSwitchCaseList SS)
    = true ->
    rangesConvertible (CPlusPlus11 S) (condType CondExpr) (condWidth CondExpr)
      (condIsSigned CondExpr) (getSwitchCaseList SS) = true ->
    (fst (ActOnFinishSwitchStmt SwitchLoc Switch BodyStmt S) = Returns StmtError
     <-> malformed (CPlusPlus11 S) (condType CondExpr) (condWidth CondExpr)
           (condIsSigned CondExpr) (getSwitchCaseList SS))
    /\ (fst (ActOnFinishSwitchStmt SwitchLoc Switch BodyStmt S)
        = Returns (Owned (NodeSwitch Switch))
        <-> ~ malformed (CPlusPlus11 S) (condType CondExpr) (condWidth CondExpr)
                (condIsSigned CondExpr) (getSwitchCaseList SS)).
Proof.
  intros C SwitchLoc Switch BodyStmt S SS CondExpr rest Hheap Hstack Hcond
         Hnd Hlab Hconv.
  unfold ActOnFinishSwitchStmt. rewrite Hheap, Hstack, Nat.eqb_refl.
  cbn [fst].
  destruct (checkCaseList_verdict C (CPlusPlus11 S) SwitchLoc
              (setBody BodyStmt SwitchLoc SS) BodyStmt CondExpr
              Hcond Hnd Hlab Hconv) as [[Hr Hm]|[Hr Hm]];
    cbn [setBody getSwitchCaseList] in Hm; rewrite Hr.
  - split; split; intros Hx; try reflexivity; try exact Hm;
      [discriminate | contradiction].
  - split; split; intros Hx; try reflexivity; try exact Hm;
      [discriminate | contradiction].
Qed.

Lemma switch_rejected_iff_malformed_witness :
  fst (ActOnFinishSwitchStmt (C := Examples.Quiet) 5 O Examples.body
         (Examples.insideSwitch false oneCase))
  = Returns (Owned (NodeSwitch O)).
Proof.
  apply (switch_rejected_iff_malformed Examples.Quiet 5 O Examples.body
           (Examples.insideSwitch false oneCase)
           oneCase (Examples.variable Examples.intTy) []);
    try reflexivity.
  intros [(d1 & d2 & Htwo)|[(x & y & Htwo & _)|[(r & hi & c & Hr & _)
                                                |(r1 & r2 & h1 & h2 & Htwo & _)]]].
  - apply twoOf_length in Htwo. cbn in Htwo. lia.
  - apply twoOf_length in Htwo. cbn in Htwo. lia.
  - exact Hr.
  - apply twoOf_length in Htwo. cbn in Htwo. lia.
Defined.

End AcceptFacts.

(** ** A switch on a dependent condition *)
Module DependentFacts.
Import Sema Switch SwitchSpec.

Lemma scanCases_dependent :
  forall cpp11 T W Sg cases st,
    HasDependentValue st = true -> scanCases cpp11 T W Sg cases st = st.
Proof.
  intros cpp11 T W Sg cases st Hdep. destruct cases as [|c cases]; cbn [scanCases];
    [reflexivity|]. now rewrite Hdep.
Qed.

(** X6.  When the condition of the switch that is finished is type- or
    value-dependent (and has an integral or enumeration type unless it is
    type-dependent), no label is examined, whatever the case list holds:
    [ActOnFinishSwitchStmt] returns the switch statement, and issues only
    the advisory for a condition known to have a boolean value, when the
    condition is not type-dependent, and what the check of the empty body
    reports. *)
Theorem dependent_switch_kept :
  forall (C : Collaborators) (SwitchLoc : SourceLocation) (Switch : SwitchPtr)
         (BodyStmt : AST.Stmt) (S : State) (SS : SwitchStmt) (CondExpr : Expr)
         (rest : list SwitchPtr),
    Heap S Switch = Some SS ->
    SwitchStack (CurFunction S) = Switch :: rest ->
    getCond SS = Some CondExpr ->
    isDependent CondExpr = true ->
    isTypeDependent (info CondExpr)
    || isIntegralOrEnumerationType (condType CondExpr) = true ->
    fst (ActOnFinishSwitchStmt SwitchLoc Switch BodyStmt S)
    = Returns (Owned (NodeSwitch Switch))
    /\ Diags (snd (ActOnFinishSwitchStmt SwitchLoc Switch BodyStmt S))
       = Diags S
         ++ (if negb (isTypeDependent (info CondExpr))
                && isKnownToHaveBooleanValue (info CondExpr)
             then [Diag SwitchLoc warn_bool_switch_condition
                     <<< ArgSourceRange (getLocStart (info CondExpr))
                                        (getLocEnd (info CondExpr))]
             else [])
         ++ DiagnoseEmptyStmtBody (getLocEnd (info CondExpr)) BodyStmt.
Proof.
  intros C SwitchLoc Switch BodyStmt S SS CondExpr rest Hheap Hstack Hcond
         Hdep Hint.
  assert (HA : checkCaseList (CPlusPlus11 S) SwitchLoc
                 (setBody BodyStmt SwitchLoc SS) BodyStmt
               = mkAnalysis (Returns Keep)
                   ((if negb (isTypeDependent (info CondExpr))
                        && isKnownToHaveBooleanValue (info CondExpr)
                     then [Diag SwitchLoc warn_bool_switch_condition
                             <<< ArgSourceRange (getLocStart (info CondExpr))
                                                (getLocEnd (info CondExpr))]
                     else [])
                    ++ DiagnoseEmptyStmtBody (getLocEnd (info CondExpr)) BodyStmt)
                   false).
  { unfold checkCaseList. cbn [setBody getCond]. rewrite Hcond.
    unfold condType in Hint.
    assert (Hgo : negb (isTypeDependent (info CondExpr))
                  && negb (isIntegralOrEnumerationType (getType (info CondExpr)))
                  = false).
    { destruct (isTypeDependent (info CondExpr)); [reflexivity|].
      cbn in Hint. now rewrite Hint. }
    rewrite Hgo, Hdep.
    rewrite scanCases_dependent by reflexivity.
    cbn [scanStart HasDependentValue CaseListIsErroneous ScanDiags verdictOf app].
    reflexivity. }
  unfold ActOnFinishSwitchStmt. rewrite Hheap, Hstack, Nat.eqb_refl. rewrite HA.
  cbn [fst snd Result Covered AnalysisDiags emit Diags setCurFunction store].
  split; reflexivity.
Qed.

Lemma dependent_switch_kept_witness :
  fst (ActOnFinishSwitchStmt (C := Examples.Quiet) 5 O Examples.body
         (Examples.insideSwitch false Examples.dependentDefaults))
  = Returns (Owned (NodeSwitch O)).
Proof.
  apply (dependent_switch_kept Examples.Quiet 5 O Examples.body
           (Examples.insideSwitch false Examples.dependentDefaults)
           Examples.dependentDefaults Examples.dependentCondition []);
    reflexivity.
Defined.

End DependentFacts.

(** ** The diagnostics of the switch analysis *)
Module DiagnosticFacts.
Import Sema Switch SwitchSpec SwitchExtra.
Import APSIntFacts StdFacts SwitchFacts EnumFacts AcceptFacts.

Lemma issues_app :
  forall ids l1 l2, issues ids l1 -> issues ids l2 -> issues ids (l1 ++ l2).
Proof. intros ids l1 l2 H1 H2. apply Forall_app. now split. Qed.

Lemma issues_weaken :
  forall ids ids' l, issues ids l -> incl ids ids' -> issues ids' l.
Proof.
  intros ids ids' l Hl Hincl. unfold issues in *. rewrite Forall_forall in *.
  intros d Hd. apply Hincl. now apply Hl.
Qed.

Lemma issues_existsb :
  forall (p : DiagID -> bool) ids l,
    issues ids l -> forallb (fun i => negb (p i)) ids = true ->
    existsb (fun d => p (DID d)) l = false.
Proof.
  intros p ids l Hl Hp. rewrite forallb_forall in Hp.
  induction Hl as [|d t Hd _ IH]; cbn; [reflexivity|].
  rewrite IH, orb_false_r. apply negb_true_iff. now apply Hp.
Qed.

Ltac vocabulary :=
  unfold issues;
  repeat first [apply Forall_nil | apply Forall_cons; [cbn; tauto|]].

Ltac included :=
  let x := fresh in let Hx := fresh in
  intros x Hx; cbn in Hx |- *; tauto.

Lemma conversion_issues :
  forall v W Sg Loc ID,
    issues [ID] (snd (ConvertIntegerToTypeWarnOnOverflow v W Sg Loc ID)).
Proof.
  intros v W Sg Loc ID. unfold ConvertIntegerToTypeWarnOnOverflow.
  repeat match goal with
         | |- context [if ?b then _ else _] => destruct b
         end; cbn [snd]; vocabulary.
Qed.

Local Abbreviation scanIDs :=
  [err_multiple_default_labels_defined; note_duplicate_case_prev;
   warn_case_value_overflow].

(** The diagnostics of the loop over the labels; one of them is an
    error exactly when the loop marks the list erroneous. *)
Lemma scanCases_diags :
  forall cpp11 T W Sg cases st,
    labelsConvertible cpp11 T cases = true ->
    exists d,
      ScanDiags (scanCases cpp11 T W Sg cases st) = ScanDiags st ++ d
      /\ issues scanIDs d
      /\ CaseListIsErroneous (scanCases cpp11 T W Sg cases st)
         = CaseListIsErroneous st || existsb isSwitchError d.
Proof.
  intros cpp11 T W Sg. induction cases as [|c cases IH]; intros st Hconv.
  - exists []. cbn. rewrite app_nil_r, orb_false_r. repeat split. constructor.
  - assert (Hnil : exists d,
               ScanDiags st = ScanDiags st ++ d /\ issues scanIDs d
               /\ CaseListIsErroneous st
                  = CaseListIsErroneous st || existsb isSwitchError d).
    { exists []. cbn. rewrite app_nil_r, orb_false_r. repeat split. constructor. }
    cbn [scanCases].
    destruct (HasDependentValue st); [exact Hnil|].
    cbn [labelsConvertible forallb] in Hconv.
    apply andb_true_iff in Hconv. destruct Hconv as [Hc Hconv].
    destruct c as [DS|CS].
    + destruct (TheDefaultStmt st) as [prev|];
        match goal with
        | |- context [scanCases _ _ _ _ cases ?x] =>
            destruct (IH x Hconv) as (d & Hd & Hi & He)
        end;
        cbn [ScanDiags CaseListIsErroneous] in Hd, He;
        eexists (_ ++ d);
        (split; [rewrite Hd, <- app_assoc; reflexivity|]);
        (split; [apply issues_app; [vocabulary | exact Hi]|]);
        rewrite He; cbn; now rewrite ?orb_true_r.
    + destruct (isDependent (getLHS CS)); [exact Hnil|].
      destruct (caseValue cpp11 T (getLHS CS)) as [v|]; [|discriminate].
      pose proof (conversion_issues v W Sg (getLocStart (info (getLHS CS)))
                    warn_case_value_overflow) as Hd0.
      destruct (ConvertIntegerToTypeWarnOnOverflow v W Sg _ _) as [LoVal d0].
      cbn [snd] in Hd0.
      assert (Hnone : existsb isSwitchError d0 = false).
      { apply (issues_existsb isSwitchErrorID _ _ Hd0). reflexivity. }
      assert (Hd0' : issues scanIDs d0).
      { apply (issues_weaken _ _ _ Hd0). included. }
      assert (Hstep : forall st',
                 ScanDiags st' = ScanDiags st ++ d0 ->
                 CaseListIsErroneous st' = CaseListIsErroneous st ->
                 exists d,
                   ScanDiags (scanCases cpp11 T W Sg cases st')
                   = ScanDiags st ++ d
                   /\ issues scanIDs d
                   /\ CaseListIsErroneous (scanCases cpp11 T W Sg cases st')
                      = CaseListIsErroneous st || existsb isSwitchError d).
      { intros st' Hs He. destruct (IH st' Hconv) as (d & Hd & Hi & Hr).
        exists (d0 ++ d). rewrite Hd, Hs, <- app_assoc.
        split; [reflexivity|]. split; [now apply issues_app|].
        rewrite Hr, He, existsb_app, Hnone. reflexivity. }
      destruct (getRHS CS) as [Hi|].
      * destruct (isDependent Hi); [|now apply Hstep].
        exists d0. cbn [ScanDiags CaseListIsErroneous].
        split; [reflexivity|]. split; [exact Hd0'|].
        now rewrite Hnone, orb_false_r.
      * now apply Hstep.
Qed.

Local Abbreviation dupIDs :=
  [err_duplicate_case; err_duplicate_case_differing_expr;
   note_duplicate_case_prev].

Lemma checkDuplicates_diags :
  forall const l prev should,
    issues dupIDs (DupDiags (checkDuplicates const prev l should))
    /\ DupFound (checkDuplicates const prev l should)
       = existsb isSwitchError (DupDiags (checkDuplicates const prev l should)).
Proof.
  intros const. induction l as [|cur rest IH]; intros prev should;
    cbn [checkDuplicates].
  - split; [constructor | reflexivity].
  - destruct prev as [p|]; [|apply IH].
    destruct (APSInt.eq (fst cur) (fst p)); [|apply IH].
    cbn [DupDiags DupFound]. split.
    + apply issues_app; [|apply IH].
      unfold reportDuplicate. destruct (String.eqb _ _); vocabulary.
    + rewrite existsb_app. unfold reportDuplicate.
      destruct (String.eqb _ _); reflexivity.
Qed.

Lemma DupShouldCheck_spec :
  forall const l prev should,
    DupShouldCheck (checkDuplicates const prev l should)
    = should && negb (existsb (fun c => APSInt.eq (fst c) const) l).
Proof.
  intros const. induction l as [|cur rest IH]; intros prev should;
    cbn [checkDuplicates existsb].
  - now rewrite andb_true_r.
  - assert (Hrec : DupShouldCheck
                     (checkDuplicates const (Some cur) rest
                        (if should && APSInt.eq (fst cur) const
                         then false else should))
                   = should
                     && negb (APSInt.eq (fst cur) const
                              || existsb (fun c => APSInt.eq (fst c) const) rest)).
    { rewrite IH. destruct should, (APSInt.eq (fst cur) const); reflexivity. }
    destruct prev as [p|]; [|exact Hrec].
    destruct (APSInt.eq (fst cur) (fst p)); exact Hrec.
Qed.

Section RangeLoop.
Variables (cpp11 : bool) (T : QualType) (W : N) (Sg : bool).
Variable const : APSInt.t.

Lemma scanRanges_issues :
  forall l should,
    issues [warn_case_value_overflow; warn_case_empty_range]
           (RangeDiags (scanRanges cpp11 T W Sg const l should)).
Proof.
  assert (Hconv : forall E,
             issues [warn_case_value_overflow; warn_case_empty_range]
                    (conversionDiags cpp11 T W Sg E)).
  { intros E. unfold conversionDiags.
    destruct (caseValue cpp11 T E) as [v|]; [|constructor].
    apply (issues_weaken _ _ _ (conversion_issues _ _ _ _ _)). included. }
  induction l as [|[LoVal CR] rest IH]; intros should; [constructor|].
  rewrite scanRanges_step.
  destruct (converted cpp11 T W Sg (rangeRHS CR)) as [h|]; [|apply IH].
  destruct (APSInt.gt LoVal h); cbn [RangeDiags].
  - apply issues_app; [apply Hconv|]. apply issues_app; [vocabulary | apply IH].
  - apply issues_app; [apply Hconv | apply IH].
Qed.

Lemma RangeShouldCheck_spec :
  forall l should,
    RangeShouldCheck (scanRanges cpp11 T W Sg const l should)
    = should && negb (existsb (holdsConstant cpp11 T W Sg const) l).
Proof.
  induction l as [|[LoVal CR] rest IH]; intros should.
  - cbn. now rewrite andb_true_r.
  - rewrite scanRanges_step. cbn [existsb]. unfold holdsConstant at 1.
    cbn [fst snd].
    destruct (converted cpp11 T W Sg (rangeRHS CR)) as [h|];
      [|cbn [RangeShouldCheck]; now rewrite IH].
    destruct (APSInt.gt LoVal h); cbn [RangeShouldCheck]; rewrite IH;
      [reflexivity|].
    destruct should, (APSInt.le LoVal const), (APSInt.le const h); reflexivity.
Qed.

End RangeLoop.
Lemma checkOverlaps_diags :
  forall Vals Ranges His idx,
    issues [err_duplicate_case; note_duplicate_case_prev]
           (OverlapDiags (checkOverlaps Vals Ranges His idx))
    /\ OverlapError (checkOverlaps Vals Ranges His idx)
       = existsb isSwitchError (OverlapDiags (checkOverlaps Vals Ranges His idx)).
Proof.
  intros Vals Ranges His. induction idx as [|i rest IH]; cbn [checkOverlaps].
  - split; [constructor | reflexivity].
  - destruct (findOverlap Vals Ranges His i) as [[o|]|]; try exact IH;
      [|split; [constructor | reflexivity]].
    destruct (nth_error Ranges i) as [CR|]; [|exact IH].
    cbn [OverlapDiags OverlapError]. split; [|reflexivity].
    apply issues_app; [vocabulary | apply IH].
Qed.

Lemma casesNotInEnum_issues :
  forall T CI EI, issues enumAdvisories (casesNotInEnum T EI CI).
Proof.
  intros T. induction CI as [|c rest IH]; intros EI; cbn [casesNotInEnum].
  - constructor.
  - apply issues_app; [|apply IH].
    destruct (Std.advance _ EI) as [|e ?]; [vocabulary|].
    destruct (APSInt.gt (fst e) (fst c)); vocabulary.
Qed.

Lemma rangesNotInEnum_issues :
  forall T CondType W Sg RI EI,
    issues enumAdvisories (rangesNotInEnum T CondType W Sg EI RI).
Proof.
  intros T CondType W Sg. induction RI as [|r rest IH]; intros EI;
    cbn [rangesNotInEnum].
  - constructor.
  - destruct EI as [|e0 EI0]; [constructor|].
    repeat apply issues_app; [| |apply IH].
    + destruct (Std.advance _ (e0 :: EI0)) as [|e ?]; [vocabulary|].
      destruct (APSInt.ne (fst e) (fst r)); vocabulary.
    + destruct (Std.advance _ (Std.advance _ (e0 :: EI0))) as [|e ?];
        [vocabulary|].
      destruct (APSInt.ne (fst e) _); vocabulary.
Qed.

Lemma checkEnum_issues :
  forall ED T CondType W Sg Loc D Vals Ranges,
    issues enumAdvisories (fst (checkEnum ED T CondType W Sg Loc D Vals Ranges)).
Proof.
  intros. unfold checkEnum. cbn [fst].
  repeat apply issues_app.
  - apply casesNotInEnum_issues.
  - apply rangesNotInEnum_issues.
  - destruct D; [|constructor].
    destruct (unhandledEnumVals _ _ _ _ _ _); vocabulary.
  - unfold reportUnhandled.
    destruct (unhandledEnumVals _ _ _ _ _ _) as [|a [|b [|c [|e rest]]]];
      destruct (isSome D); vocabulary.
Qed.

(** *** The constant of the condition among the labels *)

Section Constant.
Variables (cpp11 : bool) (T : QualType) (W : N) (Sg : bool).
Variable cases : list SwitchCase.
Variable const : APSInt.t.
Hypothesis Hconst : APSInt.hasType W (negb Sg) const.

Lemma constant_among_singletons :
  existsb (fun c => APSInt.eq (fst c) const) (sortedSingletons cpp11 T W Sg cases)
  = existsb (fun c => APSInt.value (fst c) =? APSInt.value const)
            (singletons cpp11 T W Sg cases).
Proof.
  rewrite (existsb_perm _ _ _ (sortedSingletons_perm cpp11 T W Sg cases)).
  apply existsb_ext_in. intros c Hc.
  pose proof (singletons_hasType cpp11 T W Sg cases) as Hty.
  rewrite Forall_forall in Hty.
  apply (eq_value W (negb Sg)); [now apply Hty | exact Hconst].
Qed.

Lemma constant_among_ranges :
  existsb (holdsConstant cpp11 T W Sg const) (sortedRanges cpp11 T W Sg cases)
  = existsb (fun r => (lowOf r <=? APSInt.value const)
                      && (APSInt.value const <=? highOf r))
            (boundedRanges cpp11 T W Sg cases).
Proof.
  rewrite (existsb_perm _ _ _ (sortedRanges_perm cpp11 T W Sg cases)).
  unfold boundedRanges. rewrite existsb_flat_map.
  apply existsb_ext_in. intros r Hr.
  pose proof (ranges_hasType cpp11 T W Sg cases) as Hty.
  rewrite Forall_forall in Hty. specialize (Hty r Hr).
  unfold holdsConstant.
  destruct (converted cpp11 T W Sg (rangeRHS (snd r))) as [h|] eqn:Hh;
    [|reflexivity].
  assert (Hht : APSInt.hasType W (negb Sg) h)
    by (eapply converted_hasType; eauto).
  cbn [existsb]. unfold lowOf, highOf. cbn [fst snd]. rewrite orb_false_r.
  rewrite (gt_value W (negb Sg) _ _ Hty Hht),
          (le_value W (negb Sg) _ _ Hty Hconst),
          (le_value W (negb Sg) _ _ Hconst Hht).
  destruct (Z.ltb_spec (APSInt.value h) (APSInt.value (fst r)));
    destruct (Z.leb_spec (APSInt.value (fst r)) (APSInt.value const));
    destruct (Z.leb_spec (APSInt.value const) (APSInt.value h));
    try reflexivity; lia.
Qed.

Lemma constant_covered :
  negb (existsb (fun c => APSInt.eq (fst c) const)
                (sortedSingletons cpp11 T W Sg cases))
  && negb (existsb (holdsConstant cpp11 T W Sg const)
                   (sortedRanges cpp11 T W Sg cases))
  = negb (covered cpp11 T W Sg cases (APSInt.value const)).
Proof.
  rewrite constant_among_singletons, constant_among_ranges.
  unfold covered. now rewrite negb_orb.
Qed.

End Constant.
(** *** The analysis, phase by phase *)

Section Phases.
Context {C : Collaborators}.
Variables (cpp11 : bool) (SwitchLoc : SourceLocation) (SS : SwitchStmt).
Variables (BodyStmt : AST.Stmt) (CondExpr : Expr).
Hypothesis Hcond : getCond SS = Some CondExpr.
Hypothesis Hnd : nonDependent CondExpr (getSwitchCaseList SS) = true.
Hypothesis Hlab :
  labelsConvertible cpp11 (condType CondExpr) (getSwitchCaseList SS) = true.
Hypothesis Hconv :
  rangesConvertible cpp11 (condType CondExpr) (condWidth CondExpr)
    (condIsSigned CondExpr) (getSwitchCaseList SS) = true.

Local Abbreviation cases := (getSwitchCaseList SS).
Local Abbreviation T := (condType CondExpr).
Local Abbreviation W := (condWidth CondExpr).
Local Abbreviation Sg := (condIsSigned CondExpr).
Local Abbreviation dEnd :=
  (DiagnoseEmptyStmtBody (getLocEnd (info CondExpr)) BodyStmt).
Local Abbreviation unmatched :=
  (negb (existsb (fun c => APSInt.eq (fst c) (condValue CondExpr))
                 (sortedSingletons cpp11 T W Sg cases))
   && negb (existsb (holdsConstant cpp11 T W Sg (condValue CondExpr))
                    (sortedRanges cpp11 T W Sg cases))).

Lemma checkCaseList_phases :
  exists own dEnum bad,
    AnalysisDiags (checkCaseList cpp11 SwitchLoc SS BodyStmt)
    = (boolConditionDiags SwitchLoc CondExpr ++ own)
      ++ (if negb bad && (constantCondition CondExpr cases && unmatched)
          then [missingCaseDiag CondExpr] else [])
      ++ dEnum ++ dEnd
    /\ Result (checkCaseList cpp11 SwitchLoc SS BodyStmt)
       = Returns (verdictOf bad)
    /\ existsb isSwitchError own = bad
    /\ issues labelDiagnostics own
    /\ issues enumAdvisories dEnum.
Proof.
  unfold nonDependent in Hnd.
  apply andb_true_iff in Hnd. destruct Hnd as [Hnd1 Hlabels].
  apply andb_true_iff in Hnd1. destruct Hnd1 as [Hdep Hint].
  apply negb_true_iff in Hdep.
  assert (Htd : isTypeDependent (info CondExpr) = false).
  { unfold isDependent in Hdep. now apply orb_false_iff in Hdep. }
  destruct (scanCases_nonDependent cpp11 T W Sg cases (scanStart false)
              Hlabels eq_refl)
    as (Hhas & Hvals & Hranges & _ & Hdef & _).
  cbn [scanStart CaseVals CaseRanges TheDefaultStmt isSome orb app]
    in Hvals, Hranges, Hdef.
  destruct (scanCases_diags cpp11 T W Sg cases (scanStart false) Hlab)
    as (dS & HdS & HiS & HeS).
  cbn [scanStart ScanDiags CaseListIsErroneous orb app] in HdS, HeS.
  assert (Hshould :
            match TheDefaultStmt (scanCases cpp11 T W Sg cases (scanStart false)) with
            | Some _ => false
            | None => isIntConstant (info (ExprBeforePromotion CondExpr))
            end = constantCondition CondExpr cases).
  { unfold constantCondition. rewrite <- Hdef.
    now destruct (TheDefaultStmt _). }
  unfold checkCaseList. rewrite Hcond, Htd, Hint, Hdep. cbn [negb andb].
  fold (condType CondExpr) (condWidth CondExpr) (condIsSigned CondExpr).
  rewrite Hhas. unfold checkLabels. cbv zeta.
  rewrite Hvals, Hranges, Hshould, HdS, HeS.
  fold (condType CondExpr) (condIsSigned CondExpr) (condValue CondExpr).
  fold (sortedSingletons cpp11 T W Sg cases) (sortedRanges cpp11 T W Sg cases).
  rewrite !scanRanges_kept, !scanRanges_highs.
  fold (keptRanges cpp11 T W Sg cases).
  fold (keptHighs cpp11 T W Sg cases).
  fold (overlapScan cpp11 T W Sg cases).
  rewrite (overlapScan_in_bounds _ _ _ _ _ Hconv).
  rewrite !(scanRanges_no_error _ _ _ _ _ _ _
              (sortedRanges_convertible _ _ _ _ _ Hconv)).
  rewrite !RangeShouldCheck_spec, !DupShouldCheck_spec.
  rewrite !orb_false_r.
  cbn [AnalysisDiags Result].
  set (Dup := checkDuplicates (condValue CondExpr) None
                (sortedSingletons cpp11 T W Sg cases)
                (constantCondition CondExpr cases)).
  set (RS := scanRanges cpp11 T W Sg (condValue CondExpr)
               (sortedRanges cpp11 T W Sg cases) _).
  exists (dS ++ DupDiags Dup ++ RangeDiags RS
          ++ OverlapDiags (overlapScan cpp11 T W Sg cases)).
  eexists. eexists.
  split; [|split; [reflexivity|split; [|split]]].
  - unfold boolConditionDiags, missingCaseDiag. rewrite Htd. cbn [negb andb].
    rewrite <- !andb_assoc. reflexivity.
  - subst RS Dup. rewrite !existsb_app.
    destruct (checkDuplicates_diags (condValue CondExpr)
                (sortedSingletons cpp11 T W Sg cases) None
                (constantCondition CondExpr cases)) as [_ <-].
    destruct (checkOverlaps_diags (sortedSingletons cpp11 T W Sg cases)
                (keptRanges cpp11 T W Sg cases) (keptHighs cpp11 T W Sg cases)
                (seq 0 (List.length (keptRanges cpp11 T W Sg cases)))) as [_ Hov].
    fold (overlapScan cpp11 T W Sg cases) in Hov. rewrite <- Hov.
    match goal with
    | |- context [existsb isSwitchError (RangeDiags ?r)] =>
        assert (Hr : existsb isSwitchError (RangeDiags r) = false)
    end.
    { apply (issues_existsb isSwitchErrorID _ _
               (scanRanges_issues _ _ _ _ _ _ _)). reflexivity. }
    rewrite Hr, orb_false_l. apply orb_assoc.
  - repeat apply issues_app.
    + apply (issues_weaken _ _ _ HiS). included.
    + apply (issues_weaken _ _ _
               (proj1 (checkDuplicates_diags _ _ _ _))). included.
    + apply (issues_weaken _ _ _ (scanRanges_issues _ _ _ _ _ _ _)). included.
    + apply (issues_weaken _ _ _
               (proj1 (checkOverlaps_diags _ _ _ _))). included.
  - destruct (getAsEnumType _) as [ED|]; [|constructor].
    match goal with
    | |- context [if ?b then _ else _] => destruct b; [|constructor]
    end.
    apply checkEnum_issues.
Qed.

End Phases.
Lemma ActOnFinishSwitchStmt_analysis :
  forall (C : Collaborators) SwitchLoc Switch BodyStmt S SS rest,
    Heap S Switch = Some SS ->
    SwitchStack (CurFunction S) = Switch :: rest ->
    let A := checkCaseList (CPlusPlus11 S) SwitchLoc
               (setBody BodyStmt SwitchLoc SS) BodyStmt in
    fst (ActOnFinishSwitchStmt SwitchLoc Switch BodyStmt S)
    = match Result A with
      | Returns Keep => Returns (Owned (NodeSwitch Switch))
      | Returns Discard => Returns StmtError
      | AssertionFailed => AssertionFailed
      | OutOfBounds => OutOfBounds
      end
    /\ Diags (snd (ActOnFinishSwitchStmt SwitchLoc Switch BodyStmt S))
       = Diags S ++ AnalysisDiags A.
Proof.
  intros C SwitchLoc Switch BodyStmt S SS rest Hheap Hstack. cbv zeta.
  unfold ActOnFinishSwitchStmt. rewrite Hheap, Hstack, Nat.eqb_refl.
  cbn [fst snd]. split; [reflexivity|].
  destruct (Covered _); reflexivity.
Qed.

(** X7.  For a switch without dependent values whose labels and range
    bounds convert to the type of the condition, the diagnostics that
    [ActOnFinishSwitchStmt] adds are its own followed by those of the
    check of the empty body, and [StmtError] is returned exactly when
    one of its own is an error: [err_multiple_default_labels_defined],
    [err_duplicate_case] or [err_duplicate_case_differing_expr].  A
    switch is never discarded silently, and never kept after such an
    error. *)
Theorem switch_error_iff_rejected :
  forall (C : Collaborators) (SwitchLoc : SourceLocation) (Switch : SwitchPtr)
         (BodyStmt : AST.Stmt) (S : State) (SS : SwitchStmt) (CondExpr : Expr)
         (rest : list SwitchPtr),
    Heap S Switch = Some SS ->
    SwitchStack (CurFunction S) = Switch :: rest ->
    getCond SS = Some CondExpr ->
    nonDependent CondExpr (getSwitchCaseList SS) = true ->
    labelsConvertible (CPlusPlus11 S) (condType CondExpr) (getSwitchCaseList SS)
    = true ->
    rangesConvertible (CPlusPlus11 S) (condType CondExpr) (condWidth CondExpr)
      (condIsSigned CondExpr) (getSwitchCaseList SS) = true ->
    exists own,
      Diags (snd (ActOnFinishSwitchStmt SwitchLoc Switch BodyStmt S))
      = Diags S ++ own
        ++ DiagnoseEmptyStmtBody (getLocEnd (info CondExpr)) BodyStmt
      /\ (existsb isSwitchError own = true
          <-> fst (ActOnFinishSwitchStmt SwitchLoc Switch BodyStmt S)
              = Returns StmtError)
      /\ (existsb isSwitchError own = false
          <-> fst (ActOnFinishSwitchStmt SwitchLoc Switch BodyStmt S)
              = Returns (Owned (NodeSwitch Switch))).
Proof.
  intros C SwitchLoc Switch BodyStmt S SS CondExpr rest Hheap Hstack Hcond
         Hnd Hlab Hconv.
  destruct (ActOnFinishSwitchStmt_analysis C SwitchLoc Switch BodyStmt S SS rest
              Hheap Hstack) as [Hfst Hdiags].
  cbv zeta in Hfst, Hdiags. rewrite Hfst, Hdiags.
  destruct (checkCaseList_phases (CPlusPlus11 S) SwitchLoc
              (setBody BodyStmt SwitchLoc SS) BodyStmt CondExpr
              Hcond Hnd Hlab Hconv)
    as (own & dEnum & bad & HA & Hres & Hbad & Hown & HdEnum).
  cbn [setBody getSwitchCaseList] in HA.
  set (dConst := if negb bad && _ then [missingCaseDiag CondExpr] else []) in HA.
  rewrite HA, Hres.
  exists ((boolConditionDiags SwitchLoc CondExpr ++ own) ++ dConst ++ dEnum).
  split; [now rewrite <- !app_assoc|].
  assert (Hall : existsb isSwitchError
                   ((boolConditionDiags SwitchLoc CondExpr ++ own)
                    ++ dConst ++ dEnum)
                 = bad).
  { rewrite !existsb_app, Hbad.
    assert (H2 : existsb isSwitchError dEnum = false).
    { apply (issues_existsb isSwitchErrorID _ _ HdEnum). reflexivity. }
    assert (H0 : existsb isSwitchError (boolConditionDiags SwitchLoc CondExpr)
                 = false).
    { unfold boolConditionDiags.
      destruct (negb (isTypeDependent (info CondExpr)) && _); reflexivity. }
    assert (H1 : existsb isSwitchError dConst = false).
    { subst dConst. destruct (negb bad && _); reflexivity. }
    rewrite H0, H1, H2. cbn. now rewrite orb_false_r. }
  rewrite Hall. destruct bad; cbn [verdictOf]; split; split; intros Hx;
    first [reflexivity | discriminate].
Qed.

Lemma switch_error_iff_rejected_witness :
  exists own,
    Diags (snd (ActOnFinishSwitchStmt (C := Examples.Quiet) 5 O Examples.body
                  (Examples.insideSwitch false Examples.duplicateSwitch)))
    = Diags (Examples.insideSwitch false Examples.duplicateSwitch) ++ own
      ++ @DiagnoseEmptyStmtBody Examples.Quiet
           (getLocEnd (info (Examples.variable Examples.intTy))) Examples.body
    /\ (existsb isSwitchError own = true
        <-> fst (ActOnFinishSwitchStmt (C := Examples.Quiet) 5 O Examples.body
                   (Examples.insideSwitch false Examples.duplicateSwitch))
            = Returns StmtError)
    /\ (existsb isSwitchError own = false
        <-> fst (ActOnFinishSwitchStmt (C := Examples.Quiet) 5 O Examples.body
                   (Examples.insideSwitch false Examples.duplicateSwitch))
            = Returns (Owned (NodeSwitch O))).
Proof.
  apply (switch_error_iff_rejected Examples.Quiet 5 O Examples.body
           (Examples.insideSwitch false Examples.duplicateSwitch)
           Examples.duplicateSwitch (Examples.variable Examples.intTy) []);
    reflexivity.
Defined.

Lemma issues_id :
  forall ids l d i,
    issues ids l -> In d l -> isID i d = true -> In i ids.
Proof.
  intros ids l d i Hl Hd Hi. unfold issues in Hl. rewrite Forall_forall in Hl.
  unfold isID in Hi. apply internal_DiagID_dec_bl in Hi. rewrite <- Hi.
  now apply Hl.
Qed.

(** X8.  For a switch without dependent values whose labels and range
    bounds convert to the type of the condition, the advisory
    [warn_missing_case_for_condition] is among the diagnostics of
    [ActOnFinishSwitchStmt] exactly when the condition is an integer
    constant (of the width and signedness the condition had before
    promotion), the switch has no default label, the case list is well
    formed, and no singleton label has the value of the constant and no
    range holds it.  No other diagnostic of the analysis has this
    identifier. *)
Theorem constant_condition_unmatched :
  forall (C : Collaborators) (SwitchLoc : SourceLocation) (Switch : SwitchPtr)
         (BodyStmt : AST.Stmt) (S : State) (SS : SwitchStmt) (CondExpr : Expr)
         (rest : list SwitchPtr),
    Heap S Switch = Some SS ->
    SwitchStack (CurFunction S) = Switch :: rest ->
    getCond SS = Some CondExpr ->
    nonDependent CondExpr (getSwitchCaseList SS) = true ->
    labelsConvertible (CPlusPlus11 S) (condType CondExpr) (getSwitchCaseList SS)
    = true ->
    rangesConvertible (CPlusPlus11 S) (condType CondExpr) (condWidth CondExpr)
      (condIsSigned CondExpr) (getSwitchCaseList SS) = true ->
    (constantCondition CondExpr (getSwitchCaseList SS) = true ->
     APSInt.hasType (condWidth CondExpr) (negb (condIsSigned CondExpr))
       (condValue CondExpr)) ->
    exists own,
      Diags (snd (ActOnFinishSwitchStmt SwitchLoc Switch BodyStmt S))
      = Diags S ++ own
        ++ DiagnoseEmptyStmtBody (getLocEnd (info CondExpr)) BodyStmt
      /\ (In (missingCaseDiag CondExpr) own
          <-> constantCondition CondExpr (getSwitchCaseList SS) = true
              /\ ~ malformed (CPlusPlus11 S) (condType CondExpr)
                     (condWidth CondExpr) (condIsSigned CondExpr)
                     (getSwitchCaseList SS)
              /\ covered (CPlusPlus11 S) (condType CondExpr) (condWidth CondExpr)
                   (condIsSigned CondExpr) (getSwitchCaseList SS)
                   (APSInt.value (condValue CondExpr)) = false)
      /\ (forall d, In d own ->
                    isID warn_missing_case_for_condition d = true ->
                    d = missingCaseDiag CondExpr).
Proof.
  intros C SwitchLoc Switch BodyStmt S SS CondExpr rest Hheap Hstack Hcond
         Hnd Hlab Hconv Htyp.
  destruct (ActOnFinishSwitchStmt_analysis C SwitchLoc Switch BodyStmt S SS rest
              Hheap Hstack) as [_ Hdiags].
  cbv zeta in Hdiags. rewrite Hdiags.
  destruct (checkCaseList_phases (CPlusPlus11 S) SwitchLoc
              (setBody BodyStmt SwitchLoc SS) BodyStmt CondExpr
              Hcond Hnd Hlab Hconv)
    as (own & dEnum & bad & HA & Hres & Hbad & Hown & HdEnum).
  cbn [setBody getSwitchCaseList] in HA.
  assert (Hmal : bad = true
                 <-> malformed (CPlusPlus11 S) (condType CondExpr)
                       (condWidth CondExpr) (condIsSigned CondExpr)
                       (getSwitchCaseList SS)).
  { destruct (checkCaseList_verdict C (CPlusPlus11 S) SwitchLoc
                (setBody BodyStmt SwitchLoc SS) BodyStmt CondExpr
                Hcond Hnd Hlab Hconv) as [[Hr Hm]|[Hr Hm]];
      cbn [setBody getSwitchCaseList] in Hm; rewrite Hres in Hr;
      destruct bad; cbn in Hr; try discriminate; split; intros Hx;
      first [assumption | reflexivity | contradiction | discriminate]. }
  set (dConst := if negb bad && _ then [missingCaseDiag CondExpr] else []) in HA.
  assert (Hconst : In (missingCaseDiag CondExpr) dConst
                   <-> constantCondition CondExpr (getSwitchCaseList SS) = true
                       /\ ~ malformed (CPlusPlus11 S) (condType CondExpr)
                              (condWidth CondExpr) (condIsSigned CondExpr)
                              (getSwitchCaseList SS)
                       /\ covered (CPlusPlus11 S) (condType CondExpr)
                            (condWidth CondExpr) (condIsSigned CondExpr)
                            (getSwitchCaseList SS)
                            (APSInt.value (condValue CondExpr)) = false).
  { subst dConst.
    destruct (constantCondition CondExpr (getSwitchCaseList SS)) eqn:Hcc.
    - rewrite (constant_covered _ _ _ _ _ _ (Htyp eq_refl)).
      cbn [andb]. destruct bad.
      + cbn. split; [contradiction|]. intros (_ & Hno & _).
        exfalso. apply Hno. now apply Hmal.
      + cbn [negb andb].
        destruct (covered _ _ _ _ _ _); cbn.
        * split; [contradiction|]. intros (_ & _ & Hx). discriminate.
        * split; [|now left]. intros _. split; [reflexivity|].
          split; [|reflexivity]. intros Hm. apply Hmal in Hm. discriminate.
    - rewrite andb_false_r. cbn. split; [contradiction|].
      intros (Hx & _). discriminate. }
  assert (Hother : forall d,
             In d ((boolConditionDiags SwitchLoc CondExpr ++ own) ++ dConst ++ dEnum) ->
             isID warn_missing_case_for_condition d = true ->
             In d dConst).
  { intros d Hd Hid.
    apply in_app_or in Hd. destruct Hd as [Hd|Hd].
    - exfalso. apply in_app_or in Hd. destruct Hd as [Hd|Hd].
      + unfold boolConditionDiags in Hd.
        destruct (negb (isTypeDependent (info CondExpr)) && _); [|contradiction].
        destruct Hd as [<-|[]]. discriminate.
      + pose proof (issues_id _ _ _ _ Hown Hd Hid) as Hin.
        cbn in Hin. intuition discriminate.
    - apply in_app_or in Hd. destruct Hd as [Hd|Hd]; [exact Hd|].
      exfalso. pose proof (issues_id _ _ _ _ HdEnum Hd Hid) as Hin.
      cbn in Hin. intuition discriminate. }
  exists ((boolConditionDiags SwitchLoc CondExpr ++ own) ++ dConst ++ dEnum).
  split; [rewrite HA; now rewrite <- !app_assoc|]. split.
  - rewrite <- Hconst. split.
    + intros Hin. now apply Hother.
    + intros Hin. apply in_or_app. right. apply in_or_app. now left.
  - intros d Hd Hid. specialize (Hother d Hd Hid). subst dConst.
    destruct (negb bad && _); [|contradiction].
    destruct Hother as [<-|[]]. reflexivity.
Qed.

Lemma constant_condition_unmatched_witness :
  exists own,
    Diags (snd (ActOnFinishSwitchStmt (C := Examples.Quiet) 5 O Examples.body
                  (Examples.insideSwitch false constantUnmatched)))
    = Diags (Examples.insideSwitch false constantUnmatched) ++ own
      ++ @DiagnoseEmptyStmtBody Examples.Quiet
           (getLocEnd (info (Examples.constant Examples.intTy 2))) Examples.body
    /\ (In (missingCaseDiag (Examples.constant Examples.intTy 2)) own
        <-> constantCondition (Examples.constant Examples.intTy 2)
              (getSwitchCaseList constantUnmatched) = true
            /\ ~ malformed false (condType (Examples.constant Examples.intTy 2))
                   (condWidth (Examples.constant Examples.intTy 2))
                   (condIsSigned (Examples.constant Examples.intTy 2))
                   (getSwitchCaseList constantUnmatched)
            /\ covered false (condType (Examples.constant Examples.intTy 2))
                 (condWidth (Examples.constant Examples.intTy 2))
                 (condIsSigned (Examples.constant Examples.intTy 2))
                 (getSwitchCaseList constantUnmatched)
                 (APSInt.value (condValue (Examples.constant Examples.intTy 2)))
               = false)
    /\ (forall d, In d own ->
                  isID warn_missing_case_for_condition d = true ->
                  d = missingCaseDiag (Examples.constant Examples.intTy 2)).
Proof.
  apply (constant_condition_unmatched Examples.Quiet 5 O Examples.body
           (Examples.insideSwitch false constantUnmatched)
           constantUnmatched (Examples.constant Examples.intTy 2) []);
    try reflexivity.
  intros _. split; reflexivity.
Defined.
End DiagnosticFacts.

(** ** Duplicate singleton values *)
Module DuplicateFacts.
Import Sema Switch SwitchSpec.
Import APSIntFacts StdFacts SwitchFacts EnumFacts.

(** *** The labels of the sorted vector *)






End DuplicateFacts.

(** ** Empty case ranges *)
Module EmptyRangeFacts.
Import Sema Switch SwitchSpec SwitchExtra.
Import APSIntFacts StdFacts SwitchFacts EnumFacts AcceptFacts DiagnosticFacts.
Import DuplicateFacts.





Section Exact.
Context {C : Collaborators}.
Variables (cpp11 : bool) (SwitchLoc : SourceLocation) (SS : SwitchStmt).
Variables (BodyStmt : AST.Stmt) (CondExpr : Expr).
Hypothesis Hcond : getCond SS = Some CondExpr.
Hypothesis Hnd : nonDependent CondExpr (getSwitchCaseList SS) = true.

Local Abbreviation cases := (getSwitchCaseList SS).
Local Abbreviation T := (condType CondExpr).
Local Abbreviation W := (condWidth CondExpr).
Local Abbreviation Sg := (condIsSigned CondExpr).
Local Abbreviation dEnd :=
  (DiagnoseEmptyStmtBody (getLocEnd (info CondExpr)) BodyStmt).


End Exact.



End EmptyRangeFacts.

(** ** Assignment of a constant to an enumeration *)
Module AssignEnumFacts.
Import Sema Switch SwitchSpec AssignEnum.
Import APSIntFacts StdFacts SwitchFacts EnumFacts.

(** X9.  When the advisory is enabled, the destination is an
    enumeration, the source has another type that is an integer type,
    and the source expression is a non-dependent integer constant
    expression whose value has the width and signedness of the
    enumeration, [DiagnoseAssignmentEnum] issues
    [warn_not_in_enum_assignement], once, exactly when the enumeration
    has an enumerator and the value is the value of none of them; an
    enumeration without enumerators draws nothing. *)
Theorem assignment_not_in_enum :
  forall (X : Context) (DstType SrcType : QualType) (SrcExpr : Expr)
         (ED : EnumDecl),
    isIgnored (getExprLoc (info SrcExpr)) = false ->
    getAsEnumType DstType = Some ED ->
    hasSameType SrcType DstType = false ->
    isIntegerType SrcType = true ->
    isDependent SrcExpr = false ->
    isIntegerConstantExpr SrcExpr = true ->
    APSInt.hasType (getIntWidth DstType)
      (negb (isSignedIntegerOrEnumerationType DstType))
      (EvaluateKnownConstInt SrcExpr) ->
    DiagnoseAssignmentEnum DstType SrcType SrcExpr
    = match ED with
      | [] => []
      | _ :: _ =>
          if inEnum (getIntWidth DstType)
               (isSignedIntegerOrEnumerationType DstType) ED
               (APSInt.value (EvaluateKnownConstInt SrcExpr))
          then []
          else [notInEnumAssignment DstType SrcExpr]
      end.
Proof.
  intros X DstType SrcType SrcExpr ED Hon Henum Hdiff Hint Hdep Hice Hty.
  unfold DiagnoseAssignmentEnum.
  rewrite Hon, Henum, Hdiff, Hint, Hice.
  unfold isDependent in Hdep. apply orb_false_iff in Hdep.
  destruct Hdep as [-> ->]. cbn [negb andb]. cbv zeta.
  set (W := getIntWidth DstType) in *.
  set (Sg := isSignedIntegerOrEnumerationType DstType) in *.
  set (v := EvaluateKnownConstInt SrcExpr) in *.
  fold (gatherEnumVals ED W Sg).
  rewrite (advance_enum W (negb Sg) _ _
             (gatherEnumVals_typed ED W Sg) (gatherEnumVals_sorted ED W Sg) Hty).
  pose proof (differs_after_advance W (negb Sg) _ _
                (gatherEnumVals_typed ED W Sg) (gatherEnumVals_sorted ED W Sg) Hty)
    as Hd.
  rewrite (gatherEnumVals_values ED W Sg) in Hd.
  destruct (inEnum W Sg ED (APSInt.value v));
    destruct (List.filter _ (gatherEnumVals ED W Sg)) as [|h t];
    cbn [negb] in Hd; try discriminate; try rewrite Hd;
    destruct ED; reflexivity.
Qed.

Lemma assignment_not_in_enum_witness :
  DiagnoseAssignmentEnum (X := plainContext) SignTy Examples.intTy
    (Examples.lit 7 5)
  = [notInEnumAssignment SignTy (Examples.lit 7 5)].
Proof.
  apply (assignment_not_in_enum plainContext SignTy Examples.intTy
           (Examples.lit 7 5) Sign); try reflexivity.
  split; reflexivity.
Defined.

End AssignEnumFacts.

(** ** More on the placement of [_Cilk_spawn] *)
Module SpawnMoreFacts.
Import AST Spawn SpawnSpec SpawnExtra.

Local Abbreviation misplaced :=
  (Forall (fun d => isID err_spawn_not_whole_expr d = true)).

Lemma misplaced_app :
  forall l1 l2, misplaced l1 -> misplaced l2 -> misplaced (l1 ++ l2).
Proof. intros l1 l2 H1 H2. apply Forall_app. now split. Qed.

Lemma misplaced_flat_map :
  forall {X : Type} (f : X -> list Diagnostic) (l : list X),
    Forall (fun x => misplaced (f x)) l -> misplaced (flat_map f l).
Proof.
  intros X f l H. induction H as [|x t Hx _ IH]; cbn; [constructor|].
  now apply misplaced_app.
Qed.

(** The visitor issues [err_spawn_not_whole_expr] and nothing else. *)
Lemma TraverseStmt_misplaced : forall s, misplaced (TraverseStmt s).
Proof.
  fix IH 1. intros s.
  destruct s as [Body|h|r b|e|e|t hs|ds|op l r|b c|i c n b|c t e|b|b|b|c b
                 |cls info callee args|e|e|isTemp args|cs];
    cbn [TraverseStmt];
    repeat apply misplaced_app;
    try apply IH; try constructor.
  - induction hs as [|x xs IHl]; cbn; [constructor|].
    apply misplaced_app; [apply IH | exact IHl].
  - induction ds as [|d ds' IHl]; cbn; [constructor|].
    apply misplaced_app; [|exact IHl].
    destruct d as [[[[isVar sc] loc] range] [init|]]; cbn; [apply IH | constructor].
  - destruct i as [i|]; [apply IH | constructor].
  - destruct c as [c|]; [apply IH | constructor].
  - destruct n as [n|]; [apply IH | constructor].
  - destruct e as [e|]; [apply IH | constructor].
  - unfold VisitCallExpr. destruct (isCilkSpawnCall info); repeat constructor.
  - induction args as [|x xs IHl]; cbn; [constructor|].
    apply misplaced_app; [apply IH | exact IHl].
  - induction args as [|x xs IHl]; cbn; [constructor|].
    apply misplaced_app; [apply IH | exact IHl].
  - induction cs as [|x xs IHl]; cbn; [constructor|].
    apply misplaced_app; [apply IH | exact IHl].
Qed.
Lemma misplaced_args :
  forall l : list Stmt, misplaced (flat_map TraverseStmt l).
Proof.
  intros l. apply misplaced_flat_map. apply Forall_forall.
  intros x _. apply TraverseStmt_misplaced.
Qed.

(** [HasError] is set exactly when one of the two errors was issued. *)
Local Abbreviation flagged :=
  (fun r : Checked =>
     match r with
     | Some (e, d) => e = existsb isSpawnFlag d
     | None => True
     end).

Lemma issued_flag :
  forall d, misplaced d -> issued d = existsb isSpawnFlag d.
Proof.
  intros d Hd. destruct Hd as [|x t Hx _]; [reflexivity|].
  cbn. unfold isSpawnFlag. now rewrite Hx.
Qed.

Lemma traversed_flagged :
  forall d, misplaced d -> flagged (traversed d).
Proof. intros d Hd. cbn. now apply issued_flag. Qed.

Lemma both_flagged :
  forall a b, flagged a -> flagged b -> flagged (both a b).
Proof.
  intros [[ea da]|] [[eb db]|] Ha Hb; cbn [both fst snd]; try exact Logic.I.
  now rewrite existsb_app, Ha, Hb.
Qed.

Lemma calleeDiags_quiet :
  forall cls E, existsb isSpawnFlag (calleeDiags cls E) = false.
Proof.
  intros cls E. unfold calleeDiags.
  destruct (isBuiltinCall E), cls; reflexivity.
Qed.

Lemma checkStorageClass_flagged : forall LHS, flagged (checkStorageClass LHS).
Proof.
  intros [vd|]; [|reflexivity]. unfold checkStorageClass.
  destruct (getStorageClass vd); try reflexivity; exact Logic.I.
Qed.

(** The right-hand side after the check of the storage class. *)
Lemma checkRHS_unfold :
  forall LHS RHS,
    checkRHS LHS RHS
    = match checkStorageClass LHS with
      | None => None
      | Some (_, d1) =>
          let d :=
            match stripRHS RHS with
            | CallExpr cls E _ args =>
                if isCilkSpawnCall E
                then calleeDiags cls E ++ flat_map TraverseStmt args
                else TraverseStmt (stripRHS RHS)
            | r => TraverseStmt r
            end in
          Some (existsb isSpawnFlag (d1 ++ d), d1 ++ d)
      end.
Proof.
  intros LHS RHS. unfold checkRHS. cbv zeta.
  pose proof (checkStorageClass_flagged LHS) as Hfl.
  destruct (checkStorageClass LHS) as [[e1 d1]|]; [|reflexivity].
  cbv beta in Hfl. symmetry in Hfl. f_equal.
  assert (Hd1 : forall d4 : list Diagnostic,
             misplaced d4 ->
             e1 || issued d4 = existsb isSpawnFlag (d1 ++ d4)).
  { intros d4 Hd4. now rewrite existsb_app, (issued_flag _ Hd4), Hfl. }
  destruct (stripRHS RHS) as [Body|h|r b|e|e|t hs|ds|op l r|b c|i c n b|c t e|b|b|b|c b
                              |cls E callee args|e|e|isTemp args|cs];
    cbv zeta;
    try (rewrite (Hd1 _ (TraverseStmt_misplaced _)); reflexivity).
  destruct (isCilkSpawnCall E) eqn:Hsp.
  - unfold calleeDiags. rewrite <- !app_assoc. f_equal.
    rewrite !existsb_app, Hfl, (issued_flag _ (misplaced_args args)).
    destruct (isBuiltinCall E), cls; reflexivity.
  - rewrite (Hd1 _ (TraverseStmt_misplaced _)). reflexivity.
Qed.

Lemma checkRHS_flagged : forall LHS RHS, flagged (checkRHS LHS RHS).
Proof.
  intros LHS RHS. rewrite checkRHS_unfold.
  destruct (checkStorageClass LHS) as [[e1 d1]|]; [reflexivity | exact Logic.I].
Qed.

Lemma DiagnoseCilkSpawn_flagged : forall S, flagged (DiagnoseCilkSpawn S).
Proof.
  fix IH 1. intros S.
  destruct S as [Body|h|r b|e|e|t hs|ds|op l r|b c|i c n b|c t e|b|b|b|c b
                 |cls info callee args|e|e|isTemp args|cs];
    cbn [DiagnoseCilkSpawn];
    try apply IH;
    try (apply both_flagged; [apply traversed_flagged|apply IH]);
    try (apply traversed_flagged);
    try apply TraverseStmt_misplaced;
    try apply misplaced_args;
    try reflexivity.
  - destruct ds as [|d [|d' ds']];
      try (apply traversed_flagged, (TraverseStmt_misplaced (DeclStmt _))).
    destruct (isVarDecl d);
      [|apply traversed_flagged, (TraverseStmt_misplaced (DeclStmt _))].
    destruct (getInit d); [apply checkRHS_flagged | reflexivity].
  - destruct op;
      try (apply traversed_flagged, (TraverseStmt_misplaced (BinaryOperator _ _ _))).
    apply both_flagged; [apply traversed_flagged, TraverseStmt_misplaced
                        | apply checkRHS_flagged].
  - apply both_flagged;
      [apply both_flagged; [apply traversed_flagged, TraverseStmt_misplaced|apply IH]|].
    destruct e as [x|]; [apply IH | reflexivity].
  - destruct cls as [| |op| |].
    + apply both_flagged; [|apply traversed_flagged, misplaced_args].
      cbn. destruct (isCilkSpawnCall info && isBuiltinCall info); reflexivity.
    + apply both_flagged; [|apply traversed_flagged, misplaced_args].
      cbn. destruct (isCilkSpawnCall info && isBuiltinCall info); reflexivity.
    + destruct (isCilkSpawnCall info);
        [apply traversed_flagged, misplaced_args|].
      destruct op, args as [|a0 [|a1 rest]];
        try (apply traversed_flagged, (TraverseStmt_misplaced (CallExpr _ _ _ _))).
      apply both_flagged; [apply traversed_flagged, TraverseStmt_misplaced
                          | apply checkRHS_flagged].
    + apply traversed_flagged, (TraverseStmt_misplaced (CallExpr _ _ _ _)).
    + apply traversed_flagged, (TraverseStmt_misplaced (CallExpr _ _ _ _)).
Qed.

(** *** The runs that return *)

Lemma both_returns :
  forall a b, returns (both a b) = returns a && returns b.
Proof. intros [a|] [b|]; reflexivity. Qed.

Lemma checkRHS_returns :
  forall LHS RHS,
    returns (checkRHS LHS RHS)
    = match LHS with
      | Some vd => expectedStorage (getStorageClass vd)
      | None => true
      end.
Proof.
  intros [vd|] RHS; unfold checkRHS, checkStorageClass; [|reflexivity].
  destruct (getStorageClass vd); reflexivity.
Qed.

(** [DiagnoseCilkSpawn] returns exactly on the statements whose
    initialized variables have a storage class it expects; on the others
    it reaches [llvm_unreachable]. *)
Lemma DiagnoseCilkSpawn_returns :
  forall S, returns (DiagnoseCilkSpawn S) = storagesExpected S.
Proof.
  fix IH 1. intros S.
  destruct S as [Body|h|r b|e|e|t hs|ds|op l r|b c|i c n b|c t e|b|b|b|c b
                 |cls info callee args|e|e|isTemp args|cs];
    cbn [DiagnoseCilkSpawn storagesExpected];
    rewrite ?both_returns; cbn [traversed returns andb];
    try apply IH; try reflexivity.
  - destruct ds as [|d [|d' ds']]; try reflexivity.
    destruct (isVarDecl d); [|reflexivity].
    destruct (getInit d); [|reflexivity].
    now rewrite checkRHS_returns.
  - destruct op; reflexivity.
  - rewrite (IH t). f_equal. destruct e as [x|]; [apply IH | reflexivity].
  - destruct cls as [| |op| |]; try reflexivity.
    destruct (isCilkSpawnCall info); [reflexivity|].
    destruct op, args as [|a0 [|a1 rest]]; reflexivity.
Qed.

(** [static int a = _Cilk_spawn f();] draws the error on the variable,
    with its source range; [extern int a = _Cilk_spawn f();] reaches
    [llvm_unreachable]. *)
Lemma static_initializer_rejected :
  DiagnoseCilkSpawn (DeclStmt [VarDecl SC_Static 1 (0, 6) (Some spawn_f)])
  = Some (true, [Diag 1 err_cannot_init_static_variable <<< ArgSourceRange 0 6])
  /\ DiagnoseCilkSpawn (DeclStmt [VarDecl SC_Extern 1 (0, 6) (Some spawn_f)])
     = None
  /\ accepted (DeclStmt [VarDecl SC_Extern 1 (0, 6) (Some spawn_f)]) = false.
Proof. repeat split. Qed.

(** X10.  On a statement whose initialized variables have a storage
    class the function expects, [DiagnoseCilkSpawn] returns, and it
    leaves [HasError] false, so that the statement is handed on to
    [ActOnCilkSpawnStmt], exactly when it issued neither
    [err_spawn_not_whole_expr] nor [err_cannot_init_static_variable]:
    the errors [err_cannot_spawn_builtin] and
    [err_cannot_spawn_function] are reported without setting it. *)
Theorem accepted_iff_no_flag :
  forall S : Stmt,
    storagesExpected S = true ->
    exists (HasError : bool) (diags : list Diagnostic),
      DiagnoseCilkSpawn S = Some (HasError, diags)
      /\ accepted S = negb (existsb isSpawnFlag diags)
      /\ HasError = existsb isSpawnFlag diags.
Proof.
  intros S Hst. unfold accepted.
  pose proof (DiagnoseCilkSpawn_flagged S) as H. cbv beta in H.
  pose proof (DiagnoseCilkSpawn_returns S) as Hr. rewrite Hst in Hr.
  destruct (DiagnoseCilkSpawn S) as [[e d]|]; [|discriminate].
  exists e, d. split; [reflexivity|]. split; [|exact H].
  rewrite <- H. now destruct e.
Qed.

Lemma accepted_iff_no_flag_witness :
  exists (HasError : bool) (diags : list Diagnostic),
    DiagnoseCilkSpawn spawn_in_sum = Some (HasError, diags)
    /\ accepted spawn_in_sum = negb (existsb isSpawnFlag diags)
    /\ HasError = existsb isSpawnFlag diags.
Proof. apply (accepted_iff_no_flag spawn_in_sum). reflexivity. Defined.

(** X11.  A spawned call that is the entire right-hand side of a simple
    assignment, of an overloaded assignment, or the entire initializer
    of the only variable of a declaration that is not static, is
    accepted also under implicit casts, cleanups, temporaries and
    non-temporary constructor calls, provided the left-hand side and the
    arguments of the call hold no spawn: [HasError] stays false, and the
    only diagnostics are those on the callee (a builtin, a user-defined
    literal or a CUDA kernel call). *)
Theorem entire_rhs_spawn_accepted :
  forall (lhs rhs callee : Stmt) (cls : CallClass) (E OC : CallInfo)
         (args more : list Stmt) (op_callee : Stmt)
         (sc : StorageClass) (loc : SourceLocation)
         (range : SourceLocation * SourceLocation),
    stripRHS rhs = CallExpr cls E callee args ->
    isCilkSpawnCall E = true ->
    flat_map TraverseStmt args = [] ->
    TraverseStmt lhs = [] ->
    isCilkSpawnCall OC = false ->
    sc = SC_None \/ sc = SC_Auto \/ sc = SC_Register ->
    DiagnoseCilkSpawn (BinaryOperator BO_Assign lhs rhs)
    = Some (false, calleeDiags cls E)
    /\ DiagnoseCilkSpawn
         (CallExpr (CXXOperatorCallExprClass OO_Equal) OC op_callee
                   (lhs :: rhs :: more))
       = Some (false, calleeDiags cls E)
    /\ DiagnoseCilkSpawn (DeclStmt [VarDecl sc loc range (Some rhs)])
       = Some (false, calleeDiags cls E).
Proof.
  intros lhs rhs callee cls E OC args more op_callee sc loc range
         Hstrip Hspawn Hargs Hlhs HOC Hsc.
  assert (Hrhs : forall LHS,
             checkStorageClass LHS = Some (false, []) ->
             checkRHS LHS rhs = Some (false, calleeDiags cls E)).
  { intros LHS Hst. rewrite checkRHS_unfold, Hst. cbv zeta.
    rewrite Hstrip, Hspawn, Hargs, app_nil_r.
    cbn [app]. now rewrite calleeDiags_quiet. }
  split; [|split].
  - cbn [DiagnoseCilkSpawn]. rewrite Hlhs, Hrhs by reflexivity.
    reflexivity.
  - cbn [DiagnoseCilkSpawn]. rewrite HOC, Hlhs, Hrhs by reflexivity.
    reflexivity.
  - cbn [DiagnoseCilkSpawn isVarDecl VarDecl fst snd getInit].
    apply Hrhs. destruct Hsc as [-> | [-> | ->]]; reflexivity.
Qed.

Lemma entire_rhs_spawn_accepted_witness :
  DiagnoseCilkSpawn spawn_converted = Some (false, []).
Proof.
  apply (entire_rhs_spawn_accepted (name 1)
           (ExprWithCleanups (ImplicitCastExpr (CXXBindTemporaryExpr spawn_f)))
           (name 0) CallExprClass (mkCall true 3 false 4 6)
           (mkCall false 0 false 0 0) [] [] (name 0) SC_None 0 (0, 0));
    try reflexivity.
  now left.
Defined.

End SpawnMoreFacts.

(** ** The captured statements of a spawn *)
Module SpawnBuildFacts.
Import AST Spawn SpawnSpec SpawnBuild.

Lemma issued_app :
  forall a b : list Diagnostic, issued (a ++ b) = issued a || issued b.
Proof. intros [|x a] b; reflexivity. Qed.

Lemma issued_flat_map :
  forall {X : Type} (f : X -> list Diagnostic) (l : list X),
    issued (flat_map f l) = existsb (fun x => issued (f x)) l.
Proof.
  intros X f l. induction l as [|x t IH]; cbn; [reflexivity|].
  now rewrite issued_app, IH.
Qed.

Lemma existsb_pointwise :
  forall {X : Type} (f g : X -> bool) (l : list X),
    Forall (fun x => f x = g x) l -> existsb f l = existsb g l.
Proof.
  intros X f g l H. induction H as [|x t Hx _ IH]; cbn; [reflexivity|].
  now rewrite Hx, IH.
Qed.

Ltac by_cases_on_spawns :=
  repeat match goal with
         | |- context [hasSpawn ?x] => destruct (hasSpawn x)
         | |- context [existsb ?f ?l] => destruct (existsb f l)
         | |- context [isCilkSpawnCall ?c] => destruct (isCilkSpawnCall c)
         end;
  reflexivity.

(** The two visitors find the same spawned calls. *)
Lemma hasSpawn_issued : forall s, hasSpawn s = issued (TraverseStmt s).
Proof.
  fix IH 1. intros s.
  destruct s as [Body|h|r b|e|e|t hs|ds|op l r|b c|i c n b|c t e|b|b|b|c b
                 |cls info callee args|e|e|isTemp args|cs];
    cbn [hasSpawn TraverseStmt].
  - reflexivity.
  - apply IH.
  - rewrite issued_app, <- (IH r), <- (IH b). reflexivity.
  - apply IH.
  - apply IH.
  - rewrite issued_app, issued_flat_map, <- (IH t). f_equal.
    apply existsb_pointwise.
    induction hs as [|x xs IHl]; constructor; [apply IH | exact IHl].
  - rewrite issued_flat_map. apply existsb_pointwise.
    induction ds as [|d ds' IHl]; constructor; [|exact IHl].
    destruct d as [[[[isVar sc] loc] range] [init|]]; cbn; [apply IH | reflexivity].
  - rewrite issued_app, <- (IH l), <- (IH r). reflexivity.
  - rewrite issued_app, <- (IH b), <- (IH c). reflexivity.
  - rewrite !issued_app, <- (IH b).
    destruct i as [i|], c as [c|], n as [n|];
      rewrite <- ?(IH i), <- ?(IH c), <- ?(IH n); cbn [issued];
      by_cases_on_spawns.
  - rewrite !issued_app, <- (IH c), <- (IH t).
    destruct e as [e|]; rewrite <- ?(IH e); cbn [issued]; by_cases_on_spawns.
  - apply IH.
  - apply IH.
  - apply IH.
  - rewrite issued_app, <- (IH c), <- (IH b). reflexivity.
  - rewrite !issued_app, issued_flat_map, <- (IH callee).
    assert (Hargs : existsb hasSpawn args
                    = existsb (fun x => issued (TraverseStmt x)) args).
    { apply existsb_pointwise.
      induction args as [|x xs IHl]; constructor; [apply IH | exact IHl]. }
    rewrite <- Hargs.
    assert (Hvisit : issued (VisitCallExpr info) = isCilkSpawnCall info).
    { unfold VisitCallExpr. now destruct (isCilkSpawnCall info). }
    rewrite Hvisit. by_cases_on_spawns.
  - apply IH.
  - apply IH.
  - rewrite issued_flat_map. apply existsb_pointwise.
    induction args as [|x xs IHl]; constructor; [apply IH | exact IHl].
  - rewrite issued_flat_map. apply existsb_pointwise.
    induction cs as [|x xs IHl]; constructor; [apply IH | exact IHl].
Qed.

Lemma tryCreate_captures :
  forall S, uncaptured (tryCreateCilkSpawnCapturedStmt S) = false.
Proof.
  intros S. unfold tryCreateCilkSpawnCapturedStmt.
  destruct (hasSpawn S) eqn:Hs; [reflexivity | exact Hs].
Qed.

Lemma traversed_clean :
  forall S, noError (traversed (TraverseStmt S)) = true -> hasSpawn S = false.
Proof.
  intros S H. rewrite hasSpawn_issued. cbn in H.
  now destruct (issued (TraverseStmt S)).
Qed.

Lemma both_clean :
  forall a b, noError (both a b) = true -> noError a = true /\ noError b = true.
Proof.
  intros [[[|] da]|] [[[|] db]|] H; cbn in H; try discriminate. now split.
Qed.

(** X12.  [BuildCilkSpawnStmt] only wraps: the statement it returns
    is the statement it was given with captured statements put around
    some of its sub-statements, so that taking the captured statements
    away gives the statement back. *)
Theorem BuildCilkSpawnStmt_wraps :
  forall S : Stmt, getSubStmts (BuildCilkSpawnStmt S) = S.
Proof.
  fix IH 1. intros S.
  destruct S as [Body|h|r b|e|e|t hs|ds|op l r|b c|i c n b|c t e|b|b|b|c b
                 |cls info callee args|e|e|isTemp args|cs];
    cbn [BuildCilkSpawnStmt getSubStmts]; try reflexivity;
    try (unfold tryCreateCilkSpawnCapturedStmt;
         match goal with
         | |- context [if ?x then _ else _] => destruct x
         end; reflexivity);
    try (now rewrite IH).
  - rewrite IH. destruct e as [x|]; [now rewrite IH | reflexivity].
  - destruct cls; try reflexivity;
      unfold tryCreateCilkSpawnCapturedStmt;
      destruct (hasSpawn _); reflexivity.
Qed.

(** X13.  Every spawned call of a statement that [DiagnoseCilkSpawn]
    accepts lies in a captured statement after [BuildCilkSpawnStmt]
    (or in a nested compound statement, which is checked on its own),
    when the handlers, try statements and bound temporaries the checker
    enters hold spawns only inside their compound statements. *)
Theorem accepted_spawns_captured :
  forall S : Stmt,
    blocksHoldSpawns S = true ->
    accepted S = true ->
    uncaptured (BuildCilkSpawnStmt S) = false.
Proof.
  unfold accepted. fix IH 1. intros S Hblocks Hacc.
  destruct S as [Body|h|r b|e|e|t hs|ds|op l r|b c|i c n b|c t e|b|b|b|c b
                 |cls info callee args|e|e|isTemp args|cs];
    cbn [BuildCilkSpawnStmt uncaptured];
    try apply tryCreate_captures;
    try (apply negb_true_iff in Hblocks; exact Hblocks);
    try (apply traversed_clean; exact Hacc);
    cbn [DiagnoseCilkSpawn] in Hacc; cbn [blocksHoldSpawns] in Hblocks.
  - apply both_clean in Hacc. destruct Hacc as [Hr Hb].
    rewrite (traversed_clean _ Hr). cbn [orb].
    apply IH; [exact Hblocks | exact Hb].
  - apply both_clean in Hacc. destruct Hacc as [Hc Hb].
    rewrite (traversed_clean _ Hc), orb_false_r.
    apply IH; [exact Hblocks | exact Hb].
  - apply both_clean in Hacc. destruct Hacc as [Hc Hb].
    assert (Hc0 : issued (flat_map TraverseStmt
                            (opt_list i ++ opt_list c ++ opt_list n)) = false).
    { cbn [traversed noError] in Hc.
      now destruct (issued (flat_map TraverseStmt
                              (opt_list i ++ opt_list c ++ opt_list n))). }
    clear Hc. rename Hc0 into Hc. rewrite issued_flat_map in Hc.
    assert (Hi : match i with Some x => hasSpawn x | None => false end = false).
    { destruct i as [i|]; [|reflexivity]. cbn in Hc.
      apply orb_false_iff in Hc. rewrite hasSpawn_issued. apply Hc. }
    assert (Hcn : match c with Some x => hasSpawn x | None => false end = false
                  /\ match n with Some x => hasSpawn x | None => false end = false).
    { rewrite !existsb_app in Hc. apply orb_false_iff in Hc.
      destruct Hc as [_ Hc]. apply orb_false_iff in Hc. destruct Hc as [Hc Hn].
      split.
      - destruct c as [c|]; [|reflexivity]. cbn in Hc.
        apply orb_false_iff in Hc. rewrite hasSpawn_issued. apply Hc.
      - destruct n as [n|]; [|reflexivity]. cbn in Hn.
        apply orb_false_iff in Hn. rewrite hasSpawn_issued. apply Hn. }
    destruct Hcn as [Hc' Hn']. rewrite Hi, Hc', Hn'. cbn [orb].
    apply IH; [exact Hblocks | exact Hb].
  - apply both_clean in Hacc. destruct Hacc as [Hct He].
    apply both_clean in Hct. destruct Hct as [Hc Ht].
    apply andb_true_iff in Hblocks. destruct Hblocks as [Hbt Hbe].
    rewrite (traversed_clean _ Hc). cbn [orb].
    rewrite (IH t Hbt Ht). cbn [orb].
    destruct e as [x|]; [|reflexivity].
    apply IH; [exact Hbe | exact He].
  - apply IH; [exact Hblocks | exact Hacc].
  - apply IH; [exact Hblocks | exact Hacc].
  - apply IH; [exact Hblocks | exact Hacc].
  - apply both_clean in Hacc. destruct Hacc as [Hc Hb].
    rewrite (traversed_clean _ Hc). cbn [orb].
    apply IH; [exact Hblocks | exact Hb].
  - destruct cls; try apply tryCreate_captures;
      apply traversed_clean; exact Hacc.
Qed.

Lemma accepted_spawns_captured_witness :
  uncaptured (BuildCilkSpawnStmt spawn_in_branch) = false.
Proof. apply (accepted_spawns_captured spawn_in_branch); reflexivity. Defined.

End SpawnBuildFacts.
